(** * Static analysis engine of the code visualizer (src/lib/analyzer.ts)

    A shallow embedding of the four extraction passes (routes, components,
    schema models, import graph) and of the orchestrator, together with the
    properties the specification states about them.

    Conventions of the model.
    - A JavaScript string is a list of code units; the model covers the code
      units below 256, so a string is a [list ascii].
    - The file system is a tree of directories and files (no symbolic
      links); every directory can be listed, a file may be unreadable.
    - Paths are POSIX paths ([path.sep] is a slash); the functions of
      Node's [path] module are modelled segment by segment.
    - [String.prototype.localeCompare] and [JSON.parse] belong to the
      runtime: they are parameters of the development.
    - A thrown exception is the [Throw] result. *)

From Stdlib Require Import Ascii String List Bool Arith PeanoNat Lia.
From Stdlib Require Import Permutation Sorted.
Import ListNotations.

Set Implicit Arguments.

(** ** JavaScript strings *)

Definition jsstring := list ascii.

Definition str (s : string) : jsstring := list_ascii_of_string s.

Arguments str : simpl never.

Module Js.

Definition code (c : ascii) : nat := nat_of_ascii c.

Fixpoint streq (a b : jsstring) : bool :=
  match a, b with
  | [], [] => true
  | x :: a', y :: b' => Ascii.eqb x y && streq a' b'
  | _, _ => false
  end.

(** [WhiteSpace] and [LineTerminator] of ECMAScript, below U+0100: the
    class [\s] of regular expressions and the characters [trim] strips. *)
Definition isSpace (c : ascii) : bool :=
  let n := code c in
  (9 <=? n) && (n <=? 13) || (n =? 32) || (n =? 160).

Definition isLineTerminator (c : ascii) : bool :=
  let n := code c in (n =? 10) || (n =? 13).

Definition isUpper (c : ascii) : bool :=
  let n := code c in (65 <=? n) && (n <=? 90).

Definition isLower (c : ascii) : bool :=
  let n := code c in (97 <=? n) && (n <=? 122).

Definition isDigit (c : ascii) : bool :=
  let n := code c in (48 <=? n) && (n <=? 57).

(** The class [\w]. *)
Definition isWord (c : ascii) : bool :=
  isUpper c || isLower c || isDigit c || Ascii.eqb c "_".

Definition isChar (c : ascii) : ascii -> bool := Ascii.eqb c.
Definition notChar (c : ascii) : ascii -> bool := fun x => negb (Ascii.eqb c x).

(** The double and the single quote. *)
Definition dquote : ascii := ascii_of_nat 34.
Definition squote : ascii := ascii_of_nat 39.
Definition isQuote (c : ascii) : bool := Ascii.eqb c dquote || Ascii.eqb c squote.

(** [s.startsWith(p)] *)
Fixpoint startsWith (p s : jsstring) : bool :=
  match p, s with
  | [], _ => true
  | x :: p', y :: s' => Ascii.eqb x y && startsWith p' s'
  | _ :: _, [] => false
  end.

(** [s.endsWith(p)] *)
Definition endsWith (p s : jsstring) : bool := startsWith (rev p) (rev s).

(** [s.includes(p)] *)
Fixpoint includes (p s : jsstring) : bool :=
  startsWith p s || match s with [] => false | _ :: s' => includes p s' end.

(** [s.slice(0, -n)] *)
Definition dropEnd (n : nat) (s : jsstring) : jsstring :=
  firstn (length s - n) s.

(** [s.toLowerCase()] on the code units below 256. *)
Definition lowerChar (c : ascii) : ascii :=
  let n := code c in
  if isUpper c || ((192 <=? n) && (n <=? 222) && negb (n =? 215))
  then ascii_of_nat (n + 32) else c.

Definition toLowerCase (s : jsstring) : jsstring := map lowerChar s.

(** [s.trim()] *)
Fixpoint trimStart (s : jsstring) : jsstring :=
  match s with
  | c :: s' => if isSpace c then trimStart s' else s
  | [] => []
  end.

Definition trim (s : jsstring) : jsstring := rev (trimStart (rev (trimStart s))).

(** [s.split(sep)] for a separator of one character: the pieces between
    the occurrences of [sep], of which there is one more than there are
    occurrences. *)
Fixpoint split (sep : ascii) (s : jsstring) : list jsstring :=
  match s with
  | [] => [[]]
  | c :: s' =>
      if Ascii.eqb c sep then [] :: split sep s'
      else match split sep s' with
           | p :: ps => (c :: p) :: ps
           | [] => [[c]]
           end
  end.

(** [parts.join(sep)] *)
Fixpoint join (sep : jsstring) (parts : list jsstring) : jsstring :=
  match parts with
  | [] => []
  | [p] => p
  | p :: ps => p ++ sep ++ join sep ps
  end.

(** [s.split(/\s+/)]: every maximal run of white space is one separator. *)
Fixpoint splitSpaces (s : jsstring) : list jsstring :=
  match s with
  | [] => [[]]
  | c :: s' =>
      if isSpace c then
        match s' with
        | c' :: _ => if isSpace c' then splitSpaces s' else [] :: splitSpaces s'
        | [] => [[]; []]
        end
      else match splitSpaces s' with
           | p :: ps => (c :: p) :: ps
           | [] => [[c]]
           end
  end.

(** [arr.includes(x)] on an array of strings. *)
Definition arrIncludes (x : jsstring) (arr : list jsstring) : bool :=
  existsb (streq x) arr.

(** The order of strings by code units: [<] on strings, the default order
    of [Array.prototype.sort]. *)
Fixpoint ltCodeUnits (a b : jsstring) : bool :=
  match a, b with
  | _, [] => false
  | [], _ :: _ => true
  | x :: a', y :: b' =>
      if code x <? code y then true
      else if code y <? code x then false
      else ltCodeUnits a' b'
  end.

(** The comparison of strings by code units, a consistent order to run
    the analyzer with. *)
Definition compareCodeUnits (a b : jsstring) : comparison :=
  if ltCodeUnits a b then Lt else if ltCodeUnits b a then Gt else Eq.

End Js.

(** ** Regular expressions

    The regular expressions of the analyzer, matched the way the runtime
    matches them: by backtracking, the alternatives tried from left to
    right and the repetitions greedy. *)

Module Regex.

Inductive regex : Type :=
| Eps : regex
| Chr (p : ascii -> bool)
| Seq (r1 r2 : regex)
| Alt (r1 r2 : regex)
| Star (r : regex)
| Bol : regex
| Eol : regex
| Group (i : nat) (r : regex).

(** A position in the subject: the character before it, when there is
    one, and the characters from it on. *)
Record cursor : Type := Cursor { before : option ascii; after : jsstring }.

Definition captures := list (nat * jsstring).

Fixpoint capture (i : nat) (caps : captures) : jsstring :=
  match caps with
  | [] => []
  | (j, s) :: caps' => if i =? j then s else capture i caps'
  end.

(** [^] and [$], with and without the flag [m]. *)
Definition atBol (multiline : bool) (c : cursor) : bool :=
  match before c with
  | None => true
  | Some a => multiline && Js.isLineTerminator a
  end.

Definition atEol (multiline : bool) (c : cursor) : bool :=
  match after c with
  | [] => true
  | a :: _ => multiline && Js.isLineTerminator a
  end.

(** The characters between two positions of one subject. *)
Definition consumed (c c' : cursor) : jsstring :=
  firstn (length (after c) - length (after c')) (after c).

Section Run.
Variable multiline : bool.
Variable R : Type.

Definition kont := cursor -> captures -> option R.

(** [run r c caps k]: match [r] at [c] and hand the position reached to
    the continuation [k]; when [k] fails, the next way of matching [r]
    is tried. An iteration of a star that consumes nothing is
    rejected, so a star iterates at most once per remaining
    character. *)
Fixpoint run (r : regex) (c : cursor) (caps : captures) (k : kont) {struct r} : option R :=
  match r with
  | Eps => k c caps
  | Chr p =>
      match after c with
      | a :: rest => if p a then k (Cursor (Some a) rest) caps else None
      | [] => None
      end
  | Seq r1 r2 => run r1 c caps (fun c' caps' => run r2 c' caps' k)
  | Alt r1 r2 =>
      match run r1 c caps k with
      | Some x => Some x
      | None => run r2 c caps k
      end
  | Star r1 =>
      (fix loop (fuel : nat) (c : cursor) (caps : captures) {struct fuel} : option R :=
         match fuel with
         | O => k c caps
         | S fuel' =>
             match run r1 c caps
                     (fun c' caps' =>
                        if length (after c') <? length (after c)
                        then loop fuel' c' caps' else None) with
             | Some x => Some x
             | None => k c caps
             end
         end) (length (after c)) c caps
  | Bol => if atBol multiline c then k c caps else None
  | Eol => if atEol multiline c then k c caps else None
  | Group i r1 =>
      run r1 c caps (fun c' caps' => k c' ((i, consumed c c') :: caps'))
  end.
End Run.

(** A match: the groups it captured and the position where it ends. *)
Record found : Type := Found { groups : captures; stop : cursor }.

Definition matchAt (multiline : bool) (r : regex) (c : cursor) : option found :=
  run multiline r c [] (fun c' caps => Some (Found caps c')).

(** The leftmost match at or after a position. *)
Fixpoint searchFrom (multiline : bool) (r : regex) (prev : option ascii) (s : jsstring)
  : option found :=
  match matchAt multiline r (Cursor prev s) with
  | Some f => Some f
  | None =>
      match s with
      | [] => None
      | a :: s' => searchFrom multiline r (Some a) s'
      end
  end.

(** [r.test(s)] for a regular expression without the flag [g]. *)
Definition test (multiline : bool) (r : regex) (s : jsstring) : bool :=
  match searchFrom multiline r None s with
  | Some _ => true
  | None => false
  end.

(** The loop [while ((match = r.exec(s)) !== null)] of a regular
    expression with the flag [g]: the successive matches, each search
    starting where the previous match ended. The expressions of the
    analyzer match no empty string, so every round consumes a character
    and [fuel] rounds, one per character and one more, are enough. *)
Fixpoint execLoop (fuel : nat) (multiline : bool) (r : regex)
    (prev : option ascii) (s : jsstring) : list captures :=
  match fuel with
  | O => []
  | S fuel' =>
      match searchFrom multiline r prev s with
      | None => []
      | Some f =>
          groups f :: execLoop fuel' multiline r (before (stop f)) (after (stop f))
      end
  end.

Definition execAll (multiline : bool) (r : regex) (s : jsstring) : list captures :=
  execLoop (S (length s)) multiline r None s.

(** [s.replace(r, repl)] for a regular expression without the flag [g]:
    the leftmost match is replaced. *)
Fixpoint replaceFirst (multiline : bool) (r : regex) (repl : jsstring)
    (prev : option ascii) (s : jsstring) : jsstring :=
  match matchAt multiline r (Cursor prev s) with
  | Some f => repl ++ after (stop f)
  | None =>
      match s with
      | [] => []
      | a :: s' => a :: replaceFirst multiline r repl (Some a) s'
      end
  end.

(** [s.replace(r, repl)] with the flag [g]: every match is replaced, the
    search going on where the match ended, one character further after an
    empty match. *)
Fixpoint replaceLoop (fuel : nat) (multiline : bool) (r : regex) (repl : jsstring)
    (prev : option ascii) (s : jsstring) : jsstring :=
  match fuel with
  | O => s
  | S fuel' =>
      let step :=
        match s with
        | [] => []
        | a :: s' => a :: replaceLoop fuel' multiline r repl (Some a) s'
        end in
      match matchAt multiline r (Cursor prev s) with
      | Some f =>
          if length (after (stop f)) <? length s
          then repl ++ replaceLoop fuel' multiline r repl (before (stop f)) (after (stop f))
          else repl ++ step
      | None => step
      end
  end.

Definition replaceAll (multiline : bool) (r : regex) (repl s : jsstring) : jsstring :=
  replaceLoop (S (length s)) multiline r repl None s.

(** Derived forms. *)
Definition plus (r : regex) : regex := Seq r (Star r).
Definition opt (r : regex) : regex := Alt r Eps.

Fixpoint lit (s : jsstring) : regex :=
  match s with
  | [] => Eps
  | c :: s' => Seq (Chr (Js.isChar c)) (lit s')
  end.

Fixpoint seq (rs : list regex) : regex :=
  match rs with
  | [] => Eps
  | [r] => r
  | r :: rs' => Seq r (seq rs')
  end.

Definition space : regex := Chr Js.isSpace.
Definition word : regex := Chr Js.isWord.

End Regex.

Import Regex.

(** ** Node's [path] module (POSIX) *)

Module Path.

Definition isSlash (c : ascii) : bool := Ascii.eqb c "/".

Definition segments (p : jsstring) : list jsstring := Js.split "/" p.

Definition isAbsolute (p : jsstring) : bool :=
  match p with
  | c :: _ => isSlash c
  | [] => false
  end.

Definition hasTrailingSlash (p : jsstring) : bool :=
  match rev p with
  | c :: _ => isSlash c
  | [] => false
  end.

(** [normalizeString], read segment by segment: empty segments and [.]
    are dropped, [..] removes the segment before it; above the start it
    is kept when [allowAboveRoot] and dropped otherwise. [acc] holds the
    segments kept so far, the last one first. *)
Fixpoint normalizeSegs (allowAboveRoot : bool) (acc segs : list jsstring) : list jsstring :=
  match segs with
  | [] => rev acc
  | s :: rest =>
      if Js.streq s [] || Js.streq s (str ".") then normalizeSegs allowAboveRoot acc rest
      else if Js.streq s (str "..") then
        match acc with
        | last :: acc' =>
            if Js.streq last (str "..")
            then normalizeSegs allowAboveRoot
                   (if allowAboveRoot then s :: acc else acc) rest
            else normalizeSegs allowAboveRoot acc' rest
        | [] => normalizeSegs allowAboveRoot
                  (if allowAboveRoot then [s] else []) rest
        end
      else normalizeSegs allowAboveRoot (s :: acc) rest
  end.

Definition normalizeString (p : jsstring) (allowAboveRoot : bool) : jsstring :=
  Js.join (str "/") (normalizeSegs allowAboveRoot [] (segments p)).

(** [path.normalize(p)] *)
Definition normalize (p : jsstring) : jsstring :=
  match p with
  | [] => str "."
  | _ =>
      let n := normalizeString p (negb (isAbsolute p)) in
      match n with
      | [] => if isAbsolute p then str "/"
              else if hasTrailingSlash p then str "./" else str "."
      | _ => (if isAbsolute p then str "/" else []) ++ n
             ++ (if hasTrailingSlash p then str "/" else [])
      end
  end.

Definition nonEmpty (p : jsstring) : bool :=
  match p with [] => false | _ => true end.

(** [path.join(...parts)] *)
Definition join (parts : list jsstring) : jsstring :=
  match filter nonEmpty parts with
  | [] => str "."
  | ps => normalize (Js.join (str "/") ps)
  end.

(** [path.resolve(...parts)] in the working directory [cwd], an absolute
    path: the arguments are taken from the right until one is absolute.
    The result has the segments [resolveSegs]. *)
Fixpoint resolveArgs (cwd : jsstring) (rparts : list jsstring) (acc : jsstring) : jsstring :=
  match rparts with
  | [] => cwd ++ str "/" ++ acc
  | p :: rest =>
      match p with
      | [] => resolveArgs cwd rest acc
      | _ => if isAbsolute p then p ++ str "/" ++ acc
             else resolveArgs cwd rest (p ++ str "/" ++ acc)
      end
  end.

Definition resolveSegs (cwd : jsstring) (parts : list jsstring) : list jsstring :=
  normalizeSegs false [] (segments (resolveArgs cwd (rev parts) [])).

Definition resolve (cwd : jsstring) (parts : list jsstring) : jsstring :=
  str "/" ++ Js.join (str "/") (resolveSegs cwd parts).

(** [path.relative(from, to)]: both are resolved, their common leading
    segments dropped, and every segment left of [from] is a step up. *)
Fixpoint dropCommon (a b : list jsstring) : list jsstring * list jsstring :=
  match a, b with
  | x :: a', y :: b' => if Js.streq x y then dropCommon a' b' else (a, b)
  | _, _ => (a, b)
  end.

Definition relative (cwd from to : jsstring) : jsstring :=
  if Js.streq from to then []
  else
    let (up, down) := dropCommon (resolveSegs cwd [from]) (resolveSegs cwd [to]) in
    Js.join (str "/") (repeat (str "..") (length up) ++ down).

(** Dropping the characters at the front that satisfy [p]. *)
Fixpoint dropWhile (p : ascii -> bool) (s : jsstring) : jsstring :=
  match s with
  | c :: s' => if p c then dropWhile p s' else s
  | [] => []
  end.

Fixpoint takeWhile (p : ascii -> bool) (s : jsstring) : jsstring :=
  match s with
  | c :: s' => if p c then c :: takeWhile p s' else []
  | [] => []
  end.

Definition notSlash (c : ascii) : bool := negb (isSlash c).

(** [path.dirname(p)]: the scan runs from the end down to index 1, over
    the trailing slashes, then over the last segment, to the slash
    before it. *)
Definition dirname (p : jsstring) : jsstring :=
  match p with
  | [] => str "."
  | _ :: p1 =>
      let r := dropWhile notSlash (dropWhile isSlash (rev p1)) in
      match r with
      | [] => if isAbsolute p then str "/" else str "."
      | _ => if isAbsolute p && (length r =? 1) then str "//"
             else firstn (length r) p
      end
  end.

(** The last segment, trailing slashes ignored: [path.basename(p)]. *)
Definition lastSegment (p : jsstring) : jsstring :=
  rev (takeWhile notSlash (dropWhile isSlash (rev p))).

(** [path.basename(p, suffix)]; the analyzer always passes
    [path.extname(p)] as the suffix, which ends the last segment or is
    empty. *)
Definition basename (p suffix : jsstring) : jsstring :=
  let base := lastSegment p in
  match suffix with
  | [] => base
  | _ =>
      if length p <? length suffix then base
      else if Js.streq suffix p then []
      else if Js.endsWith suffix base && negb (Js.streq suffix base)
           then Js.dropEnd (length suffix) base
           else base
  end.

(** [path.extname(p)]: from the last dot of the last segment, unless
    there is no dot, the dot starts the segment, or the segment is [..]. *)
Definition extname (p : jsstring) : jsstring :=
  let base := lastSegment p in
  let r := rev base in
  let ext := takeWhile (Js.notChar ".") r in
  match dropWhile (Js.notChar ".") r with
  | [] => []
  | _ :: [] => []
  | dot :: _ :: _ => if Js.streq base (str "..") then [] else rev (ext ++ [dot])
  end.

End Path.

(** ** Exceptions *)

Inductive result (A : Type) : Type :=
| Ok (a : A)
| Throw.

Arguments Throw {A}.

Definition bind {A B : Type} (r : result A) (f : A -> result B) : result B :=
  match r with
  | Ok a => f a
  | Throw => Throw
  end.

Notation "x <- r ;; k" := (bind r (fun x => k))
  (at level 61, r at next level, right associativity).

(** [try { body } catch { handler }] *)
Definition tryCatch {A : Type} (body : result A) (handler : A) : A :=
  match body with
  | Ok a => a
  | Throw => handler
  end.

(** ** The file system *)

Module Fs.

#[warnings="-register-all"] Inductive node : Type :=
| File (content : option jsstring)
| Dir (entries : list (jsstring * node)).

(** The tree below the root directory and the working directory of the
    process. A file whose content is [None] cannot be read. Every
    directory of the tree can be listed and gone through: a directory
    that the process may not read is not in the model. *)
Record filesystem : Type := Filesystem { root : list (jsstring * node); cwd : jsstring }.

Definition isDirectory (n : node) : bool :=
  match n with Dir _ => true | File _ => false end.

Definition isFile (n : node) : bool :=
  match n with File _ => true | Dir _ => false end.

Fixpoint child (name : jsstring) (entries : list (jsstring * node)) : option node :=
  match entries with
  | [] => None
  | (n, c) :: rest => if Js.streq name n then Some c else child name rest
  end.

(** Path resolution: [up] holds the directories from the current one up
    to the root. No segment can follow a file. *)
Fixpoint walk (up : list node) (cur : node) (segs : list jsstring) : option node :=
  match segs with
  | [] => Some cur
  | s :: rest =>
      match cur with
      | File _ => None
      | Dir entries =>
          if Js.streq s [] || Js.streq s (str ".") then walk up cur rest
          else if Js.streq s (str "..") then
            match up with
            | parent :: up' => walk up' parent rest
            | [] => walk [] cur rest
            end
          else
            match child s entries with
            | Some c => walk (cur :: up) c rest
            | None => None
            end
      end
  end.

Definition lookup (fs : filesystem) (p : jsstring) : option node :=
  match p with
  | [] => None
  | _ =>
      let full := if Path.isAbsolute p then p else cwd fs ++ str "/" ++ p in
      walk [] (Dir (root fs)) (Path.segments full)
  end.

(** [fs.existsSync(p)] *)
Definition existsSync (fs : filesystem) (p : jsstring) : bool :=
  match lookup fs p with Some _ => true | None => false end.

(** [fs.statSync(p).isFile()] *)
Definition statIsFile (fs : filesystem) (p : jsstring) : result bool :=
  match lookup fs p with
  | Some n => Ok (isFile n)
  | None => Throw
  end.

(** [fs.readFileSync(p, "utf-8")] *)
Definition readFileSync (fs : filesystem) (p : jsstring) : result jsstring :=
  match lookup fs p with
  | Some (File (Some content)) => Ok content
  | _ => Throw
  end.

(** [fs.readdirSync(p, { withFileTypes: true })]: the entries, each with
    the node it names. The call throws where there is no directory; a
    directory that exists and cannot be listed, where the call throws
    too, is not in the model. *)
Definition readdirSync (fs : filesystem) (p : jsstring) : result (list (jsstring * node)) :=
  match lookup fs p with
  | Some (Dir entries) => Ok entries
  | _ => Throw
  end.

End Fs.

Import Fs.

(** ** [Map] and [Set]

    Both keep their keys in insertion order; setting a key that is present
    replaces its value in place. *)

Module JsMap.

Section Map.
Variable V : Type.

Definition t := list (jsstring * V).

Fixpoint get (k : jsstring) (m : t) : option V :=
  match m with
  | [] => None
  | (k', v) :: m' => if Js.streq k k' then Some v else get k m'
  end.

Definition has (k : jsstring) (m : t) : bool :=
  match get k m with Some _ => true | None => false end.

Fixpoint set (k : jsstring) (v : V) (m : t) : t :=
  match m with
  | [] => [(k, v)]
  | (k', v') :: m' => if Js.streq k k' then (k, v) :: m' else (k', v') :: set k v m'
  end.

(** [new Map(pairs)] *)
Definition ofList (pairs : list (jsstring * V)) : t :=
  fold_left (fun m kv => set (fst kv) (snd kv) m) pairs [].

(** [Array.from(m.values())] *)
Definition values (m : t) : list V := map snd m.

Definition keys (m : t) : list jsstring := map fst m.
End Map.

End JsMap.

Module JsSet.

Definition t := list jsstring.

Definition has (x : jsstring) (s : t) : bool := Js.arrIncludes x s.

Definition add (x : jsstring) (s : t) : t := if has x s then s else s ++ [x].

(** [new Set(xs)] *)
Definition ofList (xs : list jsstring) : t := fold_left (fun s x => add x s) xs [].

End JsSet.

(** ** [Array.prototype.sort]

    The sort is stable; for a comparator that is a consistent order the
    result is the one stable arrangement, which insertion from the right
    computes. *)

Section Sort.
Variable A : Type.
Variable cmp : A -> A -> comparison.

Fixpoint insertSorted (x : A) (l : list A) : list A :=
  match l with
  | [] => [x]
  | y :: l' =>
      match cmp x y with
      | Gt => y :: insertSorted x l'
      | _ => x :: l
      end
  end.

Definition sortBy (l : list A) : list A := fold_right insertSorted [] l.
End Sort.

(** ** The records of src/lib/types.ts *)

Inductive HttpMethod : Type := GET | POST | PUT | DELETE | PATCH.

Inductive AuthType : Type := public | protected | admin.

Inductive ComponentType : Type := client | server.

Inductive RelationType : Type := oneToOne | oneToMany | manyToMany.

Inductive NodeType : Type := component | lib | api | page | other.

Module RouteInfo.
Record t : Type := Make
  { path : jsstring; method : HttpMethod; feature : jsstring;
    auth : AuthType; file : jsstring }.
End RouteInfo.

Module RouteData.
Record t : Type := Make
  { routes : list RouteInfo.t; generatedAt : jsstring; projectPath : jsstring }.
End RouteData.

Module ComponentInfo.
Record t : Type := Make
  { name : jsstring; path : jsstring; directory : jsstring;
    type : ComponentType; dependencies : list jsstring; linesOfCode : nat }.
End ComponentInfo.

Module DirectoryInfo.
Record t : Type := Make
  { path : jsstring; label : jsstring; componentCount : nat }.
End DirectoryInfo.

Module ComponentData.
Record t : Type := Make
  { components : list ComponentInfo.t; directories : list DirectoryInfo.t;
    generatedAt : jsstring; projectPath : jsstring }.
End ComponentData.

Module FieldInfo.
Record t : Type := Make
  { name : jsstring; type : jsstring; isRelation : bool;
    isOptional : bool; isArray : bool }.
End FieldInfo.

Module ModelInfo.
Record t : Type := Make { name : jsstring; fields : list FieldInfo.t }.
End ModelInfo.

Module RelationshipInfo.
Record t : Type := Make
  { from : jsstring; to : jsstring; type : RelationType; fieldName : jsstring }.
End RelationshipInfo.

Module ModelData.
Record t : Type := Make
  { models : list ModelInfo.t; relationships : list RelationshipInfo.t;
    generatedAt : jsstring; projectPath : jsstring }.
End ModelData.

Module NodeInfo.
Record t : Type := Make
  { id : jsstring; label : jsstring; directory : jsstring; type : NodeType }.
End NodeInfo.

Module EdgeInfo.
Record t : Type := Make { source : jsstring; target : jsstring }.
End EdgeInfo.

Module ClusterInfo.
Record t : Type := Make
  { id : jsstring; label : jsstring; nodeIds : list jsstring }.
End ClusterInfo.

Module DependencyData.
Record t : Type := Make
  { nodes : list NodeInfo.t; edges : list EdgeInfo.t; clusters : list ClusterInfo.t;
    generatedAt : jsstring; projectPath : jsstring }.
End DependencyData.

Module AnalysisResult.
Record t : Type := Make
  { routes : option RouteData.t; components : option ComponentData.t;
    models : option ModelData.t; dependencies : option DependencyData.t;
    projectPath : jsstring; projectName : jsstring; generatedAt : jsstring }.
End AnalysisResult.

(** * The analyzer *)

Module Analyzer.

Section Runtime.

(** [a.localeCompare(b)], as the sign of its result. *)
Variable localeCompare : jsstring -> jsstring -> comparison.

(** The property [name] of [JSON.parse(text)] when the text parses and
    the property is truthy. *)
Variable packageName : jsstring -> option jsstring.

(** ** Route analyzer *)

Definition HTTP_METHODS : list HttpMethod := [GET; POST; PUT; DELETE; PATCH].

Definition methodName (m : HttpMethod) : jsstring :=
  match m with
  | GET => str "GET"
  | POST => str "POST"
  | PUT => str "PUT"
  | DELETE => str "DELETE"
  | PATCH => str "PATCH"
  end.

Definition isRouteFile (name : jsstring) : bool :=
  Js.streq name (str "route.ts") || Js.streq name (str "route.js").

(** The walk of [findApiRoutes] below a directory that exists. The
    second parameter of the source, [basePath], is passed along and
    never read. *)
Fixpoint findApiRoutesIn (dir : jsstring) (n : node) {struct n} : list jsstring :=
  match n with
  | File _ => []
  | Dir entries =>
      (fix each (es : list (jsstring * node)) : list jsstring :=
         match es with
         | [] => []
         | (name, c) :: es' =>
             let fullPath := Path.join [dir; name] in
             if isDirectory c then findApiRoutesIn fullPath c ++ each es'
             else if isRouteFile name then fullPath :: each es'
             else each es'
         end) entries
  end.

Definition findApiRoutes (fs : filesystem) (dir : jsstring) : result (list jsstring) :=
  if negb (existsSync fs dir) then Ok []
  else entries <- readdirSync fs dir ;; Ok (findApiRoutesIn dir (Dir entries)).

(** [export\s+(async\s+)?function\s+METHOD\s*\(] and
    [export\s+const\s+METHOD\s*=] *)
Definition methodPatterns (m : HttpMethod) : list regex :=
  [ seq [lit (str "export"); plus space;
         opt (Group 1 (seq [lit (str "async"); plus space]));
         lit (str "function"); plus space; lit (methodName m);
         Star space; Chr (Js.isChar "(")];
    seq [lit (str "export"); plus space; lit (str "const"); plus space;
         lit (methodName m); Star space; Chr (Js.isChar "=")] ].

Definition extractMethods (content : jsstring) : list HttpMethod :=
  filter (fun m => existsb (fun pattern => test true pattern content) (methodPatterns m))
    HTTP_METHODS.

Definition extractAuthType (content : jsstring) : AuthType :=
  let lowerContent := Js.toLowerCase content in
  if Js.includes (str "requireadmin") lowerContent
     || Js.includes (str "isadmin") lowerContent
     || Js.includes (str "role === 'admin'") lowerContent
     || Js.includes (str "role === " ++ [Js.dquote] ++ str "admin" ++ [Js.dquote]) lowerContent
  then admin
  else if Js.includes (str "getauthenticateduser") lowerContent
       || Js.includes (str "auth.protect") lowerContent
       || Js.includes (str "requireauth") lowerContent
       || Js.includes (str "getserversession") lowerContent
       || Js.includes (str "currentuser") lowerContent
       || Js.includes (str "unauthorized") lowerContent
  then protected
  else public.

(** [parts.indexOf(x)] *)
Fixpoint indexOf (x : jsstring) (parts : list jsstring) : option nat :=
  match parts with
  | [] => None
  | p :: ps => if Js.streq p x then Some 0 else option_map S (indexOf x ps)
  end.

(** [parts.slice(start, -1)] *)
Definition sliceToLast (start : nat) (parts : list jsstring) : list jsstring :=
  firstn (length parts - 1 - start) (skipn start parts).

Definition pathToApiRoute (fs : filesystem) (filePath projectPath : jsstring) : jsstring :=
  let relativePath := Path.relative (cwd fs) projectPath filePath in
  let parts := Js.split "/" relativePath in
  match indexOf (str "api") parts with
  | None => str "/" ++ Js.join (str "/") (sliceToLast 0 parts)
  | Some apiIndex => str "/" ++ Js.join (str "/") (sliceToLast apiIndex parts)
  end.

Definition extractFeature (routePath : jsstring) : jsstring :=
  let parts := filter Path.nonEmpty (Js.split "/" routePath) in
  match parts with
  | p0 :: p1 :: _ => if Js.streq p0 (str "api") then p1 else p0
  | [p0] => p0
  | [] => str "root"
  end.

Definition possibleApiDirs (projectPath : jsstring) : list jsstring :=
  [ Path.join [projectPath; str "app"; str "api"];
    Path.join [projectPath; str "src"; str "app"; str "api"];
    Path.join [projectPath; str "pages"; str "api"];
    Path.join [projectPath; str "src"; str "pages"; str "api"] ].

(** The body of the loop over the route files: the records one file
    contributes, none when the file cannot be read. *)
Definition routesOfFile (fs : filesystem) (projectPath routeFile : jsstring)
  : list RouteInfo.t :=
  tryCatch
    (content <- readFileSync fs routeFile ;;
     let methods := extractMethods content in
     let auth := extractAuthType content in
     let routePath := pathToApiRoute fs routeFile projectPath in
     let feature := extractFeature routePath in
     Ok (map (fun method =>
                RouteInfo.Make routePath method feature auth
                  (Path.relative (cwd fs) projectPath routeFile))
           methods))
    [].

Fixpoint collectRoutes (fs : filesystem) (projectPath : jsstring) (apiDirs : list jsstring)
  : result (list RouteInfo.t) :=
  match apiDirs with
  | [] => Ok []
  | apiDir :: rest =>
      routeFiles <- findApiRoutes fs apiDir ;;
      more <- collectRoutes fs projectPath rest ;;
      Ok (flat_map (routesOfFile fs projectPath) routeFiles ++ more)
  end.

Definition compareRoutes (a b : RouteInfo.t) : comparison :=
  match localeCompare (RouteInfo.path a) (RouteInfo.path b) with
  | Eq => localeCompare (methodName (RouteInfo.method a)) (methodName (RouteInfo.method b))
  | pathCompare => pathCompare
  end.

(** [now] is what [new Date().toISOString()] returns at the end. *)
Definition analyzeRoutes (fs : filesystem) (now projectPath : jsstring)
  : result RouteData.t :=
  routes <- collectRoutes fs projectPath (possibleApiDirs projectPath) ;;
  Ok (RouteData.Make (sortBy compareRoutes routes) now projectPath).

(** ** Component analyzer *)

Definition COMPONENT_EXTENSIONS : list jsstring := [str ".tsx"; str ".jsx"].

Definition IGNORED_DIRS : list jsstring :=
  [str "node_modules"; str ".next"; str ".git"; str "dist"; str "build";
   str "__tests__"; str "__mocks__"].

(** [/^[A-Z]/.test(s)] *)
Definition startsUpper (s : jsstring) : bool :=
  test false (Seq Bol (Chr Js.isUpper)) s.

Definition isComponentFile (filePath : jsstring) : bool :=
  let ext := Path.extname filePath in
  if negb (Js.arrIncludes ext COMPONENT_EXTENSIONS) then false
  else startsUpper (Path.basename filePath ext).

(** The walk of [findComponentFiles] below a directory that exists; the
    array [files] of the source only grows at its end. *)
Fixpoint findComponentFilesIn (dir : jsstring) (n : node) {struct n} : list jsstring :=
  match n with
  | File _ => []
  | Dir entries =>
      (fix each (es : list (jsstring * node)) : list jsstring :=
         match es with
         | [] => []
         | (name, c) :: es' =>
             if Js.arrIncludes name IGNORED_DIRS then each es'
             else
               let fullPath := Path.join [dir; name] in
               if isDirectory c then findComponentFilesIn fullPath c ++ each es'
               else if isComponentFile fullPath then fullPath :: each es'
               else each es'
         end) entries
  end.

Definition findComponentFiles (fs : filesystem) (dir : jsstring) : result (list jsstring) :=
  if negb (existsSync fs dir) then Ok []
  else entries <- readdirSync fs dir ;; Ok (findComponentFilesIn dir (Dir entries)).

(** [/^[\x22']use client[\x22'];?\s*$/m], the double quote written
    [\x22] here and below. *)
Definition useClientPattern : regex :=
  seq [Bol; Chr Js.isQuote; lit (str "use client"); Chr Js.isQuote;
       opt (Chr (Js.isChar ";")); Star space; Eol].

Definition extractComponentType (content : jsstring) : ComponentType :=
  if test true useClientPattern content then client else server.

Definition notQuote (c : ascii) : bool := negb (Js.isQuote c).
Definition wordOrStar (c : ascii) : bool := Js.isWord c || Ascii.eqb c "*".

(** The braces of a named import: [\{[^}]*\}] *)
Definition braces : regex :=
  seq [Chr (Js.isChar "{"); Star (Chr (Js.notChar "}")); Chr (Js.isChar "}")].

(** [/import\s+(?:(?:\{[^}]*\}|[\w*]+)\s+from\s+)?[\x22']([^\x22']+)[\x22']/g] *)
Definition componentImportPattern : regex :=
  seq [lit (str "import"); plus space;
       opt (seq [Alt braces (plus (Chr wordOrStar)); plus space; lit (str "from"); plus space]);
       Chr Js.isQuote; Group 1 (plus (Chr notQuote)); Chr Js.isQuote].

Definition isLocalImport (importPath : jsstring) : bool :=
  Js.startsWith (str ".") importPath || Js.startsWith (str "@/") importPath.

Definition extractDependencies (content : jsstring) : list jsstring :=
  let deps :=
    flat_map (fun m =>
                let importPath := capture 1 m in
                if isLocalImport importPath then
                  let parts := Js.split "/" importPath in
                  let lastPart := last parts [] in
                  if startsUpper lastPart then [lastPart] else []
                else [])
      (execAll false componentImportPattern content) in
  JsSet.ofList deps.

Definition countLines (content : jsstring) : nat :=
  length (Js.split "010" content).

Definition getDirectoryLabel (dirPath : jsstring) : jsstring :=
  match last (Js.split "/" dirPath) [] with
  | [] => dirPath
  | l => l
  end.

Definition possibleComponentDirs (projectPath : jsstring) : list jsstring :=
  [ Path.join [projectPath; str "components"];
    Path.join [projectPath; str "src"; str "components"];
    Path.join [projectPath; str "app"];
    Path.join [projectPath; str "src"; str "app"] ].

(** The body of the loop over the component files: the record of one
    file, none when the file cannot be read. *)
Definition componentOfFile (fs : filesystem) (projectPath filePath : jsstring)
  : option ComponentInfo.t :=
  tryCatch
    (content <- readFileSync fs filePath ;;
     let relativePath := Path.relative (cwd fs) projectPath filePath in
     let dirPath := Path.dirname relativePath in
     let name := Path.basename filePath (Path.extname filePath) in
     let type := extractComponentType content in
     let dependencies := extractDependencies content in
     let linesOfCode := countLines content in
     Ok (Some (ComponentInfo.Make name relativePath dirPath type dependencies linesOfCode)))
    None.

(** The state of the loops: the array [components] and [directoryMap]. *)
Definition componentState : Type := (list ComponentInfo.t * JsMap.t nat)%type.

Definition addComponentFile (fs : filesystem) (projectPath : jsstring)
    (st : componentState) (filePath : jsstring) : componentState :=
  match componentOfFile fs projectPath filePath with
  | Some c =>
      let dirPath := ComponentInfo.directory c in
      let count := match JsMap.get dirPath (snd st) with Some n => n | None => 0 end in
      (fst st ++ [c], JsMap.set dirPath (count + 1) (snd st))
  | None => st
  end.

Fixpoint collectComponents (fs : filesystem) (projectPath : jsstring)
    (componentDirs : list jsstring) (st : componentState) : result componentState :=
  match componentDirs with
  | [] => Ok st
  | componentDir :: rest =>
      componentFiles <- findComponentFiles fs componentDir ;;
      collectComponents fs projectPath rest
        (fold_left (addComponentFile fs projectPath) componentFiles st)
  end.

(** [(a, b) => b.componentCount - a.componentCount] *)
Definition compareDirectories (a b : DirectoryInfo.t) : comparison :=
  Nat.compare (DirectoryInfo.componentCount b) (DirectoryInfo.componentCount a).

Definition compareComponents (a b : ComponentInfo.t) : comparison :=
  match localeCompare (ComponentInfo.directory a) (ComponentInfo.directory b) with
  | Eq => localeCompare (ComponentInfo.name a) (ComponentInfo.name b)
  | dirCompare => dirCompare
  end.

Definition analyzeComponents (fs : filesystem) (now projectPath : jsstring)
  : result ComponentData.t :=
  st <- collectComponents fs projectPath (possibleComponentDirs projectPath) ([], []) ;;
  let directories :=
    sortBy compareDirectories
      (map (fun e => DirectoryInfo.Make (fst e) (getDirectoryLabel (fst e)) (snd e))
         (snd st)) in
  Ok (ComponentData.Make (sortBy compareComponents (fst st)) directories now projectPath).

(** ** Model analyzer *)

Definition PRISMA_SCHEMA_PATHS : list jsstring :=
  [str "prisma/schema.prisma"; str "schema.prisma"; str "prisma/schema/schema.prisma"].

Definition findPrismaSchema (fs : filesystem) (projectPath : jsstring) : option jsstring :=
  find (existsSync fs) (map (fun schemaPath => Path.join [projectPath; schemaPath])
                          PRISMA_SCHEMA_PATHS).

Definition parseField (line : jsstring) (modelNames : list jsstring) : option FieldInfo.t :=
  let trimmed := Js.trim line in
  if negb (Path.nonEmpty trimmed) || Js.startsWith (str "//") trimmed
     || Js.startsWith (str "@@") trimmed
  then None
  else
    match Js.splitSpaces trimmed with
    | name :: type :: _ =>
        if Js.startsWith (str "@") name then None
        else
          let isArray := Js.endsWith (str "[]") type in
          let type := if isArray then Js.dropEnd 2 type else type in
          let isOptional := Js.endsWith (str "?") type in
          let type := if isOptional then Js.dropEnd 1 type else type in
          let isRelation := Js.arrIncludes type modelNames in
          Some (FieldInfo.Make name type isRelation isOptional isArray)
    | _ => None
    end.

(** [/^model\s+(\w+)\s*\{/gm] *)
Definition modelNameRegex : regex :=
  seq [Bol; lit (str "model"); plus space; Group 1 (plus word); Star space;
       Chr (Js.isChar "{")].

(** [/^model\s+(\w+)\s*\{([^}]+)\}/gm] *)
Definition modelRegex : regex :=
  seq [Bol; lit (str "model"); plus space; Group 1 (plus word); Star space;
       Chr (Js.isChar "{"); Group 2 (plus (Chr (Js.notChar "}"))); Chr (Js.isChar "}")].

(** [arr.flatMap] over the results that are not [null]. *)
Fixpoint keep {A B : Type} (f : A -> option B) (l : list A) : list B :=
  match l with
  | [] => []
  | a :: l' => match f a with Some b => b :: keep f l' | None => keep f l' end
  end.

Definition parseModels (content : jsstring) : list ModelInfo.t * list jsstring :=
  let modelNames := map (capture 1) (execAll true modelNameRegex content) in
  let models :=
    map (fun m =>
           let modelName := capture 1 m in
           let modelBody := capture 2 m in
           let lines := Js.split "010" modelBody in
           ModelInfo.Make modelName (keep (fun line => parseField line modelNames) lines))
      (execAll true modelRegex content) in
  (models, modelNames).

(** [[a, b].sort().join("-")] *)
Definition pairKey (a b : jsstring) : jsstring :=
  if Js.ltCodeUnits b a then b ++ str "-" ++ a else a ++ str "-" ++ b.

Definition relationType (models : list ModelInfo.t) (model : ModelInfo.t) (field : FieldInfo.t)
  : RelationType :=
  if FieldInfo.isArray field then
    let otherModel := find (fun m => Js.streq (ModelInfo.name m) (FieldInfo.type field)) models in
    let reverseField :=
      match otherModel with
      | Some m => find (fun f => Js.streq (FieldInfo.type f) (ModelInfo.name model)
                                 && FieldInfo.isRelation f) (ModelInfo.fields m)
      | None => None
      end in
    match reverseField with
    | Some f => if FieldInfo.isArray f then manyToMany else oneToMany
    | None => oneToMany
    end
  else oneToOne.

(** The state of the loops: the array [relationships] and the set [seen]. *)
Definition relationState : Type := (list RelationshipInfo.t * JsSet.t)%type.

Definition addField (models : list ModelInfo.t) (model : ModelInfo.t)
    (st : relationState) (field : FieldInfo.t) : relationState :=
  if FieldInfo.isRelation field then
    let key := pairKey (ModelInfo.name model) (FieldInfo.type field) in
    if negb (JsSet.has key (snd st)) then
      (fst st ++ [RelationshipInfo.Make (ModelInfo.name model) (FieldInfo.type field)
                    (relationType models model field) (FieldInfo.name field)],
       JsSet.add key (snd st))
    else st
  else st.

Definition addModel (models : list ModelInfo.t) (st : relationState) (model : ModelInfo.t)
  : relationState :=
  fold_left (addField models model) (ModelInfo.fields model) st.

Definition extractRelationships (models : list ModelInfo.t) : list RelationshipInfo.t :=
  fst (fold_left (addModel models) models ([], [])).

Definition analyzeModels (fs : filesystem) (now projectPath : jsstring) : option ModelData.t :=
  match findPrismaSchema fs projectPath with
  | None => None
  | Some schemaPath =>
      tryCatch
        (content <- readFileSync fs schemaPath ;;
         let models := fst (parseModels content) in
         let relationships := extractRelationships models in
         Ok (Some (ModelData.Make models relationships now projectPath)))
        None
  end.

(** ** Dependency analyzer *)

Definition SOURCE_EXTENSIONS : list jsstring :=
  [str ".ts"; str ".tsx"; str ".js"; str ".jsx"].

Definition MAX_FILES : nat := 500.

(** The walk of [findSourceFiles] below a directory that exists; [files]
    is the array the source appends to. *)
Fixpoint findSourceFilesIn (dir : jsstring) (n : node) (files : list jsstring) (limit : nat)
    {struct n} : list jsstring :=
  match n with
  | File _ => files
  | Dir entries =>
      if limit <=? length files then files
      else
        (fix each (es : list (jsstring * node)) (files : list jsstring) : list jsstring :=
           match es with
           | [] => files
           | (name, c) :: es' =>
               if limit <=? length files then files
               else if Js.arrIncludes name IGNORED_DIRS then each es' files
               else
                 let fullPath := Path.join [dir; name] in
                 if isDirectory c then each es' (findSourceFilesIn fullPath c files limit)
                 else if Js.arrIncludes (Path.extname name) SOURCE_EXTENSIONS
                      then each es' (files ++ [fullPath])
                      else each es' files
           end) entries files
  end.

Definition findSourceFiles (fs : filesystem) (dir : jsstring) : result (list jsstring) :=
  if negb (existsSync fs dir) || (MAX_FILES <=? 0) then Ok []
  else entries <- readdirSync fs dir ;; Ok (findSourceFilesIn dir (Dir entries) [] MAX_FILES).

Definition getNodeType (filePath : jsstring) : NodeType :=
  let inDir (d : jsstring) :=
    Js.includes (str "/" ++ d ++ str "/") filePath
    || Js.includes (str "\" ++ d ++ str "\") filePath in
  if inDir (str "components") then component
  else if inDir (str "lib") || inDir (str "utils") then lib
  else if inDir (str "api") then api
  else if inDir (str "app") || inDir (str "pages") then page
  else other.

(** [/import\s+(?:(?:\{[^}]*\}|[\w*]+(?:\s*,\s*\{[^}]*\})?)\s+from\s+)?[\x22']([^\x22']+)[\x22']/g] *)
Definition importPattern : regex :=
  seq [lit (str "import"); plus space;
       opt (seq [Alt braces
                   (seq [plus (Chr wordOrStar);
                         opt (seq [Star space; Chr (Js.isChar ","); Star space; braces])]);
                 plus space; lit (str "from"); plus space]);
       Chr Js.isQuote; Group 1 (plus (Chr notQuote)); Chr Js.isQuote].

Definition extractImports (content : jsstring) : list jsstring :=
  filter isLocalImport (map (capture 1) (execAll false importPattern content)).

(** [fs.existsSync(p) && fs.statSync(p).isFile()] *)
Definition isFileAt (fs : filesystem) (p : jsstring) : bool :=
  match lookup fs p with
  | Some n => isFile n
  | None => false
  end.

Definition RESOLVE_SUFFIXES : list jsstring :=
  [ []; str ".ts"; str ".tsx"; str ".js"; str ".jsx";
    str "/index.ts"; str "/index.tsx"; str "/index.js"; str "/index.jsx" ].

Definition resolveImportPath (fs : filesystem) (importPath fromFile projectPath : jsstring)
  : option jsstring :=
  let resolved :=
    if Js.startsWith (str "@/") importPath
    then Path.join [projectPath; skipn 2 importPath]
    else Path.resolve (cwd fs) [Path.dirname fromFile; importPath] in
  find (isFileAt fs) (map (fun ext => resolved ++ ext) RESOLVE_SUFFIXES).

(** [arr.slice(-2)] *)
Definition lastTwo (parts : list jsstring) : list jsstring :=
  skipn (length parts - 2) parts.

Definition getClusterLabel (dirPath : jsstring) : jsstring :=
  let parts := filter Path.nonEmpty (Js.split "/" dirPath) in
  let meaningful :=
    lastTwo (filter (fun p => negb (Js.arrIncludes p [str "src"; str "app"])) parts) in
  match Js.join (str "/") meaningful with
  | [] => str "root"
  | l => l
  end.

Definition isSeparator (c : ascii) : bool := Ascii.eqb c "/" || Ascii.eqb c "\".

(** [s.replace(/[\/\\]/g, "_")] *)
Definition replaceSeparators (s : jsstring) : jsstring :=
  replaceAll false (Chr isSeparator) (str "_") s.

(** [s.replace(/\.[^.]+$/, "")] *)
Definition stripExtension (s : jsstring) : jsstring :=
  replaceFirst false (seq [Chr (Js.isChar "."); plus (Chr (Js.notChar ".")); Eol]) [] None s.

(** The id of the node of a file, from its path relative to the project. *)
Definition nodeIdOf (relativePath : jsstring) : jsstring :=
  stripExtension (replaceSeparators relativePath).

(** The state of the first loop: [nodes], [nodeMap] and [clusterMap]. *)
Record graphState : Type := GraphState
  { stNodes : list NodeInfo.t;
    stNodeMap : JsMap.t jsstring;
    stClusterMap : JsMap.t JsSet.t }.

Definition addSourceFile (fs : filesystem) (projectPath : jsstring)
    (st : graphState) (filePath : jsstring) : graphState :=
  let relativePath := Path.relative (cwd fs) projectPath filePath in
  let nodeId := nodeIdOf relativePath in
  let dirPath := Path.dirname relativePath in
  let label := Path.basename filePath (Path.extname filePath) in
  let type := getNodeType relativePath in
  let clusterKey := getClusterLabel dirPath in
  let clusterMap :=
    if negb (JsMap.has clusterKey (stClusterMap st))
    then JsMap.set clusterKey [] (stClusterMap st) else stClusterMap st in
  let members := match JsMap.get clusterKey clusterMap with Some s => s | None => [] end in
  GraphState (stNodes st ++ [NodeInfo.Make nodeId label dirPath type])
    (JsMap.set filePath nodeId (stNodeMap st))
    (JsMap.set clusterKey (JsSet.add nodeId members) clusterMap).

(** The edge of one import of the file with the id [sourceId], if any. *)
Definition edgeOfImport (fs : filesystem) (projectPath : jsstring) (nodeMap : JsMap.t jsstring)
    (filePath sourceId importPath : jsstring) : list EdgeInfo.t :=
  match resolveImportPath fs importPath filePath projectPath with
  | Some resolvedPath =>
      if Path.nonEmpty resolvedPath then
        match JsMap.get resolvedPath nodeMap with
        | Some targetId =>
            if Path.nonEmpty targetId && negb (Js.streq targetId sourceId)
            then [EdgeInfo.Make sourceId targetId] else []
        | None => []
        end
      else []
  | None => []
  end.

(** The body of the second loop: the edges one file contributes, none
    when the file cannot be read. *)
Definition edgesOfFile (fs : filesystem) (projectPath : jsstring) (nodeMap : JsMap.t jsstring)
    (filePath : jsstring) : list EdgeInfo.t :=
  tryCatch
    (content <- readFileSync fs filePath ;;
     let imports := extractImports content in
     match JsMap.get filePath nodeMap with
     | Some sourceId =>
         if Path.nonEmpty sourceId
         then Ok (flat_map (edgeOfImport fs projectPath nodeMap filePath sourceId) imports)
         else Ok []
     | None => Ok []
     end)
    [].

Definition edgeKey (e : EdgeInfo.t) : jsstring :=
  EdgeInfo.source e ++ str "->" ++ EdgeInfo.target e.

(** [Array.from(new Map(edges.map((e) => [key, e])).values())] *)
Definition uniqueEdges (edges : list EdgeInfo.t) : list EdgeInfo.t :=
  JsMap.values (JsMap.ofList (map (fun e => (edgeKey e, e)) edges)).

Definition compareClusters (a b : ClusterInfo.t) : comparison :=
  Nat.compare (length (ClusterInfo.nodeIds b)) (length (ClusterInfo.nodeIds a)).

Definition clustersOf (clusterMap : JsMap.t JsSet.t) : list ClusterInfo.t :=
  sortBy compareClusters
    (map (fun e => ClusterInfo.Make (replaceSeparators (fst e)) (fst e) (snd e))
       (filter (fun e => 1 <? length (snd e)) clusterMap)).

Definition analyzeDependencies (fs : filesystem) (now projectPath : jsstring)
  : result DependencyData.t :=
  sourceFiles <- findSourceFiles fs projectPath ;;
  let st := fold_left (addSourceFile fs projectPath) sourceFiles (GraphState [] [] []) in
  let edges := flat_map (edgesOfFile fs projectPath (stNodeMap st)) sourceFiles in
  Ok (DependencyData.Make (stNodes st) (uniqueEdges edges) (clustersOf (stClusterMap st))
        now projectPath).

(** ** Main analyzer *)

Definition nonEmptyList {A : Type} (l : list A) : bool :=
  match l with [] => false | _ => true end.

Definition projectNameOf (fs : filesystem) (projectPath : jsstring) : jsstring :=
  let projectName := Path.basename projectPath [] in
  let packageJsonPath := Path.join [projectPath; str "package.json"] in
  if existsSync fs packageJsonPath then
    tryCatch
      (text <- readFileSync fs packageJsonPath ;;
       Ok (match packageName text with Some name => name | None => projectName end))
      projectName
  else projectName.

(** [clock n] is what the call number [n] of [new Date().toISOString()]
    returns. The four passes contain no [await]: each runs to its end when
    it is called, in the order of the array given to [Promise.all], which
    rejects when one of them throws. *)
Definition analyzeCodebase (fs : filesystem) (clock : nat -> jsstring) (projectPath : jsstring)
  : result AnalysisResult.t :=
  let projectName := projectNameOf fs projectPath in
  routes <- analyzeRoutes fs (clock 0) projectPath ;;
  components <- analyzeComponents fs (clock 1) projectPath ;;
  let models := analyzeModels fs (clock 2) projectPath in
  let t := match models with Some _ => 3 | None => 2 end in
  dependencies <- analyzeDependencies fs (clock t) projectPath ;;
  Ok (AnalysisResult.Make
        (if nonEmptyList (RouteData.routes routes) then Some routes else None)
        (if nonEmptyList (ComponentData.components components) then Some components else None)
        models
        (if nonEmptyList (DependencyData.nodes dependencies) then Some dependencies else None)
        projectPath projectName (clock (S t))).

End Runtime.

End Analyzer.

(** * Vocabulary of the properties *)

(** A comparator is a consistent order when swapping its arguments
    reverses its sign and "not greater" is transitive; a sort is
    determined for such comparators, and [localeCompare], a collation
    order, is one. *)
Class Consistent {A : Type} (cmp : A -> A -> comparison) : Prop :=
  { cmp_swap : forall a b, cmp b a = CompOpp (cmp a b);
    cmp_trans : forall a b c, cmp a b <> Gt -> cmp b c <> Gt -> cmp a c <> Gt }.

Definition notGreater {A : Type} (cmp : A -> A -> comparison) (a b : A) : Prop :=
  cmp a b <> Gt.

(** Comparing by one key, then by another. *)
Definition thenBy {A K1 K2 : Type} (cmp1 : K1 -> K1 -> comparison)
    (cmp2 : K2 -> K2 -> comparison) (key1 : A -> K1) (key2 : A -> K2) (a b : A)
  : comparison :=
  match cmp1 (key1 a) (key1 b) with
  | Eq => cmp2 (key2 a) (key2 b)
  | c => c
  end.

(** What a match of a regular expression is, apart from the order in
    which the matcher tries the ways of matching: [matches m r c caps c'
    caps'] when [r] can match from the position [c] to the position [c'],
    turning the captures [caps] into [caps']. *)
Inductive matches (multiline : bool)
  : regex -> cursor -> captures -> cursor -> captures -> Prop :=
| MEps c caps : matches multiline Eps c caps c caps
| MChr p c caps a rest :
    after c = a :: rest -> p a = true ->
    matches multiline (Chr p) c caps (Cursor (Some a) rest) caps
| MSeq r1 r2 c caps c1 caps1 c2 caps2 :
    matches multiline r1 c caps c1 caps1 ->
    matches multiline r2 c1 caps1 c2 caps2 ->
    matches multiline (Seq r1 r2) c caps c2 caps2
| MAltL r1 r2 c caps c' caps' :
    matches multiline r1 c caps c' caps' -> matches multiline (Alt r1 r2) c caps c' caps'
| MAltR r1 r2 c caps c' caps' :
    matches multiline r2 c caps c' caps' -> matches multiline (Alt r1 r2) c caps c' caps'
| MStarStop r c caps : matches multiline (Star r) c caps c caps
| MStarStep r c caps c1 caps1 c2 caps2 :
    matches multiline r c caps c1 caps1 ->
    matches multiline (Star r) c1 caps1 c2 caps2 ->
    matches multiline (Star r) c caps c2 caps2
| MBol c caps : atBol multiline c = true -> matches multiline Bol c caps c caps
| MEol c caps : atEol multiline c = true -> matches multiline Eol c caps c caps
| MGroup i r c caps c' caps' :
    matches multiline r c caps c' caps' ->
    matches multiline (Group i r) c caps c' ((i, consumed c c') :: caps').

(** Every match of the expression consumes a character. *)
Definition progressive (multiline : bool) (r : regex) : Prop :=
  forall c caps c' caps',
    matches multiline r c caps c' caps' -> length (after c') < length (after c).

(** The expression has no group [i]. *)
Fixpoint noGroup (i : nat) (r : regex) : bool :=
  match r with
  | Eps | Chr _ | Bol | Eol => true
  | Seq r1 r2 | Alt r1 r2 => noGroup i r1 && noGroup i r2
  | Star r1 => noGroup i r1
  | Group j r1 => negb (i =? j) && noGroup i r1
  end.

(** A plain name: what a directory entry is called. It is not empty, has
    no slash and is neither [.] nor [..]. *)
Definition isPlain (n : jsstring) : bool :=
  Path.nonEmpty n && forallb Path.notSlash n
  && negb (Js.streq n (str ".")) && negb (Js.streq n (str "..")).

(** The absolute path of a list of names: the form of the paths that
    [path.resolve] returns. *)
Definition absolute (segs : list jsstring) : jsstring :=
  str "/" ++ Js.join (str "/") segs.

(** Segments that are empty or plain. *)
Definition loose (segs : list jsstring) : Prop :=
  forall s, In s segs -> s = [] \/ isPlain s = true.

(** The route files below a node, each as its list of names from the node. *)
Fixpoint routeNamesIn (n : node) : list (list jsstring) :=
  match n with
  | File _ => []
  | Dir entries =>
      (fix each (es : list (jsstring * node)) : list (list jsstring) :=
         match es with
         | [] => []
         | (name, c) :: es' =>
             if isDirectory c then map (cons name) (routeNamesIn c) ++ each es'
             else if Analyzer.isRouteFile name then [name] :: each es'
             else each es'
         end) entries
  end.

(** The names of the entries of a directory. *)
Definition names (entries : list (jsstring * node)) : list jsstring := map fst entries.

Fixpoint nodupb (l : list jsstring) : bool :=
  match l with
  | [] => true
  | x :: l' => negb (Js.arrIncludes x l') && nodupb l'
  end.

(** A well-formed tree: in every directory the names are plain and no
    two entries have the same name. *)
Fixpoint wellFormed (n : node) : bool :=
  match n with
  | File _ => true
  | Dir entries =>
      forallb isPlain (names entries) && nodupb (names entries)
      && (fix all (es : list (jsstring * node)) : bool :=
            match es with
            | [] => true
            | (_, c) :: es' => wellFormed c && all es'
            end) entries
  end.

(** The node at a list of names below a directory. *)
Fixpoint descend (entries : list (jsstring * node)) (segs : list jsstring) : option node :=
  match segs with
  | [] => Some (Dir entries)
  | s :: rest =>
      match child s entries with
      | Some (Dir entries') => descend entries' rest
      | Some (File content) => match rest with [] => Some (File content) | _ => None end
      | None => None
      end
  end.

(** Every entry of the map has the key of its value. *)
Definition keyed {A : Type} (key : A -> jsstring) (m : JsMap.t A) : Prop :=
  forall k v, In (k, v) m -> k = key v.

Module Spec.
Import Analyzer.

Section Order.
Variable localeCompare : jsstring -> jsstring -> comparison.

(** The order of the routes in the words of the specification: by path,
    ties broken by method. *)
Definition routeLe (a b : RouteInfo.t) : Prop :=
  localeCompare (RouteInfo.path a) (RouteInfo.path b) = Lt
  \/ (localeCompare (RouteInfo.path a) (RouteInfo.path b) = Eq
      /\ localeCompare (methodName (RouteInfo.method a)) (methodName (RouteInfo.method b)) <> Gt).

End Order.

(** The sub-results without their timestamps. *)
Definition eraseRoutes (d : RouteData.t) : RouteData.t :=
  RouteData.Make (RouteData.routes d) [] (RouteData.projectPath d).

Definition eraseComponents (d : ComponentData.t) : ComponentData.t :=
  ComponentData.Make (ComponentData.components d) (ComponentData.directories d) []
    (ComponentData.projectPath d).

Definition eraseModels (d : ModelData.t) : ModelData.t :=
  ModelData.Make (ModelData.models d) (ModelData.relationships d) []
    (ModelData.projectPath d).

Definition eraseDependencies (d : DependencyData.t) : DependencyData.t :=
  DependencyData.Make (DependencyData.nodes d) (DependencyData.edges d)
    (DependencyData.clusters d) [] (DependencyData.projectPath d).

Definition eraseTimestamps (r : AnalysisResult.t) : AnalysisResult.t :=
  AnalysisResult.Make
    (option_map eraseRoutes (AnalysisResult.routes r))
    (option_map eraseComponents (AnalysisResult.components r))
    (option_map eraseModels (AnalysisResult.models r))
    (option_map eraseDependencies (AnalysisResult.dependencies r))
    (AnalysisResult.projectPath r) (AnalysisResult.projectName r) [].

Definition mapResult {A B : Type} (f : A -> B) (r : result A) : result B :=
  match r with
  | Ok a => Ok (f a)
  | Throw => Throw
  end.

(** The number of components of a directory, and of directory summaries
    of a path. *)
Definition componentsIn (dir : jsstring) (cs : list ComponentInfo.t) : nat :=
  length (filter (fun c => Js.streq (ComponentInfo.directory c) dir) cs).

Definition summariesOf (dir : jsstring) (ds : list DirectoryInfo.t) : nat :=
  length (filter (fun d => Js.streq (DirectoryInfo.path d) dir) ds).

(** What the loops keep true: [directoryMap] holds, for every directory
    of a component pushed so far and for no other key, the number of
    these components. *)
Definition counted (st : componentState) : Prop :=
  NoDup (JsMap.keys (snd st))
  /\ forall k, JsMap.get k (snd st)
               = if componentsIn k (fst st) =? 0 then None
                 else Some (componentsIn k (fst st)).

(** The relation fields of a schema in the order the extraction visits
    them, each with its entity. *)
Definition relationFields (models : list ModelInfo.t) : list (ModelInfo.t * FieldInfo.t) :=
  flat_map (fun m => map (pair m) (filter FieldInfo.isRelation (ModelInfo.fields m))) models.

(** The record the extraction makes of a relation field. *)
Definition recordOf (models : list ModelInfo.t) (mf : ModelInfo.t * FieldInfo.t)
  : RelationshipInfo.t :=
  RelationshipInfo.Make (ModelInfo.name (fst mf)) (FieldInfo.type (snd mf))
    (relationType models (fst mf) (snd mf)) (FieldInfo.name (snd mf)).

Definition keyOf (mf : ModelInfo.t * FieldInfo.t) : jsstring :=
  pairKey (ModelInfo.name (fst mf)) (FieldInfo.type (snd mf)).

(** [x] and [y] are [a] and [b], in this order or the other. *)
Definition samePair (a b x y : jsstring) : bool :=
  Js.streq x a && Js.streq y b || Js.streq x b && Js.streq y a.

(** The first element of every key that is not in [seen]. *)
Fixpoint firstsBy {X : Type} (key : X -> jsstring) (seen : JsSet.t) (l : list X) : list X :=
  match l with
  | [] => []
  | x :: l' =>
      if JsSet.has (key x) seen then firstsBy key seen l'
      else x :: firstsBy key (seen ++ [key x]) l'
  end.

(** Names made of the characters of [\w]. *)
Definition wordName (s : jsstring) : Prop := Forall (fun c => Js.isWord c = true) s.

(** The route files of the API directories, in the order the loops of
    [analyzeRoutes] visit them. *)
Fixpoint routeFiles (fs : filesystem) (apiDirs : list jsstring) : result (list jsstring) :=
  match apiDirs with
  | [] => Ok []
  | apiDir :: rest =>
      files <- findApiRoutes fs apiDir ;;
      more <- routeFiles fs rest ;;
      Ok (files ++ more)
  end.

(** The API directories of a project, by their names below the project. *)
Definition apiPrefixes : list (list jsstring) :=
  [ [str "app"; str "api"]; [str "src"; str "app"; str "api"];
    [str "pages"; str "api"]; [str "src"; str "pages"; str "api"] ].

Fixpoint isPrefix (a b : list jsstring) : bool :=
  match a, b with
  | [], _ => true
  | x :: a', y :: b' => Js.streq x y && isPrefix a' b'
  | _ :: _, [] => false
  end.

(** No list is a prefix of a later one, nor a later one of it. *)
Fixpoint apart (l : list (list jsstring)) : bool :=
  match l with
  | [] => true
  | a :: l' => forallb (fun b => negb (isPrefix a b) && negb (isPrefix b a)) l' && apart l'
  end.

(** A path with its separators made underscores, and a path without its
    last extension: what the two replacements of the node id compute. *)
Definition flatten (s : jsstring) : jsstring :=
  map (fun c => if isSeparator c then "_"%char else c) s.

Fixpoint dropExtension (s : jsstring) : jsstring :=
  match s with
  | [] => []
  | c :: t =>
      if Js.isChar "." c && Path.nonEmpty t && forallb (Js.notChar ".") t then []
      else c :: dropExtension t
  end.

(** A list of plain names that ends in the name of a source file. *)
Definition sourceNames (ns : list jsstring) : Prop :=
  ns <> [] /\ forallb isPlain ns = true
  /\ In (Path.extname (last ns [])) SOURCE_EXTENSIONS.

(** The id of the node of a file of a project. *)
Definition idOf (fs : filesystem) (projectPath filePath : jsstring) : jsstring :=
  nodeIdOf (Path.relative (cwd fs) projectPath filePath).

(** The node the first loop of [analyzeDependencies] makes of a file. *)
Definition nodeOf (fs : filesystem) (projectPath filePath : jsstring) : NodeInfo.t :=
  let relativePath := Path.relative (cwd fs) projectPath filePath in
  NodeInfo.Make (nodeIdOf relativePath)
    (Path.basename filePath (Path.extname filePath))
    (Path.dirname relativePath) (getNodeType relativePath).

(** What the second loop of [analyzeDependencies] gets for the file
    [X]: its content is read, [extractImports] gives a path and
    [resolveImportPath] gives the file [Y] for it. *)
Definition extractedImport (fs : filesystem) (projectPath X Y : jsstring) : Prop :=
  exists content importPath,
    readFileSync fs X = Ok content
    /\ In importPath (extractImports content)
    /\ resolveImportPath fs importPath X projectPath = Some Y.

Definition edgePair (e : EdgeInfo.t) : jsstring * jsstring :=
  (EdgeInfo.source e, EdgeInfo.target e).

(** The places where the analyzer looks for API directories and
    component directories, and those where it looks for the schema
    file. *)
Definition artifactDirs (projectPath : jsstring) : list jsstring :=
  possibleApiDirs projectPath ++ possibleComponentDirs projectPath.

Definition schemaPaths (projectPath : jsstring) : list jsstring :=
  map (fun schemaPath => Path.join [projectPath; schemaPath]) PRISMA_SCHEMA_PATHS.

End Spec.

(** * Sample projects *)

Module Samples.
Import Analyzer.

Definition okOr {A : Type} (default : A) (r : result A) : A :=
  match r with
  | Ok a => a
  | Throw => default
  end.

Definition proj : jsstring := str "/proj".

Definition clock0 (n : nat) : jsstring := str "2024-01-01T00:00:00.000Z".

Definition noPackageName (text : jsstring) : option jsstring := None.

(** A project with one component of three lines. *)
Definition buttonFile : jsstring := str "/proj/components/Button.tsx".

Definition buttonContent : jsstring := str "'use client';
import { Card } from './Card';
export function Button() {}".

Definition componentsFs : filesystem :=
  Filesystem
    [(str "proj", Dir [(str "components", Dir [(str "Button.tsx", File (Some buttonContent))])])]
    (str "/").

(** A project with components in three directories. *)
Definition pagesFs : filesystem :=
  Filesystem
    [(str "proj",
      Dir [(str "components",
            Dir [(str "ui",
                  Dir [(str "Button.tsx", File (Some buttonContent));
                       (str "Card.tsx", File (Some (str "export function Card() {}")));
                       (str "helpers.ts", File (Some (str "export const x = 1;")))]);
                 (str "Header.jsx", File (Some (str "import { Button } from './ui/Button'")));
                 (str "Broken.tsx", File None)]);
           (str "app",
            Dir [(str "Layout.tsx", File (Some (str "export default function Layout() {}")));
                 (str "page.tsx", File (Some (str "export default function Page() {}")))])])]
    (str "/").

Definition pagesData : ComponentData.t :=
  okOr (ComponentData.Make [] [] [] [])
    (analyzeComponents Js.compareCodeUnits pagesFs (clock0 1) proj).

Definition componentsData : ComponentData.t :=
  okOr (ComponentData.Make [] [] [] [])
    (analyzeComponents Js.compareCodeUnits componentsFs (clock0 0) proj).

Definition buttonRecord : ComponentInfo.t :=
  ComponentInfo.Make (str "Button") (str "components/Button.tsx") (str "components")
    client [str "Card"] 3.

(** Scenario A: one route file exporting GET and POST, and a second one. *)
Definition usersRoute : jsstring := str "/proj/app/api/users/route.ts".

Definition usersContent : jsstring := str "import { db } from '@/lib/db';
export async function POST(req) { return db.create(req); }
export const GET = async () => db.list();".

Definition routesFs : filesystem :=
  Filesystem
    [(str "proj",
      Dir [(str "app",
            Dir [(str "api",
                  Dir [(str "users", Dir [(str "route.ts", File (Some usersContent))]);
                       (str "admin",
                        Dir [(str "route.ts",
                              File (Some (str "export function DELETE() { requireAdmin(); }")))]);
                       (str "broken", Dir [(str "route.ts", File None)])])]);
           (str "lib", Dir [(str "db.ts", File (Some (str "export const db = {};")))])])]
    (str "/").

Definition routesData : RouteData.t :=
  okOr (RouteData.Make [] [] [])
    (analyzeRoutes Js.compareCodeUnits routesFs (clock0 0) proj).

Definition routeFilesFound : list jsstring :=
  okOr [] (Spec.routeFiles routesFs (possibleApiDirs proj)).

(** The schema of scenario B. *)
Definition scenarioB : jsstring := str "model User {
  id    String
  posts Post[]
}

model Post {
  id     String
  author User
}
".

(** The schema of scenario B with the entity Post declared first. *)
Definition scenarioBReversed : jsstring := str "model Post {
  id     String
  author User
}

model User {
  id    String
  posts Post[]
}
".

(** The schema of scenario B in the words of the specification. *)
Definition scenarioBLiteral : jsstring :=
  str "entity User { id String; posts Post[] }
entity Post { id String; author User }".

Definition postsField : FieldInfo.t :=
  FieldInfo.Make (str "posts") (str "Post") true false true.

Definition authorField : FieldInfo.t :=
  FieldInfo.Make (str "author") (str "User") true false false.

Definition userModel : ModelInfo.t :=
  ModelInfo.Make (str "User")
    [FieldInfo.Make (str "id") (str "String") false false false; postsField].

Definition postModel : ModelInfo.t :=
  ModelInfo.Make (str "Post")
    [FieldInfo.Make (str "id") (str "String") false false false; authorField].

(** A project with the files [a/b.ts] and [a_b.ts], which import each
    other, and [c.ts], which imports [a/b.ts]. *)
Definition collidingFs : filesystem :=
  Filesystem
    [(str "proj",
      Dir [(str "a", Dir [(str "b.ts", File (Some (str "import { x } from '../a_b';")))]);
           (str "a_b.ts", File (Some (str "import { y } from './a/b';")));
           (str "c.ts", File (Some (str "import { y } from './a/b';")))])]
    (str "/").

Definition collidingData : DependencyData.t :=
  okOr (DependencyData.Make [] [] [] [] [])
    (analyzeDependencies collidingFs (clock0 2) proj).

(** A project with nothing but a source file, one whose [app] is a
    regular file, and one whose schema declares no entity. *)
Definition bareFs : filesystem :=
  Filesystem
    [(str "proj", Dir [(str "index.ts", File (Some (str "export const x = 1;")))])]
    (str "/").

Definition appFileFs : filesystem :=
  Filesystem
    [(str "proj", Dir [(str "app", File (Some (str "#!/bin/sh")));
                       (str "index.ts", File (Some (str "export const x = 1;")))])]
    (str "/").

Definition emptySchemaFs : filesystem :=
  Filesystem
    [(str "proj", Dir [(str "schema.prisma", File (Some (str "// no models yet")))])]
    (str "/").

Definition schemaFs : filesystem :=
  Filesystem
    [(str "proj", Dir [(str "prisma", Dir [(str "schema.prisma", File (Some scenarioB))])])]
    (str "/").

(** A project with a source file and a directory named [schema.prisma]. *)
Definition schemaDirFs : filesystem :=
  Filesystem
    [(str "proj", Dir [(str "index.ts", File (Some (str "export const x = 1;")));
                       (str "schema.prisma", Dir [(str "notes.txt", File (Some []))])])]
    (str "/").

(** A project whose main file has a namespace import, a type import and
    a named import. *)
Definition mainContent : jsstring := str "import * as utils from './utils';
import type { T } from './types';
import { a } from './a';".

Definition namespaceFs : filesystem :=
  Filesystem
    [(str "proj",
      Dir [(str "a.ts", File (Some (str "export const a = 1;")));
           (str "main.ts", File (Some mainContent));
           (str "types.ts", File (Some (str "export type T = number;")));
           (str "utils.ts", File (Some (str "export const u = 2;")))])]
    (str "/").

Definition namespaceData : DependencyData.t :=
  okOr (DependencyData.Make [] [] [] [] [])
    (analyzeDependencies namespaceFs (clock0 3) proj).

End Samples.

(** The character before the position reached by reading [w], when
    [prev] is the character before [w]. *)
Definition at_ (prev : option ascii) (w : jsstring) : option ascii :=
  last (map Some w) prev.

(** What an expression can match, as text: [reads m r prev w next] when
    [r] can match the characters [w] that stand between the character
    [prev] and the characters [next]. *)
Inductive reads (multiline : bool) : regex -> option ascii -> jsstring -> jsstring -> Prop :=
| REps prev next : reads multiline Eps prev [] next
| RChr p prev a next : p a = true -> reads multiline (Chr p) prev [a] next
| RSeq r1 r2 prev w1 w2 next :
    reads multiline r1 prev w1 (w2 ++ next) ->
    reads multiline r2 (at_ prev w1) w2 next ->
    reads multiline (Seq r1 r2) prev (w1 ++ w2) next
| RAltL r1 r2 prev w next :
    reads multiline r1 prev w next -> reads multiline (Alt r1 r2) prev w next
| RAltR r1 r2 prev w next :
    reads multiline r2 prev w next -> reads multiline (Alt r1 r2) prev w next
| RStarStop r prev next : reads multiline (Star r) prev [] next
| RStarStep r prev w1 w2 next :
    reads multiline r prev w1 (w2 ++ next) ->
    reads multiline (Star r) (at_ prev w1) w2 next ->
    reads multiline (Star r) prev (w1 ++ w2) next
| RBol prev next :
    atBol multiline (Cursor prev next) = true -> reads multiline Bol prev [] next
| REol prev next :
    atEol multiline (Cursor prev next) = true -> reads multiline Eol prev [] next
| RGroup i r prev w next :
    reads multiline r prev w next -> reads multiline (Group i r) prev w next.

(** White space: the text of [\s*], and of [\s+] when it is not empty. *)
Definition blank (w : jsstring) : Prop := Forall (fun a => Js.isSpace a = true) w.

Definition gap (w : jsstring) : Prop := w <> [] /\ blank w.

Module Shapes.
Import Analyzer.

(** The text [export function M (] of a handler, the words separated by
    white space, [async] before [function] or not. *)
Definition exportsFunction (m : HttpMethod) (content : jsstring) : Prop :=
  exists pre ws1 async ws2 ws3 post,
    gap ws1
    /\ (async = [] \/ exists ws0, gap ws0 /\ async = str "async" ++ ws0)
    /\ gap ws2 /\ blank ws3
    /\ content = pre ++ str "export" ++ ws1 ++ async ++ str "function" ++ ws2
                 ++ methodName m ++ ws3 ++ str "(" ++ post.

(** The text [export const M =] of a handler. *)
Definition exportsConst (m : HttpMethod) (content : jsstring) : Prop :=
  exists pre ws1 ws2 ws3 post,
    gap ws1 /\ gap ws2 /\ blank ws3
    /\ content = pre ++ str "export" ++ ws1 ++ str "const" ++ ws2
                 ++ methodName m ++ ws3 ++ str "=" ++ post.

(** The text before the start of a line, and the text from the end of a
    line on. *)
Definition startsLine (pre : jsstring) : Prop :=
  pre = [] \/ exists pre' a, pre = pre' ++ [a] /\ Js.isLineTerminator a = true.

Definition endsLine (next : jsstring) : Prop :=
  next = [] \/ exists a next', next = a :: next' /\ Js.isLineTerminator a = true.

(** A line that holds the directive [use client] in quotes, a semicolon
    or none, and white space up to the end of a line. *)
Definition useClientLine (content : jsstring) : Prop :=
  exists pre q q' semi ws next,
    startsLine pre /\ Js.isQuote q = true /\ Js.isQuote q' = true
    /\ (semi = [] \/ semi = str ";") /\ blank ws /\ endsLine next
    /\ content = pre ++ [q] ++ str "use client" ++ [q'] ++ semi ++ ws ++ next.

End Shapes.

(** How much access a route is classified to protect. *)
Definition authRank (a : AuthType) : nat :=
  match a with
  | public => 0
  | protected => 1
  | admin => 2
  end.

(** The files below a node, each as its list of names from the node, in
    the order of the walk that goes through the entries of a directory
    one after the other and into every directory at once; the entries
    whose name satisfies [skip] are left out, and of the files those are
    kept whose name satisfies [keep]. *)
Fixpoint walkNames (skip keep : jsstring -> bool) (n : node) : list (list jsstring) :=
  match n with
  | File _ => []
  | Dir entries =>
      (fix each (es : list (jsstring * node)) : list (list jsstring) :=
         match es with
         | [] => []
         | (name, c) :: es' =>
             if skip name then each es'
             else if isDirectory c then map (cons name) (walkNames skip keep c) ++ each es'
             else if keep name then [name] :: each es'
             else each es'
         end) entries
  end.

(** The names the component and source walks leave out, and the names of
    source files. *)
Definition ignored (name : jsstring) : bool := Js.arrIncludes name Analyzer.IGNORED_DIRS.

Definition hasSourceExtension (name : jsstring) : bool :=
  Js.arrIncludes (Path.extname name) Analyzer.SOURCE_EXTENSIONS.

(** The source files below the directory of the names [dsegs], in the
    order of the walk of [findSourceFiles]: the entries of a directory in
    the order in which the directory lists them, and the files below an
    entry that is a directory at the place of this entry. *)
Definition sourceWalk (fs : filesystem) (dsegs : list jsstring) : list jsstring :=
  match descend (root fs) dsegs with
  | Some n => map (fun ns => absolute (dsegs ++ ns)) (walkNames ignored hasSourceExtension n)
  | None => []
  end.

(** The file at a list of names below a directory satisfies the
    conditions of a walk. *)
Definition walked (skip keep : jsstring -> bool) (entries : list (jsstring * node))
    (ns : list jsstring) : Prop :=
  (exists content, descend entries ns = Some (File content))
  /\ forallb (fun x => negb (skip x)) ns = true
  /\ keep (last ns []) = true.

(** The files that a walk finds in a list of directories, one directory
    after the other. *)
Fixpoint filesOf (find : jsstring -> result (list jsstring)) (dirs : list jsstring)
  : result (list jsstring) :=
  match dirs with
  | [] => Ok []
  | dir :: rest =>
      files <- find dir ;;
      more <- filesOf find rest ;;
      Ok (files ++ more)
  end.

(** The component directories of a project, by their names below the
    project. *)
Definition componentPrefixes : list (list jsstring) :=
  [ [str "components"]; [str "src"; str "components"]; [str "app"]; [str "src"; str "app"] ].

(** The order of the components in the words of [compareComponents]: by
    directory, ties broken by name. *)
Definition componentLe (localeCompare : jsstring -> jsstring -> comparison)
    (a b : ComponentInfo.t) : Prop :=
  localeCompare (ComponentInfo.directory a) (ComponentInfo.directory b) = Lt
  \/ (localeCompare (ComponentInfo.directory a) (ComponentInfo.directory b) = Eq
      /\ localeCompare (ComponentInfo.name a) (ComponentInfo.name b) <> Gt).

(** The content holds the word [import] and, further on, the path
    [importPath] between two quotes. *)
Definition importsPath (content importPath : jsstring) : Prop :=
  exists pre mid q q' post,
    content = pre ++ str "import" ++ mid ++ [q] ++ importPath ++ [q'] ++ post
    /\ Js.isQuote q = true /\ Js.isQuote q' = true
    /\ importPath <> [] /\ Forall (fun a => Js.isQuote a = false) importPath.

(** A word: characters that are no white space, one at least. *)
Definition token (w : jsstring) : Prop :=
  w <> [] /\ Forall (fun a => Js.isSpace a = false) w.

(** The type of a field as the schema writes it: the name of the type,
    [?] when the field is optional, [[]] when it is a list. *)
Definition typeText (type : jsstring) (isOptional isArray : bool) : jsstring :=
  type ++ (if isOptional then str "?" else []) ++ (if isArray then str "[]" else []).

(** What is left of the text after a word when the white space at its
    end is trimmed. *)
Definition trimmedTail (tail : jsstring) : jsstring := rev (Js.trimStart (rev tail)).

(** The paths at which a regular file makes a pass of the analysis fail:
    the project itself and the directories the passes look into. *)
Definition scannedDirs (projectPath : jsstring) : list jsstring :=
  Analyzer.possibleApiDirs projectPath ++ Analyzer.possibleComponentDirs projectPath
  ++ [projectPath].


(** * The route [POST /api/analyze]

    [src/app/api/analyze/route.ts], the caller of [analyzeCodebase]. *)

Module AnalyzeRoute.
Import Analyzer.

(** What [request.json()] resolves to. Of a number the handler can see
    only whether it is falsy ([0] or [-0]). *)
#[warnings="-register-all"] Inductive json : Type :=
| JNull
| JBool (b : bool)
| JNumber (isZero : bool)
| JString (s : jsstring)
| JArray (items : list json)
| JObject (members : list (jsstring * json)).

(** The property [name] of an object: [None] is [undefined]. A later
    member of the same name replaces an earlier one. *)
Fixpoint member (name : jsstring) (members : list (jsstring * json)) : option json :=
  match members with
  | [] => None
  | (n, v) :: rest =>
      match member name rest with
      | Some v' => Some v'
      | None => if Js.streq n name then Some v else None
      end
  end.

(** [const { projectPath } = body]: taking a property of [null] throws,
    a boolean, a number, a string and an array have no such property. *)
Definition projectPathOf (body : json) : result (option json) :=
  match body with
  | JNull => Throw
  | JObject members => Ok (member (str "projectPath") members)
  | _ => Ok None
  end.

Definition truthy (v : option json) : bool :=
  match v with
  | None => false
  | Some JNull => false
  | Some (JBool b) => b
  | Some (JNumber isZero) => negb isZero
  | Some (JString s) => Path.nonEmpty s
  | Some (JArray _) => true
  | Some (JObject _) => true
  end.

(** The string of a value [v] with [typeof v === "string"]. *)
Definition asString (v : option json) : option jsstring :=
  match v with
  | Some (JString s) => Some s
  | _ => None
  end.

(** [fs.statSync(p).isDirectory()] *)
Definition statIsDirectory (fs : filesystem) (p : jsstring) : result bool :=
  match lookup fs p with
  | Some n => Ok (isDirectory n)
  | None => Throw
  end.

(** The body of a response: [{ error }] with a message of the handler,
    [{ error }] with the message of a caught exception, which is not
    modelled, or the analysis. *)
Inductive payload : Type :=
| Failure (error : jsstring)
| Thrown
| Analysis (result : AnalysisResult.t).

Record response : Type := Response { body : payload; status : nat }.

Section Handler.
Variable localeCompare : jsstring -> jsstring -> comparison.
Variable packageName : jsstring -> option jsstring.

(** [request] is what [await request.json()] gives: it throws when the
    body is not JSON. Besides its response, the handler writes a caught
    exception to the console. *)
Definition POST (fs : filesystem) (clock : nat -> jsstring) (request : result json)
  : response :=
  tryCatch
    (body <- request ;;
     projectPath <- projectPathOf body ;;
     match asString projectPath with
     | Some path =>
         if negb (truthy projectPath)
         then Ok (Response (Failure (str "Project path is required")) 400)
         else
           let resolvedPath := Path.resolve (cwd fs) [path] in
           if negb (existsSync fs resolvedPath)
           then Ok (Response (Failure (str "Path does not exist: " ++ resolvedPath)) 400)
           else
             isDirectory <- statIsDirectory fs resolvedPath ;;
             if negb isDirectory
             then Ok (Response (Failure (str "Path is not a directory: " ++ resolvedPath)) 400)
             else
               result <- analyzeCodebase localeCompare packageName fs clock resolvedPath ;;
               Ok (Response (Analysis result) 200)
     | None => Ok (Response (Failure (str "Project path is required")) 400)
     end)
    (Response Thrown 500).

End Handler.

End AnalyzeRoute.

(** The request asks for the analysis of the path [path]: its body is an
    object whose property [projectPath] is this string, and it is not
    empty. *)
Definition asksFor (request : result AnalyzeRoute.json) (path : jsstring) : Prop :=
  exists body,
    request = Ok body
    /\ AnalyzeRoute.projectPathOf body = Ok (Some (AnalyzeRoute.JString path))
    /\ path <> [].

Definition isDirectoryAt (fs : filesystem) (p : jsstring) : bool :=
  match lookup fs p with
  | Some n => isDirectory n
  | None => false
  end.

(** The cluster label of a node: that of its directory. *)
Definition clusterOf (n : NodeInfo.t) : jsstring :=
  Analyzer.getClusterLabel (NodeInfo.directory n).

(** The ids of the nodes with one cluster label, each id once, in the
    order of the nodes. *)
Definition membersOf (label : jsstring) (nodes : list NodeInfo.t) : list jsstring :=
  JsSet.ofList (map NodeInfo.id (filter (fun n => Js.streq (clusterOf n) label) nodes)).

(** What the first loop of [analyzeDependencies] keeps true: [clusterMap]
    holds, for every label of a node pushed so far and for no other key,
    the ids of the nodes of that label. *)
Definition clustered (st : Analyzer.graphState) : Prop :=
  NoDup (JsMap.keys (Analyzer.stClusterMap st))
  /\ forall k, JsMap.get k (Analyzer.stClusterMap st)
               = if existsb (fun n => Js.streq (clusterOf n) k) (Analyzer.stNodes st)
                 then Some (membersOf k (Analyzer.stNodes st)) else None.

(** The names of a path that are neither its first nor its last. *)
Definition interior (ns : list jsstring) : list jsstring := removelast (tl ns).

(** The type of a node by the directories of its path. *)
Definition typeByDirectories (dirs : list jsstring) : NodeType :=
  if Js.arrIncludes (str "components") dirs then component
  else if Js.arrIncludes (str "lib") dirs || Js.arrIncludes (str "utils") dirs then lib
  else if Js.arrIncludes (str "api") dirs then api
  else if Js.arrIncludes (str "app") dirs || Js.arrIncludes (str "pages") dirs then page
  else other.

Definition noBackslash (n : jsstring) : bool := forallb (Js.notChar "\") n.

(** The cluster label of a file by the directories [ds] it is in, from
    the project down. *)
Definition labelByDirectories (ds : list jsstring) : jsstring :=
  match ds with
  | [] => str "."
  | _ =>
      match Analyzer.lastTwo
              (filter (fun p => negb (Js.arrIncludes p [str "src"; str "app"])) ds) with
      | [] => str "root"
      | meaningful => Js.join (str "/") meaningful
      end
  end.

(** * The importance of the files

    [calculateFileImportance] of the route that makes insights of an
    analysis ([src/app/api/analyze/route.ts]). *)

Module FileImportance.
Record t : Type := Make
  { file : jsstring; importedByCount : nat; importsCount : nat;
    isHub : bool; isLeaf : bool; impactScore : nat }.
End FileImportance.

Module Insights.

(** [m.get(k) || 0] *)
Definition getOrZero (k : jsstring) (m : JsMap.t nat) : nat :=
  match JsMap.get k m with Some n => n | None => 0 end.

(** The state of the loop over the edges: [importedByCount] and
    [importsCount]. *)
Definition countState : Type := (JsMap.t nat * JsMap.t nat)%type.

Definition countEdge (st : countState) (edge : EdgeInfo.t) : countState :=
  (JsMap.set (EdgeInfo.target edge) (getOrZero (EdgeInfo.target edge) (fst st) + 1) (fst st),
   JsMap.set (EdgeInfo.source edge) (getOrZero (EdgeInfo.source edge) (snd st) + 1) (snd st)).

(** The body of the loop over the nodes. The counts are integers, which
    [Math.round] leaves as they are. *)
Definition importanceOf (st : countState) (node : NodeInfo.t) : FileImportance.t :=
  let imported := getOrZero (NodeInfo.id node) (fst st) in
  let imports := getOrZero (NodeInfo.id node) (snd st) in
  let impactScore := Nat.min 100 (imported * 10 + imports * 2) in
  FileImportance.Make (NodeInfo.directory node ++ str "/" ++ NodeInfo.label node)
    imported imports (5 <=? imported) ((imported =? 0) && (imports =? 0)) impactScore.

(** [(a, b) => b.impactScore - a.impactScore] *)
Definition compareImportance (a b : FileImportance.t) : comparison :=
  Nat.compare (FileImportance.impactScore b) (FileImportance.impactScore a).

(** The arrays [nodes] and [edges] of a dependency graph are truthy. *)
Definition calculateFileImportance (analysis : AnalysisResult.t) : list FileImportance.t :=
  match AnalysisResult.dependencies analysis with
  | None => []
  | Some deps =>
      let st := fold_left countEdge (DependencyData.edges deps) ([], []) in
      sortBy compareImportance (map (importanceOf st) (DependencyData.nodes deps))
  end.

End Insights.

(** The number of edges that end at the node [id], and that start at it. *)
Definition importedBy (edges : list EdgeInfo.t) (id : jsstring) : nat :=
  length (filter (fun e => Js.streq (EdgeInfo.target e) id) edges).

Definition importsOf (edges : list EdgeInfo.t) (id : jsstring) : nat :=
  length (filter (fun e => Js.streq (EdgeInfo.source e) id) edges).

(** The importance of a node in a graph with the edges [edges]. *)
Definition importanceIn (edges : list EdgeInfo.t) (node : NodeInfo.t) : FileImportance.t :=
  let imported := importedBy edges (NodeInfo.id node) in
  let imports := importsOf edges (NodeInfo.id node) in
  FileImportance.Make (NodeInfo.directory node ++ str "/" ++ NodeInfo.label node)
    imported imports (5 <=? imported) ((imported =? 0) && (imports =? 0))
    (Nat.min 100 (10 * imported + 2 * imports)).

(** The content holds, at the start of a line, the word [model], white
    space, the name [name], white space or none, and the text [body] in
    braces. *)
Definition modelBlock (content name body : jsstring) : Prop :=
  exists pre ws1 ws2 post,
    content = pre ++ str "model" ++ ws1 ++ name ++ ws2 ++ str "{" ++ body ++ str "}" ++ post
    /\ Shapes.startsLine pre /\ gap ws1 /\ blank ws2
    /\ name <> [] /\ Spec.wordName name
    /\ body <> [] /\ ~ In "}"%char body.

(** The files an import can stand for: the path [segs] with one of the
    endings that [resolveImportPath] tries, in its order. *)
Definition candidates (segs : list jsstring) : list jsstring :=
  map (fun ext => absolute segs ++ ext) Analyzer.RESOLVE_SUFFIXES.

(** ** Import statements, as text *)

(** The characters of a name in an import clause: the word characters
    and the star. *)
Definition isNameChar (a : ascii) : bool := Js.isWord a || Ascii.eqb a "*".

(** The clause of an import statement that the analyzer reads: a list
    in braces, or a name, or a name, a comma and a list in braces. *)
Inductive importClause : jsstring -> Prop :=
| ClauseList inner :
    ~ In "}"%char inner -> importClause (str "{" ++ inner ++ str "}")
| ClauseName name :
    name <> [] -> Forall (fun a => isNameChar a = true) name -> importClause name
| ClauseBoth name ws1 ws2 inner :
    name <> [] -> Forall (fun a => isNameChar a = true) name ->
    blank ws1 -> blank ws2 -> ~ In "}"%char inner ->
    importClause (name ++ ws1 ++ str "," ++ ws2 ++ str "{" ++ inner ++ str "}").

(** What stands between the word [import] and the quote of the path:
    white space, or white space, a clause, white space, the word [from]
    and white space. *)
Definition importHead (head : jsstring) : Prop :=
  gap head
  \/ exists ws1 clause ws2 ws3,
       head = ws1 ++ clause ++ ws2 ++ str "from" ++ ws3
       /\ gap ws1 /\ importClause clause /\ gap ws2 /\ gap ws3.

(** An import statement of the path [path]: [import 'path'],
    [import name from 'path'], [import { ... } from 'path'] or
    [import name, { ... } from 'path'], the path between two quotes,
    single or double. *)
Definition importStatement (stmt path : jsstring) : Prop :=
  exists head q q',
    stmt = str "import" ++ head ++ [q] ++ path ++ [q']
    /\ importHead head /\ Js.isQuote q = true /\ Js.isQuote q' = true
    /\ path <> [] /\ Forall (fun a => Js.isQuote a = false) path.

(** The text begins with an import statement. *)
Definition startsImport (text : jsstring) : Prop :=
  exists stmt path rest, text = stmt ++ rest /\ importStatement stmt path.

(** No import statement begins in [text] when [next] follows it. *)
Definition noneBegins (text next : jsstring) : Prop :=
  forall pre suf, text = pre ++ suf -> suf <> [] -> ~ startsImport (suf ++ next).

(** The paths of the import statements of a content, read from left to
    right: the first place where a statement begins gives the first
    path, and the reading goes on after the closing quote of that
    statement. *)
Inductive importScan : jsstring -> list jsstring -> Prop :=
| ScanEnd content :
    (forall pre suf, content = pre ++ suf -> ~ startsImport suf) -> importScan content []
| ScanMore text stmt path rest paths :
    noneBegins text (stmt ++ rest) -> importStatement stmt path -> importScan rest paths ->
    importScan (text ++ stmt ++ rest) (path :: paths).

(** A relative path starts with a dot, an alias-rooted path with [@/]. *)
Definition relativeImport (path : jsstring) : Prop := exists rest, path = str "." ++ rest.
Definition aliasImport (path : jsstring) : Prop := exists rest, path = str "@/" ++ rest.

(** Where the path of an import of the file [fromFile] points: below
    the project when it is alias-rooted, else from the directory of
    the file. *)
Definition importTarget (fs : filesystem) (projectPath fromFile path target : jsstring) : Prop :=
  (exists rest, path = str "@/" ++ rest /\ target = Path.join [projectPath; rest])
  \/ (~ aliasImport path /\ target = Path.resolve (cwd fs) [Path.dirname fromFile; path]).

Definition IMPORT_EXTENSIONS : list jsstring :=
  [str ".ts"; str ".tsx"; str ".js"; str ".jsx"].

(** The files tried for a target, in order: the literal path, the path
    with each extension, the index file with each extension in the
    path as a directory. *)
Definition importCandidates (target : jsstring) : list jsstring :=
  [target] ++ map (fun ext => target ++ ext) IMPORT_EXTENSIONS
  ++ map (fun ext => target ++ str "/index" ++ ext) IMPORT_EXTENSIONS.

Definition regularFile (fs : filesystem) (p : jsstring) : Prop :=
  exists content, lookup fs p = Some (File content).

(** The first candidate that is a regular file wins. *)
Definition resolvesTo (fs : filesystem) (target file : jsstring) : Prop :=
  exists earlier later,
    importCandidates target = earlier ++ file :: later
    /\ regularFile fs file
    /\ Forall (fun p => ~ regularFile fs p) earlier.

(** The file [X] imports the file [Y]: the content of [X] can be read,
    and one of the import statements read in it has a relative or
    alias-rooted path that resolves to [Y]. *)
Definition importsTo (fs : filesystem) (projectPath X Y : jsstring) : Prop :=
  exists content paths path target,
    readFileSync fs X = Ok content
    /\ importScan content paths /\ In path paths
    /\ (relativeImport path \/ aliasImport path)
    /\ importTarget fs projectPath X path target
    /\ resolvesTo fs target Y.

(** * Properties *)

(** ** The model at work *)

Example split_lines : Js.split "010" (str "a
b") = [str "a"; str "b"].
Proof. reflexivity. Qed.

Example splitSpaces_tokens :
  Js.splitSpaces (str "posts   Post[] @relation") =
  [str "posts"; str "Post[]"; str "@relation"].
Proof. reflexivity. Qed.

Example trim_both : Js.trim (str "  id String  ") = str "id String".
Proof. reflexivity. Qed.

Example star_backtracks :
  option_map groups
    (matchAt false (seq [Group 1 (Star (Chr (fun _ => true))); lit (str "c")])
       (Cursor None (str "abcabcd")))
  = Some [(1, str "abcab")].
Proof. reflexivity. Qed.

Example join_normalizes :
  Path.join [str "/proj"; str "lib/../app//api/"] = str "/proj/app/api/".
Proof. reflexivity. Qed.

Example resolve_import :
  Path.resolve (str "/") [str "/proj/src/lib"; str "../utils/./x"] = str "/proj/src/utils/x".
Proof. reflexivity. Qed.

Example relative_inside :
  Path.relative (str "/") (str "/proj") (str "/proj/app/api/users/route.ts")
  = str "app/api/users/route.ts".
Proof. reflexivity. Qed.

Example relative_up :
  Path.relative (str "/") (str "/a/b/c") (str "/a/x") = str "../../x".
Proof. reflexivity. Qed.

Example dirname_ex :
  (Path.dirname (str "/proj/a/b.ts"), Path.dirname (str "b.ts"), Path.dirname (str "/b.ts"))
  = (str "/proj/a", str ".", str "/").
Proof. reflexivity. Qed.

Example extname_ex :
  map Path.extname [str "a/b.test.tsx"; str ".bashrc"; str "..ts"; str "a."; str "x/.."; str "noext"]
  = [str ".tsx"; []; str ".ts"; str "."; []; []].
Proof. reflexivity. Qed.

Example basename_ex :
  Path.basename (str "/proj/a/Button.tsx") (Path.extname (str "/proj/a/Button.tsx"))
  = str "Button".
Proof. reflexivity. Qed.

(** ** Strings and lists *)

Lemma streq_iff (a b : jsstring) : Js.streq a b = true <-> a = b.
Proof.
  revert b; induction a as [|x a IH]; intros [|y b]; simpl; split;
    try congruence; try reflexivity.
  - intros H. apply andb_true_iff in H as [Hx Hab].
    apply Ascii.eqb_eq in Hx. apply IH in Hab. congruence.
  - intros H. injection H as -> ->.
    apply andb_true_iff. split; [apply Ascii.eqb_refl | now apply IH].
Qed.

Lemma streq_refl (a : jsstring) : Js.streq a a = true.
Proof. now apply streq_iff. Qed.

Lemma streq_neq (a b : jsstring) : Js.streq a b = false <-> a <> b.
Proof.
  split.
  - intros H E. apply streq_iff in E. congruence.
  - intros H. destruct (Js.streq a b) eqn:E; [|reflexivity].
    apply streq_iff in E. contradiction.
Qed.

Lemma streq_sym (a b : jsstring) : Js.streq a b = Js.streq b a.
Proof.
  destruct (Js.streq a b) eqn:E.
  - apply streq_iff in E. subst. symmetry. apply streq_refl.
  - symmetry. apply streq_neq. apply streq_neq in E. congruence.
Qed.

Lemma arrIncludes_iff (x : jsstring) (arr : list jsstring) :
  Js.arrIncludes x arr = true <-> In x arr.
Proof.
  unfold Js.arrIncludes. rewrite existsb_exists. split.
  - intros [y [Hy E]]. apply streq_iff in E. now subst.
  - intros H. exists x. split; [assumption | apply streq_refl].
Qed.

(** The pieces of [split] are one more than the separators. *)
Lemma split_length (sep : ascii) (s : jsstring) :
  length (Js.split sep s) = S (count_occ ascii_dec s sep).
Proof.
  induction s as [|c s IH]; simpl; [reflexivity|].
  destruct (Ascii.eqb c sep) eqn:E.
  - apply Ascii.eqb_eq in E. subst. simpl.
    destruct (ascii_dec sep sep); [now rewrite IH | contradiction].
  - apply Ascii.eqb_neq in E.
    destruct (ascii_dec c sep); [contradiction|].
    destruct (Js.split sep s); simpl in *; [discriminate | assumption].
Qed.

(** ** Sorting *)

Section SortFacts.
Variable A : Type.
Variable cmp : A -> A -> comparison.

Lemma insertSorted_perm (x : A) (l : list A) : Permutation (insertSorted cmp x l) (x :: l).
Proof.
  induction l as [|y l IH]; simpl; [reflexivity|].
  destruct (cmp x y); try reflexivity.
  rewrite IH. apply perm_swap.
Qed.

Lemma sortBy_perm (l : list A) : Permutation (sortBy cmp l) l.
Proof.
  induction l as [|x l IH]; simpl; [reflexivity|].
  rewrite insertSorted_perm. now constructor.
Qed.

Lemma sortBy_In (x : A) (l : list A) : In x (sortBy cmp l) <-> In x l.
Proof.
  split; apply Permutation_in; [|symmetry]; apply sortBy_perm.
Qed.

End SortFacts.

(** ** Component analyzer *)

Module ComponentProps.
Import Analyzer.

Section Components.
Variable localeCompare : jsstring -> jsstring -> comparison.
Variable fs : filesystem.
Variable projectPath : jsstring.

(** The loops over the directories and their files are one loop over all
    the files found. *)
Lemma collectComponents_fold (dirs : list jsstring) (st st' : componentState) :
  collectComponents fs projectPath dirs st = Ok st' ->
  exists files, st' = fold_left (addComponentFile fs projectPath) files st.
Proof.
  revert st. induction dirs as [|d dirs IH]; simpl; intros st H.
  - exists []. simpl. congruence.
  - destruct (findComponentFiles fs d) as [files|]; simpl in H; [|discriminate].
    apply IH in H as [more ->]. exists (files ++ more).
    now rewrite fold_left_app.
Qed.

Lemma fold_add_components (files : list jsstring) (st : componentState) :
  fst (fold_left (addComponentFile fs projectPath) files st)
  = fst st ++ keep (componentOfFile fs projectPath) files.
Proof.
  revert st. induction files as [|f files IH]; simpl; intros st.
  - now rewrite app_nil_r.
  - rewrite IH. unfold addComponentFile.
    destruct (componentOfFile fs projectPath f); simpl; [|reflexivity].
    now rewrite <- app_assoc.
Qed.

Lemma In_keep {A B : Type} (f : A -> option B) (l : list A) (b : B) :
  In b (keep f l) <-> exists a, In a l /\ f a = Some b.
Proof.
  induction l as [|a l IH]; simpl.
  - split; [contradiction | intros [? [[] _]]].
  - destruct (f a) eqn:E; simpl; rewrite IH; split.
    + intros [<-|[a' [Ha Hf]]]; eauto.
    + intros [a' [[<-|Ha] Hf]]; [left; congruence | right; eauto].
    + intros [a' [Ha Hf]]; eauto.
    + intros [a' [[<-|Ha] Hf]]; [congruence | eauto].
Qed.

(** What the record of a file holds. *)
Lemma componentOfFile_Some (filePath : jsstring) (c : ComponentInfo.t) :
  componentOfFile fs projectPath filePath = Some c ->
  exists content,
    readFileSync fs filePath = Ok content /\
    c = ComponentInfo.Make
          (Path.basename filePath (Path.extname filePath))
          (Path.relative (cwd fs) projectPath filePath)
          (Path.dirname (Path.relative (cwd fs) projectPath filePath))
          (extractComponentType content) (extractDependencies content)
          (countLines content).
Proof.
  unfold componentOfFile. destruct (readFileSync fs filePath) as [content|]; simpl.
  - intros H. exists content. split; congruence.
  - discriminate.
Qed.

(** C7 (amended). Every component record comes from a readable file, at
    the path the record names, and its line count is the number of
    newline characters of the content of that file plus one: the number
    of lines the newlines separate. *)
Theorem linesOfCode_is_newlines_plus_one (now : jsstring) (d : ComponentData.t)
    (c : ComponentInfo.t) :
  analyzeComponents localeCompare fs now projectPath = Ok d ->
  In c (ComponentData.components d) ->
  exists filePath content,
    readFileSync fs filePath = Ok content /\
    ComponentInfo.path c = Path.relative (cwd fs) projectPath filePath /\
    ComponentInfo.linesOfCode c = count_occ ascii_dec content "010"%char + 1.
Proof.
  unfold analyzeComponents. intros H Hc.
  destruct (collectComponents _ _ _ _) as [st|] eqn:Hst; simpl in H; [|discriminate].
  injection H as <-. simpl in Hc. apply sortBy_In in Hc.
  apply collectComponents_fold in Hst as [files ->].
  rewrite fold_add_components in Hc. simpl in Hc.
  apply In_keep in Hc as [filePath [_ Hf]].
  apply componentOfFile_Some in Hf as [content [Hread ->]].
  exists filePath, content. simpl. repeat split; try assumption.
  unfold countLines. rewrite split_length. lia.
Qed.

End Components.

(** C7 at a sample project. *)
Lemma linesOfCode_is_newlines_plus_one_witness :
  exists filePath content,
    readFileSync Samples.componentsFs filePath = Ok content /\
    ComponentInfo.path Samples.buttonRecord
    = Path.relative (cwd Samples.componentsFs) Samples.proj filePath /\
    ComponentInfo.linesOfCode Samples.buttonRecord = count_occ ascii_dec content "010"%char + 1.
Proof.
  apply (@linesOfCode_is_newlines_plus_one Js.compareCodeUnits
           Samples.componentsFs Samples.proj (Samples.clock0 0) Samples.componentsData).
  - vm_compute. reflexivity.
  - vm_compute. left. reflexivity.
Defined.

(** C7 as stated fails: the component of the sample project has two
    newline characters and the line count 3. *)
Lemma linesOfCode_is_not_newline_count :
  analyzeComponents Js.compareCodeUnits Samples.componentsFs (Samples.clock0 0) Samples.proj
  = Ok Samples.componentsData /\
  In Samples.buttonRecord (ComponentData.components Samples.componentsData) /\
  readFileSync Samples.componentsFs Samples.buttonFile = Ok Samples.buttonContent /\
  ComponentInfo.path Samples.buttonRecord
  = Path.relative (cwd Samples.componentsFs) Samples.proj Samples.buttonFile /\
  count_occ ascii_dec Samples.buttonContent "010"%char = 2 /\
  ComponentInfo.linesOfCode Samples.buttonRecord
  <> count_occ ascii_dec Samples.buttonContent "010"%char.
Proof.
  repeat split; try (vm_compute; reflexivity).
  - vm_compute. left. reflexivity.
  - vm_compute. discriminate.
Qed.

End ComponentProps.

(** ** Sorted output *)

Section SortedFacts.
Variable A : Type.
Variable cmp : A -> A -> comparison.
Context `{Consistent A cmp}.

Lemma insertSorted_sorted (x : A) (l : list A) :
  StronglySorted (notGreater cmp) l -> StronglySorted (notGreater cmp) (insertSorted cmp x l).
Proof.
  induction 1 as [|y l Hl IH Hy]; simpl.
  - repeat constructor.
  - destruct (cmp x y) eqn:E.
    + constructor; [now constructor|]. constructor.
      * unfold notGreater. congruence.
      * eapply Forall_impl; [|exact Hy]. intros z Hz.
        apply cmp_trans with y; [congruence | exact Hz].
    + constructor; [now constructor|]. constructor.
      * unfold notGreater. congruence.
      * eapply Forall_impl; [|exact Hy]. intros z Hz.
        apply cmp_trans with y; [congruence | exact Hz].
    + constructor; [exact IH|].
      eapply Permutation_Forall; [symmetry; apply insertSorted_perm|].
      constructor; [|exact Hy].
      unfold notGreater. rewrite cmp_swap, E. discriminate.
Qed.

Lemma sortBy_sorted (l : list A) : StronglySorted (notGreater cmp) (sortBy cmp l).
Proof.
  induction l as [|x l IH]; simpl; [constructor | now apply insertSorted_sorted].
Qed.

End SortedFacts.

(** The order by code units is consistent. *)
Lemma ltCodeUnits_irrefl (a : jsstring) : Js.ltCodeUnits a a = false.
Proof.
  induction a as [|x a IH]; simpl; [reflexivity|].
  now rewrite Nat.ltb_irrefl.
Qed.

Lemma ltCodeUnits_asym (a b : jsstring) :
  Js.ltCodeUnits a b = true -> Js.ltCodeUnits b a = false.
Proof.
  revert b; induction a as [|x a IH]; intros [|y b]; simpl; try congruence.
  destruct (Nat.ltb_spec (Js.code x) (Js.code y)), (Nat.ltb_spec (Js.code y) (Js.code x));
    try congruence; try lia.
  apply IH.
Qed.

Lemma geCodeUnits_trans (a b c : jsstring) :
  Js.ltCodeUnits b a = false -> Js.ltCodeUnits c b = false -> Js.ltCodeUnits c a = false.
Proof.
  revert b c; induction a as [|x a IH]; intros [|y b] [|z c]; simpl; try congruence.
  destruct (Nat.ltb_spec (Js.code y) (Js.code x)), (Nat.ltb_spec (Js.code x) (Js.code y)),
    (Nat.ltb_spec (Js.code z) (Js.code y)), (Nat.ltb_spec (Js.code y) (Js.code z)),
    (Nat.ltb_spec (Js.code z) (Js.code x)), (Nat.ltb_spec (Js.code x) (Js.code z));
    try congruence; try lia.
  apply IH.
Qed.

#[export] Instance compareCodeUnits_consistent : Consistent Js.compareCodeUnits.
Proof.
  split.
  - intros a b. unfold Js.compareCodeUnits.
    destruct (Js.ltCodeUnits a b) eqn:Eab.
    + now rewrite (ltCodeUnits_asym _ _ Eab).
    + destruct (Js.ltCodeUnits b a); reflexivity.
  - intros a b c. unfold Js.compareCodeUnits. intros Hab Hbc.
    assert (Hba : Js.ltCodeUnits b a = false).
    { destruct (Js.ltCodeUnits a b) eqn:E; [now apply ltCodeUnits_asym|].
      destruct (Js.ltCodeUnits b a); congruence. }
    assert (Hcb : Js.ltCodeUnits c b = false).
    { destruct (Js.ltCodeUnits b c) eqn:E; [now apply ltCodeUnits_asym|].
      destruct (Js.ltCodeUnits c b); congruence. }
    rewrite (geCodeUnits_trans _ _ _ Hba Hcb).
    destruct (Js.ltCodeUnits a c); discriminate.
Qed.

(** A comparison by one key, then by another, is consistent. *)
Section Lexicographic.
Variables A K1 K2 : Type.
Variable cmp1 : K1 -> K1 -> comparison.
Variable cmp2 : K2 -> K2 -> comparison.
Variable key1 : A -> K1.
Variable key2 : A -> K2.
Context `{Consistent K1 cmp1} `{Consistent K2 cmp2}.

Lemma lt_le_lt (x y z : K1) : cmp1 x y = Lt -> cmp1 y z <> Gt -> cmp1 x z = Lt.
Proof.
  intros Hxy Hyz. destruct (cmp1 x z) eqn:Exz; [|reflexivity|].
  - exfalso. apply (cmp_trans (cmp:=cmp1) y z x Hyz).
    + rewrite (cmp_swap x z), Exz. discriminate.
    + rewrite (cmp_swap x y), Hxy. reflexivity.
  - exfalso. apply (cmp_trans (cmp:=cmp1) x y z); congruence.
Qed.

Lemma le_lt_lt (x y z : K1) : cmp1 x y <> Gt -> cmp1 y z = Lt -> cmp1 x z = Lt.
Proof.
  intros Hxy Hyz. destruct (cmp1 x z) eqn:Exz; [|reflexivity|].
  - exfalso. apply (cmp_trans (cmp:=cmp1) z x y).
    + rewrite (cmp_swap x z), Exz. discriminate.
    + exact Hxy.
    + rewrite (cmp_swap y z), Hyz. reflexivity.
  - exfalso. apply (cmp_trans (cmp:=cmp1) x y z); congruence.
Qed.

Lemma eq_eq_eq (x y z : K1) : cmp1 x y = Eq -> cmp1 y z = Eq -> cmp1 x z = Eq.
Proof.
  intros Hxy Hyz. destruct (cmp1 x z) eqn:Exz; [reflexivity| |].
  - exfalso. apply (cmp_trans (cmp:=cmp1) z y x).
    + rewrite (cmp_swap y z), Hyz. discriminate.
    + rewrite (cmp_swap x y), Hxy. discriminate.
    + rewrite (cmp_swap x z), Exz. reflexivity.
  - exfalso. apply (cmp_trans (cmp:=cmp1) x y z); congruence.
Qed.

Lemma thenBy_consistent : Consistent (thenBy cmp1 cmp2 key1 key2).
Proof.
  split.
  - intros a b. unfold thenBy. rewrite (cmp_swap (key1 a) (key1 b)).
    destruct (cmp1 (key1 a) (key1 b)); simpl; try reflexivity.
    apply cmp_swap.
  - intros a b c. unfold thenBy.
    destruct (cmp1 (key1 a) (key1 b)) eqn:Eab; [| |congruence];
      destruct (cmp1 (key1 b) (key1 c)) eqn:Ebc; try congruence; intros Hab Hbc.
    + rewrite (eq_eq_eq Eab Ebc). now apply cmp_trans with (key2 b).
    + rewrite (@le_lt_lt (key1 a) (key1 b) (key1 c)); congruence.
    + rewrite (@lt_le_lt (key1 a) (key1 b) (key1 c)); congruence.
    + rewrite (@lt_le_lt (key1 a) (key1 b) (key1 c)); congruence.
Qed.

End Lexicographic.

(** ** Route analyzer *)

Module RouteProps.
Import Analyzer Spec.

Section Routes.
Variable localeCompare : jsstring -> jsstring -> comparison.
Variable fs : filesystem.
Variable projectPath : jsstring.

Lemma compareRoutes_thenBy (a b : RouteInfo.t) :
  compareRoutes localeCompare a b
  = thenBy localeCompare localeCompare RouteInfo.path
      (fun r => methodName (RouteInfo.method r)) a b.
Proof.
  unfold compareRoutes, thenBy. now destruct (localeCompare _ _).
Qed.

Lemma notGreater_routeLe (a b : RouteInfo.t) :
  notGreater (compareRoutes localeCompare) a b <-> routeLe localeCompare a b.
Proof.
  unfold notGreater, compareRoutes, routeLe.
  destruct (localeCompare (RouteInfo.path a) (RouteInfo.path b)); split;
    try tauto; try congruence; intuition congruence.
Qed.

(** C6. The routes the extractor returns are sorted by path, ties broken
    by method: every route is followed only by routes that are not before
    it in that order, the strings compared by [localeCompare]. *)
Theorem routes_sorted `{Consistent jsstring localeCompare} (now : jsstring) (d : RouteData.t) :
  analyzeRoutes localeCompare fs now projectPath = Ok d ->
  StronglySorted (routeLe localeCompare) (RouteData.routes d).
Proof.
  unfold analyzeRoutes. intros Hd.
  destruct (collectRoutes fs projectPath _) as [routes|]; simpl in Hd; [|discriminate].
  injection Hd as <-. simpl.
  assert (Hc : Consistent (compareRoutes localeCompare)).
  { destruct (thenBy_consistent (cmp1:=localeCompare) (cmp2:=localeCompare) RouteInfo.path
                (fun r => methodName (RouteInfo.method r))) as [Hs Ht].
    split; intros; rewrite ?compareRoutes_thenBy in *; auto.
    eapply Ht; eauto. }
  pose proof (sortBy_sorted (cmp:=compareRoutes localeCompare) routes) as Hsorted.
  induction Hsorted as [|r l Hl IH Hr]; constructor.
  - exact IH.
  - eapply Forall_impl; [|exact Hr]. intros b. apply notGreater_routeLe.
Qed.

End Routes.

(** C6 at the sample project of scenario A. *)
Lemma routes_sorted_witness :
  StronglySorted (routeLe Js.compareCodeUnits) (RouteData.routes Samples.routesData).
Proof.
  apply (@routes_sorted Js.compareCodeUnits Samples.routesFs Samples.proj
           compareCodeUnits_consistent (Samples.clock0 0) Samples.routesData).
  vm_compute. reflexivity.
Defined.

End RouteProps.

(** ** Orchestrator *)

Module MainProps.
Import Analyzer Spec.

Section Main.
Variable localeCompare : jsstring -> jsstring -> comparison.
Variable packageName : jsstring -> option jsstring.
Variable fs : filesystem.
Variable projectPath : jsstring.

(** C9. The analysis is a function of the file system: whatever the
    clock returns at the five calls that stamp the results, the routes,
    the components, the schema and the dependency graph are the same, as
    is everything else but the [generatedAt] fields. *)
Theorem analysis_ignores_clock (clock1 clock2 : nat -> jsstring) :
  mapResult eraseTimestamps (analyzeCodebase localeCompare packageName fs clock1 projectPath)
  = mapResult eraseTimestamps (analyzeCodebase localeCompare packageName fs clock2 projectPath).
Proof.
  unfold analyzeCodebase, analyzeRoutes, analyzeComponents, analyzeDependencies, analyzeModels.
  destruct (collectRoutes fs projectPath (possibleApiDirs projectPath)) as [routes|];
    cbn [bind mapResult]; [|reflexivity].
  destruct (collectComponents fs projectPath (possibleComponentDirs projectPath) ([], []))
    as [st|]; cbn [bind mapResult]; [|reflexivity].
  destruct (findPrismaSchema fs projectPath) as [schemaPath|].
  - destruct (readFileSync fs schemaPath) as [content|]; cbn [bind tryCatch];
      (destruct (findSourceFiles fs projectPath) as [files|];
       cbn [bind mapResult]; [|reflexivity]);
      unfold eraseTimestamps; cbn;
      destruct (sortBy _ routes), (sortBy _ (fst st)), (stNodes _); reflexivity.
  - destruct (findSourceFiles fs projectPath) as [files|]; cbn [bind mapResult]; [|reflexivity].
    unfold eraseTimestamps; cbn.
    destruct (sortBy _ routes), (sortBy _ (fst st)), (stNodes _); reflexivity.
Qed.

End Main.

End MainProps.

(** ** Facts about [Map] *)

Module JsMapFacts.
Import JsMap.

Section Facts.
Variable V : Type.
Implicit Types (m : JsMap.t V) (k : jsstring) (v : V).

Lemma get_set_eq k v m : get k (set k v m) = Some v.
Proof.
  induction m as [|[k' v'] m IH]; simpl.
  - now rewrite streq_refl.
  - destruct (Js.streq k k') eqn:E; simpl; rewrite ?streq_refl, ?E; auto.
Qed.

Lemma get_set_neq k k' v m : k <> k' -> get k' (set k v m) = get k' m.
Proof.
  intros Hk. apply streq_neq in Hk. rewrite streq_sym in Hk.
  induction m as [|[k0 v0] m IH]; simpl.
  - now rewrite Hk.
  - destruct (Js.streq k k0) eqn:E; simpl.
    + apply streq_iff in E. subst k0. now rewrite Hk.
    + now rewrite IH.
Qed.

Lemma get_None k m : get k m = None <-> ~ In k (keys m).
Proof.
  induction m as [|[k0 v0] m IH]; simpl; [tauto|].
  destruct (Js.streq k k0) eqn:E.
  - apply streq_iff in E. subst. split; [discriminate | tauto].
  - apply streq_neq in E. rewrite IH. intuition congruence.
Qed.

Lemma get_Some_In k v m : get k m = Some v -> In (k, v) m.
Proof.
  induction m as [|[k0 v0] m IH]; simpl; [discriminate|].
  destruct (Js.streq k k0) eqn:E.
  - apply streq_iff in E. subst. intros [= ->]. now left.
  - auto.
Qed.

Lemma In_get k v m : NoDup (keys m) -> In (k, v) m -> get k m = Some v.
Proof.
  induction m as [|[k0 v0] m IH]; simpl; [contradiction|].
  intros Hnd [Hin|Hin].
  - injection Hin as -> ->. now rewrite streq_refl.
  - inversion Hnd as [|? ? Hk0 Hnd']; subst.
    destruct (Js.streq k k0) eqn:E; [|now apply IH].
    apply streq_iff in E. subst k0. exfalso. apply Hk0.
    change k with (fst (k, v)). now apply in_map.
Qed.

Lemma keys_set k v m :
  keys (set k v m) = if has k m then keys m else keys m ++ [k].
Proof.
  unfold has. induction m as [|[k0 v0] m IH]; simpl; [reflexivity|].
  destruct (Js.streq k k0) eqn:E; simpl.
  - apply streq_iff in E. now subst.
  - rewrite IH. now destruct (get k m).
Qed.

Lemma NoDup_keys_set k v m : NoDup (keys m) -> NoDup (keys (set k v m)).
Proof.
  intros Hnd. rewrite keys_set. unfold has.
  destruct (get k m) eqn:E; [assumption|].
  apply get_None in E.
  apply NoDup_app; [assumption | repeat constructor; simpl; tauto |].
  intros x Hx [<-|[]]. contradiction.
Qed.

Lemma NoDup_keys_ofList (pairs : list (jsstring * V)) : NoDup (keys (ofList pairs)).
Proof.
  unfold ofList.
  assert (G : forall m, NoDup (keys m) ->
    NoDup (keys (fold_left (fun m kv => set (fst kv) (snd kv) m) pairs m))).
  { induction pairs as [|kv pairs IH]; simpl; intros m Hm; [assumption|].
    apply IH. now apply NoDup_keys_set. }
  apply G. constructor.
Qed.

(** A key occurs once among the entries of a map without duplicates. *)
Lemma occurrences_of_key k m :
  NoDup (keys m) -> In k (keys m) ->
  length (filter (fun e => Js.streq (fst e) k) m) = 1.
Proof.
  induction m as [|[k0 v0] m IH]; simpl; [contradiction|].
  intros Hnd Hin. inversion Hnd as [|? ? Hk0 Hnd']; subst.
  destruct (Js.streq k0 k) eqn:E; simpl.
  - apply streq_iff in E. subst k0. f_equal.
    apply length_zero_iff_nil.
    destruct (filter _ m) as [|e l] eqn:Ef; [reflexivity|].
    exfalso. assert (He : In e (filter (fun e => Js.streq (fst e) k) m))
      by (rewrite Ef; now left).
    apply filter_In in He as [He1 He2]. apply streq_iff in He2. subst k.
    apply Hk0. now apply in_map.
  - apply streq_neq in E. destruct Hin as [Hin|Hin]; [contradiction|].
    now apply IH.
Qed.

End Facts.

End JsMapFacts.

Lemma filter_length_perm {A : Type} (f : A -> bool) (l l' : list A) :
  Permutation l l' -> length (filter f l) = length (filter f l').
Proof.
  induction 1 as [|x l l' _ IH|x y l|l l' l'' _ IH1 _ IH2]; simpl.
  - reflexivity.
  - destruct (f x); simpl; congruence.
  - destruct (f x), (f y); reflexivity.
  - congruence.
Qed.

Lemma NoDup_map_inj {A B : Type} (f : A -> B) (l : list A) :
  (forall a b, In a l -> In b l -> f a = f b -> a = b) -> NoDup l -> NoDup (map f l).
Proof.
  intros Hinj Hnd. induction Hnd as [|x l Hx Hnd IH]; cbn [map]; constructor.
  - intros Hin. apply in_map_iff in Hin as [y [E Hy]].
    apply Hinj in E; [subst; contradiction | now right | now left].
  - apply IH. intros a b Ha Hb. apply Hinj; now right.
Qed.

(** ** Directory summaries *)

Module DirectoryProps.
Import Analyzer Spec JsMapFacts.

Section Directories.
Variable localeCompare : jsstring -> jsstring -> comparison.
Variable fs : filesystem.
Variable projectPath : jsstring.

Lemma componentsIn_snoc (k : jsstring) (cs : list ComponentInfo.t) (c : ComponentInfo.t) :
  componentsIn k (cs ++ [c])
  = componentsIn k cs + (if Js.streq (ComponentInfo.directory c) k then 1 else 0).
Proof.
  unfold componentsIn. rewrite filter_app, length_app. simpl.
  now destruct (Js.streq _ k).
Qed.

Lemma counted_add (st : componentState) (filePath : jsstring) :
  counted st -> counted (addComponentFile fs projectPath st filePath).
Proof.
  intros [Hnd Hget]. unfold addComponentFile.
  destruct (componentOfFile fs projectPath filePath) as [c|]; [|now split].
  split; simpl.
  - now apply NoDup_keys_set.
  - intros k. rewrite componentsIn_snoc.
    destruct (Js.streq (ComponentInfo.directory c) k) eqn:E.
    + apply streq_iff in E. subst k. rewrite get_set_eq, Hget.
      destruct (componentsIn _ (fst st) =? 0) eqn:E0.
      * apply Nat.eqb_eq in E0. now rewrite E0.
      * replace (componentsIn _ (fst st) + 1 =? 0) with false; [reflexivity|].
        symmetry. apply Nat.eqb_neq. lia.
    + apply streq_neq in E. rewrite get_set_neq by assumption.
      now rewrite Nat.add_0_r.
Qed.

Lemma counted_fold (files : list jsstring) (st : componentState) :
  counted st -> counted (fold_left (addComponentFile fs projectPath) files st).
Proof.
  revert st. induction files as [|f files IH]; simpl; intros st H; [assumption|].
  apply IH. now apply counted_add.
Qed.

Lemma summariesOf_map (k : jsstring) (m : JsMap.t nat) :
  summariesOf k
    (map (fun e => DirectoryInfo.Make (fst e) (getDirectoryLabel (fst e)) (snd e)) m)
  = length (filter (fun e => Js.streq (fst e) k) m).
Proof.
  unfold summariesOf. induction m as [|[k0 v0] m IH]; simpl; [reflexivity|].
  destruct (Js.streq k0 k); simpl; now rewrite IH.
Qed.

(** C10. In the result of the component analysis the count of every
    directory summary is the number of components of that directory, and
    the directory of every component has exactly one summary. *)
Theorem directories_match_components (now : jsstring) (d : ComponentData.t) :
  analyzeComponents localeCompare fs now projectPath = Ok d ->
  (forall s, In s (ComponentData.directories d) ->
     DirectoryInfo.componentCount s
     = componentsIn (DirectoryInfo.path s) (ComponentData.components d))
  /\ (forall c, In c (ComponentData.components d) ->
        summariesOf (ComponentInfo.directory c) (ComponentData.directories d) = 1).
Proof.
  unfold analyzeComponents. intros H.
  destruct (collectComponents _ _ _ _) as [st|] eqn:Hst; cbn [bind] in H; [|discriminate].
  injection H as <-. cbn [ComponentData.directories ComponentData.components].
  apply ComponentProps.collectComponents_fold in Hst as [files ->].
  destruct (counted_fold files (st:=([], []))) as [Hnd Hget].
  { split; [constructor | reflexivity]. }
  set (st := fold_left _ files _) in *.
  split.
  - intros s Hs. apply sortBy_In in Hs. apply in_map_iff in Hs as [[k v] [<- Hkv]].
    cbn [DirectoryInfo.componentCount DirectoryInfo.path fst snd].
    apply (In_get _ _ _ Hnd) in Hkv. rewrite Hget in Hkv.
    unfold componentsIn in *.
    rewrite (filter_length_perm _ (sortBy_perm (compareComponents localeCompare) (fst st))).
    destruct (_ =? 0); congruence.
  - intros c Hc. apply sortBy_In in Hc.
    unfold summariesOf.
    rewrite (filter_length_perm _ (sortBy_perm compareDirectories _)).
    fold (summariesOf (ComponentInfo.directory c)
            (map (fun e => DirectoryInfo.Make (fst e) (getDirectoryLabel (fst e)) (snd e))
               (snd st))).
    rewrite summariesOf_map. apply occurrences_of_key; [assumption|].
    destruct (JsMap.get (ComponentInfo.directory c) (snd st)) as [v|] eqn:Eg.
    + apply get_Some_In in Eg. change (ComponentInfo.directory c) with (fst (ComponentInfo.directory c, v)).
      now apply in_map.
    + exfalso. rewrite Hget in Eg.
      destruct (componentsIn _ (fst st) =? 0) eqn:E0; [|discriminate].
      apply Nat.eqb_eq in E0. unfold componentsIn in E0.
      apply length_zero_iff_nil in E0.
      assert (Hin : In c (filter (fun c0 => Js.streq (ComponentInfo.directory c0)
                                              (ComponentInfo.directory c)) (fst st))).
      { apply filter_In. split; [assumption | apply streq_refl]. }
      rewrite E0 in Hin. contradiction.
Qed.

End Directories.

(** C10 at a sample project. *)
Lemma directories_match_components_witness :
  (forall s, In s (ComponentData.directories Samples.pagesData) ->
     DirectoryInfo.componentCount s
     = componentsIn (DirectoryInfo.path s) (ComponentData.components Samples.pagesData))
  /\ (forall c, In c (ComponentData.components Samples.pagesData) ->
        summariesOf (ComponentInfo.directory c) (ComponentData.directories Samples.pagesData) = 1).
Proof.
  apply (@directories_match_components Js.compareCodeUnits Samples.pagesFs Samples.proj
           (Samples.clock0 1) Samples.pagesData).
  vm_compute. reflexivity.
Defined.

End DirectoryProps.

(** ** Relationship extraction *)

Module RelationProps.
Import Analyzer Spec.

Lemma firstsBy_app {X : Type} (key : X -> jsstring) (seen : JsSet.t) (l1 l2 : list X) :
  firstsBy key seen (l1 ++ l2)
  = firstsBy key seen l1
    ++ firstsBy key (seen ++ map key (firstsBy key seen l1)) l2.
Proof.
  revert seen. induction l1 as [|x l1 IH]; simpl; intros seen.
  - now rewrite app_nil_r.
  - destruct (JsSet.has (key x) seen); [apply IH|].
    simpl. rewrite IH. now rewrite <- app_assoc.
Qed.

Section Extraction.
Variable models : list ModelInfo.t.

(** The loops of [extractRelationships] keep the first relation field of
    every key. *)
Lemma fold_addField (model : ModelInfo.t) (fields : list FieldInfo.t) (st : relationState) :
  let kept := firstsBy keyOf (snd st) (map (pair model) (filter FieldInfo.isRelation fields)) in
  fold_left (addField models model) fields st
  = (fst st ++ map (recordOf models) kept, snd st ++ map keyOf kept).
Proof.
  revert st. induction fields as [|f fields IH]; intros [rels seen]; simpl.
  - now rewrite !app_nil_r.
  - unfold addField at 2. destruct (FieldInfo.isRelation f); simpl; [|apply IH].
    unfold keyOf at 1 3. simpl.
    destruct (JsSet.has _ seen) eqn:Hs; simpl.
    + apply IH.
    + rewrite IH. simpl. unfold JsSet.add. rewrite Hs.
      unfold recordOf at 2. simpl. now rewrite <- !app_assoc.
Qed.

Lemma fold_addModel (ms : list ModelInfo.t) (st : relationState) :
  let kept := firstsBy keyOf (snd st) (relationFields ms) in
  fold_left (addModel models) ms st
  = (fst st ++ map (recordOf models) kept, snd st ++ map keyOf kept).
Proof.
  revert st. induction ms as [|m ms IH]; intros [rels seen]; simpl.
  - now rewrite !app_nil_r.
  - unfold addModel at 2. rewrite fold_addField. rewrite IH. simpl.
    unfold relationFields. simpl. rewrite firstsBy_app.
    now rewrite !map_app, <- !app_assoc.
Qed.

Lemma extractRelationships_firsts :
  extractRelationships models = map (recordOf models) (firstsBy keyOf [] (relationFields models)).
Proof.
  unfold extractRelationships. now rewrite fold_addModel.
Qed.

End Extraction.

(** Of the elements kept, those of one key are the first element of
    that key, unless the key was seen before. *)
Lemma firstsBy_of_key {X : Type} (key : X -> jsstring) (k : jsstring) (seen : JsSet.t)
    (l : list X) :
  filter (fun x => Js.streq (key x) k) (firstsBy key seen l)
  = if JsSet.has k seen then []
    else match find (fun x => Js.streq (key x) k) l with
         | Some x => [x]
         | None => []
         end.
Proof.
  revert seen. induction l as [|x l IH]; simpl; intros seen.
  - now destruct (JsSet.has k seen).
  - destruct (JsSet.has (key x) seen) eqn:Hx.
    + rewrite IH. destruct (JsSet.has k seen) eqn:Hk; [reflexivity|].
      destruct (Js.streq (key x) k) eqn:E; [|reflexivity].
      apply streq_iff in E. congruence.
    + simpl. rewrite IH. destruct (Js.streq (key x) k) eqn:E.
      * apply streq_iff in E. subst k. rewrite Hx.
        replace (JsSet.has (key x) (seen ++ [key x])) with true; [reflexivity|].
        symmetry. apply arrIncludes_iff, in_or_app. right. now left.
      * destruct (JsSet.has k seen) eqn:Hk.
        -- replace (JsSet.has k (seen ++ [key x])) with true; [reflexivity|].
           symmetry. apply arrIncludes_iff, in_or_app. left. now apply arrIncludes_iff.
        -- replace (JsSet.has k (seen ++ [key x])) with false; [reflexivity|].
           symmetry. unfold JsSet.has, Js.arrIncludes. rewrite existsb_app. simpl.
           unfold JsSet.has, Js.arrIncludes in Hk. rewrite Hk. simpl.
           rewrite streq_sym, E. reflexivity.
Qed.

End RelationProps.

(** ** The matcher finds matches only *)

Module RegexFacts.

Section Sound.
Variable multiline : bool.
Variable R : Type.

Lemma run_sound (r : regex) :
  forall (c : cursor) (caps : captures) (k : kont R) (x : R),
    run multiline r c caps k = Some x ->
    exists c' caps', matches multiline r c caps c' caps' /\ k c' caps' = Some x.
Proof.
  induction r as [|p|r1 IH1 r2 IH2|r1 IH1 r2 IH2|r IH| | |i r IH]; intros c caps k x H.
  - exists c, caps. split; [constructor | exact H].
  - simpl in H. destruct (after c) as [|a rest] eqn:Ea; [discriminate|].
    destruct (p a) eqn:Ep; [|discriminate].
    exists (Cursor (Some a) rest), caps. split; [now constructor | exact H].
  - simpl in H. apply IH1 in H as [c1 [caps1 [M1 H]]].
    apply IH2 in H as [c2 [caps2 [M2 H]]].
    exists c2, caps2. split; [econstructor; eassumption | exact H].
  - simpl in H. destruct (run multiline r1 c caps k) as [y|] eqn:E1.
    + injection H as ->. apply IH1 in E1 as [c' [caps' [M Hk]]].
      exists c', caps'. split; [now apply MAltL | exact Hk].
    + apply IH2 in H as [c' [caps' [M Hk]]].
      exists c', caps'. split; [now apply MAltR | exact Hk].
  - simpl in H. revert H. generalize (length (after c)) as fuel.
    intros fuel. revert c caps.
    induction fuel as [|fuel IHf]; intros c caps H.
    + exists c, caps. split; [constructor | exact H].
    + destruct (run multiline r c caps _) as [y|] eqn:E.
      * injection H as ->. apply IH in E as [c1 [caps1 [M1 Hk]]].
        destruct (length (after c1) <? length (after c)); [|discriminate].
        apply IHf in Hk as [c2 [caps2 [M2 Hk]]].
        exists c2, caps2. split; [econstructor; eassumption | exact Hk].
      * exists c, caps. split; [constructor | exact H].
  - simpl in H. destruct (atBol multiline c) eqn:E; [|discriminate].
    exists c, caps. split; [now constructor | exact H].
  - simpl in H. destruct (atEol multiline c) eqn:E; [|discriminate].
    exists c, caps. split; [now constructor | exact H].
  - simpl in H. apply IH in H as [c' [caps' [M Hk]]].
    exists c', ((i, consumed c c') :: caps'). split; [now constructor | exact Hk].
Qed.

End Sound.

Section Matches.
Variable multiline : bool.

Lemma matchAt_sound (r : regex) (c : cursor) (f : found) :
  matchAt multiline r c = Some f -> matches multiline r c [] (stop f) (groups f).
Proof.
  unfold matchAt. intros H. apply run_sound in H as [c' [caps' [M H]]].
  injection H as <-. exact M.
Qed.

Lemma searchFrom_sound (r : regex) (s : jsstring) :
  forall (prev : option ascii) (f : found),
    searchFrom multiline r prev s = Some f ->
    exists c, matches multiline r c [] (stop f) (groups f).
Proof.
  induction s as [|a s IH]; intros prev f; simpl;
    destruct (matchAt multiline r _) as [f'|] eqn:E; intros H; try discriminate.
  - injection H as <-. eexists. eapply matchAt_sound. eassumption.
  - injection H as <-. eexists. eapply matchAt_sound. eassumption.
  - eapply IH. eassumption.
Qed.

Lemma execLoop_sound (r : regex) (fuel : nat) :
  forall (prev : option ascii) (s : jsstring) (caps : captures),
    In caps (execLoop fuel multiline r prev s) ->
    exists c c', matches multiline r c [] c' caps.
Proof.
  induction fuel as [|fuel IH]; intros prev s caps; simpl; [contradiction|].
  destruct (searchFrom multiline r prev s) as [f|] eqn:E; [|contradiction].
  intros [<-|Hin].
  - apply searchFrom_sound in E as [c M]. eauto.
  - eapply IH. eassumption.
Qed.

Lemma execAll_sound (r : regex) (s : jsstring) (caps : captures) :
  In caps (execAll multiline r s) -> exists c c', matches multiline r c [] c' caps.
Proof. apply execLoop_sound. Qed.

(** A match goes forward in the subject. *)
Lemma matches_suffix (r : regex) (c : cursor) (caps : captures) (c' : cursor) (caps' : captures) :
  matches multiline r c caps c' caps' -> exists w, after c = w ++ after c'.
Proof.
  induction 1 as [ | ? ? ? ? ? Ha | ? ? ? ? ? ? ? ? _ [w1 E1] _ [w2 E2] | ? ? ? ? ? ? _ IH
                 | ? ? ? ? ? ? _ IH | | ? ? ? ? ? ? ? _ [w1 E1] _ [w2 E2] | | | ? ? ? ? ? ? _ IH ];
    try (now exists []); try exact IH.
  - exists [a]. simpl. exact Ha.
  - exists (w1 ++ w2). rewrite E1, E2. now rewrite app_assoc.
  - exists (w1 ++ w2). rewrite E1, E2. now rewrite app_assoc.
Qed.

Lemma consumed_app (c c' : cursor) (w : jsstring) :
  after c = w ++ after c' -> consumed c c' = w.
Proof.
  intros E. unfold consumed. rewrite E, length_app.
  replace (length w + length (after c') - length (after c')) with (length w) by lia.
  rewrite firstn_app, firstn_all, Nat.sub_diag. simpl. apply app_nil_r.
Qed.

(** A repetition of one character class matches characters of the class
    and captures nothing. *)
Lemma matches_star_chr (p : ascii -> bool) (c : cursor) (caps : captures) (c' : cursor)
    (caps' : captures) :
  matches multiline (Star (Chr p)) c caps c' caps' ->
  caps' = caps /\ exists w, after c = w ++ after c' /\ Forall (fun a => p a = true) w.
Proof.
  intros M. remember (Star (Chr p)) as r eqn:Er.
  induction M as [ | | | | | | r0 c caps c1 caps1 c2 caps2 M1 _ M2 IH2 | | | ];
    try discriminate.
  - split; [reflexivity|]. exists []. split; [reflexivity | constructor].
  - injection Er as ->. destruct (IH2 eq_refl) as [-> [w [Ew Hw]]].
    inversion M1 as [ |? ? ? a rest Ha Hp| | | | | | | | ]; subst.
    split; [reflexivity|]. exists (a :: w). simpl in Ew. split.
    + rewrite Ha, Ew. reflexivity.
    + now constructor.
Qed.

Lemma matches_plus_chr (p : ascii -> bool) (c : cursor) (caps : captures) (c' : cursor)
    (caps' : captures) :
  matches multiline (plus (Chr p)) c caps c' caps' ->
  caps' = caps /\ Forall (fun a => p a = true) (consumed c c').
Proof.
  unfold plus. intros M.
  inversion M as [ | |? ? ? ? c1 caps1 ? ? M1 M2| | | | | | | ]; subst.
  inversion M1 as [ |? ? ? a rest Ha Hp| | | | | | | | ]; subst.
  apply matches_star_chr in M2 as [-> [w [Ew Hw]]]. split; [reflexivity|].
  simpl in Ew. rewrite (@consumed_app c c' (a :: w)).
  - now constructor.
  - rewrite Ha, Ew. reflexivity.
Qed.

(** Matching an expression without the group [i] leaves the capture [i]
    as it is. *)
Lemma matches_noGroup (i : nat) (r : regex) (c : cursor) (caps : captures) (c' : cursor)
    (caps' : captures) :
  matches multiline r c caps c' caps' -> noGroup i r = true ->
  capture i caps' = capture i caps.
Proof.
  induction 1 as [ | | ? ? ? ? ? ? ? ? _ IH1 _ IH2 | ? ? ? ? ? ? _ IH | ? ? ? ? ? ? _ IH
                 | | ? ? ? ? ? ? ? _ IH1 _ IH2 | | | j ? ? ? ? ? _ IH ];
    simpl; intros Hn; try reflexivity.
  - apply andb_true_iff in Hn as [H1 H2]. rewrite IH2, IH1; auto.
  - apply andb_true_iff in Hn as [H1 H2]. auto.
  - apply andb_true_iff in Hn as [H1 H2]. auto.
  - rewrite IH2, IH1; auto.
  - apply andb_true_iff in Hn as [H1 H2]. apply negb_true_iff in H1.
    rewrite H1. auto.
Qed.

Lemma matches_seq (r1 r2 : regex) (c : cursor) (caps : captures) (c2 : cursor)
    (caps2 : captures) :
  matches multiline (Seq r1 r2) c caps c2 caps2 ->
  exists c1 caps1, matches multiline r1 c caps c1 caps1 /\ matches multiline r2 c1 caps1 c2 caps2.
Proof.
  inversion 1; subst. eauto.
Qed.

Lemma matches_group (i : nat) (r : regex) (c : cursor) (caps : captures) (c' : cursor)
    (caps' : captures) :
  matches multiline (Group i r) c caps c' caps' ->
  exists caps1, matches multiline r c caps c' caps1 /\ caps' = (i, consumed c c') :: caps1.
Proof.
  inversion 1; subst. eauto.
Qed.

Lemma searchFrom_start (r : regex) (s : jsstring) :
  forall (prev : option ascii) (f : found),
    searchFrom multiline r prev s = Some f ->
    exists c, matches multiline r c [] (stop f) (groups f) /\ length (after c) <= length s.
Proof.
  induction s as [|a s IH]; intros prev f; cbn [searchFrom];
    destruct (matchAt multiline r _) as [f'|] eqn:E; intros H; try discriminate.
  - injection H as <-. eexists. split; [eapply matchAt_sound; eassumption | reflexivity].
  - injection H as <-. eexists. split; [eapply matchAt_sound; eassumption | reflexivity].
  - apply IH in H as [c [M Hc]]. exists c. split; [assumption | cbn [length]; lia].
Qed.

Lemma matches_shorter (r : regex) (c : cursor) (caps : captures) (c' : cursor) (caps' : captures) :
  matches multiline r c caps c' caps' -> length (after c') <= length (after c).
Proof.
  intros M. apply matches_suffix in M as [w ->]. rewrite length_app. lia.
Qed.

Lemma progressive_chr (p : ascii -> bool) : progressive multiline (Chr p).
Proof.
  intros c caps c' caps' M. inversion M as [ |? ? ? a rest Ha Hp| | | | | | | | ]; subst.
  rewrite Ha. cbn [after length]. lia.
Qed.

Lemma progressive_seq_l (r1 r2 : regex) :
  progressive multiline r1 -> progressive multiline (Seq r1 r2).
Proof.
  intros H c caps c' caps' M. apply matches_seq in M as [c1 [caps1 [M1 M2]]].
  apply H in M1. apply matches_shorter in M2. lia.
Qed.

Lemma progressive_seq_r (r1 r2 : regex) :
  progressive multiline r2 -> progressive multiline (Seq r1 r2).
Proof.
  intros H c caps c' caps' M. apply matches_seq in M as [c1 [caps1 [M1 M2]]].
  apply H in M2. apply matches_shorter in M1. lia.
Qed.

(** The loop of a progressive expression never runs out of fuel: any
    number of rounds above the length of the subject gives the same
    matches. *)
Lemma execLoop_enough (r : regex) :
  progressive multiline r ->
  forall n m prev s,
    length s < n -> length s < m ->
    execLoop n multiline r prev s = execLoop m multiline r prev s.
Proof.
  intros Hr. induction n as [|n IH]; intros [|m] prev s Hn Hm; try lia.
  cbn [execLoop]. destruct (searchFrom multiline r prev s) as [f|] eqn:E; [|reflexivity].
  f_equal. apply searchFrom_start in E as [c [M Hc]]. apply Hr in M.
  apply IH; lia.
Qed.

End Matches.

(** The expressions the analyzer runs in a loop are progressive: each
    begins with a word. *)
Lemma progressive_word (multiline : bool) (a : ascii) (w : jsstring) (rest : list regex) :
  progressive multiline (seq (lit (a :: w) :: rest)).
Proof.
  destruct rest as [|r rest]; cbn [seq lit].
  - apply progressive_seq_l, progressive_chr.
  - apply progressive_seq_l, progressive_seq_l, progressive_chr.
Qed.

Lemma progressive_line_word (multiline : bool) (a : ascii) (w : jsstring) (rest : list regex) :
  progressive multiline (seq (Bol :: lit (a :: w) :: rest)).
Proof.
  change (seq (Bol :: lit (a :: w) :: rest)) with (Seq Bol (seq (lit (a :: w) :: rest))).
  apply progressive_seq_r, progressive_word.
Qed.

Lemma analyzer_loops_progressive :
  progressive false Analyzer.componentImportPattern
  /\ progressive false Analyzer.importPattern
  /\ progressive true Analyzer.modelNameRegex
  /\ progressive true Analyzer.modelRegex.
Proof.
  repeat split; (apply progressive_word || apply progressive_line_word).
Qed.

End RegexFacts.

(** ** One relationship per pair of entities *)

Module SchemaProps.
Import Analyzer Spec RegexFacts RelationProps.

(** The first group of the two expressions of the schema parser captures
    a name of word characters. *)
Lemma name_capture (rest : regex) (c c' : cursor) (caps : captures) :
  noGroup 1 rest = true ->
  matches true
    (Seq Bol (Seq (lit (str "model")) (Seq (plus space) (Seq (Group 1 (plus word)) rest))))
    c [] c' caps ->
  wordName (capture 1 caps).
Proof.
  intros Hrest M.
  apply matches_seq in M as [c1 [caps1 [_ M]]].
  apply matches_seq in M as [c2 [caps2 [_ M]]].
  apply matches_seq in M as [c3 [caps3 [_ M]]].
  apply matches_seq in M as [c4 [caps4 [MG M]]].
  rewrite (matches_noGroup 1 M Hrest).
  apply matches_group in MG as [caps5 [MG ->]].
  apply matches_plus_chr in MG as [_ Hw]. simpl. exact Hw.
Qed.

Lemma modelNameRegex_capture (content : jsstring) (caps : captures) :
  In caps (execAll true modelNameRegex content) -> wordName (capture 1 caps).
Proof.
  intros H. apply execAll_sound in H as [c [c' M]].
  eapply name_capture; [|exact M]. reflexivity.
Qed.

Lemma modelRegex_capture (content : jsstring) (caps : captures) :
  In caps (execAll true modelRegex content) -> wordName (capture 1 caps).
Proof.
  intros H. apply execAll_sound in H as [c [c' M]].
  eapply name_capture; [|exact M]. reflexivity.
Qed.

Lemma parseField_relation (line : jsstring) (modelNames : list jsstring) (f : FieldInfo.t) :
  parseField line modelNames = Some f -> FieldInfo.isRelation f = true ->
  In (FieldInfo.type f) modelNames.
Proof.
  unfold parseField. destruct (_ || _); [discriminate|].
  destruct (Js.splitSpaces _) as [|name [|type parts]]; try discriminate.
  destruct (Js.startsWith _ name); [discriminate|].
  intros H. injection H as <-. simpl. apply arrIncludes_iff.
Qed.

(** The entities the parser returns and the types of their relation
    fields have names of word characters. *)
Lemma parseModels_wordNames (content : jsstring) (m : ModelInfo.t) :
  In m (fst (parseModels content)) ->
  wordName (ModelInfo.name m)
  /\ forall f, In f (ModelInfo.fields m) -> FieldInfo.isRelation f = true ->
               wordName (FieldInfo.type f).
Proof.
  unfold parseModels. simpl. intros H.
  apply in_map_iff in H as [caps [<- Hcaps]]. simpl. split.
  - now apply modelRegex_capture with content.
  - intros f Hf Hrel. apply ComponentProps.In_keep in Hf as [line [_ Hf]].
    apply (parseField_relation _ _ Hf) in Hrel.
    apply in_map_iff in Hrel as [caps' [<- Hcaps']].
    now apply modelNameRegex_capture with content.
Qed.

(** The keys of the pairs. *)
Lemma code_inj (x y : ascii) : Js.code x = Js.code y -> x = y.
Proof.
  unfold Js.code. intros H.
  rewrite <- (ascii_nat_embedding x), <- (ascii_nat_embedding y). now rewrite H.
Qed.

Lemma ltCodeUnits_total (a b : jsstring) :
  Js.ltCodeUnits a b = false -> Js.ltCodeUnits b a = false -> a = b.
Proof.
  revert b; induction a as [|x a IH]; intros [|y b]; simpl; try congruence.
  destruct (Nat.ltb_spec (Js.code x) (Js.code y)), (Nat.ltb_spec (Js.code y) (Js.code x));
    try congruence.
  intros Hab Hba. f_equal; [apply code_inj; lia | now apply IH].
Qed.

Lemma pairKey_comm (a b : jsstring) : pairKey a b = pairKey b a.
Proof.
  unfold pairKey.
  destruct (Js.ltCodeUnits b a) eqn:Eba, (Js.ltCodeUnits a b) eqn:Eab; try reflexivity.
  - apply ltCodeUnits_asym in Eba. congruence.
  - now rewrite (ltCodeUnits_total _ _ Eab Eba).
Qed.

Lemma wordName_no_hyphen (s : jsstring) : wordName s -> ~ In "-"%char s.
Proof.
  intros Hw Hin. unfold wordName in Hw. rewrite Forall_forall in Hw.
  apply Hw in Hin. discriminate.
Qed.

Lemma hyphen_inj (a b c d : jsstring) :
  ~ In "-"%char a -> ~ In "-"%char c ->
  a ++ str "-" ++ b = c ++ str "-" ++ d -> a = c /\ b = d.
Proof.
  revert c; induction a as [|x a IH]; intros [|y c] Ha Hc; simpl; intros E.
  - injection E as ->. now split.
  - injection E as <-. exfalso. apply Hc. now left.
  - injection E as ->. exfalso. apply Ha. now left.
  - injection E as -> E. apply IH in E as [-> ->]; [now split| |];
      intros Hin; [apply Ha | apply Hc]; now right.
Qed.

Lemma pairKey_samePair (a b x y : jsstring) :
  wordName a -> wordName b -> wordName x -> wordName y ->
  Js.streq (pairKey x y) (pairKey a b) = samePair a b x y.
Proof.
  intros Ha Hb Hx Hy.
  apply wordName_no_hyphen in Ha, Hb, Hx, Hy.
  destruct (samePair a b x y) eqn:Es.
  - apply streq_iff. unfold samePair in Es.
    apply orb_true_iff in Es as [Es|Es]; apply andb_true_iff in Es as [E1 E2];
      apply streq_iff in E1, E2; subst; [reflexivity | apply pairKey_comm].
  - apply streq_neq. intros E. unfold samePair in Es.
    apply orb_false_iff in Es as [Es1 Es2].
    unfold pairKey in E.
    destruct (Js.ltCodeUnits y x), (Js.ltCodeUnits b a);
      apply hyphen_inj in E as [-> ->]; try assumption;
      rewrite !streq_refl in *; simpl in *; discriminate.
Qed.

Section OnePerPair.
Variable content : jsstring.

(** C3. For two entities of a parsed schema that declare relation fields
    pointing at each other, the relationship list has exactly one record
    between the two, in one direction or the other: the record of the
    first relation field between them that the extraction visits. *)
Theorem one_relationship_per_pair (A B : ModelInfo.t) (fA fB : FieldInfo.t) :
  let models := fst (parseModels content) in
  In A models -> In fA (ModelInfo.fields A) ->
  FieldInfo.isRelation fA = true -> FieldInfo.type fA = ModelInfo.name B ->
  In B models -> In fB (ModelInfo.fields B) ->
  FieldInfo.isRelation fB = true -> FieldInfo.type fB = ModelInfo.name A ->
  exists first,
    find (fun mf => samePair (ModelInfo.name A) (ModelInfo.name B)
                      (ModelInfo.name (fst mf)) (FieldInfo.type (snd mf)))
      (relationFields models) = Some first
    /\ filter (fun r => samePair (ModelInfo.name A) (ModelInfo.name B)
                          (RelationshipInfo.from r) (RelationshipInfo.to r))
         (extractRelationships models)
       = [recordOf models first].
Proof.
  intros models HA HfA HrA HtA HB HfB HrB HtB.
  destruct (parseModels_wordNames content A HA) as [HwA _].
  destruct (parseModels_wordNames content B HB) as [HwB _].
  assert (Hkey : forall mf, In mf (relationFields models) ->
            Js.streq (keyOf mf) (pairKey (ModelInfo.name A) (ModelInfo.name B))
            = samePair (ModelInfo.name A) (ModelInfo.name B)
                (ModelInfo.name (fst mf)) (FieldInfo.type (snd mf))).
  { intros [m f] Hmf. unfold relationFields in Hmf.
    apply in_flat_map in Hmf as [m' [Hm' Hmf]].
    apply in_map_iff in Hmf as [f' [E Hf']]. injection E as -> ->.
    apply filter_In in Hf' as [Hf' Hrel].
    destruct (parseModels_wordNames content m Hm') as [Hwm Hwf].
    apply pairKey_samePair; auto. }
  assert (Hfind : find (fun mf => Js.streq (keyOf mf)
                                    (pairKey (ModelInfo.name A) (ModelInfo.name B)))
                    (relationFields models)
                  = find (fun mf => samePair (ModelInfo.name A) (ModelInfo.name B)
                                      (ModelInfo.name (fst mf)) (FieldInfo.type (snd mf)))
                      (relationFields models)).
  { revert Hkey. generalize (relationFields models) as l.
    induction l as [|mf l IH]; simpl; intros Hkey; [reflexivity|].
    rewrite Hkey by now left. destruct (samePair _ _ _ _); [reflexivity|].
    apply IH. intros mf' Hmf'. apply Hkey. now right. }
  destruct (find (fun mf => samePair (ModelInfo.name A) (ModelInfo.name B)
                              (ModelInfo.name (fst mf)) (FieldInfo.type (snd mf)))
              (relationFields models)) as [first|] eqn:Efirst.
  - exists first. split; [reflexivity|].
    rewrite extractRelationships_firsts.
    transitivity
      (map (recordOf models)
         (filter (fun mf => Js.streq (keyOf mf)
                              (pairKey (ModelInfo.name A) (ModelInfo.name B)))
            (firstsBy keyOf [] (relationFields models)))).
    + assert (Hsub : forall mf, In mf (firstsBy keyOf [] (relationFields models)) ->
                In mf (relationFields models)).
      { generalize (@nil jsstring) as seen. generalize (relationFields models) as l.
        induction l as [|x l IH]; simpl; intros seen mf; [contradiction|].
        destruct (JsSet.has (keyOf x) seen); simpl.
        - intros H. right. eapply IH. eassumption.
        - intros [->|H]; [now left | right; eapply IH; eassumption]. }
      revert Hsub. generalize (firstsBy keyOf [] (relationFields models)) as l.
      induction l as [|mf l IH]; simpl; intros Hsub; [reflexivity|].
      rewrite (Hkey mf) by (apply Hsub; now left).
      destruct (samePair _ _ _ _); simpl; rewrite IH; auto.
    + rewrite firstsBy_of_key. simpl. rewrite Hfind. reflexivity.
  - exfalso.
    assert (Hin : In (A, fA) (relationFields models)).
    { unfold relationFields. apply in_flat_map. exists A. split; [assumption|].
      apply in_map. apply filter_In. now split. }
    pose proof (find_none _ _ Efirst (A, fA) Hin) as Hf. simpl in Hf.
    rewrite HtA in Hf. unfold samePair in Hf. rewrite !streq_refl in Hf. discriminate.
Qed.

End OnePerPair.

(** C3 at the schema of scenario B. *)
Lemma one_relationship_per_pair_witness :
  exists first,
    find (fun mf => samePair (ModelInfo.name Samples.userModel) (ModelInfo.name Samples.postModel)
                      (ModelInfo.name (fst mf)) (FieldInfo.type (snd mf)))
      (relationFields (fst (parseModels Samples.scenarioB))) = Some first
    /\ filter (fun r => samePair (ModelInfo.name Samples.userModel)
                          (ModelInfo.name Samples.postModel)
                          (RelationshipInfo.from r) (RelationshipInfo.to r))
         (extractRelationships (fst (parseModels Samples.scenarioB)))
       = [recordOf (fst (parseModels Samples.scenarioB)) first].
Proof.
  apply (@one_relationship_per_pair Samples.scenarioB Samples.userModel Samples.postModel
           Samples.postsField Samples.authorField);
    try reflexivity.
  - vm_compute. left. reflexivity.
  - vm_compute. right. left. reflexivity.
  - vm_compute. right. left. reflexivity.
  - vm_compute. right. left. reflexivity.
Defined.

End SchemaProps.

(** ** A list field and the field that points back *)

Module ScenarioProps.
Import Analyzer Spec RelationProps SchemaProps.

Section Scenario.
Variable content : jsstring.

(** The records between two entities: none, or that of the first
    relation field between the two. *)
Lemma records_between (a b : jsstring) :
  wordName a -> wordName b ->
  filter (fun r => samePair a b (RelationshipInfo.from r) (RelationshipInfo.to r))
    (extractRelationships (fst (parseModels content)))
  = match find (fun mf => samePair a b (ModelInfo.name (fst mf)) (FieldInfo.type (snd mf)))
            (relationFields (fst (parseModels content))) with
    | Some first => [recordOf (fst (parseModels content)) first]
    | None => []
    end.
Proof.
  intros Ha Hb. set (models := fst (parseModels content)).
  assert (Hkey : forall mf, In mf (relationFields models) ->
            Js.streq (keyOf mf) (pairKey a b)
            = samePair a b (ModelInfo.name (fst mf)) (FieldInfo.type (snd mf))).
  { intros [m f] Hmf. unfold relationFields in Hmf.
    apply in_flat_map in Hmf as [m' [Hm' Hmf]].
    apply in_map_iff in Hmf as [f' [E Hf']]. injection E as -> ->.
    apply filter_In in Hf' as [Hf' Hrel].
    destruct (parseModels_wordNames content m Hm') as [Hwm Hwf].
    apply pairKey_samePair; auto. }
  assert (Hsub : forall mf, In mf (firstsBy keyOf [] (relationFields models)) ->
              In mf (relationFields models)).
  { generalize (@nil jsstring) as seen. generalize (relationFields models) as l.
    induction l as [|x l IH]; cbn [firstsBy]; intros seen mf; [contradiction|].
    destruct (JsSet.has (keyOf x) seen).
    - intros H. right. eapply IH. eassumption.
    - intros [->|H]; [now left | right; eapply IH; eassumption]. }
  rewrite extractRelationships_firsts.
  transitivity
    (map (recordOf models)
       (filter (fun mf => Js.streq (keyOf mf) (pairKey a b))
          (firstsBy keyOf [] (relationFields models)))).
  - revert Hsub. generalize (firstsBy keyOf [] (relationFields models)) as l.
    induction l as [|mf l IH]; cbn [map filter]; intros Hsub; [reflexivity|].
    rewrite (Hkey mf) by (apply Hsub; now left).
    cbn [recordOf RelationshipInfo.from RelationshipInfo.to].
    destruct (samePair _ _ _ _); cbn [map]; rewrite IH; auto;
      intros mf' H'; apply Hsub; now right.
  - rewrite firstsBy_of_key. cbn [JsSet.has Js.arrIncludes existsb].
    assert (Hfind : find (fun mf => Js.streq (keyOf mf) (pairKey a b)) (relationFields models)
                    = find (fun mf => samePair a b (ModelInfo.name (fst mf))
                                        (FieldInfo.type (snd mf)))
                        (relationFields models)).
    { revert Hkey. generalize (relationFields models) as l.
      induction l as [|mf l IH]; cbn [find]; intros Hkey; [reflexivity|].
      rewrite Hkey by now left. destruct (samePair _ _ _ _); [reflexivity|].
      apply IH. intros mf' Hmf'. apply Hkey. now right. }
    rewrite Hfind. clear Hfind. destruct (find _ (relationFields models)); reflexivity.
Qed.

(** C4 (amended). In a parsed schema, when the first relation field
    between two entities that the extraction visits, the entities in
    the order of their declarations and the fields in the order of
    their lines, is a list field of the one, and the first entity with
    the name of the other has no list as its first relation field that
    points back, the relationship list has exactly one record between
    the two: from the entity of the list field to the other,
    one-to-many, named after the list field. It is the only record when
    all the relation fields of the schema are between the two. *)
Theorem list_field_one_to_many (user post : ModelInfo.t) (posts : FieldInfo.t) :
  let models := fst (parseModels content) in
  find (fun mf => samePair (ModelInfo.name user) (ModelInfo.name post)
                    (ModelInfo.name (fst mf)) (FieldInfo.type (snd mf)))
    (relationFields models) = Some (user, posts) ->
  FieldInfo.type posts = ModelInfo.name post ->
  FieldInfo.isArray posts = true ->
  find (fun m => Js.streq (ModelInfo.name m) (ModelInfo.name post)) models = Some post ->
  (forall back,
     find (fun f => Js.streq (FieldInfo.type f) (ModelInfo.name user) && FieldInfo.isRelation f)
       (ModelInfo.fields post) = Some back ->
     FieldInfo.isArray back = false) ->
  filter (fun r => samePair (ModelInfo.name user) (ModelInfo.name post)
                     (RelationshipInfo.from r) (RelationshipInfo.to r))
    (extractRelationships models)
  = [RelationshipInfo.Make (ModelInfo.name user) (ModelInfo.name post) oneToMany
       (FieldInfo.name posts)]
  /\ ((forall mf, In mf (relationFields models) ->
         samePair (ModelInfo.name user) (ModelInfo.name post)
           (ModelInfo.name (fst mf)) (FieldInfo.type (snd mf)) = true) ->
      extractRelationships models
      = [RelationshipInfo.Make (ModelInfo.name user) (ModelInfo.name post) oneToMany
           (FieldInfo.name posts)]).
Proof.
  intros models Hfirst Htype Harray Hpost Hback.
  assert (Hin : In (user, posts) (relationFields models)).
  { apply find_some in Hfirst. tauto. }
  unfold relationFields in Hin. apply in_flat_map in Hin as [m [Hm Hin]].
  apply in_map_iff in Hin as [f [E Hf]]. injection E as -> ->.
  apply filter_In in Hf as [Hf Hrel].
  destruct (parseModels_wordNames content user Hm) as [Hwu Hwf].
  pose proof (Hwf posts Hf Hrel) as Hwp. rewrite Htype in Hwp.
  assert (Hrec : recordOf models (user, posts)
                 = RelationshipInfo.Make (ModelInfo.name user) (ModelInfo.name post) oneToMany
                     (FieldInfo.name posts)).
  { unfold recordOf, relationType. cbn [fst snd]. rewrite Harray, Htype. fold models.
    rewrite Hpost.
    destruct (find _ (ModelInfo.fields post)) as [back|] eqn:Eb; [|reflexivity].
    now rewrite (Hback back eq_refl). }
  assert (Hfilter : filter (fun r => samePair (ModelInfo.name user) (ModelInfo.name post)
                                       (RelationshipInfo.from r) (RelationshipInfo.to r))
                      (extractRelationships models)
                    = [RelationshipInfo.Make (ModelInfo.name user) (ModelInfo.name post)
                         oneToMany (FieldInfo.name posts)]).
  { unfold models. rewrite (records_between Hwu Hwp). fold models. now rewrite Hfirst, Hrec. }
  split; [exact Hfilter|].
  intros Hall. rewrite <- Hfilter. symmetry. apply forallb_filter_id.
  apply forallb_forall. intros r Hr. rewrite extractRelationships_firsts in Hr.
  apply in_map_iff in Hr as [mf [<- Hmf]].
  cbn [recordOf RelationshipInfo.from RelationshipInfo.to]. apply Hall.
  revert Hmf. generalize (@nil jsstring) as seen. generalize (relationFields models) as l.
  induction l as [|x l IH]; cbn [firstsBy]; intros seen; [contradiction|].
  destruct (JsSet.has (keyOf x) seen).
  - intros H. right. eapply IH. eassumption.
  - intros [->|H]; [now left | right; eapply IH; eassumption].
Qed.

End Scenario.

(** C4 at the schema of scenario B, written with the keyword [model]
    and a field per line. *)
Lemma list_field_one_to_many_witness :
  filter (fun r => samePair (str "User") (str "Post")
                     (RelationshipInfo.from r) (RelationshipInfo.to r))
    (extractRelationships (fst (parseModels Samples.scenarioB)))
  = [RelationshipInfo.Make (str "User") (str "Post") oneToMany (str "posts")]
  /\ ((forall mf, In mf (relationFields (fst (parseModels Samples.scenarioB))) ->
         samePair (str "User") (str "Post")
           (ModelInfo.name (fst mf)) (FieldInfo.type (snd mf)) = true) ->
      extractRelationships (fst (parseModels Samples.scenarioB))
      = [RelationshipInfo.Make (str "User") (str "Post") oneToMany (str "posts")]).
Proof.
  apply (@list_field_one_to_many Samples.scenarioB Samples.userModel Samples.postModel
           Samples.postsField).
  - vm_compute. reflexivity.
  - reflexivity.
  - reflexivity.
  - vm_compute. reflexivity.
  - intros back H. vm_compute in H. injection H as <-. reflexivity.
Defined.

(** C4 as stated fails. With the entity Post declared first, the one
    relationship of the two entities goes from Post to User, is
    one-to-one and is named after the field [author]; and the schema
    written in the words of the specification, with the keyword
    [entity] and the fields on one line, has no entity for the parser
    and no relationship. *)
Lemma declaration_order_decides :
  map ModelInfo.name (fst (parseModels Samples.scenarioBReversed)) = [str "Post"; str "User"]
  /\ In Samples.userModel (fst (parseModels Samples.scenarioBReversed))
  /\ In Samples.postModel (fst (parseModels Samples.scenarioBReversed))
  /\ extractRelationships (fst (parseModels Samples.scenarioBReversed))
     = [RelationshipInfo.Make (str "Post") (str "User") oneToOne (str "author")]
  /\ fst (parseModels Samples.scenarioBLiteral) = []
  /\ extractRelationships (fst (parseModels Samples.scenarioBLiteral)) = [].
Proof.
  vm_compute. repeat split; auto.
Qed.

End ScenarioProps.

(** ** Paths of plain names *)

Module PathFacts.

Lemma isPlain_iff (n : jsstring) :
  isPlain n = true <->
  n <> [] /\ ~ In "/"%char n /\ n <> str "." /\ n <> str "..".
Proof.
  unfold isPlain. rewrite !andb_true_iff, !negb_true_iff, !streq_neq.
  assert (Hne : Path.nonEmpty n = true <-> n <> []) by (destruct n; simpl; split; congruence).
  assert (Hsl : forallb Path.notSlash n = true <-> ~ In "/"%char n).
  { rewrite forallb_forall. split.
    - intros H Hin. apply H in Hin. discriminate.
    - intros H x Hx. unfold Path.notSlash, Path.isSlash.
      apply negb_true_iff, Ascii.eqb_neq. intros ->. contradiction. }
  rewrite Hne, Hsl. tauto.
Qed.

Lemma split_nonempty (sep : ascii) (s : jsstring) : Js.split sep s <> [].
Proof.
  destruct s as [|c s]; simpl; [discriminate|].
  destruct (Ascii.eqb c sep); [discriminate|].
  destruct (Js.split sep s); discriminate.
Qed.

Lemma split_app (sep : ascii) (a b : jsstring) :
  Js.split sep (a ++ sep :: b) = Js.split sep a ++ Js.split sep b.
Proof.
  induction a as [|c a IH]; simpl.
  - now rewrite Ascii.eqb_refl.
  - destruct (Ascii.eqb c sep); [now rewrite IH|].
    rewrite IH. pose proof (split_nonempty sep a) as Hne.
    destruct (Js.split sep a); [contradiction | reflexivity].
Qed.

Lemma split_no_sep (sep : ascii) (s : jsstring) : ~ In sep s -> Js.split sep s = [s].
Proof.
  induction s as [|c s IH]; simpl; intros H; [reflexivity|].
  destruct (Ascii.eqb c sep) eqn:E.
  - apply Ascii.eqb_eq in E. subst. exfalso. apply H. now left.
  - rewrite IH; [reflexivity|]. intros Hin. apply H. now right.
Qed.

Lemma plain_no_slash (n : jsstring) : isPlain n = true -> ~ In "/"%char n.
Proof. intros H. now apply isPlain_iff in H. Qed.

(** Splitting what [join] joined. *)
Lemma split_join (segs : list jsstring) :
  segs <> [] -> forallb isPlain segs = true ->
  Js.split "/" (Js.join (str "/") segs) = segs.
Proof.
  induction segs as [|s segs IH]; [congruence|]. intros _ Hp.
  simpl in Hp. apply andb_true_iff in Hp as [Hs Hp].
  destruct segs as [|s' segs].
  - simpl. now apply split_no_sep, plain_no_slash.
  - change (Js.join (str "/") (s :: s' :: segs))
      with (s ++ "/"%char :: Js.join (str "/") (s' :: segs)).
    rewrite split_app, IH by (assumption || discriminate).
    rewrite split_no_sep by now apply plain_no_slash. reflexivity.
Qed.

Lemma join_nil_iff (segs : list jsstring) :
  forallb isPlain segs = true -> (Js.join (str "/") segs = [] <-> segs = []).
Proof.
  intros Hp. split; [|now intros ->].
  destruct segs as [|s segs]; [reflexivity|]. simpl in Hp.
  apply andb_true_iff in Hp as [Hs _]. apply isPlain_iff in Hs as [Hs _].
  destruct segs; simpl; destruct s; simpl; congruence.
Qed.

Lemma join_inj (l1 l2 : list jsstring) :
  forallb isPlain l1 = true -> forallb isPlain l2 = true ->
  Js.join (str "/") l1 = Js.join (str "/") l2 -> l1 = l2.
Proof.
  intros H1 H2 E.
  destruct l1 as [|a l1].
  - symmetry. apply (join_nil_iff _ H2). now rewrite <- E.
  - destruct l2 as [|b l2].
    + apply (join_nil_iff _ H1). now rewrite E.
    + rewrite <- (split_join (segs:=a :: l1)), <- (split_join (segs:=b :: l2));
        try assumption; try discriminate. now rewrite E.
Qed.

Lemma absolute_inj (l1 l2 : list jsstring) :
  forallb isPlain l1 = true -> forallb isPlain l2 = true ->
  absolute l1 = absolute l2 -> l1 = l2.
Proof.
  unfold absolute. intros H1 H2 E. apply app_inv_head in E. now apply join_inj.
Qed.

(** The segments of an absolute path of plain names. *)
Lemma segments_absolute (segs : list jsstring) :
  forallb isPlain segs = true ->
  filter Path.nonEmpty (Path.segments (absolute segs)) = segs.
Proof.
  intros Hp. unfold Path.segments, absolute.
  change (str "/" ++ Js.join (str "/") segs) with ([] ++ "/"%char :: Js.join (str "/") segs).
  rewrite split_app. simpl.
  destruct segs as [|s segs]; [reflexivity|].
  rewrite split_join by (assumption || discriminate).
  apply forallb_filter_id. rewrite forallb_forall in *. intros x Hx.
  apply Hp in Hx. unfold isPlain in Hx. now rewrite !andb_true_iff in Hx.
Qed.

Lemma plain_nonEmpty (segs : list jsstring) :
  forallb isPlain segs = true -> filter Path.nonEmpty segs = segs.
Proof.
  intros Hp. apply forallb_filter_id. rewrite forallb_forall in *. intros x Hx.
  apply Hp in Hx. unfold isPlain in Hx. now rewrite !andb_true_iff in Hx.
Qed.

Lemma normalizeSegs_loose (allow : bool) (segs : list jsstring) :
  loose segs ->
  forall acc, Path.normalizeSegs allow acc segs = rev acc ++ filter Path.nonEmpty segs.
Proof.
  induction segs as [|s segs IH]; intros Hl acc; cbn [Path.normalizeSegs filter].
  - now rewrite app_nil_r.
  - assert (Hl' : loose segs) by (intros x Hx; apply Hl; now right).
    destruct (Hl s (or_introl eq_refl)) as [->|Hs].
    + cbn. now apply IH.
    + apply isPlain_iff in Hs as [Hne [_ [Hd Hdd]]].
      apply streq_neq in Hd, Hdd. rewrite Hd, Hdd.
      replace (Js.streq s []) with false by (symmetry; now apply streq_neq).
      replace (Path.nonEmpty s) with true by (destruct s; [contradiction | reflexivity]).
      cbn [orb]. rewrite IH by assumption. cbn [rev]. now rewrite <- app_assoc.
Qed.

Lemma loose_segments_absolute (segs : list jsstring) :
  forallb isPlain segs = true -> loose (Path.segments (absolute segs)).
Proof.
  intros Hp s Hs. unfold Path.segments, absolute in Hs.
  change (str "/" ++ Js.join (str "/") segs) with ([] ++ "/"%char :: Js.join (str "/") segs) in Hs.
  rewrite split_app in Hs. simpl in Hs. destruct Hs as [<-|Hs]; [now left|].
  destruct segs as [|s0 segs].
  - simpl in Hs. destruct Hs as [<-|[]]. now left.
  - rewrite split_join in Hs by (assumption || discriminate).
    right. rewrite forallb_forall in Hp. now apply Hp.
Qed.

(** The last character of a path of plain names is no slash. *)
Lemma trailing_app (a b : jsstring) :
  b <> [] -> Path.hasTrailingSlash (a ++ b) = Path.hasTrailingSlash b.
Proof.
  intros Hb. unfold Path.hasTrailingSlash. rewrite rev_app_distr.
  destruct (rev b) as [|c r] eqn:E; [|reflexivity].
  apply (f_equal (@rev ascii)) in E. rewrite rev_involutive in E. contradiction.
Qed.

Lemma trailing_plain (n : jsstring) : isPlain n = true -> Path.hasTrailingSlash n = false.
Proof.
  intros Hp. apply plain_no_slash in Hp. unfold Path.hasTrailingSlash.
  destruct (rev n) as [|c r] eqn:E; [reflexivity|].
  unfold Path.isSlash. apply Ascii.eqb_neq. intros ->. apply Hp.
  apply in_rev. rewrite E. now left.
Qed.

Lemma trailing_join (segs : list jsstring) :
  forallb isPlain segs = true -> Path.hasTrailingSlash (Js.join (str "/") segs) = false.
Proof.
  induction segs as [|s segs IH]; [reflexivity|]. intros Hp.
  simpl in Hp. apply andb_true_iff in Hp as [Hs Hp].
  destruct segs as [|s' segs]; [now apply trailing_plain|].
  change (Js.join (str "/") (s :: s' :: segs))
    with (s ++ str "/" ++ Js.join (str "/") (s' :: segs)).
  rewrite app_assoc, trailing_app; [now apply IH|].
  intros E. apply (join_nil_iff _ Hp) in E. discriminate.
Qed.

Lemma trailing_absolute (segs : list jsstring) :
  segs <> [] -> forallb isPlain segs = true -> Path.hasTrailingSlash (absolute segs) = false.
Proof.
  intros Hne Hp. unfold absolute. rewrite trailing_app; [now apply trailing_join|].
  intros E. now apply (join_nil_iff _ Hp) in E.
Qed.

Lemma join_app (a b : list jsstring) :
  a <> [] -> b <> [] ->
  Js.join (str "/") (a ++ b) = Js.join (str "/") a ++ str "/" ++ Js.join (str "/") b.
Proof.
  intros Ha Hb. induction a as [|x a IH]; [contradiction|].
  destruct a as [|y a].
  - simpl. destruct b; [contradiction | reflexivity].
  - change (Js.join (str "/") ((x :: y :: a) ++ b))
      with (x ++ str "/" ++ Js.join (str "/") ((y :: a) ++ b)).
    rewrite IH by discriminate.
    change (Js.join (str "/") (x :: y :: a)) with (x ++ str "/" ++ Js.join (str "/") (y :: a)).
    now rewrite <- !app_assoc.
Qed.

(** Normalizing an absolute path of plain names, more plain names
    appended, changes nothing. *)
Lemma normalize_of_absolute (p : jsstring) :
  Path.isAbsolute p = true ->
  Path.normalize p
  = match Path.normalizeString p false with
    | [] => str "/"
    | n => str "/" ++ n ++ (if Path.hasTrailingSlash p then str "/" else [])
    end.
Proof.
  intros Ha. destruct p as [|c p]; [discriminate|].
  unfold Path.normalize. rewrite Ha. cbn [negb]. cbv zeta.
  destruct (Path.normalizeString (c :: p) false); reflexivity.
Qed.

Lemma normalizeString_absolute (segs : list jsstring) :
  forallb isPlain segs = true ->
  Path.normalizeString (absolute segs) false = Js.join (str "/") segs.
Proof.
  intros Hp. unfold Path.normalizeString.
  rewrite normalizeSegs_loose by now apply loose_segments_absolute.
  now rewrite segments_absolute.
Qed.

Lemma normalize_absolute (segs : list jsstring) :
  forallb isPlain segs = true -> Path.normalize (absolute segs) = absolute segs.
Proof.
  intros Hp. rewrite normalize_of_absolute by reflexivity.
  rewrite normalizeString_absolute by assumption.
  destruct segs as [|s segs]; [reflexivity|].
  rewrite trailing_absolute by (assumption || discriminate).
  destruct (Js.join (str "/") (s :: segs)) as [|c j] eqn:Ej.
  - apply (join_nil_iff _ Hp) in Ej. discriminate.
  - unfold absolute. rewrite Ej. now rewrite app_nil_r.
Qed.

Lemma absolute_app (segs more : list jsstring) :
  more <> [] ->
  Js.join (str "/") (absolute segs :: more) = absolute segs ++ str "/" ++ Js.join (str "/") more.
Proof.
  intros Hm. destruct more; [contradiction | reflexivity].
Qed.

Lemma segments_absolute_more (segs more : list jsstring) :
  forallb isPlain segs = true -> forallb isPlain more = true -> more <> [] ->
  let p := absolute segs ++ str "/" ++ Js.join (str "/") more in
  loose (Path.segments p) /\ filter Path.nonEmpty (Path.segments p) = segs ++ more.
Proof.
  intros Hs Hm Hne p. unfold p, Path.segments.
  change (absolute segs ++ str "/" ++ Js.join (str "/") more)
    with (absolute segs ++ "/"%char :: Js.join (str "/") more).
  rewrite split_app. rewrite split_join by assumption. split.
  - intros s Hin. apply in_app_or in Hin as [Hin|Hin].
    + now apply (@loose_segments_absolute segs Hs).
    + right. rewrite forallb_forall in Hm. now apply Hm.
  - rewrite filter_app. fold (Path.segments (absolute segs)).
    now rewrite segments_absolute, plain_nonEmpty.
Qed.

Lemma join_absolute (segs more : list jsstring) :
  forallb isPlain segs = true -> forallb isPlain more = true ->
  Path.join (absolute segs :: more) = absolute (segs ++ more).
Proof.
  intros Hs Hm. unfold Path.join.
  replace (filter Path.nonEmpty (absolute segs :: more)) with (absolute segs :: more)
    by (cbn [filter]; rewrite plain_nonEmpty by assumption; reflexivity).
  destruct more as [|m more].
  - cbn [Js.join]. rewrite app_nil_r. now apply normalize_absolute.
  - rewrite absolute_app by discriminate.
    destruct (@segments_absolute_more segs (m :: more) Hs Hm) as [Hl Hf]; [discriminate|].
    rewrite normalize_of_absolute by reflexivity.
    unfold Path.normalizeString. rewrite normalizeSegs_loose, Hf by assumption.
    cbn [rev app].
    assert (Hp : forallb isPlain (segs ++ m :: more) = true)
      by (rewrite forallb_app; now rewrite Hs, Hm).
    rewrite app_assoc, trailing_app, trailing_join by
      (assumption || (intros E; apply (join_nil_iff _ Hm) in E; discriminate)).
    destruct (Js.join (str "/") (segs ++ m :: more)) as [|c j] eqn:Ej.
    { apply (join_nil_iff _ Hp) in Ej. destruct segs; discriminate. }
    unfold absolute. rewrite Ej. now rewrite app_nil_r.
Qed.

(** Resolving an absolute path of plain names gives its names. *)
Lemma resolveSegs_absolute (cwd : jsstring) (segs : list jsstring) :
  forallb isPlain segs = true -> Path.resolveSegs cwd [absolute segs] = segs.
Proof.
  intros Hp. unfold Path.resolveSegs. cbn [rev app Path.resolveArgs].
  change (absolute segs) with ("/"%char :: Js.join (str "/") segs) at 1. cbv iota.
  replace (Path.isAbsolute (absolute segs)) with true by reflexivity.
  unfold Path.segments.
  change (absolute segs ++ str "/" ++ []) with (absolute segs ++ "/"%char :: []).
  rewrite split_app. rewrite normalizeSegs_loose.
  - rewrite filter_app. fold (Path.segments (absolute segs)).
    rewrite segments_absolute by assumption. cbn. now rewrite app_nil_r.
  - intros s Hs. apply in_app_or in Hs as [Hs|Hs].
    + now apply (@loose_segments_absolute segs Hp).
    + cbn in Hs. destruct Hs as [<-|[]]. now left.
Qed.

Lemma dropCommon_app (a b : list jsstring) : Path.dropCommon a (a ++ b) = ([], b).
Proof.
  induction a as [|x a IH]; cbn [Path.dropCommon app].
  - now destruct b.
  - now rewrite streq_refl.
Qed.

(** The path of a file relative to a directory above it. *)
Lemma relative_absolute (cwd : jsstring) (segs more : list jsstring) :
  forallb isPlain segs = true -> forallb isPlain more = true -> more <> [] ->
  Path.relative cwd (absolute segs) (absolute (segs ++ more)) = Js.join (str "/") more.
Proof.
  intros Hs Hm Hne. unfold Path.relative.
  assert (Hp : forallb isPlain (segs ++ more) = true)
    by (rewrite forallb_app; now rewrite Hs, Hm).
  destruct (Js.streq (absolute segs) (absolute (segs ++ more))) eqn:E.
  - apply streq_iff in E. apply absolute_inj in E; try assumption.
    rewrite <- (app_nil_r segs) in E at 1. apply app_inv_head in E. congruence.
  - rewrite !resolveSegs_absolute by assumption. now rewrite dropCommon_app.
Qed.

(** Looking up an absolute path of plain names goes down the tree. *)
Lemma walk_plain (segs : list jsstring) :
  forallb isPlain segs = true ->
  forall up entries, walk up (Dir entries) segs = descend entries segs.
Proof.
  induction segs as [|s segs IH]; intros Hp up entries; [reflexivity|].
  cbn [forallb] in Hp. apply andb_true_iff in Hp as [Hs Hp].
  cbn [walk descend].
  apply isPlain_iff in Hs as [Hne [_ [Hd Hdd]]].
  apply streq_neq in Hd, Hdd. rewrite Hd, Hdd.
  replace (Js.streq s []) with false by (symmetry; now apply streq_neq).
  cbn [orb]. destruct (child s entries) as [[content|entries']|]; [|now apply IH|reflexivity].
  destruct segs; reflexivity.
Qed.

Lemma lookup_absolute (fs : filesystem) (segs : list jsstring) :
  forallb isPlain segs = true -> lookup fs (absolute segs) = descend (root fs) segs.
Proof.
  intros Hp. unfold lookup.
  change (absolute segs) with ("/"%char :: Js.join (str "/") segs) at 1. cbv iota.
  replace (Path.isAbsolute (absolute segs)) with true by reflexivity.
  unfold Path.segments, absolute.
  change (str "/" ++ Js.join (str "/") segs) with ([] ++ "/"%char :: Js.join (str "/") segs).
  rewrite split_app. cbn [Js.split app walk Js.streq orb].
  destruct segs as [|s segs]; [reflexivity|].
  rewrite split_join by (assumption || discriminate). now apply walk_plain.
Qed.

End PathFacts.

(** ** Walks of a well-formed tree *)

Module TreeFacts.
Import Analyzer PathFacts.

Lemma node_induction (P : node -> Prop) :
  (forall content, P (File content)) ->
  (forall entries, (forall name c, In (name, c) entries -> P c) -> P (Dir entries)) ->
  forall n, P n.
Proof.
  intros HF HD. fix IH 1. intros [content|entries]; [apply HF|].
  apply HD. induction entries as [|[name0 c0] entries IHe]; intros name c Hin.
  - destruct Hin.
  - destruct Hin as [E|Hin].
    + injection E as _ <-. apply IH.
    + eapply IHe. eassumption.
Qed.

Lemma nodupb_NoDup (l : list jsstring) : nodupb l = true -> NoDup l.
Proof.
  induction l as [|x l IH]; cbn [nodupb]; intros H; constructor.
  - apply andb_true_iff in H as [H _]. apply negb_true_iff in H.
    intros Hin. apply arrIncludes_iff in Hin. congruence.
  - apply andb_true_iff in H as [_ H]. now apply IH.
Qed.

Lemma wellFormed_Dir (entries : list (jsstring * node)) :
  wellFormed (Dir entries) = true ->
  forallb isPlain (names entries) = true /\ NoDup (names entries)
  /\ forall name c, In (name, c) entries -> wellFormed c = true.
Proof.
  cbn [wellFormed]. intros H.
  apply andb_true_iff in H as [H Hall]. apply andb_true_iff in H as [Hp Hnd].
  split; [assumption|]. split; [now apply nodupb_NoDup|].
  clear Hp Hnd. induction entries as [|[name0 c0] entries IH]; intros name c Hin.
  - destruct Hin.
  - apply andb_true_iff in Hall as [Hc Hall]. destruct Hin as [E|Hin].
    + now injection E as _ <-.
    + eapply IH; eassumption.
Qed.

Lemma child_In (name : jsstring) (entries : list (jsstring * node)) (c : node) :
  child name entries = Some c -> In (name, c) entries.
Proof.
  induction entries as [|[n0 c0] entries IH]; cbn [child]; [discriminate|].
  destruct (Js.streq name n0) eqn:E.
  - apply streq_iff in E. subst. intros [= ->]. now left.
  - intros H. right. now apply IH.
Qed.

Lemma descend_wellFormed (segs : list jsstring) :
  forall entries n,
    wellFormed (Dir entries) = true -> descend entries segs = Some n -> wellFormed n = true.
Proof.
  induction segs as [|s segs IH]; intros entries n Hwf; cbn [descend].
  - now intros [= <-].
  - destruct (child s entries) as [[content|entries']|] eqn:Ec; [| |discriminate].
    + destruct segs; [|discriminate]. now intros [= <-].
    + apply IH. apply child_In in Ec.
      apply wellFormed_Dir in Hwf as [_ [_ Hwf]]. eapply Hwf. eassumption.
Qed.

(** The files [findApiRoutes] finds, by their names. *)
Lemma findApiRoutesIn_names (n : node) :
  forall dsegs,
    wellFormed n = true -> forallb isPlain dsegs = true ->
    findApiRoutesIn (absolute dsegs) n
    = map (fun ns => absolute (dsegs ++ ns)) (routeNamesIn n).
Proof.
  induction n as [content|entries IH] using node_induction; intros dsegs Hwf Hd;
    [reflexivity|].
  apply wellFormed_Dir in Hwf as [Hp [_ Hwf]].
  cbn [findApiRoutesIn routeNamesIn].
  induction entries as [|[name c] entries IHe]; [reflexivity|].
  cbn [names map forallb fst] in Hp. apply andb_true_iff in Hp as [Hname Hp].
  assert (Hjoin : Path.join [absolute dsegs; name] = absolute (dsegs ++ [name])).
  { apply join_absolute; [assumption|]. cbn [forallb]. now rewrite Hname. }
  rewrite Hjoin.
  rewrite (IHe (fun n0 c0 H => IH n0 c0 (or_intror H)) Hp
             (fun n0 c0 H => Hwf n0 c0 (or_intror H))).
  destruct (isDirectory c).
  - rewrite map_app. f_equal.
    rewrite (IH name c (or_introl eq_refl) (dsegs ++ [name])).
    + rewrite map_map. apply map_ext. intros ns. now rewrite <- app_assoc.
    + eapply Hwf. now left.
    + rewrite forallb_app. cbn [forallb]. now rewrite Hd, Hname.
  - destruct (isRouteFile name); reflexivity.
Qed.

(** The names of the route files are plain, and no file is found twice. *)
Lemma routeNamesIn_plain (n : node) :
  wellFormed n = true ->
  forall ns, In ns (routeNamesIn n) -> ns <> [] /\ forallb isPlain ns = true.
Proof.
  induction n as [content|entries IH] using node_induction; intros Hwf ns;
    [contradiction|].
  apply wellFormed_Dir in Hwf as [Hp [_ Hwf]].
  cbn [routeNamesIn].
  induction entries as [|[name c] entries IHe]; [contradiction|].
  cbn [names map forallb fst] in Hp. apply andb_true_iff in Hp as [Hname Hp].
  assert (Hrest : In ns
            ((fix each (es : list (jsstring * node)) : list (list jsstring) :=
                match es with
                | [] => []
                | (name, c) :: es' =>
                    if isDirectory c then map (cons name) (routeNamesIn c) ++ each es'
                    else if isRouteFile name then [name] :: each es' else each es'
                end) entries) -> ns <> [] /\ forallb isPlain ns = true).
  { exact (IHe (fun n0 c0 H => IH n0 c0 (or_intror H)) Hp
             (fun n0 c0 H => Hwf n0 c0 (or_intror H))). }
  destruct (isDirectory c).
  - intros Hin. apply in_app_or in Hin as [Hin|Hin]; [|now apply Hrest].
    apply in_map_iff in Hin as [ns' [<- Hin]].
    apply (IH name c (or_introl eq_refl)) in Hin as [_ Hin]; [|eapply Hwf; now left].
    split; [discriminate|]. cbn [forallb]. now rewrite Hname, Hin.
  - destruct (isRouteFile name); [|exact Hrest].
    intros [<-|Hin]; [|now apply Hrest].
    split; [discriminate|]. cbn [forallb]. now rewrite Hname.
Qed.

Lemma routeNamesIn_head (entries : list (jsstring * node)) (ns : list jsstring) :
  In ns (routeNamesIn (Dir entries)) -> exists name rest, ns = name :: rest /\ In name (names entries).
Proof.
  cbn [routeNamesIn].
  induction entries as [|[name c] entries IHe]; [contradiction|].
  assert (Hrest : (exists name rest, ns = name :: rest /\ In name (names entries)) ->
                  exists name0 rest, ns = name0 :: rest /\ In name0 (names ((name, c) :: entries))).
  { intros [n0 [rest [-> Hin]]]. exists n0, rest. split; [reflexivity | now right]. }
  destruct (isDirectory c).
  - intros Hin. apply in_app_or in Hin as [Hin|Hin]; [|now apply Hrest, IHe].
    apply in_map_iff in Hin as [ns' [<- Hin]]. exists name, ns'. split; [reflexivity | now left].
  - destruct (isRouteFile name); [|intros Hin; now apply Hrest, IHe].
    intros [<-|Hin]; [|now apply Hrest, IHe].
    exists name, []. split; [reflexivity | now left].
Qed.

Lemma routeNamesIn_NoDup (n : node) : wellFormed n = true -> NoDup (routeNamesIn n).
Proof.
  induction n as [content|entries IH] using node_induction; intros Hwf; [constructor|].
  apply wellFormed_Dir in Hwf as [_ [Hnd Hwf]].
  induction entries as [|[name c] entries IHe]; [constructor|].
  cbn [names map fst] in Hnd. inversion Hnd as [|? ? Hname Hnd']; subst.
  assert (Hrest : NoDup (routeNamesIn (Dir entries))).
  { exact (IHe (fun n0 c0 H => IH n0 c0 (or_intror H)) Hnd'
             (fun n0 c0 H => Hwf n0 c0 (or_intror H))). }
  assert (Hother : forall rest, ~ In (name :: rest) (routeNamesIn (Dir entries))).
  { intros rest Hin. apply routeNamesIn_head in Hin as [n0 [r0 [E Hin]]].
    injection E as <- _. contradiction. }
  change (routeNamesIn (Dir ((name, c) :: entries)))
    with (if isDirectory c then map (cons name) (routeNamesIn c) ++ routeNamesIn (Dir entries)
          else if isRouteFile name then [name] :: routeNamesIn (Dir entries)
               else routeNamesIn (Dir entries)).
  destruct (isDirectory c).
  - apply NoDup_app; [|assumption|].
    + apply NoDup_map_inj; [intros a b _ _ E; now injection E|].
      apply (IH name c (or_introl eq_refl)). eapply Hwf. now left.
    + intros ns Hin1 Hin2. apply in_map_iff in Hin1 as [rest [<- _]].
      now apply (Hother rest).
  - destruct (isRouteFile name); [|assumption].
    constructor; [apply Hother | assumption].
Qed.

End TreeFacts.

Lemma filter_perm {A : Type} (f : A -> bool) (l l' : list A) :
  Permutation l l' -> Permutation (filter f l) (filter f l').
Proof.
  induction 1 as [|x l l' _ IH|x y l|l l' l'' _ IH1 _ IH2]; cbn [filter].
  - constructor.
  - destruct (f x); [now constructor | assumption].
  - destruct (f x), (f y); try reflexivity. apply perm_swap.
  - now transitivity (filter f l').
Qed.

(** ** Records per route file *)

Module RouteFileProps.
Import Analyzer Spec PathFacts TreeFacts.

Lemma isPrefix_app (a b x y : list jsstring) :
  a ++ x = b ++ y -> isPrefix a b = true \/ isPrefix b a = true.
Proof.
  revert b. induction a as [|u a IH]; intros [|v b] E; cbn [isPrefix]; auto.
  cbn [app] in E. injection E as -> E. rewrite streq_refl. cbn [andb]. now apply IH.
Qed.

Section Discovery.
Variable fs : filesystem.
Variable psegs : list jsstring.
Hypothesis fs_wellFormed : wellFormed (Dir (root fs)) = true.
Hypothesis psegs_plain : forallb isPlain psegs = true.

(** What [findApiRoutes] returns for a directory below the project. *)
Lemma findApiRoutes_names (pre : list jsstring) (files : list jsstring) :
  forallb isPlain pre = true ->
  findApiRoutes fs (absolute (psegs ++ pre)) = Ok files ->
  exists nss,
    files = map (fun ns => absolute (psegs ++ pre ++ ns)) nss
    /\ NoDup nss /\ forall ns, In ns nss -> ns <> [] /\ forallb isPlain ns = true.
Proof.
  intros Hpre. assert (Hd : forallb isPlain (psegs ++ pre) = true)
    by (rewrite forallb_app; now rewrite psegs_plain, Hpre).
  unfold findApiRoutes, existsSync, readdirSync. rewrite lookup_absolute by assumption.
  destruct (descend (root fs) (psegs ++ pre)) as [[content|entries]|] eqn:E; cbn [negb bind].
  - discriminate.
  - intros H.
    assert (Hf : files = findApiRoutesIn (absolute (psegs ++ pre)) (Dir entries)) by congruence.
    clear H. subst files. apply descend_wellFormed in E; [|assumption].
    exists (routeNamesIn (Dir entries)). split; [|split].
    + rewrite findApiRoutesIn_names by assumption.
      apply map_ext. intros ns. now rewrite app_assoc.
    + now apply routeNamesIn_NoDup.
    + now apply routeNamesIn_plain.
  - intros [= <-]. exists []. split; [reflexivity|]. split; [constructor | contradiction].
Qed.

(** The route files of directories that are apart, by their names below
    the project: no file is found twice. *)
Lemma routeFiles_names (pres : list (list jsstring)) :
  forall files,
    forallb (forallb isPlain) pres = true -> apart pres = true ->
    routeFiles fs (map (fun pre => absolute (psegs ++ pre)) pres) = Ok files ->
    exists nss,
      files = map (fun ns => absolute (psegs ++ ns)) nss
      /\ NoDup nss
      /\ (forall ns, In ns nss -> ns <> [] /\ forallb isPlain ns = true)
      /\ (forall ns, In ns nss -> exists pre rest, In pre pres /\ ns = pre ++ rest).
Proof.
  induction pres as [|pre pres IH]; intros files Hplain Hapart; cbn [map routeFiles].
  - intros [= <-]. exists []. repeat split; (constructor || contradiction).
  - cbn [forallb] in Hplain. apply andb_true_iff in Hplain as [Hpre Hplain].
    cbn [apart] in Hapart. apply andb_true_iff in Hapart as [Hpre_apart Hapart].
    destruct (findApiRoutes fs (absolute (psegs ++ pre))) as [files1|] eqn:E1;
      cbn [bind]; [|discriminate].
    destruct (routeFiles fs _) as [files2|] eqn:E2; cbn [bind]; [|discriminate].
    intros [= <-].
    apply findApiRoutes_names in E1 as [nss1 [-> [Hnd1 Hp1]]]; [|assumption].
    destruct (IH files2 Hplain Hapart eq_refl) as [nss2 [-> [Hnd2 [Hp2 Hfrom2]]]].
    exists (map (app pre) nss1 ++ nss2). split; [|split; [|split]].
    + rewrite map_app, map_map. reflexivity.
    + apply NoDup_app; [|assumption|].
      * apply NoDup_map_inj; [|assumption]. intros a b _ _. apply app_inv_head.
      * intros ns H1 H2. apply in_map_iff in H1 as [rest1 [<- _]].
        apply Hfrom2 in H2 as [pre2 [rest2 [Hpre2 E]]].
        rewrite forallb_forall in Hpre_apart. apply Hpre_apart in Hpre2.
        apply andb_true_iff in Hpre2 as [Ha Hb]. apply negb_true_iff in Ha, Hb.
        apply isPrefix_app in E as [E|E]; congruence.
    + intros ns Hin. apply in_app_or in Hin as [Hin|Hin]; [|now apply Hp2].
      apply in_map_iff in Hin as [rest [<- Hin]]. apply Hp1 in Hin as [Hne Hp].
      split; [destruct pre, rest; try discriminate; congruence|].
      rewrite forallb_app. now rewrite Hpre, Hp.
    + intros ns Hin. apply in_app_or in Hin as [Hin|Hin].
      * apply in_map_iff in Hin as [rest [<- _]]. exists pre, rest. split; [now left | reflexivity].
      * apply Hfrom2 in Hin as [pre2 [rest [Hpre2 ->]]]. exists pre2, rest.
        split; [now right | reflexivity].
Qed.

Lemma possibleApiDirs_absolute :
  possibleApiDirs (absolute psegs) = map (fun pre => absolute (psegs ++ pre)) apiPrefixes.
Proof.
  unfold possibleApiDirs, apiPrefixes. cbn [map].
  now rewrite !join_absolute by (assumption || reflexivity).
Qed.

(** No two route files of a project have the same relative path. *)
Lemma routeFiles_relative (files : list jsstring) :
  routeFiles fs (possibleApiDirs (absolute psegs)) = Ok files ->
  NoDup (map (Path.relative (cwd fs) (absolute psegs)) files).
Proof.
  rewrite possibleApiDirs_absolute. intros H.
  apply routeFiles_names in H as [nss [-> [Hnd [Hp _]]]]; [|reflexivity|reflexivity].
  rewrite map_map. apply NoDup_map_inj; [|assumption].
  intros a b Ha Hb. apply Hp in Ha as [Hane Ha], Hb as [Hbne Hb].
  rewrite !relative_absolute by assumption. now apply join_inj.
Qed.

End Discovery.

Section Records.
Variable localeCompare : jsstring -> jsstring -> comparison.
Variable fs : filesystem.
Variable psegs : list jsstring.

Lemma collectRoutes_flat (projectPath : jsstring) (apiDirs : list jsstring) :
  collectRoutes fs projectPath apiDirs
  = (files <- routeFiles fs apiDirs ;; Ok (flat_map (routesOfFile fs projectPath) files)).
Proof.
  induction apiDirs as [|d dirs IH]; cbn [collectRoutes routeFiles bind]; [reflexivity|].
  destruct (findApiRoutes fs d) as [files|]; cbn [bind]; [|reflexivity].
  rewrite IH. destruct (routeFiles fs dirs) as [more|]; cbn [bind]; [|reflexivity].
  now rewrite flat_map_app.
Qed.

Lemma routesOfFile_read (projectPath routeFile content : jsstring) :
  readFileSync fs routeFile = Ok content ->
  routesOfFile fs projectPath routeFile
  = map (fun method =>
           RouteInfo.Make (pathToApiRoute fs routeFile projectPath) method
             (extractFeature (pathToApiRoute fs routeFile projectPath))
             (extractAuthType content)
             (Path.relative (cwd fs) projectPath routeFile))
      (extractMethods content).
Proof.
  intros H. unfold routesOfFile. now rewrite H.
Qed.

Lemma routesOfFile_file (projectPath routeFile : jsstring) (r : RouteInfo.t) :
  In r (routesOfFile fs projectPath routeFile) ->
  RouteInfo.file r = Path.relative (cwd fs) projectPath routeFile.
Proof.
  unfold routesOfFile. destruct (readFileSync fs routeFile) as [content|]; cbn [bind tryCatch].
  - intros H. apply in_map_iff in H as [m [<- _]]. reflexivity.
  - contradiction.
Qed.

(** Among the records of files with distinct relative paths, those that
    name one file are the records of that file. *)
Lemma records_of_file (projectPath : jsstring) (files : list jsstring) (routeFile : jsstring) :
  NoDup (map (Path.relative (cwd fs) projectPath) files) -> In routeFile files ->
  filter (fun r => Js.streq (RouteInfo.file r)
                     (Path.relative (cwd fs) projectPath routeFile))
    (flat_map (routesOfFile fs projectPath) files)
  = routesOfFile fs projectPath routeFile.
Proof.
  set (rel := Path.relative (cwd fs) projectPath).
  assert (Hall : forall f, filter (fun r => Js.streq (RouteInfo.file r) (rel f))
                             (routesOfFile fs projectPath f)
                           = routesOfFile fs projectPath f).
  { intros f. apply forallb_filter_id. apply forallb_forall. intros r Hr.
    apply routesOfFile_file in Hr. apply streq_iff. exact Hr. }
  assert (Hnone : forall f k, rel f <> k ->
            filter (fun r => Js.streq (RouteInfo.file r) k) (routesOfFile fs projectPath f) = []).
  { intros f k Hk.
    destruct (filter _ (routesOfFile fs projectPath f)) as [|r l] eqn:E; [reflexivity|].
    exfalso. assert (Hr : In r (filter (fun r => Js.streq (RouteInfo.file r) k)
                                  (routesOfFile fs projectPath f))) by (rewrite E; now left).
    apply filter_In in Hr as [Hr Hk']. apply routesOfFile_file in Hr.
    apply streq_iff in Hk'. apply Hk. unfold rel. now rewrite <- Hr. }
  induction files as [|f files IH]; intros Hnd Hin; [contradiction|].
  cbn [map] in Hnd. inversion Hnd as [|? ? Hf Hnd']; subst.
  cbn [flat_map]. rewrite filter_app.
  assert (Hrest : forall k, ~ In k (map rel files) ->
            filter (fun r => Js.streq (RouteInfo.file r) k)
              (flat_map (routesOfFile fs projectPath) files) = []).
  { intros k Hk. clear IH Hnd Hnd' Hin Hf. induction files as [|g files IHf]; [reflexivity|].
    cbn [flat_map]. rewrite filter_app, Hnone, IHf; [reflexivity| |].
    - intros H. apply Hk. now right.
    - intros H. apply Hk. left. exact H. }
  destruct Hin as [->|Hin].
  - rewrite Hall, Hrest by assumption. apply app_nil_r.
  - rewrite Hnone, IH by (assumption || (intros E; apply Hf; rewrite E; now apply in_map)).
    reflexivity.
Qed.

Lemma extractMethods_NoDup (content : jsstring) : NoDup (extractMethods content).
Proof.
  unfold extractMethods. apply NoDup_filter. unfold HTTP_METHODS.
  repeat constructor; cbn [In]; intuition discriminate.
Qed.

Lemma extractMethods_In (content : jsstring) (m : HttpMethod) :
  In m (extractMethods content)
  <-> existsb (fun pattern => test true pattern content) (methodPatterns m) = true.
Proof.
  unfold extractMethods. rewrite filter_In. split; [tauto|]. intros H. split; [|exact H].
  unfold HTTP_METHODS. destruct m; cbn [In]; tauto.
Qed.

(** C5. In a well-formed file system, for the project at an absolute path
    of plain names: for every route file found whose content is read, the
    records of the result that name the file are as many as the methods
    detected in the content, which are distinct and are the methods one
    of whose two patterns matches; all these records have the path and
    the feature of the file. *)
Theorem records_per_route_file (now : jsstring) (d : RouteData.t)
    (files : list jsstring) (routeFile content : jsstring) :
  wellFormed (Dir (root fs)) = true ->
  forallb isPlain psegs = true ->
  analyzeRoutes localeCompare fs now (absolute psegs) = Ok d ->
  routeFiles fs (possibleApiDirs (absolute psegs)) = Ok files ->
  In routeFile files ->
  readFileSync fs routeFile = Ok content ->
  let records :=
    filter (fun r => Js.streq (RouteInfo.file r)
                       (Path.relative (cwd fs) (absolute psegs) routeFile))
      (RouteData.routes d) in
  length records = length (extractMethods content)
  /\ NoDup (extractMethods content)
  /\ (forall m, In m (extractMethods content)
                <-> existsb (fun pattern => test true pattern content) (methodPatterns m) = true)
  /\ (forall r, In r records ->
         RouteInfo.path r = pathToApiRoute fs routeFile (absolute psegs)
         /\ RouteInfo.feature r = extractFeature (pathToApiRoute fs routeFile (absolute psegs))
         /\ In (RouteInfo.method r) (extractMethods content)).
Proof.
  intros Hwf Hp Hd Hfiles Hin Hread records.
  assert (Hperm : Permutation records (routesOfFile fs (absolute psegs) routeFile)).
  { unfold records. unfold analyzeRoutes in Hd. rewrite collectRoutes_flat, Hfiles in Hd.
    cbn [bind] in Hd. injection Hd as <-. cbn [RouteData.routes].
    rewrite <- (records_of_file (absolute psegs) files routeFile);
      [|now apply routeFiles_relative|assumption].
    apply filter_perm, sortBy_perm. }
  rewrite (routesOfFile_read _ _ Hread) in Hperm.
  split; [|split; [|split]].
  - rewrite (Permutation_length Hperm). apply length_map.
  - apply extractMethods_NoDup.
  - apply extractMethods_In.
  - intros r Hr. apply (Permutation_in _ Hperm) in Hr.
    apply in_map_iff in Hr as [m [<- Hm]]. cbn. auto.
Qed.

End Records.

(** C5 at the sample project of scenario A. *)
Lemma records_per_route_file_witness :
  let records :=
    filter (fun r => Js.streq (RouteInfo.file r)
                       (Path.relative (cwd Samples.routesFs) (absolute [str "proj"])
                          Samples.usersRoute))
      (RouteData.routes Samples.routesData) in
  length records = length (extractMethods Samples.usersContent)
  /\ NoDup (extractMethods Samples.usersContent)
  /\ (forall m, In m (extractMethods Samples.usersContent)
                <-> existsb (fun pattern => test true pattern Samples.usersContent)
                      (methodPatterns m) = true)
  /\ (forall r, In r records ->
         RouteInfo.path r
         = pathToApiRoute Samples.routesFs Samples.usersRoute (absolute [str "proj"])
         /\ RouteInfo.feature r
            = extractFeature
                (pathToApiRoute Samples.routesFs Samples.usersRoute (absolute [str "proj"]))
         /\ In (RouteInfo.method r) (extractMethods Samples.usersContent)).
Proof.
  apply (@records_per_route_file Js.compareCodeUnits Samples.routesFs [str "proj"]
           (Samples.clock0 0) Samples.routesData Samples.routeFilesFound
           Samples.usersRoute Samples.usersContent);
    try (vm_compute; reflexivity).
  vm_compute. left. reflexivity.
Defined.

End RouteFileProps.

(** ** The two replacements of the node id *)

Module NodeIdProps.
Import Analyzer Spec.

Section Star.
Variable multiline : bool.
Variable R : Type.

(** A greedy repetition of a character class: it takes the next
    character when it can, and stops here when the rest fails. *)
Lemma run_star_chr_nil (p : ascii -> bool) (prev : option ascii) (caps : captures)
    (k : kont R) :
  run multiline (Star (Chr p)) (Cursor prev []) caps k = k (Cursor prev []) caps.
Proof. reflexivity. Qed.

Lemma run_star_chr_cons (p : ascii -> bool) (prev : option ascii) (a : ascii) (t : jsstring)
    (caps : captures) (k : kont R) :
  run multiline (Star (Chr p)) (Cursor prev (a :: t)) caps k
  = if p a then
      match run multiline (Star (Chr p)) (Cursor (Some a) t) caps k with
      | Some x => Some x
      | None => k (Cursor prev (a :: t)) caps
      end
    else k (Cursor prev (a :: t)) caps.
Proof.
  cbn [run after length]. destruct (p a); [|reflexivity].
  cbn [after length]. replace (length t <? S (length t)) with true; [reflexivity|].
  symmetry. apply Nat.ltb_lt. lia.
Qed.

End Star.

(** Followed by the end of the subject, it matches when all the rest is
    of the class. *)
Lemma run_star_chr_end (R : Type) (p : ascii -> bool) (k : kont R) (t : jsstring) :
  forall prev caps,
    (forall c caps', k c caps' <> None) ->
    (exists prev',
        forallb p t = true
        /\ run false (Star (Chr p)) (Cursor prev t) caps
             (fun c' caps' => run false Eol c' caps' k)
           = k (Cursor prev' []) caps)
    \/ (forallb p t = false
        /\ run false (Star (Chr p)) (Cursor prev t) caps
             (fun c' caps' => run false Eol c' caps' k) = None).
Proof.
  induction t as [|a t IH]; intros prev caps Hk.
  - left. exists prev. split; reflexivity.
  - rewrite run_star_chr_cons. cbn [forallb]. destruct (p a) eqn:Ea.
    + destruct (IH (Some a) caps Hk) as [[prev' [Hall E]]|[Hall E]].
      * left. exists prev'. split; [exact Hall|]. rewrite E.
        destruct (k (Cursor prev' []) caps) eqn:Ek; [reflexivity|].
        now apply Hk in Ek.
      * right. split; [exact Hall|]. rewrite E. reflexivity.
    + right. split; reflexivity.
Qed.

(** Where the expression of the extension matches. *)
Lemma matchAt_extension (prev : option ascii) (s : jsstring) :
  match s with
  | c :: t =>
      if Js.isChar "." c && Path.nonEmpty t && forallb (Js.notChar ".") t
      then exists f, matchAt false (seq [Chr (Js.isChar "."); plus (Chr (Js.notChar ".")); Eol])
                       (Cursor prev s) = Some f /\ after (stop f) = []
      else matchAt false (seq [Chr (Js.isChar "."); plus (Chr (Js.notChar ".")); Eol])
             (Cursor prev s) = None
  | [] => matchAt false (seq [Chr (Js.isChar "."); plus (Chr (Js.notChar ".")); Eol])
            (Cursor prev s) = None
  end.
Proof.
  destruct s as [|c t]; [reflexivity|].
  unfold matchAt. cbn [seq plus run after].
  destruct (Js.isChar "." c); cbn [andb]; [|reflexivity].
  destruct t as [|a t]; cbn [Path.nonEmpty andb forallb]; [reflexivity|].
  destruct (Js.notChar "." a); cbn [andb]; [|reflexivity].
  destruct (@run_star_chr_end found (Js.notChar ".")
              (fun c' caps => Some (Found caps c')) t (Some a) [])
    as [[prev' [Hall E]]|[Hall E]]; [discriminate| |].
  - rewrite Hall. eexists. split; [exact E | reflexivity].
  - rewrite Hall. exact E.
Qed.

Lemma stripExtension_drop (s : jsstring) : stripExtension s = dropExtension s.
Proof.
  unfold stripExtension. generalize (@None ascii) as prev.
  induction s as [|c t IH]; intros prev.
  - reflexivity.
  - cbn [replaceFirst dropExtension].
    pose proof (matchAt_extension prev (c :: t)) as H. cbv beta iota in H.
    destruct (Js.isChar "." c && Path.nonEmpty t && forallb (Js.notChar ".") t).
    + destruct H as [f [-> Hf]]. now rewrite Hf.
    + rewrite H. now rewrite IH.
Qed.

Lemma replaceLoop_flatten (s : jsstring) :
  forall fuel prev, length s < fuel ->
    replaceLoop fuel false (Chr isSeparator) (str "_") prev s = flatten s.
Proof.
  induction s as [|a t IH]; intros [|fuel] prev Hfuel; try (cbn [length] in Hfuel; lia).
  - reflexivity.
  - cbn [replaceLoop flatten map]. unfold matchAt. cbn [run after].
    cbn [length] in Hfuel.
    destruct (isSeparator a); cbn [stop after before length].
    + replace (length t <? S (length t)) with true by (symmetry; apply Nat.ltb_lt; lia).
      rewrite IH by lia. reflexivity.
    + rewrite IH by lia. reflexivity.
Qed.

Lemma replaceSeparators_flatten (s : jsstring) : replaceSeparators s = flatten s.
Proof.
  unfold replaceSeparators, replaceAll. apply replaceLoop_flatten. lia.
Qed.

Lemma dropExtension_app (u e : jsstring) :
  e <> [] -> forallb (Js.notChar ".") e = true ->
  dropExtension (u ++ "."%char :: e) = u.
Proof.
  intros Hne He. induction u as [|c u IH]; cbn [app dropExtension].
  - rewrite He. destruct e; [contradiction | reflexivity].
  - replace (forallb (Js.notChar ".") (u ++ "."%char :: e)) with false.
    + rewrite andb_false_r. now rewrite IH.
    + symmetry. rewrite forallb_app. cbn [forallb].
      replace (Js.notChar "." ".") with false by reflexivity.
      now rewrite andb_false_r.
Qed.

(** The id of a path that ends in a source extension is the path without
    the extension, flattened. *)
Lemma nodeIdOf_source (u ext : jsstring) :
  In ext SOURCE_EXTENSIONS -> nodeIdOf (u ++ ext) = flatten u.
Proof.
  intros Hext. unfold nodeIdOf. rewrite replaceSeparators_flatten, stripExtension_drop.
  unfold flatten. rewrite map_app. fold (flatten u).
  unfold SOURCE_EXTENSIONS in Hext. cbn [In] in Hext.
  destruct Hext as [<-|[<-|[<-|[<-|[]]]]]; cbn [map str]; apply dropExtension_app;
    (discriminate || reflexivity).
Qed.

End NodeIdProps.

(** ** The source files of a project *)

Module SourceFileProps.
Import Analyzer Spec PathFacts TreeFacts.

Lemma takeWhile_dropWhile (p : ascii -> bool) (s : jsstring) :
  Path.takeWhile p s ++ Path.dropWhile p s = s.
Proof.
  induction s as [|c s IH]; [reflexivity|]. cbn [Path.takeWhile Path.dropWhile].
  destruct (p c); [cbn [app]; now rewrite IH | reflexivity].
Qed.

Lemma takeWhile_all (p : ascii -> bool) (s : jsstring) :
  forallb p s = true -> Path.takeWhile p s = s.
Proof.
  induction s as [|c s IH]; [reflexivity|]. cbn [forallb Path.takeWhile].
  intros H. apply andb_true_iff in H as [Hc Hs]. rewrite Hc. now rewrite IH.
Qed.

Lemma dropWhile_none (p : ascii -> bool) (s : jsstring) :
  forallb (fun c => negb (p c)) s = true -> Path.dropWhile p s = s.
Proof.
  destruct s as [|c s]; [reflexivity|]. cbn [forallb Path.dropWhile].
  intros H. apply andb_true_iff in H as [Hc _]. apply negb_true_iff in Hc. now rewrite Hc.
Qed.

Lemma lastSegment_plain (name : jsstring) : isPlain name = true -> Path.lastSegment name = name.
Proof.
  intros Hp. unfold isPlain in Hp. rewrite !andb_true_iff in Hp.
  destruct Hp as [[[_ Hs] _] _].
  assert (Hr : forallb Path.notSlash (rev name) = true).
  { rewrite forallb_forall in *. intros c Hc. apply Hs. now apply in_rev. }
  unfold Path.lastSegment. rewrite dropWhile_none, takeWhile_all by assumption.
  apply rev_involutive.
Qed.

(** A name with an extension is a stem, not empty, and the extension. *)
Lemma extname_plain (name : jsstring) :
  isPlain name = true -> Path.extname name <> [] ->
  exists stem, stem <> [] /\ name = stem ++ Path.extname name.
Proof.
  intros Hp. unfold Path.extname. rewrite lastSegment_plain by assumption.
  pose proof (takeWhile_dropWhile (Js.notChar ".") (rev name)) as Hsplit.
  destruct (Path.dropWhile (Js.notChar ".") (rev name)) as [|dot [|x rest]];
    try congruence.
  destruct (Js.streq name (str "..")); [congruence|]. intros _.
  exists (rev (x :: rest)). split.
  - intros E. apply (f_equal (@length ascii)) in E. rewrite length_rev in E. discriminate.
  - rewrite <- (rev_involutive name), <- Hsplit at 1.
    rewrite rev_app_distr. cbn [rev]. rewrite rev_app_distr. cbn [rev app].
    now rewrite <- !app_assoc.
Qed.

Lemma join_last (ns : list jsstring) :
  ns <> [] -> exists front, Js.join (str "/") ns = front ++ last ns [].
Proof.
  induction ns as [|n ns IH]; [congruence|]. intros _.
  destruct ns as [|n' ns]; [now exists []|].
  destruct IH as [front E]; [discriminate|].
  exists (n ++ str "/" ++ front).
  change (Js.join (str "/") (n :: n' :: ns)) with (n ++ str "/" ++ Js.join (str "/") (n' :: ns)).
  rewrite E. cbn [last]. now rewrite <- !app_assoc.
Qed.

Lemma last_plain (ns : list jsstring) :
  ns <> [] -> forallb isPlain ns = true -> isPlain (last ns []) = true.
Proof.
  intros Hne Hp. rewrite forallb_forall in Hp. apply Hp.
  destruct ns as [|n ns]; [congruence|]. clear Hne Hp. revert n.
  induction ns as [|n' ns IH]; intros n; [now left|].
  right. apply IH.
Qed.

(** The relative path of a source file is a stem and a source extension. *)
Lemma sourceNames_stem (ns : list jsstring) :
  sourceNames ns ->
  exists stem ext,
    stem <> [] /\ In ext SOURCE_EXTENSIONS /\ Js.join (str "/") ns = stem ++ ext.
Proof.
  intros [Hne [Hp Hext]].
  destruct (join_last Hne) as [front E].
  destruct (@extname_plain (last ns []) (last_plain Hne Hp)) as [stem [Hstem Hname]].
  { intros E0. rewrite E0 in Hext. unfold SOURCE_EXTENSIONS in Hext. cbn [In] in Hext.
    intuition discriminate. }
  exists (front ++ stem), (Path.extname (last ns [])). split; [|split].
  - destruct front, stem; try discriminate. congruence.
  - exact Hext.
  - rewrite E, <- app_assoc. now rewrite <- Hname.
Qed.

(** What [findSourceFiles] adds to its array. *)
Lemma findSourceFilesIn_names (limit : nat) (n : node) :
  forall dsegs files,
    wellFormed n = true -> forallb isPlain dsegs = true ->
    exists nss,
      findSourceFilesIn (absolute dsegs) n files limit
      = files ++ map (fun ns => absolute (dsegs ++ ns)) nss
      /\ Forall sourceNames nss.
Proof.
  induction n as [content|entries IH] using node_induction; intros dsegs files Hwf Hd.
  - exists []. split; [now rewrite app_nil_r | constructor].
  - apply wellFormed_Dir in Hwf as [Hp [_ Hwf]].
    cbn [findSourceFilesIn].
    destruct (limit <=? length files).
    { exists []. split; [now rewrite app_nil_r | constructor]. }
    revert files.
    induction entries as [|[name c] entries IHe]; intros files.
    + exists []. split; [now rewrite app_nil_r | constructor].
    + cbn [names map forallb fst] in Hp. apply andb_true_iff in Hp as [Hname Hp].
      specialize (IHe (fun n0 c0 H => IH n0 c0 (or_intror H)) Hp
                    (fun n0 c0 H => Hwf n0 c0 (or_intror H))).
      destruct (limit <=? length files).
      { exists []. split; [now rewrite app_nil_r | constructor]. }
      destruct (Js.arrIncludes name IGNORED_DIRS); [apply IHe|].
      assert (Hjoin : Path.join [absolute dsegs; name] = absolute (dsegs ++ [name])).
      { apply join_absolute; [assumption|]. cbn [forallb]. now rewrite Hname. }
      rewrite Hjoin. destruct (isDirectory c).
      * destruct (IH name c (or_introl eq_refl) (dsegs ++ [name]) files) as [nss1 [E1 H1]].
        { eapply Hwf. now left. }
        { rewrite forallb_app. cbn [forallb]. now rewrite Hd, Hname. }
        rewrite E1. destruct (IHe (files ++ map (fun ns => absolute ((dsegs ++ [name]) ++ ns)) nss1))
          as [nss2 [E2 H2]].
        rewrite E2. exists (map (cons name) nss1 ++ nss2). split.
        -- rewrite map_app, map_map, <- app_assoc. f_equal. f_equal.
           apply map_ext. intros ns. now rewrite <- app_assoc.
        -- apply Forall_app. split; [|assumption].
           apply Forall_forall. intros ns Hns. apply in_map_iff in Hns as [ns' [<- Hns']].
           rewrite Forall_forall in H1. destruct (H1 ns' Hns') as [Hne [Hpl Hext]].
           split; [discriminate|]. split.
           ++ cbn [forallb]. now rewrite Hname, Hpl.
           ++ destruct ns'; [congruence | exact Hext].
      * destruct (Js.arrIncludes (Path.extname name) SOURCE_EXTENSIONS) eqn:Eext; [|apply IHe].
        destruct (IHe (files ++ [absolute (dsegs ++ [name])])) as [nss2 [E2 H2]].
        rewrite E2. exists ([name] :: nss2). split.
        -- cbn [map]. now rewrite <- app_assoc.
        -- constructor; [|assumption]. split; [discriminate|]. split.
           ++ cbn [forallb]. now rewrite Hname.
           ++ apply arrIncludes_iff. exact Eext.
Qed.

End SourceFileProps.

(** ** Node ids *)

Module GraphProps.
Import Analyzer Spec PathFacts TreeFacts SourceFileProps NodeIdProps JsMapFacts.

Section Graph.
Variable fs : filesystem.
Variable psegs : list jsstring.
Hypothesis fs_wellFormed : wellFormed (Dir (root fs)) = true.
Hypothesis psegs_plain : forallb isPlain psegs = true.

Lemma findSourceFiles_names (files : list jsstring) :
  findSourceFiles fs (absolute psegs) = Ok files ->
  exists nss, files = map (fun ns => absolute (psegs ++ ns)) nss /\ Forall sourceNames nss.
Proof.
  unfold findSourceFiles, existsSync, readdirSync. rewrite lookup_absolute by assumption.
  destruct (descend (root fs) psegs) as [[content|entries]|] eqn:E; cbn [negb bind orb MAX_FILES Nat.leb].
  - discriminate.
  - intros H. apply descend_wellFormed in E; [|assumption].
    destruct (@findSourceFilesIn_names MAX_FILES (Dir entries) psegs [] E psegs_plain) as [nss [En Hn]].
    exists nss. split; [|assumption]. cbn [app] in En. congruence.
  - intros [= <-]. exists []. split; [reflexivity | constructor].
Qed.

(** The relative path and the id of a source file. *)
Lemma source_file_id (files : list jsstring) (f : jsstring) :
  findSourceFiles fs (absolute psegs) = Ok files -> In f files ->
  exists stem ext,
    stem <> [] /\ In ext SOURCE_EXTENSIONS
    /\ Path.relative (cwd fs) (absolute psegs) f = stem ++ ext
    /\ idOf fs (absolute psegs) f = flatten stem.
Proof.
  intros Hfiles Hf. apply findSourceFiles_names in Hfiles as [nss [-> Hn]].
  apply in_map_iff in Hf as [ns [<- Hns]]. rewrite Forall_forall in Hn.
  pose proof (Hn ns Hns) as Hsrc. destruct (sourceNames_stem Hsrc) as [stem [ext [Hs [He E]]]].
  destruct Hsrc as [Hne [Hpl _]].
  exists stem, ext. unfold idOf.
  rewrite relative_absolute by assumption. rewrite E.
  repeat split; try assumption. now apply nodeIdOf_source.
Qed.

Lemma flatten_nil (s : jsstring) : flatten s = [] -> s = [].
Proof. destruct s; [reflexivity | discriminate]. Qed.

(** The first loop: a node per file, and the id of every file in [nodeMap]. *)
Lemma fold_addSourceFile_nodes (projectPath : jsstring) (files : list jsstring) (st : graphState) :
  stNodes (fold_left (addSourceFile fs projectPath) files st)
  = stNodes st ++ map (nodeOf fs projectPath) files.
Proof.
  revert st. induction files as [|f files IH]; intros st; cbn [fold_left map].
  - now rewrite app_nil_r.
  - rewrite IH. cbn [addSourceFile stNodes]. now rewrite <- app_assoc.
Qed.

Lemma fold_addSourceFile_get (projectPath : jsstring) (files : list jsstring) (st : graphState)
    (f : jsstring) :
  JsMap.get f (stNodeMap (fold_left (addSourceFile fs projectPath) files st))
  = if Js.arrIncludes f files then Some (idOf fs projectPath f)
    else JsMap.get f (stNodeMap st).
Proof.
  revert st. induction files as [|g files IH]; intros st; [reflexivity|].
  cbn [fold_left]. rewrite IH. unfold Js.arrIncludes. cbn [existsb].
  fold (Js.arrIncludes f files). destruct (Js.arrIncludes f files); [now rewrite orb_true_r|].
  rewrite orb_false_r. cbn [addSourceFile stNodeMap].
  destruct (Js.streq f g) eqn:E.
  - apply streq_iff in E. subst g. now rewrite get_set_eq.
  - apply streq_neq in E. rewrite get_set_neq by congruence. reflexivity.
Qed.

(** C1 (amended). In the dependency graph of a project the node of every
    source file found has the id derived from the relative path of the
    file, which is a stem followed by a source extension: the id is the
    stem with every separator made an underscore. Two files have the
    same id exactly when their stems agree up to that replacement. *)
Theorem node_ids_from_stems (now : jsstring) (d : DependencyData.t) (files : list jsstring) :
  findSourceFiles fs (absolute psegs) = Ok files ->
  analyzeDependencies fs now (absolute psegs) = Ok d ->
  map NodeInfo.id (DependencyData.nodes d) = map (idOf fs (absolute psegs)) files
  /\ (forall f, In f files ->
        exists stem ext,
          stem <> [] /\ In ext SOURCE_EXTENSIONS
          /\ Path.relative (cwd fs) (absolute psegs) f = stem ++ ext
          /\ idOf fs (absolute psegs) f = flatten stem)
  /\ (forall stem1 ext1 stem2 ext2,
        In ext1 SOURCE_EXTENSIONS -> In ext2 SOURCE_EXTENSIONS ->
        (nodeIdOf (stem1 ++ ext1) = nodeIdOf (stem2 ++ ext2) <-> flatten stem1 = flatten stem2)).
Proof.
  intros Hfiles Hd. split; [|split].
  - unfold analyzeDependencies in Hd. rewrite Hfiles in Hd. cbn [bind] in Hd.
    injection Hd as <-. cbn [DependencyData.nodes].
    rewrite fold_addSourceFile_nodes. cbn [stNodes app]. rewrite map_map. reflexivity.
  - intros f Hf. now apply source_file_id with files.
  - intros stem1 ext1 stem2 ext2 H1 H2. now rewrite !nodeIdOf_source.
Qed.

(** The edges one file contributes. *)
Lemma edgesOfFile_In (files : list jsstring) (X : jsstring) (e : EdgeInfo.t) :
  findSourceFiles fs (absolute psegs) = Ok files ->
  let nodeMap :=
    stNodeMap (fold_left (addSourceFile fs (absolute psegs)) files (GraphState [] [] [])) in
  In X files ->
  (In e (edgesOfFile fs (absolute psegs) nodeMap X)
   <-> exists Y, In Y files /\ extractedImport fs (absolute psegs) X Y
                 /\ idOf fs (absolute psegs) X <> idOf fs (absolute psegs) Y
                 /\ e = EdgeInfo.Make (idOf fs (absolute psegs) X) (idOf fs (absolute psegs) Y)).
Proof.
  intros Hfiles nodeMap HX.
  assert (Hget : forall f, JsMap.get f nodeMap
                           = if Js.arrIncludes f files then Some (idOf fs (absolute psegs) f)
                             else None).
  { intros f. unfold nodeMap. now rewrite fold_addSourceFile_get. }
  assert (Hid : forall f, In f files -> Path.nonEmpty (idOf fs (absolute psegs) f) = true).
  { intros f Hf. destruct (source_file_id f Hfiles Hf) as [stem [ext [Hs [_ [_ E]]]]].
    rewrite E. destruct stem; [congruence | reflexivity]. }
  assert (Hpath : forall f, In f files -> Path.nonEmpty f = true).
  { intros f Hf. apply findSourceFiles_names in Hfiles as [nss [-> _]].
    apply in_map_iff in Hf as [ns [<- _]]. reflexivity. }
  unfold edgesOfFile, extractedImport.
  destruct (readFileSync fs X) as [content|]; cbn [bind tryCatch].
  - rewrite Hget. replace (Js.arrIncludes X files) with true
      by (symmetry; now apply arrIncludes_iff).
    rewrite (Hid X HX). cbn [tryCatch]. rewrite in_flat_map. split.
    + intros [importPath [Himp He]]. unfold edgeOfImport in He.
      destruct (resolveImportPath fs importPath X (absolute psegs)) as [Y|] eqn:Eres;
        [|contradiction].
      destruct (Path.nonEmpty Y); [|contradiction]. rewrite Hget in He.
      destruct (Js.arrIncludes Y files) eqn:EY; [|contradiction].
      apply arrIncludes_iff in EY.
      destruct (Path.nonEmpty (idOf fs (absolute psegs) Y)); [|contradiction].
      destruct (Js.streq (idOf fs (absolute psegs) Y) (idOf fs (absolute psegs) X)) eqn:Eq;
        cbn [andb negb] in He; [contradiction|].
      destruct He as [<-|[]]. apply streq_neq in Eq.
      exists Y. repeat split; try assumption; [|congruence].
      exists content, importPath. now repeat split.
    + intros [Y [HY [[content' [importPath [Hc [Himp Hres]]]] [Hneq ->]]]].
      injection Hc as <-. exists importPath. split; [assumption|].
      unfold edgeOfImport. rewrite Hres, (Hpath Y HY), Hget.
      replace (Js.arrIncludes Y files) with true by (symmetry; now apply arrIncludes_iff).
      rewrite (Hid Y HY).
      replace (Js.streq (idOf fs (absolute psegs) Y) (idOf fs (absolute psegs) X)) with false
        by (symmetry; apply streq_neq; congruence).
      now left.
  - split; [contradiction|]. intros [Y [_ [[content [importPath [Hc _]]] _]]]. discriminate.
Qed.

End Graph.

(** Keeping one edge per key. *)
Section Unique.
Variable A : Type.
Variable key : A -> jsstring.

Lemma keyed_set (m : JsMap.t A) (v : A) : keyed key m -> keyed key (JsMap.set (key v) v m).
Proof.
  intros Hm. induction m as [|[k0 v0] m IH]; cbn [JsMap.set].
  - intros k x [E|[]]. now injection E as <- <-.
  - destruct (Js.streq (key v) k0).
    + intros k x [E|Hin]; [now injection E as <- <- | apply Hm; now right].
    + intros k x [E|Hin]; [apply Hm; now left|].
      apply IH; [|assumption]. intros k' x' H'. apply Hm. now right.
Qed.

Lemma values_set (m : JsMap.t A) (k : jsstring) (v x : A) :
  In x (JsMap.values (JsMap.set k v m)) -> x = v \/ In x (JsMap.values m).
Proof.
  unfold JsMap.values. induction m as [|[k0 v0] m IH]; cbn [JsMap.set map snd In].
  - intros [<-|[]]. now left.
  - destruct (Js.streq k k0); cbn [map snd In].
    + intros [<-|H]; auto.
    + intros [<-|H]; auto. apply IH in H as [->|H]; auto.
Qed.

Lemma keys_set_In (m : JsMap.t A) (k k' : jsstring) (v : A) :
  In k' (JsMap.keys (JsMap.set k v m)) <-> k' = k \/ In k' (JsMap.keys m).
Proof.
  rewrite keys_set. unfold JsMap.has.
  destruct (JsMap.get k m) eqn:E.
  - split; [now right|]. intros [->|H]; [|assumption].
    apply get_Some_In in E. change k with (fst (k, a)). now apply in_map.
  - rewrite in_app_iff. cbn [In]. intuition congruence.
Qed.

Lemma ofList_keyed (l : list A) :
  let m := JsMap.ofList (map (fun e => (key e, e)) l) in
  keyed key m
  /\ (forall x, In x (JsMap.values m) -> In x l)
  /\ (forall e, In e l -> In (key e) (JsMap.keys m)).
Proof.
  unfold JsMap.ofList.
  assert (G : forall m0, keyed key m0 ->
    let m := fold_left (fun m kv => JsMap.set (fst kv) (snd kv) m)
               (map (fun e => (key e, e)) l) m0 in
    keyed key m
    /\ (forall x, In x (JsMap.values m) -> In x l \/ In x (JsMap.values m0))
    /\ (forall k, (In k (JsMap.keys m0) \/ exists e, In e l /\ key e = k) -> In k (JsMap.keys m))).
  { induction l as [|e l IH]; intros m0 Hm0; cbn [map fold_left fst snd].
    - split; [assumption|]. split; [now right|]. intros k [H|[e [[] _]]]. assumption.
    - destruct (IH (JsMap.set (key e) e m0) (keyed_set e Hm0)) as [Hk [Hv Hks]].
      split; [assumption|]. split.
      + intros x Hx. apply Hv in Hx as [Hx|Hx]; [left; now right|].
        apply values_set in Hx as [->|Hx]; [left; now left | now right].
      + intros k Hk0. apply Hks. destruct Hk0 as [Hk0|[e' [[<-|He'] <-]]].
        * left. apply keys_set_In. now right.
        * left. apply keys_set_In. now left.
        * right. now exists e'. }
  destruct (G [] (fun k v H => match H with end)) as [Hk [Hv Hks]].
  split; [assumption|]. split.
  - intros x Hx. apply Hv in Hx as [Hx|[]]. assumption.
  - intros e He. apply Hks. right. now exists e.
Qed.

Lemma keyed_keys (m : JsMap.t A) : keyed key m -> JsMap.keys m = map key (JsMap.values m).
Proof.
  unfold JsMap.keys, JsMap.values. induction m as [|[k v] m IH]; intros Hm; [reflexivity|].
  cbn [map fst snd]. rewrite (Hm k v (or_introl eq_refl)). f_equal.
  apply IH. intros k' v' H. apply Hm. now right.
Qed.

End Unique.

Lemma NoDup_map_of {A B C : Type} (f : A -> B) (g : B -> C) (l : list A) :
  NoDup (map (fun x => g (f x)) l) -> NoDup (map f l).
Proof.
  induction l as [|x l IH]; cbn [map]; intros H; [constructor|].
  inversion H as [|? ? Hx Hl]; subst. constructor; [|now apply IH].
  intros Hin. apply Hx. apply in_map_iff in Hin as [y [E Hy]].
  apply in_map_iff. exists y. split; [now rewrite E | assumption].
Qed.

(** Ids without [>] have distinct keys. *)
Lemma edgeKey_inj (e1 e2 : EdgeInfo.t) :
  ~ In ">"%char (EdgeInfo.source e1) -> ~ In ">"%char (EdgeInfo.source e2) ->
  edgeKey e1 = edgeKey e2 -> e1 = e2.
Proof.
  destruct e1 as [s1 t1], e2 as [s2 t2]. unfold edgeKey. cbn [EdgeInfo.source EdgeInfo.target].
  revert s2. induction s1 as [|c s1 IH]; intros [|c2 s2] H1 H2 E.
  - cbn in E. injection E as ->. reflexivity.
  - cbn in E. injection E as <- E. destruct s2 as [|c3 s2].
    + cbn in E. discriminate E.
    + cbn in E. injection E as <- _. exfalso. apply H2. right. now left.
  - cbn in E. injection E as -> E. destruct s1 as [|c3 s1].
    + cbn in E. discriminate E.
    + cbn in E. injection E as -> _. exfalso. apply H1. right. now left.
  - cbn [app] in E. injection E as -> E.
    assert (H : EdgeInfo.Make s1 t1 = EdgeInfo.Make s2 t2).
    { apply IH; [| |assumption]; intros Hin; [apply H1 | apply H2]; now right. }
    now injection H as -> ->.
Qed.

Section Edges.
Variable fs : filesystem.
Variable psegs : list jsstring.

(** The edges of the graph, by what the second loop gets: no two have
    the same source and target; each joins the ids, which differ, of
    two files found between which the loop gets an import; and where
    the loop gets an import between two files found with different
    ids, the graph has an edge with the same [source->target] text,
    which is the edge between the two ids when no id contains the
    character [>]. *)
Lemma extracted_edges (now : jsstring) (d : DependencyData.t) (files : list jsstring) :
  wellFormed (Dir (root fs)) = true ->
  forallb isPlain psegs = true ->
  findSourceFiles fs (absolute psegs) = Ok files ->
  analyzeDependencies fs now (absolute psegs) = Ok d ->
  NoDup (map edgePair (DependencyData.edges d))
  /\ (forall e, In e (DependencyData.edges d) ->
        exists X Y,
          In X files /\ In Y files /\ extractedImport fs (absolute psegs) X Y
          /\ idOf fs (absolute psegs) X <> idOf fs (absolute psegs) Y
          /\ e = EdgeInfo.Make (idOf fs (absolute psegs) X) (idOf fs (absolute psegs) Y))
  /\ (forall X Y,
        In X files -> In Y files -> extractedImport fs (absolute psegs) X Y ->
        idOf fs (absolute psegs) X <> idOf fs (absolute psegs) Y ->
        (exists e, In e (DependencyData.edges d)
                   /\ edgeKey e = edgeKey (EdgeInfo.Make (idOf fs (absolute psegs) X)
                                             (idOf fs (absolute psegs) Y)))
        /\ ((forall f, In f files -> ~ In ">"%char (idOf fs (absolute psegs) f)) ->
            In (EdgeInfo.Make (idOf fs (absolute psegs) X) (idOf fs (absolute psegs) Y))
              (DependencyData.edges d))).
Proof.
  intros Hwf Hp Hfiles Hd.
  unfold analyzeDependencies in Hd. rewrite Hfiles in Hd. cbn [bind] in Hd.
  injection Hd as <-. cbn [DependencyData.edges]. unfold uniqueEdges.
  set (nodeMap := stNodeMap (fold_left (addSourceFile fs (absolute psegs)) files
                               (GraphState [] [] []))).
  set (raw := flat_map (edgesOfFile fs (absolute psegs) nodeMap) files).
  destruct (ofList_keyed edgeKey raw) as [Hkeyed [Hvalues Hkeys]].
  set (m := JsMap.ofList (map (fun e => (edgeKey e, e)) raw)) in *.
  assert (Hraw : forall e, In e raw <->
            exists X Y, In X files /\ In Y files /\ extractedImport fs (absolute psegs) X Y
                        /\ idOf fs (absolute psegs) X <> idOf fs (absolute psegs) Y
                        /\ e = EdgeInfo.Make (idOf fs (absolute psegs) X)
                                 (idOf fs (absolute psegs) Y)).
  { intros e. unfold raw. rewrite in_flat_map. split.
    - intros [X [HX He]].
      apply (@edgesOfFile_In fs psegs Hwf Hp files X e Hfiles HX) in He.
      destruct He as [Y HY]. exists X, Y. tauto.
    - intros [X [Y [HX HY]]]. exists X. split; [assumption|].
      apply (@edgesOfFile_In fs psegs Hwf Hp files X e Hfiles HX). exists Y. tauto. }
  split; [|split].
  - apply NoDup_map_of with (g := fun st : jsstring * jsstring => fst st ++ str "->" ++ snd st).
    change (NoDup (map edgeKey (JsMap.values m))).
    rewrite <- (keyed_keys Hkeyed). apply NoDup_keys_ofList.
  - intros e He. apply Hraw. now apply Hvalues.
  - intros X Y HX HY Himp Hneq.
    set (e0 := EdgeInfo.Make (idOf fs (absolute psegs) X) (idOf fs (absolute psegs) Y)).
    assert (He0 : In e0 raw) by (apply Hraw; exists X, Y; tauto).
    assert (Hex : exists e, In e (JsMap.values m) /\ edgeKey e = edgeKey e0).
    { apply Hkeys in He0. rewrite (keyed_keys Hkeyed) in He0.
      apply in_map_iff in He0 as [e [E He]]. now exists e. }
    split; [exact Hex|]. intros Hgt. destruct Hex as [e [He E]].
    replace e0 with e; [assumption|]. apply edgeKey_inj; [| |assumption].
    + apply Hvalues, Hraw in He as [X' [Y' [HX' [_ [_ [_ ->]]]]]]. now apply Hgt.
    + now apply Hgt.
Qed.

End Edges.

(** C1 at a sample project. *)
Lemma node_ids_from_stems_witness :
  map NodeInfo.id (DependencyData.nodes Samples.collidingData)
  = map (idOf Samples.collidingFs (absolute [str "proj"]))
      (Samples.okOr [] (findSourceFiles Samples.collidingFs (absolute [str "proj"])))
  /\ (forall f, In f (Samples.okOr [] (findSourceFiles Samples.collidingFs (absolute [str "proj"]))) ->
        exists stem ext,
          stem <> [] /\ In ext SOURCE_EXTENSIONS
          /\ Path.relative (cwd Samples.collidingFs) (absolute [str "proj"]) f = stem ++ ext
          /\ idOf Samples.collidingFs (absolute [str "proj"]) f = flatten stem)
  /\ (forall stem1 ext1 stem2 ext2,
        In ext1 SOURCE_EXTENSIONS -> In ext2 SOURCE_EXTENSIONS ->
        (nodeIdOf (stem1 ++ ext1) = nodeIdOf (stem2 ++ ext2) <-> flatten stem1 = flatten stem2)).
Proof.
  apply (@node_ids_from_stems Samples.collidingFs [str "proj"] eq_refl eq_refl
           (Samples.clock0 2) Samples.collidingData);
    vm_compute; reflexivity.
Defined.

(** C1 as stated fails: the pass finds the distinct files [a/b.ts] and
    [a_b.ts] of the sample project and gives both nodes the id [a_b]. *)
Lemma node_ids_collide :
  findSourceFiles Samples.collidingFs Samples.proj
  = Ok [str "/proj/a/b.ts"; str "/proj/a_b.ts"; str "/proj/c.ts"]
  /\ Path.relative (cwd Samples.collidingFs) Samples.proj (str "/proj/a/b.ts") = str "a/b.ts"
  /\ Path.relative (cwd Samples.collidingFs) Samples.proj (str "/proj/a_b.ts") = str "a_b.ts"
  /\ str "a/b.ts" <> str "a_b.ts"
  /\ nodeIdOf (str "a/b.ts") = nodeIdOf (str "a_b.ts")
  /\ map NodeInfo.id (DependencyData.nodes Samples.collidingData)
     = [str "a_b"; str "a_b"; str "c"].
Proof.
  repeat split; try (vm_compute; reflexivity). vm_compute. discriminate.
Qed.

End GraphProps.

(** ** Absent artifacts *)

Module BoundaryProps.
Import Analyzer Spec.

Section Boundary.
Variable localeCompare : jsstring -> jsstring -> comparison.
Variable packageName : jsstring -> option jsstring.
Variable fs : filesystem.
Variable projectPath : jsstring.

Lemma collectRoutes_absent (apiDirs : list jsstring) :
  Forall (fun p => existsSync fs p = false) apiDirs ->
  collectRoutes fs projectPath apiDirs = Ok [].
Proof.
  induction 1 as [|d dirs Hd _ IH]; cbn [collectRoutes]; [reflexivity|].
  unfold findApiRoutes. rewrite Hd. cbn [negb bind]. rewrite IH. reflexivity.
Qed.

Lemma collectComponents_absent (componentDirs : list jsstring) (st : componentState) :
  Forall (fun p => existsSync fs p = false) componentDirs ->
  collectComponents fs projectPath componentDirs st = Ok st.
Proof.
  induction 1 as [|d dirs Hd _ IH]; cbn [collectComponents]; [reflexivity|].
  unfold findComponentFiles. rewrite Hd. cbn [negb bind fold_left]. exact IH.
Qed.

Lemma find_absent (paths : list jsstring) :
  Forall (fun p => existsSync fs p = false) paths -> find (existsSync fs) paths = None.
Proof.
  induction 1 as [|d dirs Hd _ IH]; cbn [find]; [reflexivity|]. now rewrite Hd.
Qed.

(** A schema path at which no regular file is gives no schema result. *)
Lemma analyzeModels_absent (now : jsstring) :
  Forall (fun p => isFileAt fs p = false) (schemaPaths projectPath) ->
  analyzeModels fs now projectPath = None.
Proof.
  intros Hschema. unfold analyzeModels, findPrismaSchema.
  fold (schemaPaths projectPath).
  destruct (find (existsSync fs) (schemaPaths projectPath)) as [schemaPath|] eqn:E;
    [|reflexivity].
  apply find_some in E as [Hin Hex]. rewrite Forall_forall in Hschema.
  apply Hschema in Hin. unfold isFileAt in Hin. unfold readFileSync.
  destruct (lookup fs schemaPath) as [[content|entries]|]; [discriminate Hin | reflexivity..].
Qed.


End Boundary.



End BoundaryProps.

(** ** The matcher finds a match when there is one *)

Module RegexComplete.
Import RegexFacts.

Section Ext.
Variable multiline : bool.
Variable R : Type.

(** The result depends on the continuation through its values only. *)
Lemma run_ext (r : regex) :
  forall (c : cursor) (caps : captures) (k1 k2 : kont R),
    (forall c' caps', k1 c' caps' = k2 c' caps') ->
    run multiline r c caps k1 = run multiline r c caps k2.
Proof.
  induction r as [|p|r1 IH1 r2 IH2|r1 IH1 r2 IH2|r IH| | |i r IH]; intros c caps k1 k2 Hk;
    cbn [run].
  - apply Hk.
  - destruct (after c) as [|a rest]; [reflexivity|]. destruct (p a); [apply Hk | reflexivity].
  - apply IH1. intros c' caps'. now apply IH2.
  - rewrite (IH1 c caps k1 k2 Hk), (IH2 c caps k1 k2 Hk). reflexivity.
  - generalize (length (after c)) as fuel. intros fuel. revert c caps.
    induction fuel as [|fuel IHf]; intros c caps; [apply Hk|].
    rewrite Hk. erewrite IH; [reflexivity|].
    intros c' caps'. cbv beta. destruct (length (after c') <? length (after c)); [apply IHf | reflexivity].
  - destruct (atBol multiline c); [apply Hk | reflexivity].
  - destruct (atEol multiline c); [apply Hk | reflexivity].
  - apply IH. intros c' caps'. apply Hk.
Qed.

Lemma run_fails (r : regex) :
  forall (c : cursor) (caps : captures), run multiline r c caps (fun _ _ => @None R) = None.
Proof.
  induction r as [|p|r1 IH1 r2 IH2|r1 IH1 r2 IH2|r IH| | |i r IH]; intros c caps; cbn [run].
  - reflexivity.
  - destruct (after c) as [|a rest]; [reflexivity|]. now destruct (p a).
  - rewrite (run_ext r1 c caps _ (fun _ _ => None)); [apply IH1|]. intros c' caps'. apply IH2.
  - now rewrite IH1, IH2.
  - generalize (length (after c)) as fuel. intros fuel. revert c caps.
    induction fuel as [|fuel IHf]; intros c caps; [reflexivity|].
    rewrite (run_ext r c caps _ (fun _ _ => None)); [now rewrite IH|].
    intros c' caps'. cbv beta. destruct (length (after c') <? length (after c)); [apply IHf | reflexivity].
  - now destruct (atBol multiline c).
  - now destruct (atEol multiline c).
  - apply IH.
Qed.

(** The rounds of a repetition: any fuel from the number of characters
    left on gives the same result. *)
Lemma star_fuel (r : regex) (k : kont R) :
  forall n m c caps,
    length (after c) <= n -> length (after c) <= m ->
    (fix loop (fuel : nat) (c : cursor) (caps : captures) {struct fuel} : option R :=
       match fuel with
       | O => k c caps
       | S fuel' =>
           match run multiline r c caps
                   (fun c' caps' =>
                      if length (after c') <? length (after c)
                      then loop fuel' c' caps' else None) with
           | Some x => Some x
           | None => k c caps
           end
       end) n c caps
    = (fix loop (fuel : nat) (c : cursor) (caps : captures) {struct fuel} : option R :=
       match fuel with
       | O => k c caps
       | S fuel' =>
           match run multiline r c caps
                   (fun c' caps' =>
                      if length (after c') <? length (after c)
                      then loop fuel' c' caps' else None) with
           | Some x => Some x
           | None => k c caps
           end
       end) m c caps.
Proof.
  assert (Hzero : forall m c caps, length (after c) = 0 ->
    (fix loop (fuel : nat) (c : cursor) (caps : captures) {struct fuel} : option R :=
       match fuel with
       | O => k c caps
       | S fuel' =>
           match run multiline r c caps
                   (fun c' caps' =>
                      if length (after c') <? length (after c)
                      then loop fuel' c' caps' else None) with
           | Some x => Some x
           | None => k c caps
           end
       end) m c caps = k c caps).
  { intros [|m] c caps H0; [reflexivity|].
    rewrite (run_ext r c caps _ (fun _ _ => None)); [now rewrite run_fails|].
    intros c' caps'. cbv beta. rewrite H0. reflexivity. }
  induction n as [|n IHn]; intros m c caps Hn Hm.
  - rewrite (Hzero m) by lia. reflexivity.
  - destruct m as [|m].
    + rewrite (Hzero (S n)) by lia. reflexivity.
    + erewrite run_ext; [reflexivity|].
      intros c' caps'. cbv beta.
      destruct (length (after c') <? length (after c)) eqn:E; [|reflexivity].
      apply Nat.ltb_lt in E. apply IHn; lia.
Qed.

(** One round of a repetition. *)
Lemma run_star (r : regex) (c : cursor) (caps : captures) (k : kont R) :
  run multiline (Star r) c caps k
  = match run multiline r c caps
            (fun c' caps' =>
               if length (after c') <? length (after c)
               then run multiline (Star r) c' caps' k else None) with
    | Some x => Some x
    | None => k c caps
    end.
Proof.
  cbn [run]. etransitivity.
  { apply (@star_fuel r k (length (after c)) (S (length (after c)))); lia. }
  cbv beta. erewrite run_ext; [reflexivity|].
  intros c' caps'. cbv beta.
  destruct (length (after c') <? length (after c)) eqn:E; [|reflexivity].
  apply Nat.ltb_lt in E. apply star_fuel; lia.
Qed.

End Ext.

Section Complete.
Variable multiline : bool.

(** A match that consumes nothing ends where it starts. *)
Lemma matches_still (r : regex) (c : cursor) (caps : captures) (c' : cursor) (caps' : captures) :
  matches multiline r c caps c' caps' -> length (after c) <= length (after c') -> c' = c.
Proof.
  induction 1 as [c caps|p c caps a rest Ha Hp|r1 r2 c caps c1 caps1 c2 caps2 M1 IH1 M2 IH2
                 |r1 r2 c caps c' caps' M IH|r1 r2 c caps c' caps' M IH
                 |r c caps|r c caps c1 caps1 c2 caps2 M1 IH1 M2 IH2
                 |c caps Hb|c caps He|i r c caps c' caps' M IH]; intros Hlen;
    try reflexivity; try (now apply IH).
  - rewrite Ha in Hlen. cbn [after length] in Hlen. lia.
  - pose proof (matches_shorter M1) as H1. pose proof (matches_shorter M2) as H2.
    rewrite IH2 by lia. apply IH1. lia.
  - pose proof (matches_shorter M1) as H1. pose proof (matches_shorter M2) as H2.
    rewrite IH2 by lia. apply IH1. lia.
Qed.

Variable R : Type.

(** The matcher finds a match when there is one: it succeeds whenever the
    expression can match up to a position where the continuation
    succeeds, whatever the captures. *)
Lemma run_complete (r : regex) :
  forall (c : cursor) (caps : captures) (c' : cursor) (caps' : captures),
    matches multiline r c caps c' caps' ->
    forall (caps0 : captures) (k : kont R),
      (forall caps'', k c' caps'' <> None) -> run multiline r c caps0 k <> None.
Proof.
  induction r as [|p|r1 IH1 r2 IH2|r1 IH1 r2 IH2|r IH| | |i r IH]; intros c caps c' caps' M.
  - inversion M; subst. intros caps0 k Hk. apply Hk.
  - inversion M as [ |? ? ? a rest Ha Hp| | | | | | | | ]; subst. intros caps0 k Hk.
    cbn [run]. rewrite Ha, Hp. apply Hk.
  - apply matches_seq in M as [c1 [caps1 [M1 M2]]]. intros caps0 k Hk. cbn [run].
    apply (IH1 _ _ _ _ M1). intros caps''. now apply (IH2 _ _ _ _ M2).
  - intros caps0 k Hk. cbn [run].
    destruct (run multiline r1 c caps0 k) eqn:E1; [discriminate|].
    inversion M; subst.
    + exfalso. now apply (IH1 _ _ _ _ H5 caps0 k Hk).
    + now apply (IH2 _ _ _ _ H5).
  - remember (Star r) as sr eqn:Esr. revert Esr.
    induction M as [| | | | |r0 c caps|r0 c caps c1 caps1 c2 caps2 M1 _ M2 IHM2| | | ];
      intros Esr; try discriminate; injection Esr as ->; intros caps0 k Hk; rewrite run_star.
    + destruct (run multiline r c caps0 _); [discriminate | apply Hk].
    + destruct (length (after c1) <? length (after c)) eqn:E.
      * match goal with |- match ?x with _ => _ end <> None => destruct x eqn:Ex end;
          [discriminate|]. exfalso. revert Ex. apply (IH _ _ _ _ M1). intros caps''.
        rewrite E. now apply IHM2.
      * apply Nat.ltb_ge in E. apply matches_still in M1; [|assumption]. subst c1.
        rewrite <- run_star. now apply IHM2.
  - inversion M; subst. intros caps0 k Hk. cbn [run]. rewrite H. apply Hk.
  - inversion M; subst. intros caps0 k Hk. cbn [run]. rewrite H. apply Hk.
  - inversion M; subst. intros caps0 k Hk. cbn [run].
    apply (IH _ _ _ _ H5). intros caps''. apply Hk.
Qed.

End Complete.

End RegexComplete.

(** ** Matches as text *)

Module ReadFacts.
Import RegexFacts RegexComplete.

Lemma at_cons (prev : option ascii) (a : ascii) (w : jsstring) :
  at_ prev (a :: w) = at_ (Some a) w.
Proof.
  unfold at_. cbn [map]. generalize (Some a) (map Some w). intros x l. revert x prev.
  induction l as [|y l IH]; intros x prev; [reflexivity|].
  change (last (x :: y :: l) prev) with (last (y :: l) prev). now rewrite !IH.
Qed.

Lemma at_app (prev : option ascii) (w1 w2 : jsstring) :
  at_ prev (w1 ++ w2) = at_ (at_ prev w1) w2.
Proof.
  revert prev. induction w1 as [|a w1 IH]; intros prev; [reflexivity|].
  cbn [app]. now rewrite !at_cons.
Qed.

Section Reads.
Variable multiline : bool.

Lemma matches_reads (r : regex) (c : cursor) (caps : captures) (c' : cursor) (caps' : captures) :
  matches multiline r c caps c' caps' ->
  exists w, after c = w ++ after c' /\ before c' = at_ (before c) w
            /\ reads multiline r (before c) w (after c').
Proof.
  induction 1 as [c caps|p c caps a rest Ha Hp
                 |r1 r2 c caps c1 caps1 c2 caps2 _ [w1 [E1 [B1 R1]]] _ [w2 [E2 [B2 R2]]]
                 |r1 r2 c caps c' caps' _ [w [E [B Hr]]]|r1 r2 c caps c' caps' _ [w [E [B Hr]]]
                 |r c caps|r c caps c1 caps1 c2 caps2 _ [w1 [E1 [B1 R1]]] _ [w2 [E2 [B2 R2]]]
                 |c caps Hb|c caps He|i r c caps c' caps' _ [w [E [B Hr]]]].
  - exists []. repeat split. constructor.
  - exists [a]. cbn [after before]. repeat split; [assumption | now constructor].
  - exists (w1 ++ w2). rewrite E1, E2, B2, B1, at_app, <- app_assoc. repeat split.
    constructor; [now rewrite <- E2 | now rewrite <- B1].
  - exists w. repeat split; try assumption. now apply RAltL.
  - exists w. repeat split; try assumption. now apply RAltR.
  - exists []. repeat split. constructor.
  - exists (w1 ++ w2). rewrite E1, E2, B2, B1, at_app, <- app_assoc. repeat split.
    apply RStarStep; [now rewrite <- E2 | now rewrite <- B1].
  - exists []. repeat split. constructor. now destruct c.
  - exists []. repeat split. constructor. now destruct c.
  - exists w. repeat split; try assumption. now constructor.
Qed.

Lemma reads_matches (r : regex) (prev : option ascii) (w next : jsstring) :
  reads multiline r prev w next ->
  forall caps, exists caps',
    matches multiline r (Cursor prev (w ++ next)) caps (Cursor (at_ prev w) next) caps'.
Proof.
  induction 1 as [prev next|p prev a next Hp|r1 r2 prev w1 w2 next _ IH1 _ IH2
                 |r1 r2 prev w next _ IH|r1 r2 prev w next _ IH
                 |r prev next|r prev w1 w2 next _ IH1 _ IH2
                 |prev next Hb|prev next He|i r prev w next _ IH]; intros caps.
  - exists caps. constructor.
  - exists caps. now constructor.
  - destruct (IH1 caps) as [caps1 M1]. destruct (IH2 caps1) as [caps2 M2].
    exists caps2. rewrite at_app, <- app_assoc. econstructor; eassumption.
  - destruct (IH caps) as [caps' M]. exists caps'. now apply MAltL.
  - destruct (IH caps) as [caps' M]. exists caps'. now apply MAltR.
  - exists caps. constructor.
  - destruct (IH1 caps) as [caps1 M1]. destruct (IH2 caps1) as [caps2 M2].
    exists caps2. rewrite at_app, <- app_assoc. econstructor; eassumption.
  - exists caps. now constructor.
  - exists caps. now constructor.
  - destruct (IH caps) as [caps' M]. eexists. constructor. eassumption.
Qed.

Lemma searchFrom_at (r : regex) (s : jsstring) :
  forall (prev : option ascii) (f : found),
    searchFrom multiline r prev s = Some f ->
    exists pre suf, s = pre ++ suf /\ matchAt multiline r (Cursor (at_ prev pre) suf) = Some f.
Proof.
  induction s as [|a s IH]; intros prev f; cbn [searchFrom];
    destruct (matchAt multiline r (Cursor prev _)) as [f'|] eqn:E; intros H; try discriminate.
  - injection H as <-. exists [], []. split; [reflexivity | exact E].
  - injection H as <-. exists [], (a :: s). split; [reflexivity | exact E].
  - apply IH in H as [pre [suf [-> H]]]. exists (a :: pre), suf. split; [reflexivity|].
    change (a :: pre) with ([a] ++ pre). now rewrite at_app.
Qed.

Lemma searchFrom_found (r : regex) (pre suf : jsstring) :
  forall prev,
    matchAt multiline r (Cursor (at_ prev pre) suf) <> None ->
    searchFrom multiline r prev (pre ++ suf) <> None.
Proof.
  induction pre as [|a pre IH]; intros prev H.
  - cbn [app]. change (at_ prev []) with prev in H.
    destruct suf; cbn [searchFrom]; destruct (matchAt multiline r _); congruence.
  - cbn [app searchFrom]. destruct (matchAt multiline r (Cursor prev _)); [discriminate|].
    apply IH. change (a :: pre) with ([a] ++ pre) in H. now rewrite at_app in H.
Qed.

(** [r.test(s)] holds exactly when [r] reads some part of [s]. *)
Lemma test_reads (r : regex) (s : jsstring) :
  test multiline r s = true
  <-> exists pre w next, s = pre ++ w ++ next /\ reads multiline r (at_ None pre) w next.
Proof.
  unfold test. split.
  - destruct (searchFrom multiline r None s) as [f|] eqn:E; [intros _|discriminate].
    apply searchFrom_at in E as [pre [suf [-> E]]]. apply matchAt_sound in E.
    apply matches_reads in E as [w [Ew [_ Hr]]]. cbn [after before] in Ew, Hr.
    exists pre, w, (after (stop f)). split; [now rewrite Ew | exact Hr].
  - intros [pre [w [next [-> Hr]]]].
    destruct (searchFrom multiline r None (pre ++ w ++ next)) eqn:E; [reflexivity|].
    exfalso. revert E. apply searchFrom_found. unfold matchAt.
    destruct (reads_matches Hr []) as [caps' M].
    eapply run_complete; [exact M | discriminate].
Qed.

(** The text of the forms of expressions. *)
Lemma reads_seq (r1 r2 : regex) (prev : option ascii) (w next : jsstring) :
  reads multiline (Seq r1 r2) prev w next
  <-> exists w1 w2, w = w1 ++ w2 /\ reads multiline r1 prev w1 (w2 ++ next)
                    /\ reads multiline r2 (at_ prev w1) w2 next.
Proof.
  split.
  - inversion 1; subst. eauto.
  - intros [w1 [w2 [-> [H1 H2]]]]. now constructor.
Qed.

Lemma reads_alt (r1 r2 : regex) (prev : option ascii) (w next : jsstring) :
  reads multiline (Alt r1 r2) prev w next
  <-> reads multiline r1 prev w next \/ reads multiline r2 prev w next.
Proof.
  split.
  - inversion 1; subst; auto.
  - intros [H|H]; [now apply RAltL | now apply RAltR].
Qed.

Lemma reads_eps (prev : option ascii) (w next : jsstring) :
  reads multiline Eps prev w next <-> w = [].
Proof.
  split; [now inversion 1 | intros ->; constructor].
Qed.

Lemma reads_opt (r : regex) (prev : option ascii) (w next : jsstring) :
  reads multiline (opt r) prev w next <-> reads multiline r prev w next \/ w = [].
Proof. unfold opt. now rewrite reads_alt, reads_eps. Qed.

Lemma reads_chr (p : ascii -> bool) (prev : option ascii) (w next : jsstring) :
  reads multiline (Chr p) prev w next <-> exists a, w = [a] /\ p a = true.
Proof.
  split.
  - inversion 1; subst. eauto.
  - intros [a [-> Hp]]. now constructor.
Qed.

Lemma reads_group (i : nat) (r : regex) (prev : option ascii) (w next : jsstring) :
  reads multiline (Group i r) prev w next <-> reads multiline r prev w next.
Proof.
  split; [now inversion 1 | now constructor].
Qed.

Lemma reads_bol (prev : option ascii) (w next : jsstring) :
  reads multiline Bol prev w next <-> w = [] /\ atBol multiline (Cursor prev next) = true.
Proof.
  split; [inversion 1; now subst | intros [-> H]; now constructor].
Qed.

Lemma reads_eol (prev : option ascii) (w next : jsstring) :
  reads multiline Eol prev w next <-> w = [] /\ atEol multiline (Cursor prev next) = true.
Proof.
  split; [inversion 1; now subst | intros [-> H]; now constructor].
Qed.

Lemma reads_lit (s : jsstring) :
  forall (prev : option ascii) (w next : jsstring),
    reads multiline (lit s) prev w next <-> w = s.
Proof.
  induction s as [|a s IH]; intros prev w next; cbn [lit].
  - apply reads_eps.
  - rewrite reads_seq. split.
    + intros [w1 [w2 [-> [H1 H2]]]]. apply reads_chr in H1 as [b [-> Hb]].
      apply Ascii.eqb_eq in Hb. apply IH in H2. now subst.
    + intros ->. exists [a], s. split; [reflexivity|]. split.
      * apply reads_chr. exists a. split; [reflexivity | apply Ascii.eqb_refl].
      * now apply IH.
Qed.

Lemma reads_star_chr (p : ascii -> bool) (prev : option ascii) (w next : jsstring) :
  reads multiline (Star (Chr p)) prev w next <-> Forall (fun a => p a = true) w.
Proof.
  split.
  - intros H. remember (Star (Chr p)) as r eqn:Er. revert Er.
    induction H as [| | | | | |r0 prev w1 w2 next H1 _ _ IH2| | | ]; intros Er;
      try discriminate; [constructor|].
    injection Er as ->. apply reads_chr in H1 as [a [-> Ha]].
    constructor; [assumption | now apply IH2].
  - intros H. revert prev. induction H as [|a w Ha _ IH]; intros prev; [constructor|].
    change (a :: w) with ([a] ++ w). apply RStarStep; [now constructor | apply IH].
Qed.

Lemma reads_plus_chr (p : ascii -> bool) (prev : option ascii) (w next : jsstring) :
  reads multiline (plus (Chr p)) prev w next <-> w <> [] /\ Forall (fun a => p a = true) w.
Proof.
  unfold plus. rewrite reads_seq. split.
  - intros [w1 [w2 [-> [H1 H2]]]]. apply reads_chr in H1 as [a [-> Ha]].
    apply reads_star_chr in H2. split; [discriminate | now constructor].
  - intros [Hne H]. destruct H as [|a w Ha Hw]; [congruence|].
    exists [a], w. split; [reflexivity|]. split; [now constructor | now apply reads_star_chr].
Qed.

End Reads.

End ReadFacts.

(** ** What the expressions of the analyzer detect *)

Module DetectionProps.
Import Analyzer Shapes ReadFacts.

Lemma at_snoc (prev : option ascii) (w : jsstring) (a : ascii) : at_ prev (w ++ [a]) = Some a.
Proof. now rewrite at_app. Qed.

Lemma atBol_startsLine (pre next : jsstring) :
  atBol true (Cursor (at_ None pre) next) = true <-> startsLine pre.
Proof.
  unfold atBol, startsLine. cbn [before].
  induction pre as [|a pre' _] using rev_ind.
  - split; [now left | reflexivity].
  - rewrite at_snoc. cbn [andb]. split.
    + intros H. right. now exists pre', a.
    + intros [E|[p [b [E H]]]]; [now destruct pre'|].
      apply app_inj_tail in E as [_ ->]. exact H.
Qed.

Lemma atEol_endsLine (prev : option ascii) (next : jsstring) :
  atEol true (Cursor prev next) = true <-> endsLine next.
Proof.
  unfold atEol, endsLine. cbn [after]. destruct next as [|a next'].
  - split; [now left | reflexivity].
  - cbn [andb]. split.
    + intros H. right. now exists a, next'.
    + intros [E|[b [n [E H]]]]; [discriminate|]. now injection E as -> _.
Qed.

Section Patterns.
Variable multiline : bool.

Lemma reads_gap (prev : option ascii) (w next : jsstring) :
  reads multiline (plus space) prev w next <-> gap w.
Proof. unfold space. apply reads_plus_chr. Qed.

Lemma reads_blank (prev : option ascii) (w next : jsstring) :
  reads multiline (Star space) prev w next <-> blank w.
Proof. unfold space. apply reads_star_chr. Qed.

Lemma reads_isChar (a : ascii) (prev : option ascii) (w next : jsstring) :
  reads multiline (Chr (Js.isChar a)) prev w next <-> w = [a].
Proof.
  rewrite reads_chr. unfold Js.isChar. split.
  - intros [b [-> H]]. apply Ascii.eqb_eq in H. now subst.
  - intros ->. exists a. split; [reflexivity | apply Ascii.eqb_refl].
Qed.

(** The texts of the two expressions of a method. *)
Lemma reads_function_pattern (m : HttpMethod) (prev : option ascii) (w next : jsstring) :
  reads multiline (nth 0 (methodPatterns m) Eps) prev w next
  <-> exists ws1 async ws2 ws3,
        gap ws1
        /\ (async = [] \/ exists ws0, gap ws0 /\ async = str "async" ++ ws0)
        /\ gap ws2 /\ blank ws3
        /\ w = str "export" ++ ws1 ++ async ++ str "function" ++ ws2
               ++ methodName m ++ ws3 ++ str "(".
Proof.
  cbn [nth methodPatterns seq]. split.
  - intros H.
    apply reads_seq in H as [w1 [? [-> [H1 H]]]]. apply reads_lit in H1 as ->.
    apply reads_seq in H as [ws1 [? [-> [H1 H]]]]. apply reads_gap in H1.
    apply reads_seq in H as [async [? [-> [Ha H]]]].
    apply reads_seq in H as [w4 [? [-> [H4 H]]]]. apply reads_lit in H4 as ->.
    apply reads_seq in H as [ws2 [? [-> [H5 H]]]]. apply reads_gap in H5.
    apply reads_seq in H as [w6 [? [-> [H6 H]]]]. apply reads_lit in H6 as ->.
    apply reads_seq in H as [ws3 [? [-> [H7 H]]]]. apply reads_blank in H7.
    apply reads_isChar in H as ->.
    exists ws1, async, ws2, ws3.
    split; [exact H1|]. split; [|split; [exact H5|split; [exact H7 | reflexivity]]].
    apply reads_opt in Ha as [Ha| ->]; [|now left]. right.
    apply reads_group in Ha. cbn [seq] in Ha.
    apply reads_seq in Ha as [wa [ws0 [-> [Ha H0]]]]. apply reads_lit in Ha as ->.
    apply reads_gap in H0. now exists ws0.
  - intros [ws1 [async [ws2 [ws3 [H1 [Ha [H2 [H3 ->]]]]]]]].
    apply reads_seq. eexists _, _. split; [reflexivity|]. split; [now apply reads_lit|].
    apply reads_seq. eexists _, _. split; [reflexivity|]. split; [now apply reads_gap|].
    apply reads_seq. eexists _, _. split; [reflexivity|]. split.
    { apply reads_opt. destruct Ha as [->|[ws0 [H0 ->]]]; [now right|]. left.
      apply reads_group. cbn [seq]. apply reads_seq. eexists _, _.
      split; [reflexivity|]. split; [now apply reads_lit | now apply reads_gap]. }
    apply reads_seq. eexists _, _. split; [reflexivity|]. split; [now apply reads_lit|].
    apply reads_seq. eexists _, _. split; [reflexivity|]. split; [now apply reads_gap|].
    apply reads_seq. eexists _, _. split; [reflexivity|]. split; [now apply reads_lit|].
    apply reads_seq. eexists _, _. split; [reflexivity|]. split; [now apply reads_blank|].
    now apply reads_isChar.
Qed.

Lemma reads_const_pattern (m : HttpMethod) (prev : option ascii) (w next : jsstring) :
  reads multiline (nth 1 (methodPatterns m) Eps) prev w next
  <-> exists ws1 ws2 ws3,
        gap ws1 /\ gap ws2 /\ blank ws3
        /\ w = str "export" ++ ws1 ++ str "const" ++ ws2 ++ methodName m ++ ws3 ++ str "=".
Proof.
  cbn [nth methodPatterns seq]. split.
  - intros H.
    apply reads_seq in H as [w1 [? [-> [H1 H]]]]. apply reads_lit in H1 as ->.
    apply reads_seq in H as [ws1 [? [-> [H1 H]]]]. apply reads_gap in H1.
    apply reads_seq in H as [w4 [? [-> [H4 H]]]]. apply reads_lit in H4 as ->.
    apply reads_seq in H as [ws2 [? [-> [H5 H]]]]. apply reads_gap in H5.
    apply reads_seq in H as [w6 [? [-> [H6 H]]]]. apply reads_lit in H6 as ->.
    apply reads_seq in H as [ws3 [? [-> [H7 H]]]]. apply reads_blank in H7.
    apply reads_isChar in H as ->.
    exists ws1, ws2, ws3. split; [exact H1|]. split; [exact H5|]. split; [exact H7 | reflexivity].
  - intros [ws1 [ws2 [ws3 [H1 [H2 [H3 ->]]]]]].
    apply reads_seq. eexists _, _. split; [reflexivity|]. split; [now apply reads_lit|].
    apply reads_seq. eexists _, _. split; [reflexivity|]. split; [now apply reads_gap|].
    apply reads_seq. eexists _, _. split; [reflexivity|]. split; [now apply reads_lit|].
    apply reads_seq. eexists _, _. split; [reflexivity|]. split; [now apply reads_gap|].
    apply reads_seq. eexists _, _. split; [reflexivity|]. split; [now apply reads_lit|].
    apply reads_seq. eexists _, _. split; [reflexivity|]. split; [now apply reads_blank|].
    now apply reads_isChar.
Qed.

End Patterns.

(** X1. A method is detected exactly when the content holds the text of
    an exported function or of an exported constant of that name,
    anywhere: in code, in a comment or in a string. *)
Theorem method_detected_iff_exported (content : jsstring) (m : HttpMethod) :
  In m (extractMethods content) <-> exportsFunction m content \/ exportsConst m content.
Proof.
  assert (Hin : In m (extractMethods content)
                <-> existsb (fun pattern => test true pattern content) (methodPatterns m) = true).
  { unfold extractMethods. rewrite filter_In. split; [now intros [_ H]|].
    intros H. split; [destruct m; cbn; auto 6 | exact H]. }
  rewrite Hin. clear Hin.
  change (methodPatterns m)
    with [nth 0 (methodPatterns m) Eps; nth 1 (methodPatterns m) Eps].
  cbn [existsb]. rewrite orb_false_r, orb_true_iff, !test_reads. split.
  - intros [[pre [w [next [-> H]]]]|[pre [w [next [-> H]]]]].
    + left. apply reads_function_pattern in H as [ws1 [async [ws2 [ws3 [H1 [Ha [H2 [H3 ->]]]]]]]].
      exists pre, ws1, async, ws2, ws3, next.
      split; [exact H1|]. split; [exact Ha|]. split; [exact H2|]. split; [exact H3|].
      now rewrite <- !app_assoc.
    + right. apply reads_const_pattern in H as [ws1 [ws2 [ws3 [H1 [H2 [H3 ->]]]]]].
      exists pre, ws1, ws2, ws3, next.
      split; [exact H1|]. split; [exact H2|]. split; [exact H3|].
      now rewrite <- !app_assoc.
  - intros [[pre [ws1 [async [ws2 [ws3 [post [H1 [Ha [H2 [H3 ->]]]]]]]]]]
           |[pre [ws1 [ws2 [ws3 [post [H1 [H2 [H3 ->]]]]]]]]].
    + left. exists pre, (str "export" ++ ws1 ++ async ++ str "function" ++ ws2
                          ++ methodName m ++ ws3 ++ str "("), post.
      split; [now rewrite <- !app_assoc|]. apply reads_function_pattern.
      exists ws1, async, ws2, ws3. auto.
    + right. exists pre, (str "export" ++ ws1 ++ str "const" ++ ws2
                           ++ methodName m ++ ws3 ++ str "="), post.
      split; [now rewrite <- !app_assoc|]. apply reads_const_pattern.
      exists ws1, ws2, ws3. auto.
Qed.

(** X2. A component is a client component exactly when a line of its
    content holds the directive, and a server component otherwise. *)
Theorem client_iff_directive_line (content : jsstring) :
  (extractComponentType content = client <-> useClientLine content)
  /\ (extractComponentType content = server <-> ~ useClientLine content).
Proof.
  assert (H : test true useClientPattern content = true <-> useClientLine content).
  { rewrite test_reads. unfold useClientPattern, useClientLine. cbn [seq]. split.
    - intros [pre [w [next [-> H]]]].
      apply reads_seq in H as [w1 [? [-> [Hb H]]]]. apply reads_bol in Hb as [-> Hb].
      apply atBol_startsLine in Hb.
      apply reads_seq in H as [w2 [? [-> [Hq H]]]]. apply reads_chr in Hq as [q [-> Hq]].
      apply reads_seq in H as [w3 [? [-> [H3 H]]]]. apply reads_lit in H3 as ->.
      apply reads_seq in H as [w4 [w' [-> [Hq' H]]]]. apply reads_chr in Hq' as [q' [-> Hq']].
      apply reads_seq in H as [semi [? [-> [Hs H]]]].
      apply reads_seq in H as [ws [? [-> [Hw H]]]]. apply reads_blank in Hw.
      apply reads_eol in H as [-> He]. apply atEol_endsLine in He.
      exists pre, q, q', semi, ws, next.
      split; [exact Hb|]. split; [exact Hq|]. split; [exact Hq'|]. split; [|split; [exact Hw|]].
      + apply reads_opt in Hs as [Hs|Hs]; [right; now apply reads_isChar in Hs | now left].
      + split; [exact He|]. cbn [app]. rewrite app_nil_r, <- !app_assoc. cbn [app].
        now rewrite <- !app_assoc.
    - intros [pre [q [q' [semi [ws [next [Hb [Hq [Hq' [Hs [Hw [He ->]]]]]]]]]]]].
      exists pre, ([q] ++ str "use client" ++ [q'] ++ semi ++ ws), next.
      split; [now rewrite <- !app_assoc|].
      apply reads_seq. exists [], ([q] ++ str "use client" ++ [q'] ++ semi ++ ws).
      split; [reflexivity|]. split; [apply reads_bol; split; [reflexivity | now apply atBol_startsLine]|].
      apply reads_seq. eexists _, _. split; [reflexivity|].
      split; [apply reads_chr; now exists q|].
      apply reads_seq. eexists _, _. split; [reflexivity|]. split; [now apply reads_lit|].
      apply reads_seq. eexists _, _. split; [reflexivity|].
      split; [apply reads_chr; now exists q'|].
      apply reads_seq. eexists _, _. split; [reflexivity|]. split.
      { apply reads_opt. destruct Hs as [->| ->]; [now right | left; now apply reads_isChar]. }
      apply reads_seq. exists ws, []. split; [now rewrite app_nil_r|].
      split; [now apply reads_blank|]. apply reads_eol. split; [reflexivity|].
      now apply atEol_endsLine. }
  unfold extractComponentType. destruct (test true useClientPattern content).
  - assert (U : useClientLine content) by now apply H.
    split; split; auto; try discriminate. intros Hn. contradiction.
  - assert (U : ~ useClientLine content) by (intros U; apply H in U; discriminate).
    split; split; auto; try discriminate. intros Hc. contradiction.
Qed.

End DetectionProps.

(** ** Substrings *)

Module StringFacts.

Lemma startsWith_iff (p s : jsstring) :
  Js.startsWith p s = true <-> exists post, s = p ++ post.
Proof.
  revert s. induction p as [|x p IH]; intros s; cbn [Js.startsWith].
  - split; [intros _; now exists s | reflexivity].
  - destruct s as [|y s]; [split; [discriminate | intros [post E]; discriminate]|].
    rewrite andb_true_iff, IH. split.
    + intros [Hx [post ->]]. apply Ascii.eqb_eq in Hx. subst. now exists post.
    + intros [post E]. injection E as -> ->. split; [apply Ascii.eqb_refl | now exists post].
Qed.

Lemma includes_iff (p s : jsstring) :
  Js.includes p s = true <-> exists pre post, s = pre ++ p ++ post.
Proof.
  induction s as [|c s IH]; cbn [Js.includes]; rewrite orb_true_iff, startsWith_iff.
  - split.
    + intros [[post E]|H]; [|discriminate]. now exists [], post.
    + intros [pre [post E]]. left. destruct pre; [now exists post | discriminate].
  - rewrite IH. split.
    + intros [[post E]|[pre [post E]]]; [now exists [], post|].
      exists (c :: pre), post. now rewrite E.
    + intros [[|c' pre] [post E]]; [left; now exists post|].
      right. injection E as -> ->. now exists pre, post.
Qed.

Lemma includes_app (p pre s post : jsstring) :
  Js.includes p s = true -> Js.includes p (pre ++ s ++ post) = true.
Proof.
  rewrite !includes_iff. intros [a [b ->]]. exists (pre ++ a), (b ++ post).
  now rewrite <- !app_assoc.
Qed.

End StringFacts.

(** ** The classification of routes *)

Module AuthProps.
Import Analyzer StringFacts.

(** X3. Text added before or after a content never lowers its
    classification: a marker of administration anywhere makes the route
    [admin], a marker of authentication makes it at least [protected]. *)
Theorem auth_never_lowered (pre content post : jsstring) :
  authRank (extractAuthType content) <= authRank (extractAuthType (pre ++ content ++ post)).
Proof.
  unfold extractAuthType, Js.toLowerCase. rewrite !map_app.
  set (l := map Js.lowerChar content). set (a := map Js.lowerChar pre).
  set (b := map Js.lowerChar post).
  assert (H : forall p, Js.includes p l = true -> Js.includes p (a ++ l ++ b) = true)
    by (intros p; apply includes_app).
  match goal with
  | |- authRank (if ?A then _ else if ?P then _ else _)
       <= authRank (if ?A' then _ else if ?P' then _ else _) =>
      assert (HA : A = true -> A' = true)
        by (rewrite !orb_true_iff; intuition auto);
      assert (HP : P = true -> P' = true)
        by (rewrite !orb_true_iff; intuition auto);
      destruct A; [rewrite HA by reflexivity; reflexivity|];
      destruct P; [rewrite HP by reflexivity; destruct A'; cbn [authRank]; lia|];
      cbn [authRank]; lia
  end.
Qed.

End AuthProps.

(** ** The walks of the three passes *)

Module WalkFacts.
Import Analyzer PathFacts TreeFacts.

Section Walk.
Variables skip keep : jsstring -> bool.

Lemma walkNames_cons (name : jsstring) (c : node) (es : list (jsstring * node)) :
  walkNames skip keep (Dir ((name, c) :: es))
  = if skip name then walkNames skip keep (Dir es)
    else if isDirectory c
         then map (cons name) (walkNames skip keep c) ++ walkNames skip keep (Dir es)
         else if keep name then [name] :: walkNames skip keep (Dir es)
              else walkNames skip keep (Dir es).
Proof. reflexivity. Qed.

Lemma walkNames_head (entries : list (jsstring * node)) (ns : list jsstring) :
  In ns (walkNames skip keep (Dir entries)) ->
  exists name rest, ns = name :: rest /\ In name (names entries).
Proof.
  induction entries as [|[name c] entries IHe]; [contradiction|].
  assert (Hrest : In ns (walkNames skip keep (Dir entries)) ->
                  exists name0 rest, ns = name0 :: rest /\ In name0 (names ((name, c) :: entries))).
  { intros H. apply IHe in H as [n0 [rest [-> Hin]]]. exists n0, rest.
    split; [reflexivity | now right]. }
  rewrite walkNames_cons. destruct (skip name); [exact Hrest|].
  destruct (isDirectory c).
  - intros Hin. apply in_app_or in Hin as [Hin|Hin]; [|now apply Hrest].
    apply in_map_iff in Hin as [ns' [<- Hin]]. exists name, ns'. split; [reflexivity | now left].
  - destruct (keep name); [|exact Hrest].
    intros [<-|Hin]; [|now apply Hrest]. exists name, []. split; [reflexivity | now left].
Qed.

Lemma child_other (s name : jsstring) (c : node) (es : list (jsstring * node)) :
  s <> name -> child s ((name, c) :: es) = child s es.
Proof.
  intros H. cbn [child]. apply streq_neq in H. now rewrite H.
Qed.

Lemma descend_other (ns : list jsstring) (name : jsstring) (c : node)
    (es : list (jsstring * node)) :
  (forall rest, ns <> name :: rest) -> ns <> [] ->
  descend ((name, c) :: es) ns = descend es ns.
Proof.
  destruct ns as [|s rest]; [congruence|]. intros H _. cbn [descend].
  rewrite child_other; [reflexivity|]. intros ->. now apply (H rest).
Qed.

Lemma child_names (s : jsstring) (es : list (jsstring * node)) (c : node) :
  child s es = Some c -> In s (names es).
Proof.
  intros H. apply child_In in H. change s with (fst (s, c)). now apply in_map.
Qed.

(** The files of a walk of a well-formed tree are the files of the tree
    that satisfy its conditions. *)
Lemma walkNames_In (n : node) :
  wellFormed n = true ->
  forall entries, n = Dir entries ->
  forall ns, In ns (walkNames skip keep n) <-> walked skip keep entries ns.
Proof.
  induction n as [content|entries0 IH] using node_induction; intros Hwf entries E;
    [discriminate|].
  injection E as ->.
  apply wellFormed_Dir in Hwf as [_ [Hnd Hwf]].
  induction entries as [|[name c] entries IHe]; intros ns.
  - split; [contradiction|]. intros [[content H] _].
    destruct ns; cbn [descend child] in H; discriminate.
  - cbn [names map fst] in Hnd. inversion Hnd as [|? ? Hname Hnd']; subst.
    specialize (IHe Hnd' (fun n0 c0 H => Hwf n0 c0 (or_intror H))
                  (fun n0 c0 H => IH n0 c0 (or_intror H))).
    assert (Hc : wellFormed c = true) by (eapply Hwf; now left).
    (* the files below the other entries *)
    assert (Hrest : forall ns, (forall rest, ns <> name :: rest) ->
              (walked skip keep ((name, c) :: entries) ns <-> walked skip keep entries ns)).
    { intros ns0 H0. unfold walked. destruct ns0 as [|s rest].
      - split; intros [[content H] _]; discriminate.
      - now rewrite descend_other by (assumption || discriminate). }
    assert (Helse : forall ns, In ns (walkNames skip keep (Dir entries)) ->
              forall rest, ns <> name :: rest).
    { intros ns0 H0 rest ->. apply walkNames_head in H0 as [n0 [r0 [E H0]]].
      injection E as <- _. contradiction. }
    (* the files at and below this entry *)
    assert (Hhere : forall rest,
              walked skip keep ((name, c) :: entries) (name :: rest)
              <-> skip name = false
                  /\ (if isDirectory c then In rest (walkNames skip keep c)
                      else rest = [] /\ keep name = true)).
    { intros rest. unfold walked. cbn [descend child forallb]. rewrite streq_refl.
      rewrite andb_true_iff, negb_true_iff. destruct c as [content|entries'].
      - cbn [isDirectory]. destruct rest as [|r rest].
        + cbn [last forallb]. split.
          * intros [_ [[Hs _] Hk]]. auto.
          * intros [Hs [_ Hk]]. split; [now exists content|]. auto.
        + split; [intros [[x H] _]; discriminate | intros [_ [H _]]; discriminate].
      - cbn [isDirectory]. rewrite (IH name (Dir entries') (or_introl eq_refl) Hc entries' eq_refl).
        unfold walked. destruct rest as [|r rest].
        + split; [intros [[x H] _]; discriminate | intros [_ [[x H] _]]; discriminate].
        + change (last (name :: r :: rest) []) with (last (r :: rest) []). tauto. }
    rewrite walkNames_cons. destruct (skip name) eqn:Es.
    + rewrite IHe. split.
      * intros H. apply Hrest; [|exact H]. apply Helse. now apply IHe.
      * intros H. destruct ns as [|s rest]; [destruct H as [[x H] _]; discriminate|].
        destruct (Js.streq s name) eqn:Esn.
        -- apply streq_iff in Esn. subst s. apply Hhere in H as [H _]. discriminate.
        -- apply streq_neq in Esn. apply Hrest; [|exact H]. intros r E. injection E as -> _.
           congruence.
    + destruct ns as [|s rest].
      { split.
        - intros H. exfalso.
          assert (H' : In [] (walkNames skip keep (Dir ((name, c) :: entries)))).
          { rewrite walkNames_cons, Es. exact H. }
          apply walkNames_head in H' as [n0 [r0 [E _]]]. discriminate.
        - intros [[x H] _]. discriminate. }
      destruct (Js.streq s name) eqn:Esn.
      * apply streq_iff in Esn. subst s. rewrite Hhere.
        assert (Hno : ~ In (name :: rest) (walkNames skip keep (Dir entries))).
        { intros H. now apply (Helse _ H rest). }
        destruct (isDirectory c).
        -- rewrite in_app_iff, in_map_iff. split.
           ++ intros [[ns' [E H]]|H]; [|contradiction]. injection E as <-. auto.
           ++ intros [_ H]. left. now exists rest.
        -- destruct (keep name) eqn:Ek.
           ++ cbn [In]. split.
              ** intros [E|H]; [|contradiction]. injection E as <-. auto.
              ** intros [_ [-> _]]. now left.
           ++ split; [contradiction|]. intros [_ [_ H]]. discriminate.
      * apply streq_neq in Esn.
        assert (Hne : forall r, s :: rest <> name :: r) by (intros r E; injection E as -> _; congruence).
        rewrite (Hrest _ Hne), <- IHe.
        destruct (isDirectory c).
        -- rewrite in_app_iff, in_map_iff. split; [|now right].
           intros [[ns' [E _]]|H]; [|exact H]. injection E as -> _. congruence.
        -- destruct (keep name); [|tauto]. cbn [In]. split; [|now right].
           intros [E|H]; [|exact H]. injection E as -> _. congruence.
Qed.

Lemma walkNames_NoDup (n : node) : wellFormed n = true -> NoDup (walkNames skip keep n).
Proof.
  induction n as [content|entries IH] using node_induction; intros Hwf; [constructor|].
  apply wellFormed_Dir in Hwf as [_ [Hnd Hwf]].
  induction entries as [|[name c] entries IHe]; [constructor|].
  cbn [names map fst] in Hnd. inversion Hnd as [|? ? Hname Hnd']; subst.
  assert (Hrest : NoDup (walkNames skip keep (Dir entries))).
  { exact (IHe (fun n0 c0 H => IH n0 c0 (or_intror H)) Hnd'
             (fun n0 c0 H => Hwf n0 c0 (or_intror H))). }
  assert (Hother : forall rest, ~ In (name :: rest) (walkNames skip keep (Dir entries))).
  { intros rest Hin. apply walkNames_head in Hin as [n0 [r0 [E Hin]]].
    injection E as <- _. contradiction. }
  rewrite walkNames_cons. destruct (skip name); [assumption|].
  destruct (isDirectory c).
  - apply NoDup_app; [|assumption|].
    + apply NoDup_map_inj; [intros a b _ _ E; now injection E|].
      apply (IH name c (or_introl eq_refl)). eapply Hwf. now left.
    + intros ns Hin1 Hin2. apply in_map_iff in Hin1 as [rest [<- _]].
      now apply (Hother rest).
  - destruct (keep name); [|assumption].
    constructor; [apply Hother | assumption].
Qed.

End Walk.

End WalkFacts.

(** ** Names, extensions and stems *)

Module NameFacts.
Import Analyzer PathFacts TreeFacts SourceFileProps StringFacts ReadFacts.

Lemma lastSegment_slash (p name : jsstring) :
  isPlain name = true -> Path.lastSegment (p ++ "/"%char :: name) = name.
Proof.
  intros Hp. pose proof Hp as Hplain. apply isPlain_iff in Hp as [Hne [Hs _]].
  unfold Path.lastSegment. rewrite rev_app_distr. cbn [rev]. rewrite <- app_assoc. cbn [app].
  assert (Hr : forallb Path.notSlash (rev name) = true).
  { apply forallb_forall. intros c Hc. apply in_rev in Hc.
    unfold Path.notSlash, Path.isSlash. apply negb_true_iff, Ascii.eqb_neq. intros ->.
    contradiction. }
  destruct (rev name) as [|c r] eqn:Er.
  { apply (f_equal (@rev ascii)) in Er. rewrite rev_involutive in Er. contradiction. }
  cbn [forallb] in Hr. apply andb_true_iff in Hr as [Hc Hr].
  cbn [app Path.dropWhile]. unfold Path.notSlash in Hc. apply negb_true_iff in Hc. rewrite Hc.
  cbn [Path.takeWhile]. unfold Path.notSlash at 1. rewrite Hc. cbn [negb].
  assert (Ht : Path.takeWhile Path.notSlash (r ++ "/"%char :: rev p) = r).
  { clear Er. induction r as [|x r IH]; cbn [app Path.takeWhile forallb] in *.
    - reflexivity.
    - apply andb_true_iff in Hr as [Hx Hr]. rewrite Hx. now rewrite IH. }
  rewrite Ht. rewrite <- (rev_involutive name), Er. reflexivity.
Qed.

(** The absolute path of a file ends in a slash and the name of the file. *)
Lemma absolute_snoc (dsegs : list jsstring) (name : jsstring) :
  exists p, absolute (dsegs ++ [name]) = p ++ "/"%char :: name.
Proof.
  unfold absolute. destruct dsegs as [|d dsegs].
  - now exists [].
  - exists (str "/" ++ Js.join (str "/") (d :: dsegs)).
    rewrite join_app by discriminate. now rewrite <- app_assoc.
Qed.

Lemma extname_absolute (dsegs : list jsstring) (name : jsstring) :
  isPlain name = true -> Path.extname (absolute (dsegs ++ [name])) = Path.extname name.
Proof.
  intros Hp. destruct (absolute_snoc dsegs name) as [p ->].
  unfold Path.extname. now rewrite lastSegment_slash, lastSegment_plain.
Qed.

Lemma endsWith_app (stem ext : jsstring) : Js.endsWith ext (stem ++ ext) = true.
Proof.
  unfold Js.endsWith. rewrite rev_app_distr. apply startsWith_iff. now exists (rev stem).
Qed.

(** The base name of a path without its extension is the stem of its
    last name. *)
Lemma basename_stem (front stem ext : jsstring) :
  stem <> [] -> ext <> [] ->
  Path.lastSegment (front ++ stem ++ ext) = stem ++ ext ->
  Path.basename (front ++ stem ++ ext) ext = stem.
Proof.
  intros Hs He Hl. unfold Path.basename. rewrite Hl.
  destruct ext as [|e ext]; [congruence|].
  replace (length (front ++ stem ++ e :: ext) <? length (e :: ext)) with false.
  2: { symmetry. apply Nat.ltb_ge. rewrite !length_app. lia. }
  replace (Js.streq (e :: ext) (front ++ stem ++ e :: ext)) with false.
  2: { symmetry. apply streq_neq. intros E. apply (f_equal (@length ascii)) in E.
       rewrite !length_app in E. destruct stem; [congruence|]. cbn [length] in E. lia. }
  rewrite endsWith_app.
  replace (Js.streq (e :: ext) (stem ++ e :: ext)) with false.
  2: { symmetry. apply streq_neq. intros E. apply (f_equal (@length ascii)) in E.
       rewrite !length_app in E. destruct stem; [congruence|]. cbn [length] in E. lia. }
  cbn [andb negb]. unfold Js.dropEnd. rewrite length_app.
  replace (length stem + length (e :: ext) - length (e :: ext)) with (length stem) by lia.
  rewrite firstn_app, firstn_all, Nat.sub_diag. cbn [firstn]. apply app_nil_r.
Qed.

Lemma basename_plain (name stem ext : jsstring) :
  isPlain name = true -> name = stem ++ ext -> stem <> [] -> ext <> [] ->
  Path.basename name ext = stem.
Proof.
  intros Hp -> Hs He. apply (@basename_stem [] stem ext Hs He).
  now apply lastSegment_plain.
Qed.

Lemma basename_absolute (dsegs : list jsstring) (name stem ext : jsstring) :
  isPlain name = true -> name = stem ++ ext -> stem <> [] -> ext <> [] ->
  Path.basename (absolute (dsegs ++ [name])) ext = stem.
Proof.
  intros Hp -> Hs He. destruct (absolute_snoc dsegs (stem ++ ext)) as [p ->].
  change (p ++ "/"%char :: stem ++ ext) with (p ++ [("/"%char)] ++ stem ++ ext).
  rewrite app_assoc. apply basename_stem; try assumption.
  rewrite <- app_assoc. now apply lastSegment_slash.
Qed.

(** [/^[A-Z]/.test(s)] *)
Lemma startsUpper_iff (s : jsstring) :
  startsUpper s = true <-> exists a rest, s = a :: rest /\ Js.isUpper a = true.
Proof.
  unfold startsUpper. rewrite test_reads. split.
  - intros [pre [w [next [-> H]]]]. apply reads_seq in H as [w1 [w2 [-> [H1 H2]]]].
    apply reads_bol in H1 as [-> H1]. apply reads_chr in H2 as [a [-> Ha]].
    unfold atBol in H1. cbn [before andb] in H1.
    destruct pre as [|c pre] using rev_ind; [|rewrite at_app in H1; discriminate].
    now exists a, next.
  - intros [a [rest [-> Ha]]]. exists [], [a], rest. split; [reflexivity|].
    apply reads_seq. exists [], [a]. split; [reflexivity|].
    split; [now apply reads_bol | apply reads_chr; now exists a].
Qed.

Lemma takeWhile_app (p : ascii -> bool) (a : jsstring) (c : ascii) (b : jsstring) :
  forallb p a = true -> p c = false -> Path.takeWhile p (a ++ c :: b) = a.
Proof.
  intros Ha Hc. induction a as [|x a IH]; cbn [app Path.takeWhile forallb] in *.
  - now rewrite Hc.
  - apply andb_true_iff in Ha as [Hx Ha]. rewrite Hx. now rewrite IH.
Qed.

Lemma dropWhile_app (p : ascii -> bool) (a : jsstring) (c : ascii) (b : jsstring) :
  forallb p a = true -> p c = false -> Path.dropWhile p (a ++ c :: b) = c :: b.
Proof.
  intros Ha Hc. induction a as [|x a IH]; cbn [app Path.dropWhile forallb] in *.
  - now rewrite Hc.
  - apply andb_true_iff in Ha as [Hx Ha]. rewrite Hx. now apply IH.
Qed.

(** The extension of a name that ends in a dot and characters that are
    no dots. *)
Lemma extname_stem (x e : jsstring) :
  isPlain (x ++ "."%char :: e) = true -> x <> [] -> forallb (Js.notChar ".") e = true ->
  Path.extname (x ++ "."%char :: e) = "."%char :: e.
Proof.
  intros Hp Hx He. unfold Path.extname. rewrite lastSegment_plain by assumption.
  rewrite rev_app_distr. cbn [rev]. rewrite <- app_assoc. cbn [app].
  assert (Hr : forallb (Js.notChar ".") (rev e) = true).
  { apply forallb_forall. intros c Hc. apply in_rev in Hc.
    rewrite forallb_forall in He. now apply He. }
  rewrite takeWhile_app, dropWhile_app by (assumption || reflexivity).
  destruct (rev x) as [|y r] eqn:Er.
  { apply (f_equal (@rev ascii)) in Er. rewrite rev_involutive in Er. contradiction. }
  apply isPlain_iff in Hp as [_ [_ [_ Hdd]]]. apply streq_neq in Hdd. rewrite Hdd.
  rewrite rev_app_distr. cbn [rev app]. now rewrite rev_involutive.
Qed.

Lemma component_extension (ext : jsstring) :
  In ext COMPONENT_EXTENSIONS -> exists e, ext = "."%char :: e /\ forallb (Js.notChar ".") e = true.
Proof.
  unfold COMPONENT_EXTENSIONS. cbn [In].
  intros [<-|[<-|[]]]; eexists; split; reflexivity.
Qed.

(** The name of a component file: an upper-case letter first and the
    extension [.tsx] or [.jsx] last. *)
Lemma isComponentFile_plain (name : jsstring) :
  isPlain name = true ->
  (isComponentFile name = true
   <-> exists a stem ext,
         name = a :: stem ++ ext /\ Js.isUpper a = true /\ In ext COMPONENT_EXTENSIONS).
Proof.
  intros Hp.
  assert (Hshape : forall a stem ext, name = a :: stem ++ ext -> In ext COMPONENT_EXTENSIONS ->
            Path.extname name = ext).
  { intros a stem ext E He. destruct (component_extension He) as [e [-> He']].
    rewrite E in Hp |- *. change (a :: stem ++ "."%char :: e) with ((a :: stem) ++ "."%char :: e).
    apply extname_stem; (assumption || discriminate). }
  unfold isComponentFile.
  destruct (Js.arrIncludes (Path.extname name) COMPONENT_EXTENSIONS) eqn:Ei; cbn [negb].
  - apply arrIncludes_iff in Ei.
    assert (Hext : Path.extname name <> []).
    { intros E. rewrite E in Ei. cbn in Ei. intuition discriminate. }
    destruct (@extname_plain name Hp Hext) as [stem [Hs Hn]].
    rewrite (@basename_plain name stem (Path.extname name) Hp Hn Hs Hext), startsUpper_iff. split.
    + intros [a [rest [-> Ha]]]. exists a, rest, (Path.extname name). auto.
    + intros [a [stem' [ext [E [Ha He]]]]]. exists a, stem'. split; [|assumption].
      rewrite (Hshape a stem' ext E He) in Hn. rewrite Hn in E.
      change (a :: stem' ++ ext) with ((a :: stem') ++ ext) in E. now apply app_inv_tail in E.
  - split; [discriminate|]. intros [a [stem [ext [E [Ha He]]]]]. exfalso.
    rewrite (Hshape a stem ext E He) in Ei. apply arrIncludes_iff in He. congruence.
Qed.

Lemma isComponentFile_absolute (dsegs : list jsstring) (name : jsstring) :
  isPlain name = true -> isComponentFile (absolute (dsegs ++ [name])) = isComponentFile name.
Proof.
  intros Hp. unfold isComponentFile. rewrite extname_absolute by assumption.
  destruct (Js.arrIncludes (Path.extname name) COMPONENT_EXTENSIONS) eqn:Ei; [|reflexivity].
  cbn [negb]. apply arrIncludes_iff in Ei.
  assert (Hext : Path.extname name <> []).
  { intros E. rewrite E in Ei. cbn in Ei. intuition discriminate. }
  destruct (@extname_plain name Hp Hext) as [stem [Hs Hn]].
  now rewrite (@basename_plain name stem (Path.extname name) Hp Hn Hs Hext),
    (@basename_absolute dsegs name stem (Path.extname name) Hp Hn Hs Hext).
Qed.

End NameFacts.

(** ** The files the three walks find *)

Module DiscoveryProps.
Import Analyzer PathFacts TreeFacts SourceFileProps NameFacts WalkFacts.

Lemma descend_app (a : list jsstring) :
  forall entries b,
    descend entries (a ++ b)
    = match descend entries a with
      | Some (Dir es) => descend es b
      | Some (File content) => match b with [] => Some (File content) | _ => None end
      | None => None
      end.
Proof.
  induction a as [|s a IH]; intros entries b; [reflexivity|].
  cbn [app descend]. destruct (child s entries) as [[content|es]|]; [|apply IH|reflexivity].
  destruct a; [reflexivity|]. reflexivity.
Qed.

Lemma descend_plain (ns : list jsstring) :
  forall entries n,
    wellFormed (Dir entries) = true -> descend entries ns = Some n ->
    forallb isPlain ns = true.
Proof.
  induction ns as [|s ns IH]; intros entries n Hwf H; [reflexivity|].
  cbn [descend] in H. destruct (child s entries) as [c|] eqn:Ec; [|discriminate].
  pose proof (child_names _ _ Ec) as Hs. apply child_In in Ec.
  apply wellFormed_Dir in Hwf as [Hp [_ Hwf]].
  cbn [forallb]. rewrite forallb_forall in Hp. rewrite (Hp s Hs). cbn [andb].
  destruct c as [content|es].
  - destruct ns; [reflexivity | discriminate].
  - eapply IH; [|exact H]. eapply Hwf. exact Ec.
Qed.

Section Found.
Variable fs : filesystem.
Variable dsegs : list jsstring.
Hypothesis fs_wellFormed : wellFormed (Dir (root fs)) = true.
Hypothesis dsegs_plain : forallb isPlain dsegs = true.
Variables skip keep : jsstring -> bool.
Variable entries : list (jsstring * node).
Hypothesis dsegs_dir : descend (root fs) dsegs = Some (Dir entries).

(** The files of a walk of a directory of the file system, by their
    paths. *)
Lemma found_iff (f : jsstring) :
  In f (map (fun ns => absolute (dsegs ++ ns)) (walkNames skip keep (Dir entries)))
  <-> exists ns,
        f = absolute (dsegs ++ ns) /\ forallb isPlain ns = true
        /\ isFileAt fs f = true
        /\ forallb (fun x => negb (skip x)) ns = true
        /\ keep (last ns []) = true.
Proof.
  assert (Hwf : wellFormed (Dir entries) = true) by (eapply descend_wellFormed; eassumption).
  assert (Hlook : forall ns, forallb isPlain ns = true ->
            lookup fs (absolute (dsegs ++ ns)) = descend entries ns).
  { intros ns Hns. rewrite lookup_absolute by (rewrite forallb_app; now rewrite dsegs_plain, Hns).
    now rewrite descend_app, dsegs_dir. }
  rewrite in_map_iff. split.
  - intros [ns [<- Hin]]. apply (walkNames_In skip keep Hwf eq_refl) in Hin.
    destruct Hin as [[content Hd] [Hs Hk]].
    assert (Hns : forallb isPlain ns = true) by (eapply descend_plain; eassumption).
    exists ns. repeat split; try assumption.
    unfold isFileAt. now rewrite Hlook, Hd.
  - intros [ns [-> [Hns [Hf [Hs Hk]]]]]. exists ns. split; [reflexivity|].
    apply (walkNames_In skip keep Hwf eq_refl). split; [|now split].
    unfold isFileAt in Hf. rewrite Hlook in Hf by assumption.
    destruct (descend entries ns) as [[content|es]|]; try discriminate. now exists content.
Qed.

Lemma found_NoDup :
  NoDup (map (fun ns => absolute (dsegs ++ ns)) (walkNames skip keep (Dir entries))).
Proof.
  assert (Hwf : wellFormed (Dir entries) = true) by (eapply descend_wellFormed; eassumption).
  apply NoDup_map_inj; [|now apply walkNames_NoDup].
  intros a b Ha Hb E.
  apply (walkNames_In skip keep Hwf eq_refl) in Ha, Hb.
  destruct Ha as [[ca Ha] _], Hb as [[cb Hb] _].
  apply (@descend_plain _ _ _ Hwf) in Ha, Hb.
  apply absolute_inj in E; try (rewrite forallb_app; now rewrite dsegs_plain, ?Ha, ?Hb).
  now apply app_inv_head in E.
Qed.

End Found.

(** The three walks of the analyzer are walks of that form. *)
Lemma routeNamesIn_walk (n : node) :
  routeNamesIn n = walkNames (fun _ => false) isRouteFile n.
Proof.
  induction n as [content|entries IH] using node_induction; [reflexivity|].
  induction entries as [|[name c] entries IHe]; [reflexivity|].
  rewrite walkNames_cons. cbv beta iota.
  rewrite <- (IHe (fun n0 c0 H => IH n0 c0 (or_intror H))).
  rewrite <- (IH name c (or_introl eq_refl)). reflexivity.
Qed.

Lemma findComponentFilesIn_walk (n : node) :
  forall dsegs,
    wellFormed n = true -> forallb isPlain dsegs = true ->
    findComponentFilesIn (absolute dsegs) n
    = map (fun ns => absolute (dsegs ++ ns)) (walkNames ignored isComponentFile n).
Proof.
  induction n as [content|entries IH] using node_induction; intros dsegs Hwf Hd;
    [reflexivity|].
  apply wellFormed_Dir in Hwf as [Hp [_ Hwf]].
  induction entries as [|[name c] entries IHe]; [reflexivity|].
  cbn [names map forallb fst] in Hp. apply andb_true_iff in Hp as [Hname Hp].
  assert (Hjoin : Path.join [absolute dsegs; name] = absolute (dsegs ++ [name])).
  { apply join_absolute; [assumption|]. cbn [forallb]. now rewrite Hname. }
  rewrite walkNames_cons. unfold ignored at 1.
  change (findComponentFilesIn (absolute dsegs) (Dir ((name, c) :: entries)))
    with (if Js.arrIncludes name IGNORED_DIRS
          then findComponentFilesIn (absolute dsegs) (Dir entries)
          else if isDirectory c
               then findComponentFilesIn (Path.join [absolute dsegs; name]) c
                    ++ findComponentFilesIn (absolute dsegs) (Dir entries)
               else if isComponentFile (Path.join [absolute dsegs; name])
                    then Path.join [absolute dsegs; name]
                         :: findComponentFilesIn (absolute dsegs) (Dir entries)
                    else findComponentFilesIn (absolute dsegs) (Dir entries)).
  rewrite Hjoin, (@isComponentFile_absolute dsegs name Hname).
  rewrite (IHe (fun n0 c0 H => IH n0 c0 (or_intror H)) Hp
             (fun n0 c0 H => Hwf n0 c0 (or_intror H))).
  destruct (Js.arrIncludes name IGNORED_DIRS); [reflexivity|].
  destruct (isDirectory c).
  - rewrite map_app. f_equal.
    rewrite (IH name c (or_introl eq_refl) (dsegs ++ [name])).
    + rewrite map_map. apply map_ext. intros ns. now rewrite <- app_assoc.
    + eapply Hwf. now left.
    + rewrite forallb_app. cbn [forallb]. now rewrite Hd, Hname.
  - destruct (isComponentFile name); reflexivity.
Qed.

Lemma firstn_app_firstn {A : Type} (k : nat) (a b : list A) :
  firstn k (a ++ b) = firstn k a ++ firstn (k - length (firstn k a)) b.
Proof.
  rewrite firstn_app. f_equal. destruct (Nat.le_gt_cases (length a) k) as [H|H].
  - rewrite (firstn_all2 a H). reflexivity.
  - rewrite length_firstn, Nat.min_l by lia.
    replace (k - length a) with 0 by lia. now rewrite Nat.sub_diag.
Qed.

Lemma findSourceFilesIn_walk (limit : nat) (n : node) :
  forall dsegs files,
    wellFormed n = true -> forallb isPlain dsegs = true ->
    findSourceFilesIn (absolute dsegs) n files limit
    = files ++ firstn (limit - length files)
                 (map (fun ns => absolute (dsegs ++ ns)) (walkNames ignored hasSourceExtension n)).
Proof.
  induction n as [content|entries IH] using node_induction; intros dsegs files Hwf Hd.
  - cbn. now rewrite firstn_nil, app_nil_r.
  - apply wellFormed_Dir in Hwf as [Hp [_ Hwf]].
    cbn [findSourceFilesIn].
    destruct (limit <=? length files) eqn:El.
    { apply Nat.leb_le in El. replace (limit - length files) with 0 by lia.
      cbn [firstn]. now rewrite app_nil_r. }
    clear El. revert files.
    induction entries as [|[name c] entries IHe]; intros files.
    + cbn. now rewrite firstn_nil, app_nil_r.
    + cbn [names map forallb fst] in Hp. apply andb_true_iff in Hp as [Hname Hp].
      specialize (IHe (fun n0 c0 H => IH n0 c0 (or_intror H)) Hp
                    (fun n0 c0 H => Hwf n0 c0 (or_intror H))).
      rewrite walkNames_cons. unfold ignored at 1.
      destruct (limit <=? length files) eqn:El.
      { apply Nat.leb_le in El. replace (limit - length files) with 0 by lia.
        cbn [firstn]. now rewrite app_nil_r. }
      apply Nat.leb_gt in El.
      destruct (Js.arrIncludes name IGNORED_DIRS); [apply IHe|].
      assert (Hjoin : Path.join [absolute dsegs; name] = absolute (dsegs ++ [name])).
      { apply join_absolute; [assumption|]. cbn [forallb]. now rewrite Hname. }
      rewrite Hjoin. destruct (isDirectory c).
      * rewrite (IH name c (or_introl eq_refl) (dsegs ++ [name]) files).
        2: { eapply Hwf. now left. }
        2: { rewrite forallb_app. cbn [forallb]. now rewrite Hd, Hname. }
        rewrite IHe. rewrite map_app, firstn_app_firstn, <- app_assoc. f_equal.
        rewrite map_map.
        replace (map (fun x => absolute (dsegs ++ name :: x)) (walkNames ignored hasSourceExtension c))
          with (map (fun ns => absolute ((dsegs ++ [name]) ++ ns))
                  (walkNames ignored hasSourceExtension c))
          by (apply map_ext; intros ns; now rewrite <- app_assoc).
        f_equal. f_equal. rewrite length_app. lia.
      * unfold hasSourceExtension at 1.
        destruct (Js.arrIncludes (Path.extname name) SOURCE_EXTENSIONS); [|apply IHe].
        rewrite IHe. rewrite <- app_assoc. f_equal. cbn [map app].
        rewrite length_app. cbn [length].
        destruct (limit - length files) as [|k] eqn:Ek; [lia|].
        cbn [firstn]. f_equal. f_equal. lia.
Qed.

Lemma not_ignored (ns : list jsstring) :
  forallb (fun x => negb (ignored x)) ns = true <-> forall x, In x ns -> ~ In x IGNORED_DIRS.
Proof.
  rewrite forallb_forall. unfold ignored. split; intros H x Hx.
  - apply H in Hx. apply negb_true_iff in Hx. intros Hi. apply arrIncludes_iff in Hi. congruence.
  - apply negb_true_iff. destruct (Js.arrIncludes x IGNORED_DIRS) eqn:E; [|reflexivity].
    apply arrIncludes_iff in E. now apply H in Hx.
Qed.

Lemma not_skipped (ns : list jsstring) : forallb (fun x => negb ((fun _ => false) x)) ns = true.
Proof. now apply forallb_forall. Qed.

Lemma component_name (ns : list jsstring) :
  forallb isPlain ns = true ->
  (isComponentFile (last ns []) = true
   <-> exists a stem ext,
         last ns [] = a :: stem ++ ext /\ Js.isUpper a = true /\ In ext COMPONENT_EXTENSIONS).
Proof.
  intros Hp. destruct ns as [|n ns].
  - cbn [last]. split; [discriminate|]. intros [a [stem [ext [E _]]]]. discriminate.
  - apply isComponentFile_plain. apply last_plain; [discriminate | assumption].
Qed.

Lemma route_name (x : jsstring) :
  isRouteFile x = true <-> x = str "route.ts" \/ x = str "route.js".
Proof. unfold isRouteFile. now rewrite orb_true_iff, !streq_iff. Qed.

Section Passes.
Variable fs : filesystem.
Variable dsegs : list jsstring.
Hypothesis fs_wellFormed : wellFormed (Dir (root fs)) = true.
Hypothesis dsegs_plain : forallb isPlain dsegs = true.

(** Nothing is a file below a path that does not exist. *)
Lemma absent_below (ns : list jsstring) :
  descend (root fs) dsegs = None -> forallb isPlain ns = true ->
  isFileAt fs (absolute (dsegs ++ ns)) = false.
Proof.
  intros Hd Hns. unfold isFileAt.
  rewrite lookup_absolute by (rewrite forallb_app; now rewrite dsegs_plain, Hns).
  now rewrite descend_app, Hd.
Qed.

(** What [findApiRoutes] returns, by the walk of the directory. *)
Lemma findApiRoutes_walked (files : list jsstring) :
  findApiRoutes fs (absolute dsegs) = Ok files ->
  NoDup files
  /\ forall f, In f files
               <-> exists ns,
                     f = absolute (dsegs ++ ns) /\ forallb isPlain ns = true
                     /\ isFileAt fs f = true
                     /\ forallb (fun x => negb ((fun _ => false) x)) ns = true
                     /\ isRouteFile (last ns []) = true.
Proof.
  unfold findApiRoutes, existsSync, readdirSync. rewrite lookup_absolute by assumption.
  destruct (descend (root fs) dsegs) as [[content|entries]|] eqn:E; cbn [negb bind];
    [discriminate| |].
  - intros H. assert (Hf : files = findApiRoutesIn (absolute dsegs) (Dir entries)) by congruence.
    clear H. subst files.
    rewrite findApiRoutesIn_names, routeNamesIn_walk
      by (assumption || (eapply descend_wellFormed; eassumption)).
    split; [exact (@found_NoDup fs dsegs fs_wellFormed dsegs_plain _ _ entries E)|].
    intros f. exact (@found_iff fs dsegs fs_wellFormed dsegs_plain _ _ entries E f).
  - intros [= <-]. split; [constructor|]. intros f. split; [contradiction|].
    intros [ns [-> [Hns [Hf _]]]]. rewrite absent_below in Hf by assumption. discriminate.
Qed.

(** What [findComponentFiles] returns, by the walk of the directory. *)
Lemma findComponentFiles_walked (files : list jsstring) :
  findComponentFiles fs (absolute dsegs) = Ok files ->
  NoDup files
  /\ forall f, In f files
               <-> exists ns,
                     f = absolute (dsegs ++ ns) /\ forallb isPlain ns = true
                     /\ isFileAt fs f = true
                     /\ forallb (fun x => negb (ignored x)) ns = true
                     /\ isComponentFile (last ns []) = true.
Proof.
  unfold findComponentFiles, existsSync, readdirSync. rewrite lookup_absolute by assumption.
  destruct (descend (root fs) dsegs) as [[content|entries]|] eqn:E; cbn [negb bind];
    [discriminate| |].
  - intros H. assert (Hf : files = findComponentFilesIn (absolute dsegs) (Dir entries)) by congruence.
    clear H. subst files.
    rewrite findComponentFilesIn_walk by (assumption || (eapply descend_wellFormed; eassumption)).
    split; [exact (@found_NoDup fs dsegs fs_wellFormed dsegs_plain _ _ entries E)|].
    intros f. exact (@found_iff fs dsegs fs_wellFormed dsegs_plain _ _ entries E f).
  - intros [= <-]. split; [constructor|]. intros f. split; [contradiction|].
    intros [ns [-> [Hns [Hf _]]]]. rewrite absent_below in Hf by assumption. discriminate.
Qed.

(** X4. In a well-formed file system, [findApiRoutes], when it returns,
    returns without repetition the files below the directory that are
    named [route.ts] or [route.js], whatever the directories they are
    in. *)
Theorem route_files_found (files : list jsstring) :
  findApiRoutes fs (absolute dsegs) = Ok files ->
  NoDup files
  /\ forall f, In f files
               <-> exists ns,
                     f = absolute (dsegs ++ ns) /\ forallb isPlain ns = true
                     /\ isFileAt fs f = true
                     /\ (last ns [] = str "route.ts" \/ last ns [] = str "route.js").
Proof.
  intros H. apply findApiRoutes_walked in H as [Hnd Hin]. split; [exact Hnd|].
  intros f. rewrite Hin.
  split; intros [ns [H1 [H2 [H3 H4]]]]; exists ns.
  - destruct H4 as [_ H4]. apply route_name in H4. auto.
  - apply route_name in H4. repeat split; try assumption. apply not_skipped.
Qed.

(** X5. In a well-formed file system, [findComponentFiles], when it
    returns, returns without repetition the files below the directory
    that are in no ignored directory and whose name starts with an
    upper-case letter and ends in [.tsx] or [.jsx]. *)
Theorem component_files_found (files : list jsstring) :
  findComponentFiles fs (absolute dsegs) = Ok files ->
  NoDup files
  /\ forall f, In f files
               <-> exists ns,
                     f = absolute (dsegs ++ ns) /\ forallb isPlain ns = true
                     /\ isFileAt fs f = true
                     /\ (forall x, In x ns -> ~ In x IGNORED_DIRS)
                     /\ exists a stem ext,
                          last ns [] = a :: stem ++ ext /\ Js.isUpper a = true
                          /\ In ext COMPONENT_EXTENSIONS.
Proof.
  intros H. apply findComponentFiles_walked in H as [Hnd Hin]. split; [exact Hnd|].
  intros f. rewrite Hin.
  split; intros [ns [H1 [H2 [H3 [H4 H5]]]]]; exists ns.
  - pose proof (proj1 (not_ignored ns) H4). pose proof (proj1 (component_name ns H2) H5). auto.
  - pose proof (proj2 (not_ignored ns) H4). pose proof (proj2 (component_name ns H2) H5). auto.
Qed.

(** X6. In a well-formed file system, [findSourceFiles], when it
    returns, returns the first [MAX_FILES] files of the walk of the
    directory, in the order of this walk: the entries of a directory
    in the order in which it lists them, the files below a directory at
    the place of the directory. The walk meets no file twice, and it
    meets the files below the directory that are in no ignored
    directory and have a source extension. *)
Theorem source_files_found (files : list jsstring) :
  findSourceFiles fs (absolute dsegs) = Ok files ->
  files = firstn MAX_FILES (sourceWalk fs dsegs)
  /\ NoDup (sourceWalk fs dsegs)
  /\ forall f, In f (sourceWalk fs dsegs)
               <-> exists ns,
                     f = absolute (dsegs ++ ns) /\ forallb isPlain ns = true
                     /\ isFileAt fs f = true
                     /\ (forall x, In x ns -> ~ In x IGNORED_DIRS)
                     /\ In (Path.extname (last ns [])) SOURCE_EXTENSIONS.
Proof.
  unfold findSourceFiles, existsSync, readdirSync, sourceWalk.
  rewrite lookup_absolute by assumption.
  destruct (descend (root fs) dsegs) as [[content|entries]|] eqn:E;
    cbn [negb bind orb MAX_FILES Nat.leb]; [discriminate| |].
  - intros H.
    assert (Hf : files = findSourceFilesIn (absolute dsegs) (Dir entries) [] MAX_FILES)
      by congruence.
    clear H. subst files.
    rewrite findSourceFilesIn_walk by (assumption || (eapply descend_wellFormed; eassumption)).
    cbn [app length]. rewrite Nat.sub_0_r.
    split; [reflexivity|].
    split; [exact (@found_NoDup fs dsegs fs_wellFormed dsegs_plain _ _ entries E)|].
    intros f. rewrite (@found_iff fs dsegs fs_wellFormed dsegs_plain _ _ entries E f).
    split; intros [ns [H1 [H2 [H3 [H4 H5]]]]]; exists ns.
    + pose proof (proj1 (not_ignored ns) H4). apply arrIncludes_iff in H5. auto.
    + pose proof (proj2 (not_ignored ns) H4). apply arrIncludes_iff in H5. auto.
  - intros [= <-]. split; [reflexivity|]. split; [constructor|].
    intros f. split; [contradiction|].
    intros [ns [-> [Hns [Hf _]]]]. rewrite absent_below in Hf by assumption. discriminate.
Qed.

End Passes.

(** X4 at the API directory of the sample project of scenario A. *)
Lemma route_files_found_witness :
  let files := Samples.okOr [] (findApiRoutes Samples.routesFs (str "/proj/app/api")) in
  NoDup files
  /\ forall f, In f files
               <-> exists ns,
                     f = absolute ([str "proj"; str "app"; str "api"] ++ ns)
                     /\ forallb isPlain ns = true
                     /\ isFileAt Samples.routesFs f = true
                     /\ (last ns [] = str "route.ts" \/ last ns [] = str "route.js").
Proof.
  apply (@route_files_found Samples.routesFs [str "proj"; str "app"; str "api"]);
    vm_compute; reflexivity.
Defined.

(** X5 at the component directory of a sample project. *)
Lemma component_files_found_witness :
  let files := Samples.okOr [] (findComponentFiles Samples.pagesFs (str "/proj/components")) in
  NoDup files
  /\ forall f, In f files
               <-> exists ns,
                     f = absolute ([str "proj"; str "components"] ++ ns)
                     /\ forallb isPlain ns = true
                     /\ isFileAt Samples.pagesFs f = true
                     /\ (forall x, In x ns -> ~ In x IGNORED_DIRS)
                     /\ exists a stem ext,
                          last ns [] = a :: stem ++ ext /\ Js.isUpper a = true
                          /\ In ext COMPONENT_EXTENSIONS.
Proof.
  apply (@component_files_found Samples.pagesFs [str "proj"; str "components"]);
    vm_compute; reflexivity.
Defined.

(** X6 at a sample project. *)
Lemma source_files_found_witness :
  Samples.okOr [] (findSourceFiles Samples.pagesFs Samples.proj)
  = firstn MAX_FILES (sourceWalk Samples.pagesFs [str "proj"])
  /\ NoDup (sourceWalk Samples.pagesFs [str "proj"])
  /\ forall f, In f (sourceWalk Samples.pagesFs [str "proj"])
               <-> exists ns,
                     f = absolute ([str "proj"] ++ ns) /\ forallb isPlain ns = true
                     /\ isFileAt Samples.pagesFs f = true
                     /\ (forall x, In x ns -> ~ In x IGNORED_DIRS)
                     /\ In (Path.extname (last ns [])) SOURCE_EXTENSIONS.
Proof.
  apply (@source_files_found Samples.pagesFs [str "proj"]); vm_compute; reflexivity.
Defined.

End DiscoveryProps.

(** ** The records of the components *)

Module ComponentRecordProps.
Import Analyzer Spec PathFacts TreeFacts SourceFileProps NameFacts WalkFacts DiscoveryProps.

Lemma join_relative (ns : list jsstring) :
  forallb isPlain ns = true -> Path.isAbsolute (Js.join (str "/") ns) = false.
Proof.
  destruct ns as [|n ns]; [reflexivity|]. cbn [forallb]. intros Hp.
  apply andb_true_iff in Hp as [Hn _]. apply isPlain_iff in Hn as [Hn0 [Hs _]].
  destruct n as [|c n]; [congruence|].
  assert (E : Path.isSlash c = false).
  { unfold Path.isSlash. apply Ascii.eqb_neq. intros ->. apply Hs. now left. }
  destruct ns; cbn [Js.join app Path.isAbsolute]; exact E.
Qed.

(** The directory of a relative path of two plain names or more. *)
Lemma dirname_join (ns : list jsstring) (name : jsstring) :
  ns <> [] -> forallb isPlain ns = true -> isPlain name = true ->
  Path.dirname (Js.join (str "/") (ns ++ [name])) = Js.join (str "/") ns.
Proof.
  intros Hne Hp Hname. rewrite join_app by (assumption || discriminate). cbn [Js.join].
  pose proof (join_relative ns Hp) as Hc.
  assert (HA : Js.join (str "/") ns <> []) by (intros E; now apply (join_nil_iff _ Hp) in E).
  revert Hc HA. generalize (Js.join (str "/") ns) as A. intros A Hc HA.
  destruct A as [|c A'] eqn:EA; [congruence|]. cbn [app].
  unfold Path.dirname.
  change (str "/" ++ name) with ("/"%char :: name).
  pose proof Hname as Hn. apply isPlain_iff in Hn as [Hn0 [Hs _]].
  assert (Hr : forallb Path.notSlash (rev name) = true).
  { apply forallb_forall. intros x Hx. apply in_rev in Hx.
    unfold Path.notSlash, Path.isSlash. apply negb_true_iff, Ascii.eqb_neq. intros ->.
    contradiction. }
  rewrite rev_app_distr. cbn [rev]. rewrite <- app_assoc. cbn [app].
  destruct (rev name) as [|y r] eqn:Er.
  { apply (f_equal (@rev ascii)) in Er. rewrite rev_involutive in Er. contradiction. }
  pose proof Hr as Hr'. cbn [forallb] in Hr'. apply andb_true_iff in Hr' as [Hy _].
  cbn [app Path.dropWhile]. unfold Path.notSlash in Hy. apply negb_true_iff in Hy. rewrite Hy.
  change (y :: r ++ "/"%char :: rev A') with ((y :: r) ++ "/"%char :: rev A').
  rewrite dropWhile_app by (assumption || reflexivity).
  cbn [Path.isAbsolute] in Hc |- *. rewrite Hc. cbn [andb length].
  rewrite length_rev.
  change (c :: A' ++ "/"%char :: name) with ((c :: A') ++ "/"%char :: name).
  replace (S (length A')) with (length (c :: A')) by reflexivity.
  rewrite firstn_app, firstn_all, Nat.sub_diag. cbn [firstn]. apply app_nil_r.
Qed.

Lemma isPrefix_split (a b x y : list jsstring) :
  a ++ x = b ++ y -> isPrefix a b = true \/ isPrefix b a = true.
Proof.
  revert b. induction a as [|u a IH]; intros [|v b] E; cbn [isPrefix]; auto.
  cbn [app] in E. injection E as -> E. rewrite streq_refl. cbn [andb]. now apply IH.
Qed.

Section Gather.
Variable psegs : list jsstring.
Hypothesis psegs_plain : forallb isPlain psegs = true.
Variable find : jsstring -> result (list jsstring).
Variable Q : jsstring -> list jsstring -> Prop.
Hypothesis find_found :
  forall pre files,
    forallb isPlain pre = true ->
    find (absolute (psegs ++ pre)) = Ok files ->
    NoDup files
    /\ forall f, In f files
                 <-> exists ns, f = absolute ((psegs ++ pre) ++ ns)
                                /\ forallb isPlain ns = true /\ Q f ns.

(** The files of directories that are apart: no file is found twice. *)
Lemma filesOf_found (pres : list (list jsstring)) :
  forall files,
    forallb (forallb isPlain) pres = true -> apart pres = true ->
    filesOf find (map (fun pre => absolute (psegs ++ pre)) pres) = Ok files ->
    NoDup files
    /\ forall f, In f files
                 <-> exists pre ns, In pre pres /\ f = absolute (psegs ++ pre ++ ns)
                                    /\ forallb isPlain ns = true /\ Q f ns.
Proof.
  induction pres as [|pre pres IH]; intros files Hplain Hapart; cbn [map filesOf].
  - intros [= <-]. split; [constructor|]. intros f. split; [contradiction|].
    intros [pre [ns [[] _]]].
  - cbn [forallb] in Hplain. apply andb_true_iff in Hplain as [Hpre Hplain].
    cbn [apart] in Hapart. apply andb_true_iff in Hapart as [Hpre_apart Hapart].
    destruct (find (absolute (psegs ++ pre))) as [files1|] eqn:E1; cbn [bind]; [|discriminate].
    destruct (filesOf find _) as [files2|] eqn:E2; cbn [bind]; [|discriminate].
    intros [= <-].
    destruct (find_found _ Hpre E1) as [Hnd1 Hin1].
    destruct (IH files2 Hplain Hapart eq_refl) as [Hnd2 Hin2].
    split.
    + apply NoDup_app; [assumption|assumption|].
      intros f H1 H2. apply Hin1 in H1 as [ns1 [-> [Hns1 _]]].
      apply Hin2 in H2 as [pre2 [ns2 [Hpre2 [E [Hns2 _]]]]].
      assert (Hp2 : forallb isPlain pre2 = true).
      { rewrite forallb_forall in Hplain. now apply Hplain. }
      apply absolute_inj in E.
      2: { rewrite !forallb_app. now rewrite psegs_plain, Hpre, Hns1. }
      2: { rewrite !forallb_app. now rewrite psegs_plain, Hp2, Hns2. }
      rewrite <- app_assoc in E. apply app_inv_head in E.
      rewrite forallb_forall in Hpre_apart. apply Hpre_apart in Hpre2.
      apply andb_true_iff in Hpre2 as [Ha Hb]. apply negb_true_iff in Ha, Hb.
      apply isPrefix_split in E as [E|E]; congruence.
    + intros f. rewrite in_app_iff, Hin1, Hin2. split.
      * intros [[ns [-> H]]|[pre2 [ns [Hpre2 H]]]].
        -- exists pre, ns. rewrite <- app_assoc in H |- *. split; [now left|].
           split; [reflexivity | exact H].
        -- exists pre2, ns. split; [now right | exact H].
      * intros [pre2 [ns [[<-|Hpre2] [-> H]]]].
        -- left. exists ns. now rewrite <- app_assoc.
        -- right. exists pre2, ns. auto.
Qed.

End Gather.

Section Records.
Variable fs : filesystem.
Variable psegs : list jsstring.
Hypothesis fs_wellFormed : wellFormed (Dir (root fs)) = true.
Hypothesis psegs_plain : forallb isPlain psegs = true.

Lemma collectComponents_files (projectPath : jsstring) (dirs : list jsstring) :
  forall st,
    collectComponents fs projectPath dirs st
    = (files <- filesOf (findComponentFiles fs) dirs ;;
       Ok (fold_left (addComponentFile fs projectPath) files st)).
Proof.
  induction dirs as [|d dirs IH]; intros st; cbn [collectComponents filesOf bind];
    [reflexivity|].
  destruct (findComponentFiles fs d) as [files|]; cbn [bind]; [|reflexivity].
  rewrite IH. destruct (filesOf (findComponentFiles fs) dirs) as [more|]; cbn [bind];
    [|reflexivity].
  now rewrite fold_left_app.
Qed.

Lemma possibleComponentDirs_absolute :
  possibleComponentDirs (absolute psegs)
  = map (fun pre => absolute (psegs ++ pre)) componentPrefixes.
Proof.
  unfold possibleComponentDirs, componentPrefixes. cbn [map].
  now rewrite !join_absolute by (assumption || reflexivity).
Qed.

(** The component files of a project. *)
Lemma component_files (files : list jsstring) :
  filesOf (findComponentFiles fs) (possibleComponentDirs (absolute psegs)) = Ok files ->
  NoDup files
  /\ forall f, In f files
               <-> exists pre ns,
                     In pre componentPrefixes /\ f = absolute (psegs ++ pre ++ ns)
                     /\ forallb isPlain ns = true
                     /\ (isFileAt fs f = true
                         /\ (forall x, In x ns -> ~ In x IGNORED_DIRS)
                         /\ exists a stem ext,
                              last ns [] = a :: stem ++ ext /\ Js.isUpper a = true
                              /\ In ext COMPONENT_EXTENSIONS).
Proof.
  rewrite possibleComponentDirs_absolute.
  apply (@filesOf_found psegs psegs_plain (findComponentFiles fs)
           (fun f ns => isFileAt fs f = true
                        /\ (forall x, In x ns -> ~ In x IGNORED_DIRS)
                        /\ exists a stem ext,
                             last ns [] = a :: stem ++ ext /\ Js.isUpper a = true
                             /\ In ext COMPONENT_EXTENSIONS));
    [|reflexivity|reflexivity].
  intros pre files0 Hpre H.
  apply findComponentFiles_walked in H;
    [|assumption|rewrite forallb_app; now rewrite psegs_plain, Hpre].
  destruct H as [Hnd Hin]. split; [assumption|]. intros f. rewrite Hin.
  split; intros [ns [H1 [H2 [H3 [H4 H5]]]]]; exists ns.
  - pose proof (proj1 (not_ignored ns) H4). pose proof (proj1 (component_name ns H2) H5). auto.
  - pose proof (proj2 (not_ignored ns) H4). pose proof (proj2 (component_name ns H2) H5). auto.
Qed.

(** The record of a component file of the project. *)
Lemma componentOfFile_below (pre ns : list jsstring) (a : ascii) (stem ext content : jsstring) :
  In pre componentPrefixes -> forallb isPlain ns = true ->
  last ns [] = a :: stem ++ ext -> In ext COMPONENT_EXTENSIONS ->
  readFileSync fs (absolute (psegs ++ pre ++ ns)) = Ok content ->
  componentOfFile fs (absolute psegs) (absolute (psegs ++ pre ++ ns))
  = Some (ComponentInfo.Make (a :: stem) (Js.join (str "/") (pre ++ ns))
            (Js.join (str "/") (pre ++ removelast ns))
            (extractComponentType content) (extractDependencies content)
            (countLines content)).
Proof.
  intros Hpre Hns Hlast Hext Hread.
  assert (Hne : ns <> []) by (intros ->; discriminate).
  assert (Hpp : forallb isPlain pre = true /\ pre <> []).
  { unfold componentPrefixes in Hpre. cbn [In] in Hpre.
    destruct Hpre as [<-|[<-|[<-|[<-|[]]]]]; split; (reflexivity || discriminate). }
  destruct Hpp as [Hpp Hpne].
  assert (Hname : isPlain (last ns []) = true) by now apply last_plain.
  assert (Hfront : forallb isPlain (removelast ns) = true).
  { rewrite forallb_forall in *. intros x Hx. apply Hns.
    rewrite (app_removelast_last [] Hne). apply in_or_app. now left. }
  assert (Esplit : pre ++ ns = (pre ++ removelast ns) ++ [last ns []]).
  { rewrite <- app_assoc. f_equal. now apply app_removelast_last. }
  assert (Eext : Path.extname (last ns []) = ext).
  { destruct (component_extension Hext) as [e [-> He]]. rewrite Hlast in Hname |- *.
    change (a :: stem ++ "."%char :: e) with ((a :: stem) ++ "."%char :: e) in *.
    apply extname_stem; (assumption || discriminate). }
  assert (Hext0 : ext <> []).
  { intros ->. unfold COMPONENT_EXTENSIONS in Hext. cbn [In] in Hext. intuition discriminate. }
  unfold componentOfFile. rewrite Hread. cbn [bind tryCatch]. f_equal.
  rewrite relative_absolute
    by (assumption || (rewrite forallb_app; now rewrite Hpp, Hns) || (destruct pre; [congruence | discriminate])).
  f_equal.
  - rewrite Esplit, app_assoc, extname_absolute, Eext by assumption.
    apply basename_absolute; try assumption. discriminate.
  - rewrite Esplit. apply dirname_join; try assumption.
    + destruct pre; [congruence | discriminate].
    + rewrite forallb_app. now rewrite Hpp, Hfront.
Qed.

Variable localeCompare : jsstring -> jsstring -> comparison.

(** X7. In a well-formed file system, for the project at an absolute path
    of plain names: the records of [analyzeComponents] are the records of
    the readable component files below the four component directories of
    the project. The record of a file holds its name without the
    extension, its path from the project and the directory part of that
    path; no two records have the same path. *)
Theorem component_records (now : jsstring) (d : ComponentData.t) :
  analyzeComponents localeCompare fs now (absolute psegs) = Ok d ->
  NoDup (map ComponentInfo.path (ComponentData.components d))
  /\ forall c,
       In c (ComponentData.components d)
       <-> exists pre ns a stem ext content,
             In pre componentPrefixes /\ forallb isPlain ns = true
             /\ (forall x, In x ns -> ~ In x IGNORED_DIRS)
             /\ last ns [] = a :: stem ++ ext /\ Js.isUpper a = true
             /\ In ext COMPONENT_EXTENSIONS
             /\ readFileSync fs (absolute (psegs ++ pre ++ ns)) = Ok content
             /\ c = ComponentInfo.Make (a :: stem) (Js.join (str "/") (pre ++ ns))
                      (Js.join (str "/") (pre ++ removelast ns))
                      (extractComponentType content) (extractDependencies content)
                      (countLines content).
Proof.
  unfold analyzeComponents. rewrite collectComponents_files.
  destruct (filesOf (findComponentFiles fs) (possibleComponentDirs (absolute psegs)))
    as [files|] eqn:Efiles; cbn [bind]; [|discriminate].
  intros [= <-]. cbn [ComponentData.components].
  rewrite ComponentProps.fold_add_components. cbn [fst app].
  destruct (component_files Efiles) as [Hnd Hin].
  assert (Hrec : forall f c, In f files ->
            (componentOfFile fs (absolute psegs) f = Some c
             <-> exists pre ns a stem ext content,
                   f = absolute (psegs ++ pre ++ ns)
                   /\ In pre componentPrefixes /\ forallb isPlain ns = true
                   /\ (forall x, In x ns -> ~ In x IGNORED_DIRS)
                   /\ last ns [] = a :: stem ++ ext /\ Js.isUpper a = true
                   /\ In ext COMPONENT_EXTENSIONS
                   /\ readFileSync fs f = Ok content
                   /\ c = ComponentInfo.Make (a :: stem) (Js.join (str "/") (pre ++ ns))
                            (Js.join (str "/") (pre ++ removelast ns))
                            (extractComponentType content) (extractDependencies content)
                            (countLines content))).
  { intros f c Hf. apply Hin in Hf as [pre [ns [Hpre [-> [Hns [_ [Hig [a [stem [ext [Hl [Ha He]]]]]]]]]]]].
    split.
    - intros H. pose proof H as H0.
      apply ComponentProps.componentOfFile_Some in H as [content [Hread _]].
      rewrite (@componentOfFile_below pre ns a stem ext content Hpre Hns Hl He Hread) in H0. injection H0 as <-.
      exists pre, ns, a, stem, ext, content. repeat split; assumption.
    - intros [pre' [ns' [a' [stem' [ext' [content [E [Hpre' [Hns' [_ [Hl' [_ [He' [Hread ->]]]]]]]]]]]]]].
      rewrite E in Hread |- *. now apply (@componentOfFile_below pre' ns' a' stem' ext' content). }
  split.
  - apply (Permutation_NoDup (l := map ComponentInfo.path
                                      (keep (componentOfFile fs (absolute psegs)) files))).
    { apply Permutation_map, Permutation_sym, sortBy_perm. }
    assert (Hrel : NoDup (map (Path.relative (cwd fs) (absolute psegs)) files)).
    { apply NoDup_map_inj; [|assumption]. intros f g Hf Hg.
      apply Hin in Hf as [pre1 [ns1 [Hpre1 [-> [Hns1 [_ [_ [a1 [s1 [e1 [Hl1 _]]]]]]]]]]].
      apply Hin in Hg as [pre2 [ns2 [Hpre2 [-> [Hns2 [_ [_ [a2 [s2 [e2 [Hl2 _]]]]]]]]]]].
      assert (Hp : forall pre, In pre componentPrefixes -> forallb isPlain pre = true).
      { unfold componentPrefixes. cbn [In]. intros pre [<-|[<-|[<-|[<-|[]]]]]; reflexivity. }
      assert (H1 : forallb isPlain (pre1 ++ ns1) = true)
        by (rewrite forallb_app; now rewrite (Hp _ Hpre1), Hns1).
      assert (H2 : forallb isPlain (pre2 ++ ns2) = true)
        by (rewrite forallb_app; now rewrite (Hp _ Hpre2), Hns2).
      rewrite !relative_absolute by (assumption || (intros E; apply app_eq_nil in E as [_ ->]; discriminate)).
      intros E. apply join_inj in E; try assumption. now rewrite E. }
    clear Hin Hnd Hrec Efiles. induction files as [|f files IH]; [constructor|].
    cbn [map] in Hrel. inversion Hrel as [|? ? Hf Hrest]; subst. cbn [keep].
    destruct (componentOfFile fs (absolute psegs) f) as [c|] eqn:Ec; [|now apply IH].
    cbn [map]. constructor; [|now apply IH].
    intros Hc. apply Hf. apply in_map_iff in Hc as [c' [Epath Hc']].
    apply ComponentProps.In_keep in Hc' as [g [Hg Eg]].
    apply ComponentProps.componentOfFile_Some in Ec as [? [_ ->]].
    apply ComponentProps.componentOfFile_Some in Eg as [? [_ ->]].
    cbn [ComponentInfo.path] in Epath. rewrite <- Epath. now apply in_map.
  - intros c. rewrite sortBy_In, ComponentProps.In_keep. split.
    + intros [f [Hf H]]. apply (Hrec f c Hf) in H.
      destruct H as [pre [ns [a [stem [ext [content [-> H]]]]]]].
      exists pre, ns, a, stem, ext, content. exact H.
    + intros [pre [ns [a [stem [ext [content [Hpre [Hns [Hig [Hl [Ha [He [Hread ->]]]]]]]]]]]]].
      exists (absolute (psegs ++ pre ++ ns)).
      assert (Hf : In (absolute (psegs ++ pre ++ ns)) files).
      { apply Hin. exists pre, ns. repeat split; try assumption.
        - unfold isFileAt. unfold readFileSync in Hread.
          destruct (lookup fs (absolute (psegs ++ pre ++ ns))) as [[[x|]|es]|]; try discriminate.
          reflexivity.
        - now exists a, stem, ext. }
      split; [exact Hf|]. now apply (@componentOfFile_below pre ns a stem ext content).
Qed.

End Records.

(** Sorting by a number, the larger first. *)
Lemma descending_consistent {A : Type} (key : A -> nat) :
  Consistent (fun a b => Nat.compare (key b) (key a)).
Proof.
  split.
  - intros a b. apply Nat.compare_antisym.
  - intros a b c Hab Hbc. rewrite Nat.compare_gt_iff in *. lia.
Qed.

Lemma sorted_impl {A : Type} (R R' : A -> A -> Prop) (l : list A) :
  (forall a b, R a b -> R' a b) -> StronglySorted R l -> StronglySorted R' l.
Proof.
  intros HR. induction 1 as [|a l Hl IH Ha]; constructor; [exact IH|].
  eapply Forall_impl; [|exact Ha]. intros b. apply HR.
Qed.

Section Order.
Variable localeCompare : jsstring -> jsstring -> comparison.
Variable fs : filesystem.
Variable projectPath : jsstring.

(** X8. The components [analyzeComponents] returns are sorted by
    directory, ties broken by name, the strings compared by
    [localeCompare]; the directories are sorted by their number of
    components, the larger first. *)
Theorem components_sorted `{Consistent jsstring localeCompare} (now : jsstring)
    (d : ComponentData.t) :
  analyzeComponents localeCompare fs now projectPath = Ok d ->
  StronglySorted (componentLe localeCompare) (ComponentData.components d)
  /\ StronglySorted
       (fun a b => DirectoryInfo.componentCount b <= DirectoryInfo.componentCount a)
       (ComponentData.directories d).
Proof.
  unfold analyzeComponents. intros Hd.
  destruct (collectComponents fs projectPath _ _) as [st|]; cbn [bind] in Hd; [|discriminate].
  injection Hd as <-. cbn [ComponentData.components ComponentData.directories]. split.
  - assert (Hc : Consistent (compareComponents localeCompare)).
    { destruct (thenBy_consistent (cmp1:=localeCompare) (cmp2:=localeCompare)
                  ComponentInfo.directory ComponentInfo.name) as [Hs Ht].
      assert (E : forall a b, compareComponents localeCompare a b
                              = thenBy localeCompare localeCompare ComponentInfo.directory
                                  ComponentInfo.name a b).
      { intros a b. unfold compareComponents, thenBy. now destruct (localeCompare _ _). }
      split; intros; rewrite ?E in *; [apply Hs | eapply Ht; eassumption]. }
    apply sorted_impl with (R := notGreater (compareComponents localeCompare));
      [|apply sortBy_sorted].
    intros a b. unfold notGreater, compareComponents, componentLe.
    destruct (localeCompare (ComponentInfo.directory a) (ComponentInfo.directory b));
      [now right | now left | congruence].
    exact Hc.
  - apply sorted_impl with (R := notGreater compareDirectories).
    + intros a b. unfold notGreater, compareDirectories. rewrite Nat.compare_gt_iff. lia.
    + apply (@sortBy_sorted _ compareDirectories (descending_consistent DirectoryInfo.componentCount)).
Qed.

End Order.

(** X7 at a sample project. *)
Lemma component_records_witness :
  NoDup (map ComponentInfo.path (ComponentData.components Samples.pagesData))
  /\ forall c,
       In c (ComponentData.components Samples.pagesData)
       <-> exists pre ns a stem ext content,
             In pre componentPrefixes /\ forallb isPlain ns = true
             /\ (forall x, In x ns -> ~ In x IGNORED_DIRS)
             /\ last ns [] = a :: stem ++ ext /\ Js.isUpper a = true
             /\ In ext COMPONENT_EXTENSIONS
             /\ readFileSync Samples.pagesFs (absolute ([str "proj"] ++ pre ++ ns)) = Ok content
             /\ c = ComponentInfo.Make (a :: stem) (Js.join (str "/") (pre ++ ns))
                      (Js.join (str "/") (pre ++ removelast ns))
                      (extractComponentType content) (extractDependencies content)
                      (countLines content).
Proof.
  apply (@component_records Samples.pagesFs [str "proj"] eq_refl eq_refl
           Js.compareCodeUnits (Samples.clock0 1) Samples.pagesData).
  vm_compute. reflexivity.
Defined.

(** X8 at the same project. *)
Lemma components_sorted_witness :
  StronglySorted (componentLe Js.compareCodeUnits) (ComponentData.components Samples.pagesData)
  /\ StronglySorted
       (fun a b => DirectoryInfo.componentCount b <= DirectoryInfo.componentCount a)
       (ComponentData.directories Samples.pagesData).
Proof.
  apply (@components_sorted Js.compareCodeUnits Samples.pagesFs Samples.proj
           compareCodeUnits_consistent (Samples.clock0 1) Samples.pagesData).
  vm_compute. reflexivity.
Defined.

End ComponentRecordProps.

(** ** The records of the routes *)

Module RouteRecordProps.
Import Analyzer Spec PathFacts TreeFacts SourceFileProps NameFacts WalkFacts DiscoveryProps.
Import ComponentRecordProps.

Lemma routeFiles_filesOf (fs : filesystem) (dirs : list jsstring) :
  routeFiles fs dirs = filesOf (findApiRoutes fs) dirs.
Proof.
  induction dirs as [|d dirs IH]; [reflexivity|]. cbn [routeFiles filesOf]. now rewrite IH.
Qed.

(** The route of a file [route.ts] in the directories [ds] below an API
    directory, and its feature. *)
Lemma route_of_parts (pre ds : list jsstring) (fname : jsstring) :
  In pre apiPrefixes -> forallb isPlain ds = true -> isPlain fname = true ->
  let parts := pre ++ ds ++ [fname] in
  match indexOf (str "api") parts with
  | None => str "/" ++ Js.join (str "/") (sliceToLast 0 parts)
  | Some apiIndex => str "/" ++ Js.join (str "/") (sliceToLast apiIndex parts)
  end = str "/" ++ Js.join (str "/") (str "api" :: ds).
Proof.
  intros Hpre Hds Hf parts.
  assert (Hslice : forall pre0,
            sliceToLast (length pre0) (pre0 ++ str "api" :: ds ++ [fname]) = str "api" :: ds).
  { intros pre0. unfold sliceToLast. rewrite skipn_app, skipn_all, Nat.sub_diag. cbn [skipn app].
    rewrite length_app. cbn [length]. rewrite length_app. cbn [length].
    replace (length pre0 + S (length ds + 1) - 1 - length pre0) with (S (length ds)) by lia.
    cbn [firstn]. f_equal. rewrite firstn_app, firstn_all, Nat.sub_diag. cbn [firstn].
    apply app_nil_r. }
  unfold apiPrefixes in Hpre. cbn [In] in Hpre. unfold parts.
  destruct Hpre as [<-|[<-|[<-|[<-|[]]]]].
  - change (indexOf (str "api") ([str "app"; str "api"] ++ ds ++ [fname])) with (Some 1).
    cbv iota. f_equal. f_equal. apply (Hslice [str "app"]).
  - change (indexOf (str "api") ([str "src"; str "app"; str "api"] ++ ds ++ [fname]))
      with (Some 2).
    cbv iota. f_equal. f_equal. apply (Hslice [str "src"; str "app"]).
  - change (indexOf (str "api") ([str "pages"; str "api"] ++ ds ++ [fname])) with (Some 1).
    cbv iota. f_equal. f_equal. apply (Hslice [str "pages"]).
  - change (indexOf (str "api") ([str "src"; str "pages"; str "api"] ++ ds ++ [fname]))
      with (Some 2).
    cbv iota. f_equal. f_equal. apply (Hslice [str "src"; str "pages"]).
Qed.

Lemma feature_of_route (ds : list jsstring) :
  forallb isPlain ds = true ->
  extractFeature (str "/" ++ Js.join (str "/") (str "api" :: ds)) = hd (str "api") ds.
Proof.
  intros Hds. unfold extractFeature.
  change (str "/" ++ Js.join (str "/") (str "api" :: ds))
    with ([] ++ "/"%char :: Js.join (str "/") (str "api" :: ds)).
  rewrite split_app, split_join by (discriminate || (cbn [forallb]; now rewrite Hds)).
  cbn [Js.split app filter Path.nonEmpty].
  change (Path.nonEmpty (str "api")) with true. cbv iota.
  rewrite plain_nonEmpty by assumption.
  destruct ds as [|d ds]; [reflexivity|]. now rewrite streq_refl.
Qed.

Lemma methods_NoDup (content : jsstring) : NoDup (extractMethods content).
Proof.
  unfold extractMethods. apply NoDup_filter. unfold HTTP_METHODS.
  repeat constructor; cbn [In]; intros H; repeat destruct H as [H|H]; discriminate || exact H.
Qed.

Section Records.
Variable fs : filesystem.
Variable psegs : list jsstring.
Hypothesis fs_wellFormed : wellFormed (Dir (root fs)) = true.
Hypothesis psegs_plain : forallb isPlain psegs = true.

(** The route files of a project. *)
Lemma route_files (files : list jsstring) :
  routeFiles fs (possibleApiDirs (absolute psegs)) = Ok files ->
  forall f, In f files
            <-> exists pre ns,
                  In pre apiPrefixes /\ f = absolute (psegs ++ pre ++ ns)
                  /\ forallb isPlain ns = true
                  /\ (isFileAt fs f = true
                      /\ (last ns [] = str "route.ts" \/ last ns [] = str "route.js")).
Proof.
  rewrite routeFiles_filesOf, RouteFileProps.possibleApiDirs_absolute by assumption.
  intros H.
  apply (@filesOf_found psegs psegs_plain (findApiRoutes fs)
           (fun f ns => isFileAt fs f = true
                        /\ (last ns [] = str "route.ts" \/ last ns [] = str "route.js")))
    in H; [now destruct H| |reflexivity|reflexivity].
  intros pre files0 Hpre H0.
  apply findApiRoutes_walked in H0;
    [|assumption|rewrite forallb_app; now rewrite psegs_plain, Hpre].
  destruct H0 as [Hnd Hin]. split; [assumption|]. intros f. rewrite Hin.
  split; intros [ns [H1 [H2 [H3 H4]]]]; exists ns.
  - destruct H4 as [_ H4]. apply route_name in H4. auto.
  - apply route_name in H4. repeat split; try assumption. apply not_skipped.
Qed.

(** The records of a route file of the project. *)
Lemma routesOfFile_below (pre ds : list jsstring) (fname content : jsstring) :
  In pre apiPrefixes -> forallb isPlain ds = true ->
  fname = str "route.ts" \/ fname = str "route.js" ->
  readFileSync fs (absolute (psegs ++ pre ++ ds ++ [fname])) = Ok content ->
  routesOfFile fs (absolute psegs) (absolute (psegs ++ pre ++ ds ++ [fname]))
  = map (fun method =>
           RouteInfo.Make (str "/" ++ Js.join (str "/") (str "api" :: ds)) method
             (hd (str "api") ds) (extractAuthType content)
             (Js.join (str "/") (pre ++ ds ++ [fname])))
      (extractMethods content).
Proof.
  intros Hpre Hds Hf Hread.
  assert (Hname : isPlain fname = true) by (destruct Hf as [-> | ->]; reflexivity).
  assert (Hpp : forallb isPlain pre = true).
  { unfold apiPrefixes in Hpre. cbn [In] in Hpre.
    destruct Hpre as [<-|[<-|[<-|[<-|[]]]]]; reflexivity. }
  assert (Hall : forallb isPlain (pre ++ ds ++ [fname]) = true).
  { rewrite !forallb_app. cbn [forallb]. now rewrite Hpp, Hds, Hname. }
  assert (Hne : pre ++ ds ++ [fname] <> []).
  { intros E. apply app_eq_nil in E as [_ E]. apply app_eq_nil in E as [_ E]. discriminate. }
  assert (Hpath : pathToApiRoute fs (absolute (psegs ++ pre ++ ds ++ [fname])) (absolute psegs)
                  = str "/" ++ Js.join (str "/") (str "api" :: ds)).
  { unfold pathToApiRoute. cbv zeta. rewrite relative_absolute, split_join by assumption.
    exact (@route_of_parts pre ds fname Hpre Hds Hname). }
  rewrite (RouteFileProps.routesOfFile_read fs (absolute psegs) _ Hread).
  rewrite Hpath, feature_of_route, relative_absolute by assumption.
  reflexivity.
Qed.

Variable localeCompare : jsstring -> jsstring -> comparison.

(** X9. In a well-formed file system, for the project at an absolute
    path of plain names: the records of [analyzeRoutes] are the records
    of the readable files [route.ts] and [route.js] below the four API
    directories of the project, one for every method detected. The path
    of a record is [/api] followed by the directories between the API
    directory and the file, its feature is the first of these
    directories, or [api] when there is none; no two records have the
    same file and method. *)
Theorem route_records (now : jsstring) (d : RouteData.t) :
  analyzeRoutes localeCompare fs now (absolute psegs) = Ok d ->
  NoDup (map (fun r => (RouteInfo.file r, RouteInfo.method r)) (RouteData.routes d))
  /\ forall r,
       In r (RouteData.routes d)
       <-> exists pre ds fname content,
             In pre apiPrefixes /\ forallb isPlain ds = true
             /\ (fname = str "route.ts" \/ fname = str "route.js")
             /\ readFileSync fs (absolute (psegs ++ pre ++ ds ++ [fname])) = Ok content
             /\ In (RouteInfo.method r) (extractMethods content)
             /\ r = RouteInfo.Make (str "/" ++ Js.join (str "/") (str "api" :: ds))
                      (RouteInfo.method r) (hd (str "api") ds) (extractAuthType content)
                      (Js.join (str "/") (pre ++ ds ++ [fname])).
Proof.
  unfold analyzeRoutes. rewrite RouteFileProps.collectRoutes_flat.
  destruct (routeFiles fs (possibleApiDirs (absolute psegs))) as [files|] eqn:Efiles;
    cbn [bind]; [|discriminate].
  intros [= <-]. cbn [RouteData.routes].
  pose proof (route_files Efiles) as Hin.
  pose proof (@RouteFileProps.routeFiles_relative fs psegs fs_wellFormed psegs_plain files Efiles) as Hrel.
  assert (Hshape : forall f, In f files ->
            exists pre ds fname,
              In pre apiPrefixes /\ forallb isPlain ds = true
              /\ (fname = str "route.ts" \/ fname = str "route.js")
              /\ f = absolute (psegs ++ pre ++ ds ++ [fname])).
  { intros f Hf. apply Hin in Hf as [pre [ns [Hpre [-> [Hns [_ Hl]]]]]].
    assert (Hne : ns <> []) by (intros ->; destruct Hl; discriminate).
    exists pre, (removelast ns), (last ns []). repeat split; try assumption.
    - rewrite forallb_forall in *. intros x Hx. apply Hns.
      rewrite (app_removelast_last [] Hne). apply in_or_app. now left.
    - now rewrite <- app_removelast_last. }
  split.
  - apply (Permutation_NoDup
             (l := map (fun r => (RouteInfo.file r, RouteInfo.method r))
                     (flat_map (routesOfFile fs (absolute psegs)) files))).
    { apply Permutation_map, Permutation_sym, sortBy_perm. }
    clear Hin Hshape Efiles. induction files as [|f files IH]; [constructor|].
    cbn [map] in Hrel. inversion Hrel as [|? ? Hf Hrest]; subst.
    cbn [flat_map]. rewrite map_app. apply NoDup_app; [|now apply IH|].
    + unfold routesOfFile. destruct (readFileSync fs f) as [content|]; cbn [bind tryCatch];
        [|constructor].
      rewrite map_map. cbn [RouteInfo.file RouteInfo.method].
      apply NoDup_map_inj; [|apply methods_NoDup]. intros a b _ _ E. now injection E.
    + intros k H1 H2. apply Hf.
      apply in_map_iff in H1 as [r1 [<- H1]]. apply in_map_iff in H2 as [r2 [E H2]].
      apply RouteFileProps.routesOfFile_file in H1.
      apply in_flat_map in H2 as [g [Hg H2]]. apply RouteFileProps.routesOfFile_file in H2.
      injection E as E _. rewrite <- H1, <- E, H2. now apply in_map.
  - intros r. rewrite sortBy_In, in_flat_map. split.
    + intros [f [Hf Hr]]. destruct (Hshape f Hf) as [pre [ds [fname [Hpre [Hds [Hname ->]]]]]].
      unfold routesOfFile in Hr.
      destruct (readFileSync fs _) as [content|] eqn:Hread; cbn [bind tryCatch] in Hr;
        [|contradiction].
      fold (routesOfFile fs (absolute psegs) (absolute (psegs ++ pre ++ ds ++ [fname]))) in Hr.
      assert (Hr' : In r (routesOfFile fs (absolute psegs)
                            (absolute (psegs ++ pre ++ ds ++ [fname])))).
      { unfold routesOfFile. rewrite Hread. exact Hr. }
      rewrite (@routesOfFile_below pre ds fname content Hpre Hds Hname Hread) in Hr'.
      apply in_map_iff in Hr' as [m [<- Hm]].
      exists pre, ds, fname, content. cbn [RouteInfo.method]. repeat split; assumption.
    + intros [pre [ds [fname [content [Hpre [Hds [Hname [Hread [Hm ->]]]]]]]]].
      exists (absolute (psegs ++ pre ++ ds ++ [fname])). split.
      * apply Hin. exists pre, (ds ++ [fname]). repeat split; try assumption.
        -- rewrite forallb_app. cbn [forallb]. rewrite Hds.
           destruct Hname as [-> | ->]; reflexivity.
        -- unfold isFileAt. unfold readFileSync in Hread.
           destruct (lookup fs _) as [[[x|]|es]|]; try discriminate. reflexivity.
        -- rewrite last_last. exact Hname.
      * rewrite (@routesOfFile_below pre ds fname content Hpre Hds Hname Hread).
        apply in_map_iff. exists (RouteInfo.method r). split; [reflexivity | exact Hm].
Qed.

End Records.

(** X9 at the sample project of scenario A. *)
Lemma route_records_witness :
  NoDup (map (fun r => (RouteInfo.file r, RouteInfo.method r))
           (RouteData.routes Samples.routesData))
  /\ forall r,
       In r (RouteData.routes Samples.routesData)
       <-> exists pre ds fname content,
             In pre apiPrefixes /\ forallb isPlain ds = true
             /\ (fname = str "route.ts" \/ fname = str "route.js")
             /\ readFileSync Samples.routesFs (absolute ([str "proj"] ++ pre ++ ds ++ [fname]))
                = Ok content
             /\ In (RouteInfo.method r) (extractMethods content)
             /\ r = RouteInfo.Make (str "/" ++ Js.join (str "/") (str "api" :: ds))
                      (RouteInfo.method r) (hd (str "api") ds) (extractAuthType content)
                      (Js.join (str "/") (pre ++ ds ++ [fname])).
Proof.
  apply (@route_records Samples.routesFs [str "proj"] eq_refl eq_refl
           Js.compareCodeUnits (Samples.clock0 0) Samples.routesData).
  vm_compute. reflexivity.
Defined.

End RouteRecordProps.

(** ** The imports of a content *)

Module ImportProps.
Import Analyzer RegexFacts ReadFacts StringFacts NameFacts.

Section Loop.
Variable multiline : bool.

(** Where the matches of a loop are in the subject. *)
Lemma execLoop_at (r : regex) (fuel : nat) :
  forall (prev : option ascii) (s : jsstring) (caps : captures),
    In caps (execLoop fuel multiline r prev s) ->
    exists pre suf c',
      s = pre ++ suf /\ matches multiline r (Cursor (at_ prev pre) suf) [] c' caps.
Proof.
  induction fuel as [|fuel IH]; intros prev s caps; cbn [execLoop]; [contradiction|].
  destruct (searchFrom multiline r prev s) as [f|] eqn:E; [|contradiction].
  apply searchFrom_at in E as [pre [suf [-> E]]]. apply matchAt_sound in E.
  intros [<-|Hin].
  - exists pre, suf, (stop f). split; [reflexivity | exact E].
  - apply IH in Hin as [pre2 [suf2 [c' [Es M]]]].
    apply matches_reads in E as [w [Ew [Eb _]]]. cbn [after before] in Ew, Eb.
    exists (pre ++ w ++ pre2), suf2, c'. split.
    + rewrite Ew, Es. now rewrite <- !app_assoc.
    + rewrite !at_app, <- Eb. exact M.
Qed.

End Loop.

(** The two expressions of imports end in a quote, the path and a quote;
    the path is what they capture. *)
Lemma quoted_capture (h1 h2 : regex) (c c' : cursor) (caps : captures) :
  matches false
    (Seq (lit (str "import"))
       (Seq h1 (Seq h2 (Seq (Chr Js.isQuote)
                          (Seq (Group 1 (plus (Chr notQuote))) (Chr Js.isQuote))))))
    c [] c' caps ->
  exists mid q q',
    after c = str "import" ++ mid ++ [q] ++ capture 1 caps ++ [q'] ++ after c'
    /\ Js.isQuote q = true /\ Js.isQuote q' = true
    /\ capture 1 caps <> [] /\ Forall (fun a => Js.isQuote a = false) (capture 1 caps).
Proof.
  intros M.
  apply matches_seq in M as [c1 [caps1 [M1 M]]].
  apply matches_seq in M as [c2 [caps2 [M2 M]]].
  apply matches_seq in M as [c2' [caps2' [M2' M]]].
  apply matches_seq in M as [c3 [caps3 [M3 M]]].
  apply matches_seq in M as [c4 [caps4 [M4 M5]]].
  apply matches_reads in M1 as [w1 [E1 [_ R1]]]. apply reads_lit in R1 as ->.
  apply matches_suffix in M2 as [mid1 E2]. apply matches_suffix in M2' as [mid2 E2'].
  inversion M3 as [ |? ? ? q rest3 E3 Hq| | | | | | | | ]; subst.
  inversion M5 as [ |? ? ? q' rest5 E5 Hq'| | | | | | | | ]; subst.
  apply matches_group in M4 as [caps5 [M4 ->]].
  pose proof (matches_reads M4) as [w4 [E4 [_ R4]]].
  apply reads_plus_chr in R4 as [Hne Hw].
  cbn [capture Nat.eqb]. rewrite (@consumed_app _ _ w4 E4).
  cbn [after] in *.
  exists (mid1 ++ mid2), q, q'. repeat split; try assumption.
  - rewrite E1, E2, E2', E3, E4, E5. now rewrite <- !app_assoc.
  - eapply Forall_impl; [|exact Hw]. intros a Ha. unfold notQuote in Ha.
    now apply negb_true_iff in Ha.
Qed.

Lemma captured_import (h1 h2 : regex) (content : jsstring) (caps : captures) :
  In caps (execAll false
             (Seq (lit (str "import"))
                (Seq h1 (Seq h2 (Seq (Chr Js.isQuote)
                                   (Seq (Group 1 (plus (Chr notQuote))) (Chr Js.isQuote))))))
             content) ->
  importsPath content (capture 1 caps).
Proof.
  intros H. apply execLoop_at in H as [pre [suf [c' [-> M]]]].
  apply quoted_capture in M as [mid [q [q' [E H]]]]. cbn [after] in E.
  exists pre, mid, q, q', (after c'). split; [now rewrite E | exact H].
Qed.

Lemma isLocalImport_iff (importPath : jsstring) :
  isLocalImport importPath = true
  <-> (exists rest, importPath = str "." ++ rest) \/ (exists rest, importPath = str "@/" ++ rest).
Proof. unfold isLocalImport. now rewrite orb_true_iff, !startsWith_iff. Qed.

(** X10. Every import [extractImports] returns starts with a dot or with
    [@/], and stands in the content between two quotes after the word
    [import]. *)
Theorem imports_sound (content importPath : jsstring) :
  In importPath (extractImports content) ->
  ((exists rest, importPath = str "." ++ rest) \/ (exists rest, importPath = str "@/" ++ rest))
  /\ importsPath content importPath.
Proof.
  unfold extractImports. rewrite filter_In, in_map_iff. intros [[caps [<- H]] Hl].
  split; [now apply isLocalImport_iff|].
  exact (captured_import _ _ _ _ H).
Qed.

(** The sets of the runtime. *)
Lemma ofList_spec (l : list jsstring) :
  NoDup (JsSet.ofList l) /\ forall x, In x (JsSet.ofList l) <-> In x l.
Proof.
  unfold JsSet.ofList.
  assert (G : forall s0, NoDup s0 ->
            NoDup (fold_left (fun s x => JsSet.add x s) l s0)
            /\ forall x, In x (fold_left (fun s x => JsSet.add x s) l s0) <-> In x s0 \/ In x l).
  { induction l as [|y l IH]; intros s0 Hs0; cbn [fold_left].
    - split; [assumption|]. intros x. cbn [In]. tauto.
    - assert (Hadd : NoDup (JsSet.add y s0) /\ forall x, In x (JsSet.add y s0) <-> In x s0 \/ x = y).
      { unfold JsSet.add, JsSet.has. destruct (Js.arrIncludes y s0) eqn:E.
        - apply arrIncludes_iff in E. split; [assumption|]. intros x. split; [now left|].
          intros [H| ->]; assumption.
        - split.
          + apply NoDup_app; [assumption|repeat constructor; intros []|].
            intros x Hx [<-|[]]. apply arrIncludes_iff in Hx. congruence.
          + intros x. rewrite in_app_iff. cbn [In]. intuition congruence. }
      destruct Hadd as [Hnd Hin]. destruct (IH _ Hnd) as [Hnd' Hin'].
      split; [assumption|]. intros x. rewrite Hin', Hin. cbn [In]. intuition congruence. }
  destruct (G [] (NoDup_nil _)) as [Hnd Hin]. split; [assumption|].
  intros x. rewrite Hin. cbn [In]. tauto.
Qed.

Lemma split_pieces (sep : ascii) (s : jsstring) :
  forall p, In p (Js.split sep s) -> ~ In sep p.
Proof.
  induction s as [|c s IH]; cbn [Js.split]; intros p.
  - intros [<-|[]] [].
  - destruct (Ascii.eqb c sep) eqn:E.
    + intros [<-|H]; [intros [] | now apply IH].
    + apply Ascii.eqb_neq in E. destruct (Js.split sep s) as [|p0 ps] eqn:Es.
      * intros [<-|[]] [H|[]]. congruence.
      * intros [<-|H].
        -- intros [H|H]; [congruence|]. apply (IH p0); [now left | exact H].
        -- apply IH. now right.
Qed.

Lemma last_In {A : Type} (l : list A) (d : A) : l <> [] -> In (last l d) l.
Proof.
  induction l as [|a l IH]; [congruence|]. intros _.
  destruct l as [|b l]; [now left|]. right. apply IH. discriminate.
Qed.

(** X11. The dependencies [extractDependencies] returns are distinct
    names that start with an upper-case letter and hold no slash; each
    is the last segment of a path that starts with a dot or with [@/]
    and stands in the content between two quotes after the word
    [import]. *)
Theorem dependencies_sound (content : jsstring) :
  NoDup (extractDependencies content)
  /\ forall dep,
       In dep (extractDependencies content) ->
       (exists a rest, dep = a :: rest /\ Js.isUpper a = true)
       /\ ~ In "/"%char dep
       /\ exists importPath,
            importsPath content importPath
            /\ ((exists rest, importPath = str "." ++ rest)
                \/ (exists rest, importPath = str "@/" ++ rest))
            /\ dep = last (Js.split "/" importPath) [].
Proof.
  unfold extractDependencies. cbv zeta.
  match goal with |- NoDup (JsSet.ofList ?l) /\ _ => destruct (ofList_spec l) as [Hnd Hin] end.
  split; [exact Hnd|]. intros dep Hdep. apply Hin in Hdep.
  apply in_flat_map in Hdep as [caps [Hcaps Hdep]].
  destruct (isLocalImport (capture 1 caps)) eqn:El; [|contradiction].
  destruct (startsUpper (last (Js.split "/" (capture 1 caps)) [])) eqn:Eu; [|contradiction].
  destruct Hdep as [<-|[]]. split; [now apply startsUpper_iff|]. split.
  - apply split_pieces with (s := capture 1 caps). apply last_In. apply PathFacts.split_nonempty.
  - exists (capture 1 caps). split; [|split; [now apply isLocalImport_iff | reflexivity]].
    exact (captured_import _ _ _ _ Hcaps).
Qed.

(** X10 at the content of a sample component. *)
Lemma imports_sound_witness :
  ((exists rest, str "./Card" = str "." ++ rest) \/ (exists rest, str "./Card" = str "@/" ++ rest))
  /\ importsPath Samples.buttonContent (str "./Card").
Proof.
  apply (@imports_sound Samples.buttonContent (str "./Card")). vm_compute. now left.
Defined.

End ImportProps.

(** ** The lines of a model *)

Module FieldProps.
Import Analyzer StringFacts NameFacts.

Lemma trimStart_blank (ws s : jsstring) :
  blank ws -> Js.trimStart (ws ++ s) = Js.trimStart s.
Proof.
  induction 1 as [|c ws Hc _ IH]; [reflexivity|]. cbn [app Js.trimStart]. now rewrite Hc.
Qed.

Lemma trimStart_token (w s : jsstring) : token w -> Js.trimStart (w ++ s) = w ++ s.
Proof.
  intros [Hne Hw]. destruct Hw as [|c w Hc _]; [congruence|].
  cbn [app Js.trimStart]. now rewrite Hc.
Qed.

Lemma token_rev (w : jsstring) : token w -> token (rev w).
Proof.
  intros [Hne Hw]. split.
  - intros E. apply (f_equal (@rev ascii)) in E. rewrite rev_involutive in E. contradiction.
  - apply Forall_rev. exact Hw.
Qed.

Lemma trimStart_app (l r : jsstring) :
  (exists c t, r = c :: t /\ Js.isSpace c = false) ->
  Js.trimStart (l ++ r) = Js.trimStart l ++ r.
Proof.
  intros [c [t [-> Hc]]]. induction l as [|x l IH]; cbn [app Js.trimStart].
  - now rewrite Hc.
  - destruct (Js.isSpace x); [exact IH | reflexivity].
Qed.

Lemma trimStart_suffix (l : jsstring) : exists ws, blank ws /\ l = ws ++ Js.trimStart l.
Proof.
  induction l as [|x l [ws [Hws E]]]; [exists []; split; [constructor | reflexivity]|].
  cbn [Js.trimStart]. destruct (Js.isSpace x) eqn:Ex.
  - exists (x :: ws). split; [now constructor|]. cbn [app]. now rewrite <- E.
  - exists []. split; [constructor | reflexivity].
Qed.

Lemma token_last (w : jsstring) :
  token w -> exists c t, rev w = c :: t /\ Js.isSpace c = false.
Proof.
  intros Hw. apply token_rev in Hw as [Hne Hw]. destruct Hw as [|c t Hc _]; [congruence|].
  now exists c, t.
Qed.

Lemma trimmedTail_head (tail : jsstring) :
  (tail = [] \/ exists a t, tail = a :: t /\ Js.isSpace a = true) ->
  trimmedTail tail = [] \/ exists a t, trimmedTail tail = a :: t /\ Js.isSpace a = true.
Proof.
  intros H. unfold trimmedTail. destruct (trimStart_suffix (rev tail)) as [ws [Hws E]].
  apply (f_equal (@rev ascii)) in E. rewrite rev_involutive, rev_app_distr in E.
  destruct (rev (Js.trimStart (rev tail))) as [|a t]; [now left|]. right.
  exists a, t. split; [reflexivity|]. rewrite E in H. cbn [app] in H.
  destruct H as [H|[a' [t' [H Ha]]]]; [discriminate|]. now injection H as -> _.
Qed.

(** Trimming a line of a model: indentation, two words and what follows
    them. *)
Lemma trim_line (indent name ws tt tail : jsstring) :
  blank indent -> token name -> token tt ->
  Js.trim (indent ++ name ++ ws ++ tt ++ tail) = name ++ ws ++ tt ++ trimmedTail tail.
Proof.
  intros Hi Hn Ht. unfold Js.trim, trimmedTail.
  rewrite trimStart_blank, trimStart_token by assumption.
  rewrite !rev_app_distr, <- !app_assoc.
  rewrite trimStart_app.
  - rewrite !rev_app_distr, !rev_involutive. now rewrite <- !app_assoc.
  - destruct (token_last Ht) as [c [t [E Hc]]]. rewrite E. cbn [app]. eauto.
Qed.

(** The words of a text. *)
Lemma splitSpaces_nonempty (s : jsstring) : Js.splitSpaces s <> [].
Proof.
  induction s as [|c s IH]; cbn [Js.splitSpaces]; [discriminate|].
  destruct (Js.isSpace c).
  - destruct s as [|c' s]; [discriminate|]. destruct (Js.isSpace c'); [exact IH | discriminate].
  - destruct (Js.splitSpaces s); discriminate.
Qed.

Lemma splitSpaces_cons_space (x : ascii) (s : jsstring) :
  Js.isSpace x = true ->
  Js.splitSpaces (x :: s)
  = match s with
    | c' :: _ => if Js.isSpace c' then Js.splitSpaces s else [] :: Js.splitSpaces s
    | [] => [[]; []]
    end.
Proof. intros Hx. cbn [Js.splitSpaces]. now rewrite Hx. Qed.

Lemma splitSpaces_space (s : jsstring) :
  (exists a t, s = a :: t /\ Js.isSpace a = true) -> exists ps, Js.splitSpaces s = [] :: ps.
Proof.
  induction s as [|c s IH]; intros [a [t [E Ha]]]; [discriminate|].
  injection E as -> ->. rewrite (@splitSpaces_cons_space a t Ha).
  destruct t as [|c' t]; [eauto|]. destruct (Js.isSpace c') eqn:Ec; [|eauto].
  apply IH. eauto.
Qed.

Lemma splitSpaces_word (w s : jsstring) :
  Forall (fun a => Js.isSpace a = false) w ->
  Js.splitSpaces (w ++ s)
  = match Js.splitSpaces s with
    | p :: ps => (w ++ p) :: ps
    | [] => [w]
    end.
Proof.
  induction 1 as [|c w Hc _ IH]; cbn [app].
  - destruct (Js.splitSpaces s) eqn:E; [now apply splitSpaces_nonempty in E | reflexivity].
  - cbn [Js.splitSpaces]. rewrite Hc, IH. destruct (Js.splitSpaces s); reflexivity.
Qed.

Lemma splitSpaces_gap (ws s : jsstring) :
  gap ws -> (exists c t, s = c :: t /\ Js.isSpace c = false) ->
  Js.splitSpaces (ws ++ s) = [] :: Js.splitSpaces s.
Proof.
  intros [Hne Hws] [c [t [-> Hc]]]. induction Hws as [|x ws Hx Hws IH]; [congruence|].
  cbn [app]. rewrite (@splitSpaces_cons_space x (ws ++ c :: t) Hx). destruct ws as [|y ws].
  - cbn [app]. now rewrite Hc.
  - cbn [app]. inversion Hws as [|? ? Hy _]; subst. rewrite Hy. apply IH. discriminate.
Qed.

Lemma token_head (w s : jsstring) :
  token w -> exists c t, w ++ s = c :: t /\ Js.isSpace c = false.
Proof.
  intros [Hne Hw]. destruct Hw as [|c w Hc _]; [congruence|]. now exists c, (w ++ s).
Qed.

Lemma splitSpaces_line (name ws tt tail : jsstring) :
  token name -> gap ws -> token tt ->
  (tail = [] \/ exists a t, tail = a :: t /\ Js.isSpace a = true) ->
  exists more, Js.splitSpaces (name ++ ws ++ tt ++ tail) = name :: tt :: more.
Proof.
  intros [_ Hn] Hws Ht Htail.
  rewrite (@splitSpaces_word name (ws ++ tt ++ tail) Hn).
  rewrite (@splitSpaces_gap ws (tt ++ tail) Hws (@token_head tt tail Ht)).
  rewrite app_nil_r. destruct Ht as [_ Ht]. rewrite (@splitSpaces_word tt tail Ht).
  destruct Htail as [->|Htail]; [cbn [Js.splitSpaces]; rewrite app_nil_r; now exists []|].
  apply splitSpaces_space in Htail as [ps ->]. rewrite app_nil_r. now exists ps.
Qed.

Lemma startsWith_token (p w s : jsstring) :
  Forall (fun a => Js.isSpace a = false) p ->
  (s = [] \/ exists a t, s = a :: t /\ Js.isSpace a = true) ->
  Js.startsWith p w = false -> Js.startsWith p (w ++ s) = false.
Proof.
  intros Hp Hs. revert w. induction Hp as [|x p Hx _ IH]; intros w H; [discriminate|].
  destruct w as [|y w]; cbn [app Js.startsWith] in *.
  - destruct Hs as [->|[a [t [-> Ha]]]]; [reflexivity|].
    replace (Ascii.eqb x a) with false; [reflexivity|].
    symmetry. apply Ascii.eqb_neq. intros ->. congruence.
  - destruct (Ascii.eqb x y); [now apply IH | reflexivity].
Qed.

Lemma dropEnd_app (a b : jsstring) : Js.dropEnd (length b) (a ++ b) = a.
Proof.
  unfold Js.dropEnd. rewrite length_app.
  replace (length a + length b - length b) with (length a) by lia.
  rewrite firstn_app, firstn_all, Nat.sub_diag. cbn [firstn]. apply app_nil_r.
Qed.

Lemma token_typeText (type : jsstring) (isOptional isArray : bool) :
  token type -> token (typeText type isOptional isArray).
Proof.
  intros [Hne Ht]. unfold typeText. split.
  - destruct type; [congruence | discriminate].
  - apply Forall_app. split; [assumption|].
    destruct isOptional, isArray; repeat constructor.
Qed.

(** X12. A line of a model that holds, after its indentation, the name
    of a field, white space and the type as the schema writes it, and
    then nothing or white space and more text, is parsed into that
    field: its name, the name of its type, whether the type is a
    declared model, and whether it is marked optional or a list. *)
Theorem parseField_reads (indent name ws type tail : jsstring) (isOptional isArray : bool)
    (modelNames : list jsstring) :
  blank indent -> token name -> gap ws -> token type ->
  Js.startsWith (str "@") name = false -> Js.startsWith (str "//") name = false ->
  Js.endsWith (str "?") type = false -> Js.endsWith (str "[]") type = false ->
  (tail = [] \/ exists a t, tail = a :: t /\ Js.isSpace a = true) ->
  parseField (indent ++ name ++ ws ++ typeText type isOptional isArray ++ tail) modelNames
  = Some (FieldInfo.Make name type (Js.arrIncludes type modelNames) isOptional isArray).
Proof.
  intros Hi Hn Hws Ht Hat Hsl Hq Hbr Htail.
  pose proof (token_typeText isOptional isArray Ht) as Htt.
  pose proof (trimmedTail_head Htail) as Htail'.
  unfold parseField. cbv zeta.
  rewrite (@trim_line indent name ws (typeText type isOptional isArray) tail Hi Hn Htt).
  destruct (@splitSpaces_line name ws (typeText type isOptional isArray) (trimmedTail tail)
              Hn Hws Htt Htail') as [more ->].
  assert (Hgap : ws ++ typeText type isOptional isArray ++ trimmedTail tail = []
                 \/ exists a t, ws ++ typeText type isOptional isArray ++ trimmedTail tail = a :: t
                                /\ Js.isSpace a = true).
  { right. destruct Hws as [Hne Hws]. destruct Hws as [|a ws Ha _]; [congruence|].
    now exists a, (ws ++ typeText type isOptional isArray ++ trimmedTail tail). }
  assert (E1 : Path.nonEmpty (name ++ ws ++ typeText type isOptional isArray ++ trimmedTail tail)
               = true).
  { destruct Hn as [Hne _]. destruct name; [congruence | reflexivity]. }
  assert (E2 : Js.startsWith (str "//")
                 (name ++ ws ++ typeText type isOptional isArray ++ trimmedTail tail) = false).
  { apply startsWith_token; [repeat constructor | exact Hgap | exact Hsl]. }
  assert (E3 : Js.startsWith (str "@@")
                 (name ++ ws ++ typeText type isOptional isArray ++ trimmedTail tail) = false).
  { destruct Hn as [Hne _]. destruct name as [|c name]; [congruence|].
    change (str "@") with ["@"%char] in Hat. change (str "@@") with ["@"%char; "@"%char].
    cbn [Js.startsWith app] in Hat |- *.
    destruct (Ascii.eqb "@" c); [discriminate | reflexivity]. }
  rewrite E1, E2, E3, Hat. cbn [negb orb].
  assert (E4 : Js.endsWith (str "[]") (typeText type isOptional isArray) = isArray).
  { unfold typeText. destruct isArray.
    - rewrite app_assoc. apply endsWith_app.
    - rewrite app_nil_r. destruct isOptional; [|now rewrite app_nil_r].
      unfold Js.endsWith. rewrite rev_app_distr. reflexivity. }
  rewrite E4.
  assert (E5 : (if isArray then Js.dropEnd 2 (typeText type isOptional isArray)
                else typeText type isOptional isArray)
               = type ++ (if isOptional then str "?" else [])).
  { unfold typeText. destruct isArray.
    - rewrite app_assoc. exact (dropEnd_app (type ++ (if isOptional then str "?" else [])) (str "[]")).
    - now rewrite app_nil_r. }
  rewrite E5.
  assert (E6 : Js.endsWith (str "?") (type ++ (if isOptional then str "?" else [])) = isOptional).
  { destruct isOptional; [apply endsWith_app | now rewrite app_nil_r]. }
  rewrite E6.
  assert (E7 : (if isOptional then Js.dropEnd 1 (type ++ (if isOptional then str "?" else []))
                else type ++ (if isOptional then str "?" else [])) = type).
  { destruct isOptional; [exact (dropEnd_app type (str "?")) | apply app_nil_r]. }
  rewrite E7. reflexivity.
Qed.

Lemma parseField_reads_witness :
  parseField (str "  authorId   Int?   @relation(fields: [id])") [str "User"]
  = Some (FieldInfo.Make (str "authorId") (str "Int") false true false).
Proof.
  refine (@parseField_reads (str "  ") (str "authorId") (str "   ") (str "Int")
            (str "   @relation(fields: [id])") true false [str "User"] _ _ _ _ _ _ _ _ _).
  - repeat constructor.
  - split; [discriminate | repeat constructor].
  - split; [discriminate | repeat constructor].
  - split; [discriminate | repeat constructor].
  - reflexivity.
  - reflexivity.
  - reflexivity.
  - reflexivity.
  - right. exists " "%char, (str "  @relation(fields: [id])"). split; reflexivity.
Defined.

End FieldProps.

(** ** When the analysis fails *)

Module FailureProps.
Import Analyzer.

Section Failure.
Variable localeCompare : jsstring -> jsstring -> comparison.
Variable packageName : jsstring -> option jsstring.
Variable fs : filesystem.

(** A walk fails when its directory is a regular file, and only then. *)
Lemma walk_throws (walkIn : list (jsstring * node) -> list jsstring) (dir : jsstring) :
  (if negb (existsSync fs dir) then Ok []
   else entries <- readdirSync fs dir ;; Ok (walkIn entries)) = Throw
  <-> isFileAt fs dir = true.
Proof.
  unfold existsSync, readdirSync, isFileAt.
  destruct (lookup fs dir) as [[content|entries]|]; cbn [negb bind isFile];
    split; intros H; congruence.
Qed.

Lemma findApiRoutes_throws (dir : jsstring) :
  findApiRoutes fs dir = Throw <-> isFileAt fs dir = true.
Proof. unfold findApiRoutes. apply walk_throws. Qed.

Lemma findComponentFiles_throws (dir : jsstring) :
  findComponentFiles fs dir = Throw <-> isFileAt fs dir = true.
Proof. unfold findComponentFiles. apply walk_throws. Qed.

Lemma findSourceFiles_throws (dir : jsstring) :
  findSourceFiles fs dir = Throw <-> isFileAt fs dir = true.
Proof.
  unfold findSourceFiles. cbn [MAX_FILES Nat.leb]. rewrite orb_false_r.
  exact (walk_throws (fun entries => findSourceFilesIn dir (Dir entries) [] MAX_FILES) dir).
Qed.

Lemma collectRoutes_throws (projectPath : jsstring) (apiDirs : list jsstring) :
  collectRoutes fs projectPath apiDirs = Throw <-> exists p, In p apiDirs /\ isFileAt fs p = true.
Proof.
  induction apiDirs as [|d dirs IH]; cbn [collectRoutes].
  - split; [discriminate | intros [p [[] _]]].
  - pose proof (findApiRoutes_throws d) as Hd.
    destruct (findApiRoutes fs d) as [files|]; cbn [bind].
    + destruct (collectRoutes fs projectPath dirs) as [more|]; cbn [bind].
      * split; [discriminate|]. intros [p [[<-|Hp] Hf]].
        -- apply (proj2 Hd) in Hf. discriminate.
        -- assert (H : @Throw (list RouteInfo.t) = Throw) by reflexivity.
           assert (H' : exists q, In q dirs /\ isFileAt fs q = true) by now exists p.
           apply (proj2 IH) in H'. discriminate.
      * split; [|reflexivity]. intros _. destruct (proj1 IH eq_refl) as [p [Hp Hf]].
        exists p. split; [now right | assumption].
    + split; [|reflexivity]. intros _. exists d. split; [now left | now apply (proj1 Hd)].
Qed.

Lemma collectComponents_throws (projectPath : jsstring) (componentDirs : list jsstring) :
  forall st,
    (exists st', collectComponents fs projectPath componentDirs st = Ok st')
    <-> forall p, In p componentDirs -> isFileAt fs p = false.
Proof.
  induction componentDirs as [|d dirs IH]; intros st; cbn [collectComponents].
  - split; [intros _ p [] | intros _; now exists st].
  - pose proof (findComponentFiles_throws d) as Hd.
    destruct (findComponentFiles fs d) as [files|]; cbn [bind].
    + rewrite IH. split; intros H p.
      * intros [<-|Hp]; [|now apply H].
        destruct (isFileAt fs d); [|reflexivity]. now pose proof (proj2 Hd eq_refl).
      * intros Hp. apply H. now right.
    + split; [intros [st' H]; discriminate|].
      intros H. specialize (H d (or_introl eq_refl)). rewrite (proj1 Hd eq_refl) in H.
      discriminate.
Qed.

(** When the analysis throws. *)
Lemma analyzeCodebase_throws (clock : nat -> jsstring) (projectPath : jsstring) :
  analyzeCodebase localeCompare packageName fs clock projectPath = Throw
  <-> exists p, In p (scannedDirs projectPath) /\ isFileAt fs p = true.
Proof.
  unfold scannedDirs, analyzeCodebase, analyzeRoutes, analyzeComponents, analyzeDependencies.
  pose proof (collectRoutes_throws projectPath (possibleApiDirs projectPath)) as Hr.
  pose proof (collectComponents_throws projectPath (possibleComponentDirs projectPath) ([], []))
    as Hc.
  pose proof (findSourceFiles_throws projectPath) as Hs.
  destruct (collectRoutes fs projectPath (possibleApiDirs projectPath)) as [routes|];
    cbn [bind].
  - destruct (collectComponents _ _ _ _) as [st|]; cbn [bind].
    + destruct (findSourceFiles fs projectPath) as [files|]; cbn [bind].
      * split; [discriminate|]. intros [p [Hp Hf]].
        apply in_app_or in Hp as [Hp|Hp].
        -- assert (H : exists q, In q (possibleApiDirs projectPath) /\ isFileAt fs q = true)
             by now exists p.
           apply (proj2 Hr) in H. discriminate.
        -- apply in_app_or in Hp as [Hp|[<-|[]]].
           ++ assert (H : exists st', Ok st = Ok st') by now exists st.
              pose proof (proj1 Hc H p Hp). congruence.
           ++ apply (proj2 Hs) in Hf. discriminate.
      * split; [|reflexivity]. intros _. exists projectPath.
        split; [apply in_or_app; right; apply in_or_app; right; now left | now apply (proj1 Hs)].
    + split; [|reflexivity]. intros _.
      destruct (existsb (isFileAt fs) (possibleComponentDirs projectPath)) eqn:E.
      * apply existsb_exists in E as [p [Hp Hf]]. exists p.
        split; [apply in_or_app; right; apply in_or_app; now left | assumption].
      * assert (H : exists st', @Throw componentState = Ok st'); [|destruct H; discriminate].
        apply (proj2 Hc). intros p Hp. destruct (isFileAt fs p) eqn:Ef; [|reflexivity].
        rewrite <- E. symmetry. apply existsb_exists. now exists p.
  - split; [|reflexivity]. intros _. destruct (proj1 Hr eq_refl) as [p [Hp Hf]].
    exists p. split; [apply in_or_app; now left | assumption].
Qed.

(** X13. The analysis fails exactly when the project path, or one of
    the directories in which it looks for routes or components, is a
    regular file; it returns a result, for the project path it was
    given, exactly when none is. A missing directory, a file that cannot
    be read and the content of the files never make it fail. *)
Theorem analysis_fails_iff (clock : nat -> jsstring) (projectPath : jsstring) :
  (analyzeCodebase localeCompare packageName fs clock projectPath = Throw
   <-> exists p, In p (scannedDirs projectPath) /\ isFileAt fs p = true)
  /\ ((exists r, analyzeCodebase localeCompare packageName fs clock projectPath = Ok r
                 /\ AnalysisResult.projectPath r = projectPath)
      <-> forall p, In p (scannedDirs projectPath) -> isFileAt fs p = false).
Proof.
  pose proof (analyzeCodebase_throws clock projectPath) as H. split; [exact H|].
  split.
  - intros [r [Hr _]] p Hp. destruct (isFileAt fs p) eqn:E; [|reflexivity].
    assert (Hex : exists q, In q (scannedDirs projectPath) /\ isFileAt fs q = true)
      by now exists p.
    apply (proj2 H) in Hex. congruence.
  - intros Hall.
    destruct (analyzeCodebase localeCompare packageName fs clock projectPath) as [r|] eqn:E.
    + exists r. split; [reflexivity|]. unfold analyzeCodebase in E.
      destruct (analyzeRoutes _ _ _ _); cbn [bind] in E; [|discriminate].
      destruct (analyzeComponents _ _ _ _); cbn [bind] in E; [|discriminate].
      destruct (analyzeDependencies _ _ _); cbn [bind] in E; [|discriminate].
      now injection E as <-.
    + destruct (proj1 H eq_refl) as [p [Hp Hf]]. rewrite (Hall p Hp) in Hf. discriminate.
Qed.

End Failure.

End FailureProps.

(** ** The answers of the route [POST /api/analyze] *)

Module HandlerProps.
Import Analyzer AnalyzeRoute.

Section Answers.
Variable localeCompare : jsstring -> jsstring -> comparison.
Variable packageName : jsstring -> option jsstring.
Variable fs : filesystem.
Variable clock : nat -> jsstring.

Lemma asksFor_body (body : json) (path : jsstring) :
  asksFor (Ok body) path
  <-> projectPathOf body = Ok (Some (JString path)) /\ path <> [].
Proof.
  unfold asksFor. split.
  - intros [b [E H]]. injection E as <-. exact H.
  - intros H. now exists body.
Qed.

Lemma directory_not_file (p : jsstring) : isDirectoryAt fs p = true -> isFileAt fs p = false.
Proof.
  unfold isDirectoryAt, isFileAt. destruct (lookup fs p) as [[c|es]|]; cbn; congruence.
Qed.

(** What the handler answers to a request for a path. *)
Lemma POST_path (body : json) (path : jsstring) :
  projectPathOf body = Ok (Some (JString path)) -> path <> [] ->
  POST localeCompare packageName fs clock (Ok body)
  = let resolvedPath := Path.resolve (cwd fs) [path] in
    if isDirectoryAt fs resolvedPath
    then match analyzeCodebase localeCompare packageName fs clock resolvedPath with
         | Ok result => Response (Analysis result) 200
         | Throw => Response Thrown 500
         end
    else Response (Failure (str (if existsSync fs resolvedPath
                                 then "Path is not a directory: "
                                 else "Path does not exist: ") ++ resolvedPath)) 400.
Proof.
  intros E Hne. unfold POST. cbn [bind]. rewrite E. cbn [bind asString truthy].
  destruct path as [|c path]; [congruence|]. cbn [Path.nonEmpty negb]. cbv zeta.
  unfold existsSync, statIsDirectory, isDirectoryAt.
  match goal with
  | |- context [lookup fs ?p] => destruct (lookup fs p) as [[content|entries]|]
  end; cbn [negb bind isDirectory tryCatch]; try reflexivity.
  now destruct (analyzeCodebase _ _ _ _ _).
Qed.

(** What the handler answers to a request that gives no path. *)
Lemma POST_no_path (body : json) :
  body <> JNull -> (forall path, ~ asksFor (Ok body) path) ->
  POST localeCompare packageName fs clock (Ok body)
  = Response (Failure (str "Project path is required")) 400.
Proof.
  intros Hnull Hno. unfold POST. cbn [bind].
  destruct (projectPathOf body) as [v|] eqn:E.
  - cbn [bind]. destruct v as [[| | |s| |]|]; try reflexivity.
    cbn [asString truthy]. destruct s as [|c s]; [reflexivity|].
    exfalso. apply (Hno (c :: s)). apply asksFor_body. split; [assumption | discriminate].
  - destruct body; try discriminate. congruence.
Qed.

(** X14. The route answers 500 exactly when the body of the request is
    not JSON or is [null], or when it asks for a directory in which the
    analysis fails; it answers 200, with the analysis, exactly when it
    asks for a directory in which the analysis returns; and it answers
    400 in the other cases: the body gives no string that is not empty
    for [projectPath], or nothing or a regular file is at the path. *)
Theorem POST_answers (request : result json) :
  let answer := POST localeCompare packageName fs clock request in
  (status answer = 500
   <-> request = Throw \/ request = Ok JNull
       \/ exists path,
            asksFor request path
            /\ isDirectoryAt fs (Path.resolve (cwd fs) [path]) = true
            /\ exists p, In p (scannedDirs (Path.resolve (cwd fs) [path]))
                         /\ isFileAt fs p = true)
  /\ (status answer = 200
      <-> exists path result,
            asksFor request path
            /\ isDirectoryAt fs (Path.resolve (cwd fs) [path]) = true
            /\ analyzeCodebase localeCompare packageName fs clock
                 (Path.resolve (cwd fs) [path]) = Ok result
            /\ answer = Response (Analysis result) 200)
  /\ (status answer = 400
      <-> exists body,
            request = Ok body /\ body <> JNull
            /\ forall path, asksFor request path ->
                            isDirectoryAt fs (Path.resolve (cwd fs) [path]) = false).
Proof.
  cbv zeta. destruct request as [body|].
  2:{ cbn [POST bind tryCatch status]. split; [|split]; split.
      - intros _. now left.
      - reflexivity.
      - discriminate.
      - intros [path [result [[b [E _]] _]]]. discriminate.
      - discriminate.
      - intros [b [E _]]. discriminate. }
  destruct (projectPathOf body) as [v|] eqn:Ev.
  2:{ assert (body = JNull) by (destruct body; try discriminate; reflexivity). subst body.
      cbn [POST bind tryCatch status projectPathOf]. split; [|split]; split.
      - intros _. right. now left.
      - reflexivity.
      - discriminate.
      - intros [path [result [[b [E [Hp _]]] _]]]. injection E as <-. discriminate.
      - discriminate.
      - intros [b [E [Hb _]]]. congruence. }
  assert (Hnull : body <> JNull) by (intros ->; discriminate).
  assert (Hcase : (exists path, v = Some (JString path) /\ path <> [])
                  \/ forall path, ~ asksFor (Ok body) path).
  { destruct v as [[| | |s| |]|];
      try (right; intros path Ha; apply asksFor_body in Ha as [Ha _]; congruence).
    destruct s as [|c s].
    - right. intros path Ha. apply asksFor_body in Ha as [Ha Hne]. congruence.
    - left. exists (c :: s). split; [reflexivity | discriminate]. }
  destruct Hcase as [[path [-> Hne]]|Hno].
  - assert (Hask : forall path', asksFor (Ok body) path' <-> path' = path).
    { intros path'. rewrite asksFor_body. split.
      - intros [E _]. congruence.
      - intros ->. now split. }
    rewrite (@POST_path body path Ev Hne). cbv zeta.
    destruct (isDirectoryAt fs (Path.resolve (cwd fs) [path])) eqn:Ed.
    + pose proof (@FailureProps.analyzeCodebase_throws localeCompare packageName fs clock
                    (Path.resolve (cwd fs) [path])) as Hf.
      destruct (analyzeCodebase localeCompare packageName fs clock
                  (Path.resolve (cwd fs) [path])) as [result|] eqn:Ea; cbn [status].
      * split; [|split]; split.
        -- discriminate.
        -- intros [H|[H|[path' [Ha [_ Hp]]]]]; try congruence.
           apply Hask in Ha. subst path'. apply (proj2 Hf) in Hp. discriminate.
        -- intros _. exists path, result. repeat split; try assumption. now apply Hask.
        -- reflexivity.
        -- discriminate.
        -- intros [b [E [_ H]]]. rewrite (H path) in Ed; [discriminate | now apply Hask].
      * split; [|split]; split.
        -- intros _. right. right. exists path. split; [now apply Hask|].
           split; [assumption | now apply (proj1 Hf)].
        -- reflexivity.
        -- discriminate.
        -- intros [path' [result [Ha [_ [E _]]]]]. apply Hask in Ha. subst path'. congruence.
        -- discriminate.
        -- intros [b [E [_ H]]]. rewrite (H path) in Ed; [discriminate | now apply Hask].
    + cbn [status]. split; [|split]; split.
      * discriminate.
      * intros [H|[H|[path' [Ha [Hd _]]]]]; try congruence.
        apply Hask in Ha. subst path'. congruence.
      * discriminate.
      * intros [path' [result [Ha [Hd _]]]]. apply Hask in Ha. subst path'. congruence.
      * intros _. exists body. repeat split; try assumption.
        intros path' Ha. apply Hask in Ha. now subst path'.
      * reflexivity.
  - rewrite (@POST_no_path body Hnull Hno). cbn [status]. split; [|split]; split.
    + discriminate.
    + intros [H|[H|[path [Ha _]]]]; try congruence. now apply Hno in Ha.
    + discriminate.
    + intros [path [result [Ha _]]]. now apply Hno in Ha.
    + intros _. exists body. repeat split; try assumption.
      intros path Ha. now apply Hno in Ha.
    + reflexivity.
Qed.

End Answers.

End HandlerProps.

(** ** The clusters of the dependency graph *)

Module ClusterProps.
Import Analyzer Spec JsMapFacts NodeIdProps.

Lemma ofList_snoc (l : list jsstring) (x : jsstring) :
  JsSet.ofList (l ++ [x]) = JsSet.add x (JsSet.ofList l).
Proof. unfold JsSet.ofList. now rewrite fold_left_app. Qed.

Lemma membersOf_snoc (k : jsstring) (nodes : list NodeInfo.t) (n : NodeInfo.t) :
  membersOf k (nodes ++ [n])
  = if Js.streq (clusterOf n) k then JsSet.add (NodeInfo.id n) (membersOf k nodes)
    else membersOf k nodes.
Proof.
  unfold membersOf. rewrite filter_app. cbn [filter].
  destruct (Js.streq (clusterOf n) k).
  - rewrite map_app. cbn [map]. apply ofList_snoc.
  - now rewrite app_nil_r.
Qed.

Lemma membersOf_none (k : jsstring) (nodes : list NodeInfo.t) :
  existsb (fun n => Js.streq (clusterOf n) k) nodes = false -> membersOf k nodes = [].
Proof.
  intros H. unfold membersOf.
  replace (filter (fun n => Js.streq (clusterOf n) k) nodes) with (@nil NodeInfo.t);
    [reflexivity|].
  symmetry. induction nodes as [|n nodes IH]; [reflexivity|].
  cbn [existsb] in H. apply orb_false_iff in H as [Hn H]. cbn [filter]. rewrite Hn. now apply IH.
Qed.

Lemma membersOf_some (k : jsstring) (nodes : list NodeInfo.t) :
  membersOf k nodes <> [] -> existsb (fun n => Js.streq (clusterOf n) k) nodes = true.
Proof.
  intros H. destruct (existsb _ nodes) eqn:E; [reflexivity|].
  now apply membersOf_none in E.
Qed.

Lemma NoDup_keys_filter {V : Type} (p : jsstring * V -> bool) (m : JsMap.t V) :
  NoDup (JsMap.keys m) -> NoDup (map (fun e => fst e) (filter p m)).
Proof.
  unfold JsMap.keys. induction m as [|[k v] m IH]; cbn [filter map fst]; intros Hnd;
    [constructor|].
  apply NoDup_cons_iff in Hnd as [Hk Hnd].
  destruct (p (k, v)); [|now apply IH].
  cbn [map fst]. constructor; [|now apply IH].
  intros Hin. apply Hk. apply in_map_iff in Hin as [e [<- He]].
  apply filter_In in He as [He _]. now apply in_map.
Qed.

Section Clusters.
Variable fs : filesystem.
Variable projectPath : jsstring.

Lemma clustered_add (st : graphState) (filePath : jsstring) :
  clustered st -> clustered (addSourceFile fs projectPath st filePath).
Proof.
  intros [Hnd Hget]. unfold addSourceFile. cbv zeta.
  set (n := NodeInfo.Make _ _ _ _).
  set (key := getClusterLabel _).
  assert (Hkey : clusterOf n = key) by reflexivity.
  set (clusterMap := if negb (JsMap.has key (stClusterMap st)) then _ else _).
  assert (Hnd1 : NoDup (JsMap.keys clusterMap)).
  { unfold clusterMap. destruct (negb _); [now apply NoDup_keys_set | assumption]. }
  assert (Hother : forall k, key <> k -> JsMap.get k clusterMap = JsMap.get k (stClusterMap st)).
  { intros k Hk. unfold clusterMap. destruct (negb _); [|reflexivity].
    now rewrite get_set_neq. }
  assert (Hmembers : match JsMap.get key clusterMap with Some s => s | None => [] end
                     = membersOf key (stNodes st)).
  { unfold clusterMap, JsMap.has. rewrite (Hget key).
    destruct (existsb _ (stNodes st)) eqn:E; cbn [negb].
    - now rewrite Hget, E.
    - rewrite get_set_eq. symmetry. now apply membersOf_none. }
  rewrite Hmembers. split; cbn [stClusterMap stNodes].
  - now apply NoDup_keys_set.
  - intros k. rewrite existsb_app, membersOf_snoc. cbn [existsb]. rewrite Hkey, orb_false_r.
    destruct (Js.streq key k) eqn:E.
    + apply streq_iff in E. subst k. rewrite get_set_eq, orb_true_r. reflexivity.
    + apply streq_neq in E. rewrite get_set_neq, Hother by assumption.
      rewrite orb_false_r. apply Hget.
Qed.

Lemma clustered_fold (files : list jsstring) (st : graphState) :
  clustered st -> clustered (fold_left (addSourceFile fs projectPath) files st).
Proof.
  revert st. induction files as [|f files IH]; cbn [fold_left]; intros st H; [assumption|].
  apply IH. now apply clustered_add.
Qed.

(** X15. The clusters of the dependency graph are the cluster labels of
    the nodes that at least two node ids share: a cluster holds its
    label, the label with its separators replaced by underscores as its
    id, and the ids of the nodes of that label, each once, in the order
    of the nodes. No two clusters have the same label, and the clusters
    are sorted by their number of ids, in descending order. *)
Theorem clusters_of_nodes (now : jsstring) (d : DependencyData.t) :
  analyzeDependencies fs now projectPath = Ok d ->
  (forall c, In c (DependencyData.clusters d)
             <-> exists label,
                   c = ClusterInfo.Make (flatten label) label
                         (membersOf label (DependencyData.nodes d))
                   /\ 2 <= length (membersOf label (DependencyData.nodes d)))
  /\ NoDup (map ClusterInfo.label (DependencyData.clusters d))
  /\ StronglySorted
       (fun a b => length (ClusterInfo.nodeIds b) <= length (ClusterInfo.nodeIds a))
       (DependencyData.clusters d).
Proof.
  unfold analyzeDependencies. intros H.
  destruct (findSourceFiles fs projectPath) as [files|]; cbn [bind] in H; [|discriminate].
  injection H as <-. cbn [DependencyData.clusters DependencyData.nodes].
  destruct (@clustered_fold files (GraphState [] [] [])) as [Hnd Hget].
  { split; [constructor | reflexivity]. }
  set (st := fold_left _ files _) in *. unfold clustersOf.
  split; [|split].
  - intros c. rewrite sortBy_In, in_map_iff. split.
    + intros [[k s] [<- Hin]]. apply filter_In in Hin as [Hin Hlen]. cbn [fst snd] in *.
      apply Nat.ltb_lt in Hlen. apply In_get in Hin; [|assumption].
      rewrite Hget in Hin. destruct (existsb _ (stNodes st)); [|discriminate].
      injection Hin as <-. exists k. rewrite replaceSeparators_flatten.
      split; [reflexivity | lia].
    + intros [label [-> Hlen]].
      exists (label, membersOf label (stNodes st)). cbn [fst snd].
      rewrite replaceSeparators_flatten. split; [reflexivity|].
      apply filter_In. cbn [snd]. split; [|apply Nat.ltb_lt; lia].
      apply get_Some_In. rewrite Hget, membersOf_some; [reflexivity|].
      intros E. rewrite E in Hlen. cbn [length] in Hlen. lia.
  - apply (Permutation_NoDup (l := map ClusterInfo.label
             (map (fun e => ClusterInfo.Make (replaceSeparators (fst e)) (fst e) (snd e))
                (filter (fun e => 1 <? length (snd e)) (stClusterMap st))))).
    + apply Permutation_map. symmetry. apply sortBy_perm.
    + rewrite map_map. cbn [ClusterInfo.label].
      exact (@NoDup_keys_filter _ (fun e => 1 <? length (snd e)) (stClusterMap st) Hnd).
  - eapply ComponentRecordProps.sorted_impl;
      [|apply (@sortBy_sorted _ compareClusters
                 (ComponentRecordProps.descending_consistent
                    (fun c => length (ClusterInfo.nodeIds c))))].
    intros a b Hab. unfold notGreater, compareClusters in Hab.
    rewrite Nat.compare_gt_iff in Hab. lia.
Qed.

End Clusters.

(** X15 at a project with three files, two of them with one id. *)
Lemma clusters_of_nodes_witness :
  (forall c, In c (DependencyData.clusters Samples.collidingData)
             <-> exists label,
                   c = ClusterInfo.Make (flatten label) label
                         (membersOf label (DependencyData.nodes Samples.collidingData))
                   /\ 2 <= length (membersOf label (DependencyData.nodes Samples.collidingData)))
  /\ NoDup (map ClusterInfo.label (DependencyData.clusters Samples.collidingData))
  /\ StronglySorted
       (fun a b => length (ClusterInfo.nodeIds b) <= length (ClusterInfo.nodeIds a))
       (DependencyData.clusters Samples.collidingData).
Proof.
  apply (@clusters_of_nodes Samples.collidingFs Samples.proj (Samples.clock0 2)
           Samples.collidingData).
  vm_compute. reflexivity.
Defined.

End ClusterProps.

(** ** The type and the cluster of a source file *)

Module PlaceProps.
Import Analyzer Spec PathFacts StringFacts ComponentRecordProps.

Lemma in_interior (d : jsstring) (ns : list jsstring) :
  In d (interior ns) <-> exists A B, A <> [] /\ B <> [] /\ ns = A ++ d :: B.
Proof.
  unfold interior. split.
  - destruct ns as [|a t]; [intros []|]. cbn [tl]. intros H.
    assert (Ht : t <> []) by (intros ->; exact H).
    apply in_split in H as [l1 [l2 E]].
    exists (a :: l1), (l2 ++ [last t []]).
    split; [discriminate|]. split; [now destruct l2|].
    transitivity (a :: (removelast t ++ [last t []]));
      [f_equal; exact (app_removelast_last [] Ht)|].
    rewrite E. cbn [app]. now rewrite <- app_assoc.
  - intros [A [B [HA [HB ->]]]]. destruct A as [|a A]; [congruence|]. cbn [app tl].
    rewrite removelast_app by discriminate. apply in_or_app. right.
    destruct B as [|b B]; [congruence|]. now left.
Qed.

Lemma In_join (c : ascii) (sep : jsstring) (ns : list jsstring) :
  In c (Js.join sep ns) -> In c sep \/ exists n, In n ns /\ In c n.
Proof.
  induction ns as [|n ns IH]; [intros []|].
  destruct ns as [|n' ns].
  - cbn [Js.join]. intros H. right. exists n. split; [now left | assumption].
  - change (Js.join sep (n :: n' :: ns)) with (n ++ sep ++ Js.join sep (n' :: ns)).
    intros H. apply in_app_or in H as [H|H].
    + right. exists n. split; [now left | assumption].
    + apply in_app_or in H as [H|H]; [now left|].
      apply IH in H as [H|[m [Hm H]]]; [now left|]. right. exists m. split; [now right | assumption].
Qed.

(** A path holds a name between two slashes when the name is one of its
    interior names. *)
Lemma includes_directory (d : jsstring) (ns : list jsstring) :
  ~ In "/"%char d -> ns <> [] -> forallb isPlain ns = true ->
  Js.includes (str "/" ++ d ++ str "/") (Js.join (str "/") ns) = Js.arrIncludes d (interior ns).
Proof.
  intros Hd Hne Hp. apply eq_true_iff_eq. rewrite includes_iff, arrIncludes_iff, in_interior.
  split.
  - intros [pre [post E]]. apply (f_equal (Js.split "/")) in E.
    rewrite split_join in E by assumption.
    change (pre ++ (str "/" ++ d ++ str "/") ++ post)
      with (pre ++ "/"%char :: ((d ++ "/"%char :: []) ++ post)) in E.
    rewrite split_app, <- app_assoc in E. cbn [app] in E.
    rewrite split_app, (@split_no_sep "/" d Hd) in E.
    exists (Js.split "/" pre), (Js.split "/" post).
    split; [apply split_nonempty|]. split; [apply split_nonempty|]. exact E.
  - intros [A [B [HA [HB ->]]]].
    exists (Js.join (str "/") A), (Js.join (str "/") B).
    rewrite join_app by (assumption || discriminate).
    change (d :: B) with ([d] ++ B). rewrite join_app by (assumption || discriminate).
    cbn [Js.join]. now rewrite <- !app_assoc.
Qed.

Lemma excludes_backslash (d : jsstring) (ns : list jsstring) :
  forallb noBackslash ns = true ->
  Js.includes (str "\" ++ d ++ str "\") (Js.join (str "/") ns) = false.
Proof.
  intros Hb. destruct (Js.includes _ _) eqn:E; [|reflexivity].
  apply includes_iff in E as [pre [post E]].
  assert (Hin : In "\"%char (Js.join (str "/") ns)).
  { rewrite E. apply in_or_app. right. now left. }
  apply In_join in Hin as [[H|[]]|[n [Hn Hin]]]; [discriminate|].
  rewrite forallb_forall in Hb. apply Hb in Hn. unfold noBackslash in Hn.
  rewrite forallb_forall in Hn. apply Hn in Hin. unfold Js.notChar in Hin.
  now rewrite Ascii.eqb_refl in Hin.
Qed.

Lemma dropWhile_all (p : ascii -> bool) (s : jsstring) :
  forallb p s = true -> Path.dropWhile p s = [].
Proof.
  induction s as [|c s IH]; [reflexivity|]. cbn [forallb Path.dropWhile].
  intros H. apply andb_true_iff in H as [Hc Hs]. rewrite Hc. now apply IH.
Qed.

(** The directory of a file directly in the project. *)
Lemma dirname_plain (name : jsstring) : isPlain name = true -> Path.dirname name = str ".".
Proof.
  intros Hname. apply isPlain_iff in Hname as [Hn [Hs _]].
  destruct name as [|c name]; [congruence|]. unfold Path.dirname.
  assert (Hall : forallb Path.notSlash (rev name) = true).
  { apply forallb_forall. intros x Hx. apply in_rev in Hx.
    unfold Path.notSlash, Path.isSlash. apply negb_true_iff, Ascii.eqb_neq.
    intros ->. apply Hs. now right. }
  assert (Hc : Path.isAbsolute (c :: name) = false).
  { cbn [Path.isAbsolute]. unfold Path.isSlash. apply Ascii.eqb_neq. intros ->. apply Hs. now left. }
  rewrite (@SourceFileProps.dropWhile_none Path.isSlash (rev name) Hall).
  rewrite (dropWhile_all _ _ Hall). cbv zeta. now rewrite Hc.
Qed.

Section Place.
Variable fs : filesystem.
Variable psegs : list jsstring.
Hypothesis psegs_plain : forallb isPlain psegs = true.

(** X16. The type of the node of a source file depends on the names of
    the directories between the first and the last name of its path
    from the project: a directory directly in the project, [components]
    or [app] say, does not count. The first of [components], [lib] or
    [utils], [api], [app] or [pages] that is among them decides, and
    the type is [other] when none is. *)
Theorem node_type_by_directories (ns : list jsstring) :
  ns <> [] -> forallb isPlain ns = true -> forallb noBackslash ns = true ->
  getNodeType (Path.relative (cwd fs) (absolute psegs) (absolute (psegs ++ ns)))
  = typeByDirectories (interior ns).
Proof.
  intros Hne Hp Hb. rewrite relative_absolute by assumption.
  unfold getNodeType, typeByDirectories. cbv zeta.
  rewrite !(@excludes_backslash _ ns Hb), !orb_false_r.
  rewrite !includes_directory by (assumption
        || (intros H; vm_compute in H; repeat destruct H as [H|H]; discriminate || exact H)).
  reflexivity.
Qed.

(** X17. The cluster label of a source file is made of the last two
    directories it is in that are not named [src] or [app]; it is
    [root] when the file is in such directories only, and [.] when the
    file is directly in the project. *)
Theorem cluster_label_by_directories (ds : list jsstring) (name : jsstring) :
  forallb isPlain ds = true -> isPlain name = true ->
  getClusterLabel
    (Path.dirname (Path.relative (cwd fs) (absolute psegs) (absolute (psegs ++ ds ++ [name]))))
  = labelByDirectories ds.
Proof.
  intros Hp Hname.
  rewrite relative_absolute;
    [|assumption|rewrite forallb_app; cbn [forallb]; now rewrite Hp, Hname|now destruct ds].
  unfold getClusterLabel, labelByDirectories. cbv zeta.
  destruct ds as [|d ds].
  - cbn [app Js.join]. now rewrite dirname_plain.
  - rewrite dirname_join by (assumption || discriminate).
    rewrite split_join by (assumption || discriminate).
    assert (Hf : filter Path.nonEmpty (d :: ds) = d :: ds).
    { apply forallb_filter_id. apply forallb_forall. intros x Hx.
      rewrite forallb_forall in Hp. apply Hp in Hx. apply isPlain_iff in Hx as [Hx _].
      now destruct x. }
    rewrite Hf.
    set (meaningful := lastTwo _).
    assert (Hm : forallb isPlain meaningful = true).
    { apply forallb_forall. intros x Hx. unfold meaningful, lastTwo in Hx.
      match type of Hx with
      | In _ (skipn ?n ?l) =>
          assert (Hx' : In x l) by (rewrite <- (firstn_skipn n l); apply in_or_app; now right)
      end.
      apply filter_In in Hx' as [Hx' _].
      rewrite forallb_forall in Hp. now apply Hp. }
    destruct meaningful as [|m ms] eqn:Em; [reflexivity|].
    destruct (Js.join (str "/") (m :: ms)) eqn:Ej; [|reflexivity].
    apply (join_nil_iff _ Hm) in Ej. discriminate.
Qed.

End Place.

(** X16 at a component directly in the directory [components] of the
    project: its node has the type [other]. *)
Lemma node_type_by_directories_witness :
  getNodeType
    (Path.relative (cwd Samples.componentsFs) (absolute [str "proj"])
       (absolute ([str "proj"] ++ [str "components"; str "Button.tsx"])))
  = other.
Proof.
  apply (@node_type_by_directories Samples.componentsFs [str "proj"] eq_refl
           [str "components"; str "Button.tsx"]);
    [discriminate | reflexivity | reflexivity].
Defined.

(** X17 at a file of the directory [src/app] and at a file directly in
    the project. *)
Lemma cluster_label_by_directories_witness :
  getClusterLabel
    (Path.dirname
       (Path.relative (cwd Samples.bareFs) (absolute [str "proj"])
          (absolute ([str "proj"] ++ [str "src"; str "app"] ++ [str "page.tsx"]))))
  = str "root"
  /\ getClusterLabel
       (Path.dirname
          (Path.relative (cwd Samples.bareFs) (absolute [str "proj"])
             (absolute ([str "proj"] ++ [] ++ [str "index.ts"]))))
     = str ".".
Proof.
  split.
  - apply (@cluster_label_by_directories Samples.bareFs [str "proj"] eq_refl
             [str "src"; str "app"] (str "page.tsx")); reflexivity.
  - apply (@cluster_label_by_directories Samples.bareFs [str "proj"] eq_refl
             [] (str "index.ts")); reflexivity.
Defined.

End PlaceProps.

(** ** Where a relationship comes from *)

Module RelationshipProps.
Import Analyzer Spec RelationProps SchemaProps.

Lemma firstsBy_In {X : Type} (key : X -> jsstring) (l : list X) :
  forall seen x, In x (firstsBy key seen l) -> In x l.
Proof.
  induction l as [|y l IH]; cbn [firstsBy]; intros seen x; [intros []|].
  destruct (JsSet.has (key y) seen).
  - intros H. right. now apply IH in H.
  - intros [<-|H]; [now left | right; now apply IH in H].
Qed.

Lemma relationFields_In (models : list ModelInfo.t) (m : ModelInfo.t) (f : FieldInfo.t) :
  In (m, f) (relationFields models)
  <-> In m models /\ In f (ModelInfo.fields m) /\ FieldInfo.isRelation f = true.
Proof.
  unfold relationFields. rewrite in_flat_map. split.
  - intros [m' [Hm H]]. apply in_map_iff in H as [f' [E Hf]]. injection E as -> ->.
    apply filter_In in Hf as [Hf Hr]. auto.
  - intros [Hm [Hf Hr]]. exists m. split; [assumption|]. apply in_map. now apply filter_In.
Qed.

(** X18. Every relationship of a parsed schema is the record of a
    relation field of one of its models: it goes from that model to the
    type of the field, which is the name of a declared model, and holds
    the name of the field. It is one-to-one exactly when the field is
    not a list; and it is many-to-many only when a model named as the
    type of the field has a relation field, a list, of the type of the
    first model. *)
Theorem relationships_sound (content : jsstring) (r : RelationshipInfo.t) :
  In r (extractRelationships (fst (parseModels content))) ->
  exists m f,
    In m (fst (parseModels content)) /\ In f (ModelInfo.fields m)
    /\ FieldInfo.isRelation f = true
    /\ RelationshipInfo.from r = ModelInfo.name m
    /\ RelationshipInfo.to r = FieldInfo.type f
    /\ RelationshipInfo.fieldName r = FieldInfo.name f
    /\ In (RelationshipInfo.to r) (snd (parseModels content))
    /\ (RelationshipInfo.type r = oneToOne <-> FieldInfo.isArray f = false)
    /\ (RelationshipInfo.type r = manyToMany ->
        FieldInfo.isArray f = true
        /\ exists m' g,
             In m' (fst (parseModels content)) /\ ModelInfo.name m' = FieldInfo.type f
             /\ In g (ModelInfo.fields m') /\ FieldInfo.type g = ModelInfo.name m
             /\ FieldInfo.isRelation g = true /\ FieldInfo.isArray g = true).
Proof.
  rewrite extractRelationships_firsts. intros H.
  apply in_map_iff in H as [[m f] [<- H]]. apply firstsBy_In in H.
  apply relationFields_In in H as [Hm [Hf Hr]].
  exists m, f. unfold recordOf. cbn [fst snd RelationshipInfo.from RelationshipInfo.to
                                      RelationshipInfo.fieldName RelationshipInfo.type].
  repeat (split; [assumption || reflexivity|]).
  split; [|split].
  - pose proof Hm as Hm'. unfold parseModels in Hm'. cbn [fst] in Hm'.
    apply in_map_iff in Hm' as [caps [<- Hcaps]]. cbn [ModelInfo.fields] in Hf.
    apply ComponentProps.In_keep in Hf as [line [_ Hf]].
    exact (parseField_relation _ _ Hf Hr).
  - unfold relationType. destruct (FieldInfo.isArray f).
    + split; [|discriminate].
      destruct (find _ (fst (parseModels content))) as [m'|]; [|discriminate].
      destruct (find _ (ModelInfo.fields m')) as [g|]; [|discriminate].
      destruct (FieldInfo.isArray g); discriminate.
    + split; reflexivity.
  - unfold relationType. destruct (FieldInfo.isArray f); [|discriminate].
    destruct (find _ (fst (parseModels content))) as [m'|] eqn:Em; [|discriminate].
    destruct (find _ (ModelInfo.fields m')) as [g|] eqn:Eg; [|discriminate].
    destruct (FieldInfo.isArray g) eqn:Ea; [|discriminate].
    intros _. split; [reflexivity|]. exists m', g.
    apply find_some in Em as [Hm' En]. apply streq_iff in En.
    apply find_some in Eg as [Hg Et]. apply andb_true_iff in Et as [Et Hrel].
    apply streq_iff in Et. auto 10.
Qed.

(** X18 at the schema of scenario B. *)
Lemma relationships_sound_witness :
  exists m f,
    In m (fst (parseModels Samples.scenarioB)) /\ In f (ModelInfo.fields m)
    /\ FieldInfo.isRelation f = true
    /\ str "User" = ModelInfo.name m
    /\ str "Post" = FieldInfo.type f
    /\ str "posts" = FieldInfo.name f
    /\ In (str "Post") (snd (parseModels Samples.scenarioB))
    /\ (oneToMany = oneToOne <-> FieldInfo.isArray f = false)
    /\ (oneToMany = manyToMany ->
        FieldInfo.isArray f = true
        /\ exists m' g,
             In m' (fst (parseModels Samples.scenarioB)) /\ ModelInfo.name m' = FieldInfo.type f
             /\ In g (ModelInfo.fields m') /\ FieldInfo.type g = ModelInfo.name m
             /\ FieldInfo.isRelation g = true /\ FieldInfo.isArray g = true).
Proof.
  apply (@relationships_sound Samples.scenarioB
           (RelationshipInfo.Make (str "User") (str "Post") oneToMany (str "posts"))).
  vm_compute. now left.
Defined.

End RelationshipProps.

(** ** The importance of the files *)

Module ImportanceProps.
Import Insights JsMapFacts.

(** Counting the elements of a key in a map. *)
Lemma count_step {A : Type} (key : A -> jsstring) (m : JsMap.t nat) (l : list A) (x : A) :
  (forall k, getOrZero k m = length (filter (fun a => Js.streq (key a) k) l)) ->
  forall k, getOrZero k (JsMap.set (key x) (getOrZero (key x) m + 1) m)
            = length (filter (fun a => Js.streq (key a) k) (l ++ [x])).
Proof.
  intros H k. rewrite filter_app, length_app. cbn [filter]. unfold getOrZero at 1.
  destruct (Js.streq (key x) k) eqn:E.
  - apply streq_iff in E. subst k. rewrite get_set_eq, H. reflexivity.
  - apply streq_neq in E. rewrite get_set_neq by assumption. cbn [length].
    rewrite Nat.add_0_r. apply H.
Qed.

Lemma countEdge_fold (edges done : list EdgeInfo.t) (st : countState) :
  (forall k, getOrZero k (fst st) = importedBy done k) ->
  (forall k, getOrZero k (snd st) = importsOf done k) ->
  forall k,
    getOrZero k (fst (fold_left countEdge edges st)) = importedBy (done ++ edges) k
    /\ getOrZero k (snd (fold_left countEdge edges st)) = importsOf (done ++ edges) k.
Proof.
  revert done st. induction edges as [|e edges IH]; intros done st H1 H2 k; cbn [fold_left].
  - rewrite app_nil_r. auto.
  - replace (done ++ e :: edges) with ((done ++ [e]) ++ edges) by now rewrite <- app_assoc.
    apply IH; intros k'; unfold countEdge; cbn [fst snd].
    + exact (count_step EdgeInfo.target (fst st) done e H1 k').
    + exact (count_step EdgeInfo.source (snd st) done e H2 k').
Qed.

(** X19. [calculateFileImportance] returns one record for every node of
    the dependency graph, and none without a graph: the record holds
    the directory and the label of the node, the number of edges that
    end at the id of the node and the number that start at it, and as
    score ten times the first plus twice the second, at most 100; a
    node is a hub from five edges that end at it on. The records are
    sorted by score, in descending order. *)
Theorem importance_of_nodes (analysis : AnalysisResult.t) :
  match AnalysisResult.dependencies analysis with
  | None => calculateFileImportance analysis = []
  | Some deps =>
      Permutation (calculateFileImportance analysis)
        (map (importanceIn (DependencyData.edges deps)) (DependencyData.nodes deps))
  end
  /\ StronglySorted
       (fun a b => FileImportance.impactScore b <= FileImportance.impactScore a)
       (calculateFileImportance analysis).
Proof.
  unfold calculateFileImportance.
  destruct (AnalysisResult.dependencies analysis) as [deps|]; [|split; [reflexivity|constructor]].
  cbv zeta. split.
  - rewrite sortBy_perm. apply Permutation_refl'. apply map_ext. intros node.
    unfold importanceOf, importanceIn. cbv zeta.
    destruct (@countEdge_fold (DependencyData.edges deps) [] ([], []) (fun _ => eq_refl)
                (fun _ => eq_refl) (NodeInfo.id node)) as [-> ->].
    cbn [app]. f_equal. f_equal. lia.
  - eapply ComponentRecordProps.sorted_impl;
      [|apply (@sortBy_sorted _ compareImportance
                 (ComponentRecordProps.descending_consistent FileImportance.impactScore))].
    intros a b Hab. unfold notGreater, compareImportance in Hab.
    rewrite Nat.compare_gt_iff in Hab. lia.
Qed.

End ImportanceProps.

(** ** Where a model comes from *)

Module ModelBlockProps.
Import Analyzer Shapes RegexFacts ReadFacts DetectionProps ImportProps.

(** What the expression of the models matches, and what it captures. *)
Lemma block_capture (c c' : cursor) (caps : captures) :
  matches true modelRegex c [] c' caps ->
  atBol true c = true
  /\ exists ws1 ws2 post,
       after c = str "model" ++ ws1 ++ capture 1 caps ++ ws2 ++ str "{" ++ capture 2 caps
                 ++ str "}" ++ post
       /\ gap ws1 /\ blank ws2
       /\ capture 1 caps <> [] /\ Spec.wordName (capture 1 caps)
       /\ capture 2 caps <> [] /\ ~ In "}"%char (capture 2 caps).
Proof.
  unfold modelRegex. cbn [seq]. intros M.
  apply matches_seq in M as [c1 [caps1 [M1 M]]].
  apply matches_seq in M as [c2 [caps2 [M2 M]]].
  apply matches_seq in M as [c3 [caps3 [M3 M]]].
  apply matches_seq in M as [c4 [caps4 [M4 M]]].
  apply matches_seq in M as [c5 [caps5 [M5 M]]].
  apply matches_seq in M as [c6 [caps6 [M6 M]]].
  apply matches_seq in M as [c7 [caps7 [M7 M8]]].
  inversion M1 as [ | | | | | | |? ? Hbol| | ]; subst.
  split; [exact Hbol|].
  apply matches_reads in M2 as [w2 [E2 [_ R2]]]. apply reads_lit in R2 as ->.
  pose proof (matches_plus_chr M3) as [-> _].
  apply matches_reads in M3 as [w3 [E3 [_ R3]]]. apply reads_plus_chr in R3 as [Hne3 Hw3].
  apply matches_group in M4 as [caps4' [M4 ->]].
  pose proof (matches_plus_chr M4) as [-> _].
  apply matches_reads in M4 as [w4 [E4 [_ R4]]]. apply reads_plus_chr in R4 as [Hne4 Hw4].
  rewrite (@consumed_app _ _ w4 E4) in *.
  pose proof (matches_star_chr M5) as [-> _].
  apply matches_reads in M5 as [w5 [E5 [_ R5]]]. apply reads_star_chr in R5.
  inversion M6 as [ |? ? ? q6 rest6 E6 Hq6| | | | | | | | ]; subst.
  apply matches_group in M7 as [caps7' [M7 ->]].
  pose proof (matches_plus_chr M7) as [-> _].
  apply matches_reads in M7 as [w7 [E7 [_ R7]]]. apply reads_plus_chr in R7 as [Hne7 Hw7].
  rewrite (@consumed_app _ _ w7 E7) in *.
  inversion M8 as [ |? ? ? q8 rest8 E8 Hq8| | | | | | | | ]; subst.
  cbn [capture Nat.eqb]. cbn [after] in *.
  unfold Js.isChar in Hq6, Hq8. apply Ascii.eqb_eq in Hq6, Hq8. subst q6 q8.
  exists w3, w5, rest8. split.
  { rewrite E2, E3, E4, E5, E6, E7, E8. reflexivity. }
  repeat split; try assumption.
  intros Hin. rewrite Forall_forall in Hw7. apply Hw7 in Hin.
  unfold Js.notChar in Hin. now rewrite Ascii.eqb_refl in Hin.
Qed.

(** X20. Every model of a parsed schema stands in the schema: at the
    start of a line the word [model], white space, the name of the
    model, made of word characters, white space or none, and in braces
    a text that is not empty and holds no closing brace; the fields of
    the model are those that [parseField] finds in the lines of this
    text. *)
Theorem models_sound (content : jsstring) (m : ModelInfo.t) :
  In m (fst (parseModels content)) ->
  exists body,
    modelBlock content (ModelInfo.name m) body
    /\ ModelInfo.fields m
       = keep (fun line => parseField line (snd (parseModels content))) (Js.split "010" body).
Proof.
  unfold parseModels. cbn [fst snd]. intros H.
  apply in_map_iff in H as [caps [<- H]]. cbn [ModelInfo.name ModelInfo.fields].
  apply execLoop_at in H as [pre [suf [c' [-> M]]]].
  exists (capture 2 caps). split; [|reflexivity].
  apply block_capture in M as [Hbol [ws1 [ws2 [post [E H]]]]].
  apply atBol_startsLine in Hbol. cbn [after] in E.
  exists pre, ws1, ws2, post. split; [now rewrite E|]. split; [exact Hbol | exact H].
Qed.

(** X20 at the schema of scenario B. *)
Lemma models_sound_witness :
  exists body,
    modelBlock Samples.scenarioB (ModelInfo.name Samples.userModel) body
    /\ ModelInfo.fields Samples.userModel
       = keep (fun line => parseField line (snd (parseModels Samples.scenarioB)))
           (Js.split "010" body).
Proof.
  apply (@models_sound Samples.scenarioB Samples.userModel). vm_compute. now left.
Defined.

End ModelBlockProps.

(** ** Where an import is looked for *)

Module ResolveProps.
Import Analyzer PathFacts NameFacts SourceFileProps PlaceProps.

Lemma normalizeSegs_app (allow : bool) (l1 l2 : list jsstring) :
  loose l1 ->
  forall acc,
    Path.normalizeSegs allow acc (l1 ++ l2)
    = Path.normalizeSegs allow (rev (filter Path.nonEmpty l1) ++ acc) l2.
Proof.
  induction l1 as [|s l1 IH]; intros Hl acc; [reflexivity|].
  assert (Hl' : loose l1) by (intros x Hx; apply Hl; now right).
  cbn [app Path.normalizeSegs filter].
  destruct (Hl s (or_introl eq_refl)) as [->|Hs].
  - cbn. now apply IH.
  - pose proof Hs as Hs'. apply isPlain_iff in Hs' as [Hne [_ [Hd Hdd]]].
    apply streq_neq in Hd, Hdd.
    assert (E0 : Js.streq s [] = false) by (apply streq_neq; exact Hne).
    rewrite E0, Hd, Hdd. cbn [orb].
    assert (En : Path.nonEmpty s = true) by now destruct s.
    rewrite En. cbn [rev]. rewrite <- app_assoc. cbn [app]. now apply IH.
Qed.

Lemma loose_plain (l : list jsstring) : forallb isPlain l = true -> loose l.
Proof. intros H s Hs. right. rewrite forallb_forall in H. now apply H. Qed.

Lemma loose_app (l1 l2 : list jsstring) : loose l1 -> loose l2 -> loose (l1 ++ l2).
Proof. intros H1 H2 s Hs. apply in_app_or in Hs as [Hs|Hs]; auto. Qed.

(** The directory of a file given by its names. *)
Lemma dirname_absolute (dsegs : list jsstring) (name : jsstring) :
  forallb isPlain dsegs = true -> isPlain name = true ->
  Path.dirname (absolute (dsegs ++ [name])) = absolute dsegs.
Proof.
  intros Hp Hname. pose proof Hname as Hn. apply isPlain_iff in Hn as [Hn0 [Hs _]].
  assert (Hr : forallb Path.notSlash (rev name) = true).
  { apply forallb_forall. intros x Hx. apply in_rev in Hx.
    unfold Path.notSlash, Path.isSlash. apply negb_true_iff, Ascii.eqb_neq. intros ->.
    contradiction. }
  destruct dsegs as [|d ds].
  - cbn [app]. unfold absolute. cbn [Js.join]. change (str "/" ++ name) with ("/"%char :: name).
    unfold Path.dirname.
    rewrite (@dropWhile_none Path.isSlash (rev name) Hr), (dropWhile_all _ _ Hr).
    reflexivity.
  - unfold absolute. rewrite join_app by discriminate.
    change (Js.join (str "/") [name]) with name.
    assert (HA : Js.join (str "/") (d :: ds) <> [])
      by (intros E; now apply (join_nil_iff _ Hp) in E).
    revert HA. generalize (Js.join (str "/") (d :: ds)). intros A HA.
    change (str "/" ++ A ++ str "/" ++ name) with ("/"%char :: (A ++ "/"%char :: name)).
    unfold Path.dirname. rewrite rev_app_distr. cbn [rev]. rewrite <- app_assoc. cbn [app].
    destruct (rev name) as [|y r] eqn:Er.
    { apply (f_equal (@rev ascii)) in Er. rewrite rev_involutive in Er. contradiction. }
    pose proof Hr as Hr'. cbn [forallb] in Hr'. apply andb_true_iff in Hr' as [Hy _].
    cbn [app Path.dropWhile]. unfold Path.notSlash in Hy. apply negb_true_iff in Hy. rewrite Hy.
    change (y :: r ++ "/"%char :: rev A) with ((y :: r) ++ "/"%char :: rev A).
    rewrite dropWhile_app by (assumption || reflexivity).
    cbn [Path.isAbsolute length]. rewrite length_rev.
    destruct A as [|a A]; [congruence|]. cbn [length Nat.eqb andb].
    replace (Path.isSlash "/") with true by reflexivity. cbn [andb firstn].
    cbn [app]. change (str "/" ++ a :: A) with ("/"%char :: a :: A). f_equal. f_equal.
    rewrite firstn_app, firstn_all, Nat.sub_diag. cbn [firstn]. apply app_nil_r.
Qed.

(** The names of a directory followed by a path of names. *)
Lemma segments_from (cwd : jsstring) (dsegs : list jsstring) (step : jsstring)
    (rel : list jsstring) :
  forallb isPlain dsegs = true -> ~ In "/"%char step -> step <> [] ->
  Path.isAbsolute step = false ->
  forallb isPlain rel = true -> rel <> [] ->
  Path.resolveSegs cwd [absolute dsegs; Js.join (str "/") (step :: rel)]
  = Path.normalizeSegs false (rev dsegs) (step :: rel ++ [[]]).
Proof.
  intros Hd Hstep Hne Hrel Hp Hr.
  unfold Path.resolveSegs. cbn [rev app Path.resolveArgs].
  destruct (Js.join (str "/") (step :: rel)) as [|c B] eqn:EB.
  { destruct rel; [contradiction|]. cbn [Js.join] in EB. destruct step; [congruence | discriminate]. }
  assert (Habs : Path.isAbsolute (c :: B) = false).
  { destruct rel as [|r rel]; [contradiction|].
    change (Js.join (str "/") (step :: r :: rel))
      with (step ++ str "/" ++ Js.join (str "/") (r :: rel)) in EB.
    destruct step as [|s step]; [congruence|]. injection EB as <- _. exact Hrel. }
  rewrite Habs. cbn [Path.resolveArgs].
  replace (Path.isAbsolute (absolute dsegs)) with true by reflexivity.
  change (absolute dsegs) with ("/"%char :: Js.join (str "/") dsegs) at 1. cbv iota.
  unfold Path.segments.
  change (absolute dsegs ++ str "/" ++ (c :: B) ++ str "/" ++ [])
    with (absolute dsegs ++ "/"%char :: ((c :: B) ++ "/"%char :: [])).
  rewrite split_app, split_app. rewrite <- EB.
  destruct rel as [|r rel]; [contradiction|].
  change (Js.join (str "/") (step :: r :: rel))
    with (step ++ "/"%char :: Js.join (str "/") (r :: rel)).
  rewrite split_app, (@split_no_sep "/" step Hstep), split_join by (assumption || discriminate).
  fold (Path.segments (absolute dsegs)).
  rewrite normalizeSegs_app by now apply loose_segments_absolute.
  rewrite segments_absolute by assumption. rewrite app_nil_r. reflexivity.
Qed.

Lemma join_absolute_path (segs more : list jsstring) :
  forallb isPlain segs = true -> forallb isPlain more = true -> more <> [] ->
  Path.join [absolute segs; Js.join (str "/") more] = absolute (segs ++ more).
Proof.
  intros Hs Hm Hne. rewrite <- join_absolute by assumption. unfold Path.join.
  replace (filter Path.nonEmpty (absolute segs :: more)) with (absolute segs :: more)
    by (cbn [filter]; rewrite plain_nonEmpty by assumption; reflexivity).
  cbn [filter]. replace (Path.nonEmpty (absolute segs)) with true by reflexivity.
  destruct (Js.join (str "/") more) as [|c B] eqn:EB.
  { apply (join_nil_iff _ Hm) in EB. contradiction. }
  cbn [Path.nonEmpty]. rewrite <- EB. rewrite (@absolute_app segs more Hne). reflexivity.
Qed.

Section Resolution.
Variable fs : filesystem.
Variables psegs dsegs rel : list jsstring.
Variable name : jsstring.
Hypothesis psegs_plain : forallb isPlain psegs = true.
Hypothesis dsegs_plain : forallb isPlain dsegs = true.
Hypothesis name_plain : isPlain name = true.
Hypothesis rel_plain : forallb isPlain rel = true.
Hypothesis rel_names : rel <> [].

Lemma resolve_here :
  Path.resolve (cwd fs) [Path.dirname (absolute (dsegs ++ [name])); str "./" ++ Js.join (str "/") rel]
  = absolute (dsegs ++ rel).
Proof.
  rewrite dirname_absolute by assumption. unfold Path.resolve.
  replace (str "./" ++ Js.join (str "/") rel) with (Js.join (str "/") (str "." :: rel))
    by (destruct rel; [contradiction | reflexivity]).
  rewrite segments_from; try assumption; try reflexivity; try discriminate.
  2:{ intros [H|[]]. discriminate. }
  cbn [Path.normalizeSegs]. replace (Js.streq (str ".") [] || Js.streq (str ".") (str "."))
    with true by reflexivity.
  rewrite normalizeSegs_loose by (apply loose_app; [now apply loose_plain | intros s [<-|[]]; now left]).
  rewrite rev_involutive, filter_app, plain_nonEmpty by assumption. cbn [filter Path.nonEmpty].
  now rewrite app_nil_r.
Qed.

Lemma resolve_above :
  Path.resolve (cwd fs) [Path.dirname (absolute (dsegs ++ [name])); str "../" ++ Js.join (str "/") rel]
  = absolute (removelast dsegs ++ rel).
Proof.
  rewrite dirname_absolute by assumption. unfold Path.resolve.
  replace (str "../" ++ Js.join (str "/") rel) with (Js.join (str "/") (str ".." :: rel))
    by (destruct rel; [contradiction | reflexivity]).
  rewrite segments_from; try assumption; try reflexivity; try discriminate.
  2:{ intros [H|[H|[]]]; discriminate. }
  assert (Hl : loose (rel ++ [[]]))
    by (apply loose_app; [now apply loose_plain | intros s [<-|[]]; now left]).
  assert (Hf : filter Path.nonEmpty (rel ++ [[]]) = rel).
  { rewrite filter_app, plain_nonEmpty by assumption. cbn [filter Path.nonEmpty]. apply app_nil_r. }
  cbn [Path.normalizeSegs].
  replace (Js.streq (str "..") [] || Js.streq (str "..") (str ".")) with false by reflexivity.
  replace (Js.streq (str "..") (str "..")) with true by reflexivity.
  destruct (rev dsegs) as [|l acc] eqn:Er.
  - apply (f_equal (@rev jsstring)) in Er. rewrite rev_involutive in Er. cbn [rev] in Er.
    rewrite Er. cbn [removelast app]. now rewrite normalizeSegs_loose, Hf by assumption.
  - apply (f_equal (@rev jsstring)) in Er. rewrite rev_involutive in Er. cbn [rev] in Er.
    assert (Hlast : isPlain l = true).
    { rewrite forallb_forall in dsegs_plain. apply dsegs_plain. rewrite Er.
      apply in_or_app. right. now left. }
    apply isPlain_iff in Hlast as [_ [_ [_ Hdd]]]. apply streq_neq in Hdd. rewrite Hdd.
    rewrite normalizeSegs_loose, Hf by assumption. rewrite Er, removelast_last. reflexivity.
Qed.

(** X21. An import is looked for at its path and then with the endings
    [.ts], [.tsx], [.js], [.jsx], [/index.ts], [/index.tsx],
    [/index.js], [/index.jsx], and stands for the first of these that
    is a regular file. An import that starts with [./] is looked for in
    the directory of the file that imports, one that starts with [../]
    in the directory above it, and one that starts with [@/] in the
    directory of the project, whatever the file that imports. *)
Theorem import_resolution (other : jsstring) :
  resolveImportPath fs (str "./" ++ Js.join (str "/") rel) (absolute (dsegs ++ [name]))
    (absolute psegs)
  = find (isFileAt fs) (candidates (dsegs ++ rel))
  /\ resolveImportPath fs (str "../" ++ Js.join (str "/") rel) (absolute (dsegs ++ [name]))
       (absolute psegs)
     = find (isFileAt fs) (candidates (removelast dsegs ++ rel))
  /\ resolveImportPath fs (str "@/" ++ Js.join (str "/") rel) other (absolute psegs)
     = find (isFileAt fs) (candidates (psegs ++ rel)).
Proof.
  unfold resolveImportPath, candidates. cbv zeta. split; [|split].
  - replace (Js.startsWith (str "@/") (str "./" ++ Js.join (str "/") rel)) with false
      by reflexivity.
    f_equal. apply map_ext. intros ext. f_equal. apply resolve_here.
  - replace (Js.startsWith (str "@/") (str "../" ++ Js.join (str "/") rel)) with false
      by reflexivity.
    f_equal. apply map_ext. intros ext. f_equal. apply resolve_above.
  - replace (Js.startsWith (str "@/") (str "@/" ++ Js.join (str "/") rel)) with true
      by reflexivity.
    change (skipn 2 (str "@/" ++ Js.join (str "/") rel)) with (Js.join (str "/") rel).
    f_equal. apply map_ext. intros ext. f_equal. now apply join_absolute_path.
Qed.

End Resolution.

(** X21 at the route file of the users of a sample project, which
    imports [@/lib/db]. *)
Lemma import_resolution_witness :
  resolveImportPath Samples.routesFs (str "./" ++ Js.join (str "/") [str "lib"; str "db"])
    (absolute ([str "proj"; str "app"; str "api"; str "users"] ++ [str "route.ts"]))
    (absolute [str "proj"])
  = find (isFileAt Samples.routesFs)
      (candidates ([str "proj"; str "app"; str "api"; str "users"] ++ [str "lib"; str "db"]))
  /\ resolveImportPath Samples.routesFs (str "../" ++ Js.join (str "/") [str "lib"; str "db"])
       (absolute ([str "proj"; str "app"; str "api"; str "users"] ++ [str "route.ts"]))
       (absolute [str "proj"])
     = find (isFileAt Samples.routesFs)
         (candidates (removelast [str "proj"; str "app"; str "api"; str "users"]
                      ++ [str "lib"; str "db"]))
  /\ resolveImportPath Samples.routesFs (str "@/" ++ Js.join (str "/") [str "lib"; str "db"])
       Samples.usersRoute (absolute [str "proj"])
     = Some (str "/proj/lib/db.ts").
Proof.
  exact (@import_resolution Samples.routesFs [str "proj"]
           [str "proj"; str "app"; str "api"; str "users"] [str "lib"; str "db"]
           (str "route.ts") eq_refl eq_refl eq_refl eq_refl
           (fun E => eq_ind [str "lib"; str "db"]
                       (fun l => match l with [] => False | _ => True end) I [] E)
           Samples.usersRoute).
Defined.

End ResolveProps.

(** ** The summaries of the directories *)

Module SummaryProps.
Import Analyzer Spec PathFacts JsMapFacts ComponentRecordProps.

Lemma removelast_plain (ns : list jsstring) :
  forallb isPlain ns = true -> forallb isPlain (removelast ns) = true.
Proof.
  induction ns as [|n ns IH]; [reflexivity|]. cbn [forallb]. intros H.
  apply andb_true_iff in H as [Hn H]. destruct ns as [|m ns]; [reflexivity|].
  change (removelast (n :: m :: ns)) with (n :: removelast (m :: ns)). cbn [forallb].
  rewrite Hn. now apply IH.
Qed.

Lemma getDirectoryLabel_join (ns : list jsstring) :
  ns <> [] -> forallb isPlain ns = true ->
  getDirectoryLabel (Js.join (str "/") ns) = last ns [].
Proof.
  intros Hne Hp. unfold getDirectoryLabel. rewrite split_join by assumption.
  destruct (last ns []) as [|c l] eqn:E; [|reflexivity]. exfalso.
  assert (Hin : In (last ns []) ns).
  { destruct ns as [|n ns]; [congruence|]. clear. revert n.
    induction ns as [|m ns IH]; intros n; [now left|]. right. apply IH. }
  rewrite forallb_forall in Hp. apply Hp in Hin. rewrite E in Hin. discriminate.
Qed.

Section Summaries.
Variable localeCompare : jsstring -> jsstring -> comparison.
Variable fs : filesystem.
Variable psegs : list jsstring.
Hypothesis fs_wellFormed : wellFormed (Dir (root fs)) = true.
Hypothesis psegs_plain : forallb isPlain psegs = true.

(** X22. In a well-formed file system, every directory summary of
    [analyzeComponents] is that of a directory below a component
    directory of the project that holds a component: its path is made
    of the names of the directory from the project, its label is the
    last of these names, and its count is not zero. No two summaries
    have the same path. *)
Theorem directory_summaries (now : jsstring) (d : ComponentData.t) :
  analyzeComponents localeCompare fs now (absolute psegs) = Ok d ->
  NoDup (map DirectoryInfo.path (ComponentData.directories d))
  /\ forall s,
       In s (ComponentData.directories d) ->
       exists pre ds,
         In pre componentPrefixes /\ forallb isPlain ds = true
         /\ DirectoryInfo.path s = Js.join (str "/") (pre ++ ds)
         /\ DirectoryInfo.label s = last (pre ++ ds) []
         /\ 1 <= DirectoryInfo.componentCount s.
Proof.
  unfold analyzeComponents. rewrite collectComponents_files.
  destruct (filesOf (findComponentFiles fs) (possibleComponentDirs (absolute psegs)))
    as [files|] eqn:Efiles; cbn [bind]; [|discriminate].
  intros [= <-]. cbn [ComponentData.directories].
  destruct (@DirectoryProps.counted_fold fs (absolute psegs) files ([], [])) as [Hnd Hget].
  { split; [constructor | reflexivity]. }
  pose proof (ComponentProps.fold_add_components fs (absolute psegs) files ([], [])) as Hfst.
  set (st := fold_left _ files _) in *. cbn [fst app] in Hfst.
  destruct (@component_files fs psegs fs_wellFormed psegs_plain files Efiles) as [_ Hin].
  split.
  - apply (Permutation_NoDup (l := map DirectoryInfo.path
             (map (fun e => DirectoryInfo.Make (fst e) (getDirectoryLabel (fst e)) (snd e))
                (snd st)))).
    + apply Permutation_map. symmetry. apply sortBy_perm.
    + rewrite map_map. cbn [DirectoryInfo.path]. exact Hnd.
  - intros s Hs. apply sortBy_In in Hs. apply in_map_iff in Hs as [[k v] [<- Hkv]].
    cbn [DirectoryInfo.path DirectoryInfo.label DirectoryInfo.componentCount fst snd].
    apply (In_get _ _ _ Hnd) in Hkv. rewrite Hget in Hkv.
    destruct (componentsIn k (fst st) =? 0) eqn:E0; [discriminate|].
    injection Hkv as <-. apply Nat.eqb_neq in E0.
    unfold componentsIn in E0 |- *.
    destruct (filter _ (fst st)) as [|c cs] eqn:Ef; [now cbn in E0|].
    assert (Hc : In c (filter (fun c0 => Js.streq (ComponentInfo.directory c0) k) (fst st)))
      by (rewrite Ef; now left).
    apply filter_In in Hc as [Hc Hk]. apply streq_iff in Hk.
    rewrite Hfst in Hc. apply ComponentProps.In_keep in Hc as [f [Hf Hc]].
    apply Hin in Hf as [pre [ns [Hpre [-> [Hns [_ [_ [a [stem [ext [Hl [_ He]]]]]]]]]]]].
    pose proof Hc as Hc'. apply ComponentProps.componentOfFile_Some in Hc' as [content [Hread _]].
    rewrite (@componentOfFile_below fs psegs psegs_plain pre ns a stem ext content
               Hpre Hns Hl He Hread) in Hc.
    injection Hc as <-. cbn [ComponentInfo.directory] in Hk. subst k.
    assert (Hp : forallb isPlain pre = true).
    { revert Hpre. unfold componentPrefixes. cbn [In].
      intros [<-|[<-|[<-|[<-|[]]]]]; reflexivity. }
    assert (Hne : pre <> []).
    { revert Hpre. unfold componentPrefixes. cbn [In].
      intros [<-|[<-|[<-|[<-|[]]]]]; discriminate. }
    exists pre, (removelast ns).
    split; [assumption|]. split; [now apply removelast_plain|]. split; [reflexivity|].
    split; [|cbn [length]; lia].
    apply getDirectoryLabel_join.
    + intros E. apply app_eq_nil in E as [E _]. contradiction.
    + rewrite forallb_app, Hp. now apply removelast_plain.
Qed.

End Summaries.

(** X22 at a project with components in three directories. *)
Lemma directory_summaries_witness :
  NoDup (map DirectoryInfo.path (ComponentData.directories Samples.pagesData))
  /\ forall s,
       In s (ComponentData.directories Samples.pagesData) ->
       exists pre ds,
         In pre componentPrefixes /\ forallb isPlain ds = true
         /\ DirectoryInfo.path s = Js.join (str "/") (pre ++ ds)
         /\ DirectoryInfo.label s = last (pre ++ ds) []
         /\ 1 <= DirectoryInfo.componentCount s.
Proof.
  apply (@directory_summaries Js.compareCodeUnits Samples.pagesFs [str "proj"]
           eq_refl eq_refl (Samples.clock0 1) Samples.pagesData).
  vm_compute. reflexivity.
Defined.

End SummaryProps.

(** ** Reading import statements *)

Module StatementFacts.
Import Analyzer Shapes RegexFacts RegexComplete ReadFacts DetectionProps StringFacts.

(** Two runs of characters of one class that end before a character
    outside the class. *)
Lemma run_eq (P : ascii -> bool) (a b : jsstring) (x y : ascii) (r r' : jsstring) :
  Forall (fun c => P c = true) a -> Forall (fun c => P c = true) b ->
  P x = false -> P y = false ->
  a ++ x :: r = b ++ y :: r' -> a = b /\ x = y /\ r = r'.
Proof.
  intros Ha. revert b. induction Ha as [|c a Hc Ha IH]; intros b Hb Hx Hy E.
  - destruct Hb as [|d b Hd Hb]; cbn [app] in E.
    + injection E as -> ->. auto.
    + injection E as -> _. congruence.
  - destruct Hb as [|d b Hd Hb]; cbn [app] in E.
    + injection E as -> _. congruence.
    + injection E as -> E. destruct (IH b Hb Hx Hy E) as [-> [-> ->]]. auto.
Qed.

Arguments run_eq P [a b x y r r'] _ _ _ _ _.

Lemma space_not_name (a : ascii) : Js.isSpace a = true -> isNameChar a = false.
Proof.
  destruct a as [[] [] [] [] [] [] [] []]; vm_compute; congruence.
Qed.

Lemma quote_not_space (a : ascii) : Js.isQuote a = true -> Js.isSpace a = false.
Proof.
  destruct a as [[] [] [] [] [] [] [] []]; vm_compute; congruence.
Qed.

Lemma quote_not_name (a : ascii) : Js.isQuote a = true -> isNameChar a = false.
Proof.
  destruct a as [[] [] [] [] [] [] [] []]; vm_compute; congruence.
Qed.

Lemma name_not_space (a : ascii) : isNameChar a = true -> Js.isSpace a = false.
Proof.
  destruct a as [[] [] [] [] [] [] [] []]; vm_compute; congruence.
Qed.

Lemma run_eq_gen (P : ascii -> bool) (a b r r' : jsstring) :
  Forall (fun c => P c = true) a -> Forall (fun c => P c = true) b ->
  (exists x t, r = x :: t /\ P x = false) -> (exists y t, r' = y :: t /\ P y = false) ->
  a ++ r = b ++ r' -> a = b /\ r = r'.
Proof.
  intros Ha Hb [x [t [-> Hx]]] [y [t' [-> Hy]]] E.
  destruct (run_eq P Ha Hb Hx Hy E) as [-> [-> ->]]. auto.
Qed.

Arguments run_eq_gen P [a b r r'] _ _ _ _ _.

(** The first character after white space or none. *)
Lemma head_after_blank (P : ascii -> bool) (ws : jsstring) (x : ascii) (rest : jsstring) :
  blank ws -> (forall c, Js.isSpace c = true -> P c = false) -> P x = false ->
  exists y t, ws ++ x :: rest = y :: t /\ P y = false.
Proof.
  intros Hws Hsp Hx. destruct Hws as [|c ws Hc _].
  - now exists x, rest.
  - exists c, (ws ++ x :: rest). split; [reflexivity | now apply Hsp].
Qed.

Lemma head_of_gap (P : ascii -> bool) (ws rest : jsstring) :
  gap ws -> (forall c, Js.isSpace c = true -> P c = false) ->
  exists y t, ws ++ rest = y :: t /\ P y = false.
Proof.
  intros [Hne Hws] Hsp. destruct Hws as [|c ws Hc _]; [congruence|].
  exists c, (ws ++ rest). split; [reflexivity | now apply Hsp].
Qed.

Lemma not_in_brace (inner : jsstring) :
  ~ In "}"%char inner <-> Forall (fun c => Js.notChar "}" c = true) inner.
Proof.
  rewrite Forall_forall. unfold Js.notChar. split.
  - intros H c Hc. apply negb_true_iff, Ascii.eqb_neq. intros <-. contradiction.
  - intros H Hin. apply H in Hin. now rewrite Ascii.eqb_refl in Hin.
Qed.

(** A clause starts with a brace or with a character of a name. *)
Lemma clause_head (clause : jsstring) :
  importClause clause ->
  exists x t, clause = x :: t /\ Js.isSpace x = false /\ Js.isQuote x = false.
Proof.
  intros [inner Hi|name Hne Hn|name ws1 ws2 inner Hne Hn _ _ _].
  - exists "{"%char, (inner ++ str "}"). now repeat split.
  - destruct Hn as [|c name Hc _]; [congruence|]. exists c, name.
    split; [reflexivity|]. split; [now apply name_not_space|].
    destruct (Js.isQuote c) eqn:E; [|reflexivity]. apply quote_not_name in E. congruence.
  - destruct Hn as [|c name Hc _]; [congruence|]. exists c, (name ++ ws1 ++ str "," ++ ws2 ++ str "{" ++ inner ++ str "}").
    split; [reflexivity|]. split; [now apply name_not_space|].
    destruct (Js.isQuote c) eqn:E; [|reflexivity]. apply quote_not_name in E. congruence.
Qed.

(** The word [from] between white space, before a quote. *)
Lemma from_unique (s1 u1 s2 u2 : jsstring) (q1 q2 : ascii) (r1 r2 : jsstring) :
  gap s1 -> gap u1 -> gap s2 -> gap u2 -> Js.isQuote q1 = true -> Js.isQuote q2 = true ->
  s1 ++ str "from" ++ u1 ++ q1 :: r1 = s2 ++ str "from" ++ u2 ++ q2 :: r2 ->
  s1 = s2 /\ u1 = u2 /\ q1 = q2 /\ r1 = r2.
Proof.
  intros [_ Hs1] [_ Hu1] [_ Hs2] [_ Hu2] Hq1 Hq2 E.
  change (str "from" ++ u1 ++ q1 :: r1) with ("f"%char :: (str "rom" ++ u1 ++ q1 :: r1)) in E.
  change (str "from" ++ u2 ++ q2 :: r2) with ("f"%char :: (str "rom" ++ u2 ++ q2 :: r2)) in E.
  apply (run_eq Js.isSpace Hs1 Hs2) in E as [-> [_ E]]; [|reflexivity..].
  apply app_inv_head in E.
  apply (run_eq Js.isSpace Hu1 Hu2) in E as [-> [-> ->]];
    [auto | now apply quote_not_space..].
Qed.

Arguments from_unique [s1 u1 s2 u2 q1 q2 r1 r2] _ _ _ _ _ _ _.

(** A clause before white space and the word [from]. *)
Lemma clause_unique (c1 c2 s1 s2 t1 t2 : jsstring) :
  importClause c1 -> importClause c2 -> gap s1 -> gap s2 ->
  c1 ++ s1 ++ str "from" ++ t1 = c2 ++ s2 ++ str "from" ++ t2 ->
  c1 = c2 /\ s1 ++ str "from" ++ t1 = s2 ++ str "from" ++ t2.
Proof.
  intros H1 H2 Hs1 Hs2 E.
  assert (Hgap : forall s t, gap s ->
            exists y r, s ++ str "from" ++ t = y :: r /\ isNameChar y = false).
  { intros s t Hs. apply head_of_gap; [assumption | apply space_not_name]. }
  assert (Hcomma : forall ws (rest : jsstring), blank ws ->
            exists y r, ws ++ str "," ++ rest = y :: r /\ isNameChar y = false).
  { intros ws rest Hws. change (str "," ++ rest) with (","%char :: rest).
    apply head_after_blank; [assumption | apply space_not_name | reflexivity]. }
  destruct H1 as [inner1 Hi1|name1 Hne1 Hn1|name1 wa1 wb1 inner1 Hne1 Hn1 Hwa1 Hwb1 Hi1];
    destruct H2 as [inner2 Hi2|name2 Hne2 Hn2|name2 wa2 wb2 inner2 Hne2 Hn2 Hwa2 Hwb2 Hi2].
  - (* list, list *)
    rewrite <- !app_assoc in E. cbn [str app] in E. injection E as E.
    apply not_in_brace in Hi1, Hi2.
    apply (run_eq (Js.notChar "}") Hi1 Hi2) in E as [-> [_ E]]; [|reflexivity..].
    split; [reflexivity | exact E].
  - (* list, name *)
    exfalso. destruct Hn2 as [|c name2 Hc _]; [congruence|].
    cbn [str app] in E. injection E as <- _. discriminate.
  - exfalso. destruct Hn2 as [|c name2 Hc _]; [congruence|].
    cbn [str app] in E. injection E as <- _. discriminate.
  - (* name, list *)
    exfalso. destruct Hn1 as [|c name1 Hc _]; [congruence|].
    cbn [str app] in E. injection E as -> _. discriminate.
  - (* name, name *)
    apply (run_eq_gen isNameChar Hn1 Hn2) in E as [-> E]; [auto | now apply Hgap..].
  - (* name, name and list *)
    exfalso. rewrite <- !app_assoc in E.
    apply (run_eq_gen isNameChar Hn1 Hn2) in E as [_ E]; [|now apply Hgap | now apply Hcomma].
    destruct Hs1 as [_ Hs1].
    change (str "from" ++ t1) with ("f"%char :: (str "rom" ++ t1)) in E.
    change (str "," ++ wb2 ++ str "{" ++ inner2 ++ str "}" ++ s2 ++ str "from" ++ t2)
      with (","%char :: (wb2 ++ str "{" ++ inner2 ++ str "}" ++ s2 ++ str "from" ++ t2)) in E.
    apply (run_eq Js.isSpace Hs1 Hwa2) in E as [_ [E _]]; [discriminate | reflexivity..].
  - exfalso. destruct Hn1 as [|c name1 Hc _]; [congruence|].
    cbn [str app] in E. injection E as -> _. discriminate.
  - exfalso. rewrite <- !app_assoc in E.
    apply (run_eq_gen isNameChar Hn1 Hn2) in E as [_ E]; [|now apply Hcomma | now apply Hgap].
    destruct Hs2 as [_ Hs2].
    change (str "from" ++ t2) with ("f"%char :: (str "rom" ++ t2)) in E.
    change (str "," ++ wb1 ++ str "{" ++ inner1 ++ str "}" ++ s1 ++ str "from" ++ t1)
      with (","%char :: (wb1 ++ str "{" ++ inner1 ++ str "}" ++ s1 ++ str "from" ++ t1)) in E.
    apply (run_eq Js.isSpace Hwa1 Hs2) in E as [_ [E _]]; [discriminate | reflexivity..].
  - (* name and list, name and list *)
    rewrite <- !app_assoc in E.
    apply (run_eq_gen isNameChar Hn1 Hn2) in E as [-> E]; [|now apply Hcomma..].
    change (str "," ++ wb1 ++ str "{" ++ inner1 ++ str "}" ++ s1 ++ str "from" ++ t1)
      with (","%char :: (wb1 ++ "{"%char :: (inner1 ++ "}"%char :: (s1 ++ str "from" ++ t1))))
      in E.
    change (str "," ++ wb2 ++ str "{" ++ inner2 ++ str "}" ++ s2 ++ str "from" ++ t2)
      with (","%char :: (wb2 ++ "{"%char :: (inner2 ++ "}"%char :: (s2 ++ str "from" ++ t2))))
      in E.
    apply (run_eq Js.isSpace Hwa1 Hwa2) in E as [-> [_ E]]; [|reflexivity..].
    apply (run_eq Js.isSpace Hwb1 Hwb2) in E as [-> [_ E]]; [|reflexivity..].
    apply not_in_brace in Hi1, Hi2.
    apply (run_eq (Js.notChar "}") Hi1 Hi2) in E as [-> [_ E]]; [|reflexivity..].
    split; [reflexivity | exact E].
Qed.

Arguments clause_unique [c1 c2 s1 s2 t1 t2] _ _ _ _ _.

(** The head of a statement is determined by the text. *)
Lemma head_unique (h1 h2 : jsstring) (q1 q2 : ascii) (r1 r2 : jsstring) :
  importHead h1 -> importHead h2 -> Js.isQuote q1 = true -> Js.isQuote q2 = true ->
  h1 ++ q1 :: r1 = h2 ++ q2 :: r2 -> h1 = h2 /\ q1 = q2 /\ r1 = r2.
Proof.
  intros H1 H2 Hq1 Hq2 E.
  assert (Hclause : forall clause rest, importClause clause ->
            exists y t, clause ++ rest = y :: t /\ Js.isSpace y = false).
  { intros clause rest Hc. destruct (clause_head Hc) as [x [t [-> [Hx _]]]].
    now exists x, (t ++ rest). }
  destruct H1 as [[_ Hb1]|[ws1 [c1 [s1 [u1 [-> [[_ Hws1] [Hc1 [Hs1 Hu1]]]]]]]]];
    destruct H2 as [[_ Hb2]|[ws2 [c2 [s2 [u2 [-> [[_ Hws2] [Hc2 [Hs2 Hu2]]]]]]]]].
  - apply (run_eq Js.isSpace Hb1 Hb2) in E as [-> [-> ->]];
      [auto | now apply quote_not_space..].
  - exfalso. rewrite <- !app_assoc in E.
    apply (run_eq_gen Js.isSpace Hb1 Hws2) in E as [_ E];
      [|exists q1, r1; split; [reflexivity | now apply quote_not_space] | now apply Hclause].
    destruct (clause_head Hc2) as [x [t [-> [_ Hx]]]]. cbn [app] in E. injection E as -> _.
    congruence.
  - exfalso. rewrite <- !app_assoc in E.
    apply (run_eq_gen Js.isSpace Hws1 Hb2) in E as [_ E];
      [|now apply Hclause | exists q2, r2; split; [reflexivity | now apply quote_not_space]].
    destruct (clause_head Hc1) as [x [t [-> [_ Hx]]]]. cbn [app] in E. injection E as -> _.
    congruence.
  - rewrite <- !app_assoc in E.
    apply (run_eq_gen Js.isSpace Hws1 Hws2) in E as [-> E]; [|now apply Hclause..].
    apply (clause_unique Hc1 Hc2 Hs1 Hs2) in E as [-> E].
    apply (from_unique Hs1 Hu1 Hs2 Hu2 Hq1 Hq2) in E as [-> [-> [-> ->]]]. auto.
Qed.

Arguments head_unique [h1 h2 q1 q2 r1 r2] _ _ _ _ _.

(** The texts of the parts of the expression of imports. *)
Lemma reads_braces (prev : option ascii) (w next : jsstring) :
  reads false braces prev w next
  <-> exists inner, w = str "{" ++ inner ++ str "}" /\ ~ In "}"%char inner.
Proof.
  unfold braces. cbn [seq]. split.
  - intros H. apply reads_seq in H as [w1 [w2 [-> [H1 H2]]]].
    apply reads_isChar in H1 as ->.
    apply reads_seq in H2 as [w3 [w4 [-> [H3 H4]]]].
    apply reads_star_chr in H3. apply reads_isChar in H4 as ->.
    exists w3. split; [reflexivity | now apply not_in_brace].
  - intros [inner [-> Hi]]. apply reads_seq. exists (str "{"), (inner ++ str "}").
    split; [reflexivity|]. split; [now apply reads_isChar|].
    apply reads_seq. exists inner, (str "}"). split; [reflexivity|]. split.
    + apply reads_star_chr. now apply not_in_brace.
    + now apply reads_isChar.
Qed.

Local Notation "'clauseExpr'" :=
  (Alt braces
     (seq [plus (Chr wordOrStar);
           opt (seq [Star space; Chr (Js.isChar ","); Star space; braces])])).

Lemma reads_clause (prev : option ascii) (w next : jsstring) :
  reads false clauseExpr prev w next <-> importClause w.
Proof.
  cbn [seq]. split.
  - intros H. apply reads_alt in H as [H|H].
    + apply reads_braces in H as [inner [-> Hi]]. now constructor.
    + apply reads_seq in H as [name [more [-> [Hn H]]]].
      apply reads_plus_chr in Hn as [Hne Hn].
      apply reads_opt in H as [H| ->].
      * apply reads_seq in H as [ws1 [w2 [-> [H1 H]]]]. apply reads_blank in H1.
        apply reads_seq in H as [comma [w3 [-> [H2 H]]]]. apply reads_isChar in H2 as ->.
        apply reads_seq in H as [ws2 [w4 [-> [H3 H]]]]. apply reads_blank in H3.
        apply reads_braces in H as [inner [-> Hi]].
        now apply ClauseBoth.
      * rewrite app_nil_r. now apply ClauseName.
  - intros [inner Hi|name Hne Hn|name ws1 ws2 inner Hne Hn H1 H2 Hi]; apply reads_alt.
    + left. apply reads_braces. now exists inner.
    + right. apply reads_seq. exists name, []. split; [now rewrite app_nil_r|]. split.
      * now apply reads_plus_chr.
      * apply reads_opt. now right.
    + right. apply reads_seq.
      exists name, (ws1 ++ str "," ++ ws2 ++ str "{" ++ inner ++ str "}").
      split; [reflexivity|]. split; [now apply reads_plus_chr|].
      apply reads_opt. left.
      apply reads_seq. exists ws1, (str "," ++ ws2 ++ str "{" ++ inner ++ str "}").
      split; [reflexivity|]. split; [now apply reads_blank|].
      apply reads_seq. exists (str ","), (ws2 ++ str "{" ++ inner ++ str "}").
      split; [reflexivity|]. split; [now apply reads_isChar|].
      apply reads_seq. exists ws2, (str "{" ++ inner ++ str "}").
      split; [reflexivity|]. split; [now apply reads_blank|].
      apply reads_braces. now exists inner.
Qed.

Local Notation "'fromExpr'" :=
  (seq [clauseExpr; plus space; lit (str "from"); plus space]).

Lemma reads_from (prev : option ascii) (w next : jsstring) :
  reads false fromExpr prev w next
  <-> exists clause ws2 ws3,
        w = clause ++ ws2 ++ str "from" ++ ws3
        /\ importClause clause /\ gap ws2 /\ gap ws3.
Proof.
  split.
  - intros H. apply reads_seq in H as [clause [w1 [-> [Hc H]]]].
    apply reads_clause in Hc.
    apply reads_seq in H as [ws2 [w2 [-> [H2 H]]]]. apply reads_gap in H2.
    apply reads_seq in H as [from [ws3 [-> [Hf H3]]]]. apply reads_lit in Hf as ->.
    apply reads_gap in H3. now exists clause, ws2, ws3.
  - intros [clause [ws2 [ws3 [-> [Hc [H2 H3]]]]]].
    apply reads_seq. exists clause, (ws2 ++ str "from" ++ ws3).
    split; [reflexivity|]. split; [now apply reads_clause|].
    apply reads_seq. exists ws2, (str "from" ++ ws3).
    split; [reflexivity|]. split; [now apply reads_gap|].
    apply reads_seq. exists (str "from"), ws3.
    split; [reflexivity|]. split; [now apply reads_lit | now apply reads_gap].
Qed.

(** A match of the expression of imports is an import statement, and
    captures its path. *)
Lemma match_parts (c c' : cursor) (caps : captures) :
  matches false importPattern c [] c' caps ->
  exists stmt,
    after c = stmt ++ after c' /\ importStatement stmt (capture 1 caps).
Proof.
  unfold importPattern. cbn [seq]. intros M.
  apply matches_seq in M as [c1 [caps1 [M1 M]]].
  apply matches_seq in M as [c2 [caps2 [M2 M]]].
  apply matches_seq in M as [c2' [caps2' [M2' M]]].
  apply matches_seq in M as [c3 [caps3 [M3 M]]].
  apply matches_seq in M as [c4 [caps4 [M4 M5]]].
  apply matches_reads in M1 as [w1 [E1 [_ R1]]]. apply reads_lit in R1 as ->.
  apply matches_reads in M2 as [ws1 [E2 [_ R2]]]. apply reads_gap in R2.
  apply matches_reads in M2' as [w3 [E2' [_ R3]]].
  inversion M3 as [ |? ? ? q rest3 E3 Hq| | | | | | | | ]; subst.
  inversion M5 as [ |? ? ? q' rest5 E5 Hq'| | | | | | | | ]; subst.
  apply matches_group in M4 as [caps5 [M4 ->]].
  pose proof (matches_reads M4) as [w4 [E4 [_ R4]]].
  apply reads_plus_chr in R4 as [Hne Hw].
  cbn [capture Nat.eqb]. rewrite (@consumed_app _ _ w4 E4).
  cbn [after] in *.
  exists (str "import" ++ (ws1 ++ w3) ++ [q] ++ w4 ++ [q']). split.
  - rewrite E1, E2, E2', E3, E4, E5. now rewrite <- !app_assoc.
  - exists (ws1 ++ w3), q, q'. split; [reflexivity|]. split; [|repeat split; try assumption].
    + apply reads_opt in R3 as [R3| ->].
      * apply reads_from in R3 as [clause [ws2 [ws3 [-> [Hc [H2 H3]]]]]].
        right. now exists ws1, clause, ws2, ws3.
      * left. now rewrite app_nil_r.
    + eapply Forall_impl; [|exact Hw]. intros a Ha. unfold notQuote in Ha.
      now apply negb_true_iff in Ha.
Qed.

(** The expression of imports reads every import statement. *)
Lemma statement_reads (stmt path : jsstring) (prev : option ascii) (next : jsstring) :
  importStatement stmt path -> reads false importPattern prev stmt next.
Proof.
  intros [head [q [q' [-> [Hh [Hq [Hq' [Hne Hp]]]]]]]].
  assert (Hsplit : exists ws1 w3,
            head = ws1 ++ w3 /\ gap ws1
            /\ forall prev' next', reads false (opt fromExpr) prev' w3 next').
  { destruct Hh as [Hg|[ws1 [clause [ws2 [ws3 [-> [H1 [Hc [H2 H3]]]]]]]]].
    - exists head, []. split; [now rewrite app_nil_r|]. split; [assumption|].
      intros prev' next'. apply reads_opt. now right.
    - exists ws1, (clause ++ ws2 ++ str "from" ++ ws3). split; [reflexivity|].
      split; [assumption|]. intros prev' next'. apply reads_opt. left.
      apply reads_from. now exists clause, ws2, ws3. }
  destruct Hsplit as [ws1 [w3 [-> [H1 H3]]]].
  unfold importPattern. cbn [seq].
  apply reads_seq. exists (str "import"), ((ws1 ++ w3) ++ [q] ++ path ++ [q']).
  split; [reflexivity|]. split; [now apply reads_lit|].
  apply reads_seq. exists ws1, (w3 ++ [q] ++ path ++ [q']).
  split; [now rewrite <- app_assoc|]. split; [now apply reads_gap|].
  apply reads_seq. exists w3, ([q] ++ path ++ [q']).
  split; [reflexivity|]. split; [apply H3|].
  apply reads_seq. exists [q], (path ++ [q']).
  split; [reflexivity|]. split; [apply reads_chr; now exists q|].
  apply reads_seq. exists path, [q'].
  split; [reflexivity|]. split.
  - apply reads_group, reads_plus_chr. split; [assumption|].
    eapply Forall_impl; [|exact Hp]. intros a Ha. unfold notQuote. now rewrite Ha.
  - apply reads_chr. now exists q'.
Qed.

(** An import statement at the start of a text is determined by the
    text. *)
Lemma statement_unique (stmt1 path1 rest1 stmt2 path2 rest2 : jsstring) :
  importStatement stmt1 path1 -> importStatement stmt2 path2 ->
  stmt1 ++ rest1 = stmt2 ++ rest2 ->
  stmt1 = stmt2 /\ path1 = path2 /\ rest1 = rest2.
Proof.
  intros [h1 [q1 [q1' [-> [Hh1 [Hq1 [Hq1' [_ Hp1]]]]]]]]
         [h2 [q2 [q2' [-> [Hh2 [Hq2 [Hq2' [_ Hp2]]]]]]]] E.
  rewrite <- !app_assoc in E. apply app_inv_head in E.
  cbn [app] in E.
  apply (head_unique Hh1 Hh2 Hq1 Hq2) in E as [-> [-> E]].
  assert (Hn : forall p, Forall (fun a => Js.isQuote a = false) p ->
                         Forall (fun a => notQuote a = true) p).
  { intros p Hp. eapply Forall_impl; [|exact Hp]. intros a Ha. unfold notQuote.
    now rewrite Ha. }
  apply (run_eq notQuote (Hn _ Hp1) (Hn _ Hp2)) in E as [-> [-> ->]];
    [auto | unfold notQuote; now rewrite ?Hq1', ?Hq2'..].
Qed.

(** At an import statement the expression matches, captures the path of
    the statement and stops after its closing quote. *)
Lemma matchAt_statement (stmt path rest : jsstring) (prev : option ascii) :
  importStatement stmt path ->
  exists f,
    matchAt false importPattern (Cursor prev (stmt ++ rest)) = Some f
    /\ capture 1 (groups f) = path /\ after (stop f) = rest.
Proof.
  intros Hs.
  destruct (matchAt false importPattern (Cursor prev (stmt ++ rest))) as [f|] eqn:E.
  - exists f. split; [reflexivity|].
    apply matchAt_sound, match_parts in E as [stmt' [E Hs']]. cbn [after] in E.
    destruct (statement_unique _ _ Hs Hs' E) as [_ [-> ->]]. auto.
  - exfalso. revert E. unfold matchAt.
    destruct (reads_matches (statement_reads prev rest Hs) []) as [caps' M].
    eapply run_complete; [exact M | discriminate].
Qed.

(** Where the expression matches, an import statement begins. *)
Lemma matchAt_starts (prev : option ascii) (s : jsstring) :
  matchAt false importPattern (Cursor prev s) <> None <-> startsImport s.
Proof.
  split.
  - destruct (matchAt false importPattern (Cursor prev s)) as [f|] eqn:E; [intros _|congruence].
    apply matchAt_sound, match_parts in E as [stmt [E Hs]]. cbn [after] in E.
    now exists stmt, (capture 1 (groups f)), (after (stop f)).
  - intros [stmt [path [rest [-> Hs]]]].
    destruct (matchAt_statement rest prev Hs) as [f [E _]]. congruence.
Qed.

Lemma statement_nonempty (stmt path : jsstring) : importStatement stmt path -> stmt <> [].
Proof. intros [head [q [q' [-> _]]]]. discriminate. Qed.

Lemma searchFrom_here (r : regex) (prev : option ascii) (s : jsstring) (f : found) :
  matchAt false r (Cursor prev s) = Some f -> searchFrom false r prev s = Some f.
Proof. intros H. destruct s; cbn [searchFrom]; now rewrite H. Qed.

(** The search finds nothing exactly when no statement begins in the
    text. *)
Lemma searchFrom_none (s : jsstring) :
  forall prev,
    searchFrom false importPattern prev s = None
    <-> forall pre suf, s = pre ++ suf -> ~ startsImport suf.
Proof.
  induction s as [|a s IH]; intros prev; cbn [searchFrom].
  - destruct (matchAt false importPattern (Cursor prev [])) as [f|] eqn:E.
    + split; [discriminate|]. intros H. exfalso. apply (H [] [] eq_refl).
      apply (matchAt_starts prev). congruence.
    + split; [|reflexivity]. intros _ pre suf Es Hs.
      symmetry in Es. apply app_eq_nil in Es as [_ ->].
      apply (matchAt_starts prev) in Hs. congruence.
  - destruct (matchAt false importPattern (Cursor prev (a :: s))) as [f|] eqn:E.
    + split; [discriminate|]. intros H. exfalso. apply (H [] (a :: s) eq_refl).
      apply (matchAt_starts prev). congruence.
    + rewrite IH. split.
      * intros H [|b pre] suf Es Hs.
        -- cbn [app] in Es. subst suf. apply (matchAt_starts prev) in Hs. congruence.
        -- cbn [app] in Es. injection Es as _ Es. exact (H pre suf Es Hs).
      * intros H pre suf Es. apply (H (a :: pre) suf). now rewrite Es.
Qed.

(** The search finds the first statement that begins in the text. *)
Lemma searchFrom_first (text stmt path rest : jsstring) :
  importStatement stmt path ->
  forall prev,
    noneBegins text (stmt ++ rest) ->
    exists f,
      searchFrom false importPattern prev (text ++ stmt ++ rest) = Some f
      /\ capture 1 (groups f) = path /\ after (stop f) = rest.
Proof.
  intros Hs. induction text as [|a text IH]; intros prev Hn.
  - destruct (matchAt_statement rest prev Hs) as [f [E H]]. exists f.
    split; [now apply searchFrom_here | exact H].
  - cbn [app searchFrom].
    destruct (matchAt false importPattern (Cursor prev (a :: text ++ stmt ++ rest))) as [f|] eqn:E.
    + exfalso. apply (Hn [] (a :: text) eq_refl); [discriminate|].
      apply (matchAt_starts prev). cbn [app]. congruence.
    + apply IH. intros pre suf Es Hne. apply (Hn (a :: pre) suf); [now rewrite Es | exact Hne].
Qed.

Lemma searchFrom_split (s : jsstring) :
  forall prev f,
    searchFrom false importPattern prev s = Some f ->
    exists text stmt,
      s = text ++ stmt ++ after (stop f)
      /\ noneBegins text (stmt ++ after (stop f))
      /\ importStatement stmt (capture 1 (groups f)).
Proof.
  assert (Hhere : forall prev s f,
            matchAt false importPattern (Cursor prev s) = Some f ->
            exists text stmt,
              s = text ++ stmt ++ after (stop f)
              /\ noneBegins text (stmt ++ after (stop f))
              /\ importStatement stmt (capture 1 (groups f))).
  { intros prev s0 f E. apply matchAt_sound, match_parts in E as [stmt [E Hs]].
    cbn [after] in E. exists [], stmt. split; [exact E|]. split; [|exact Hs].
    intros pre suf Es Hne. symmetry in Es. apply app_eq_nil in Es as [_ ->]. congruence. }
  induction s as [|a s IH]; intros prev f; cbn [searchFrom].
  - destruct (matchAt false importPattern (Cursor prev [])) as [f'|] eqn:E; [|discriminate].
    intros H. injection H as <-. now apply Hhere with prev.
  - destruct (matchAt false importPattern (Cursor prev (a :: s))) as [f'|] eqn:E.
    + intros H. injection H as <-. now apply Hhere with prev.
    + intros H. apply IH in H as [text [stmt [Es [Hn Hs]]]].
      exists (a :: text), stmt. split; [cbn [app]; now rewrite <- Es|]. split; [|exact Hs].
      intros [|b pre] suf Et Hne.
      * cbn [app] in Et. subst suf. intros Hstart. apply (matchAt_starts prev) in Hstart.
        cbn [app] in Hstart. rewrite <- Es in Hstart. congruence.
      * cbn [app] in Et. injection Et as _ Et. now apply (Hn pre suf).
Qed.

(** The loop of [extractImports] gives the paths of the statements read
    from left to right. *)
Lemma scan_loop (content : jsstring) (paths : list jsstring) :
  importScan content paths ->
  forall fuel prev,
    length content < fuel ->
    map (capture 1) (execLoop fuel false importPattern prev content) = paths.
Proof.
  induction 1 as [content Hnone|text stmt path rest paths Hn Hs _ IH];
    intros [|fuel] prev Hlen; try lia; cbn [execLoop].
  - now rewrite (proj2 (searchFrom_none content prev) Hnone).
  - destruct (searchFrom_first rest Hs prev Hn) as [f [-> [Hc Ha]]].
    cbn [map]. rewrite Hc, Ha. f_equal. apply IH.
    rewrite !length_app in Hlen. pose proof (statement_nonempty Hs) as Hne.
    destruct stmt; [congruence|]. cbn [length] in Hlen. lia.
Qed.

Lemma loop_scan (fuel : nat) :
  forall prev content,
    length content < fuel ->
    importScan content (map (capture 1) (execLoop fuel false importPattern prev content)).
Proof.
  induction fuel as [|fuel IH]; intros prev content Hlen; [lia|]. cbn [execLoop].
  destruct (searchFrom false importPattern prev content) as [f|] eqn:E.
  - apply searchFrom_split in E as [text [stmt [Es [Hn Hs]]]]. cbn [map].
    rewrite Es at 1. apply ScanMore; [assumption..|]. apply IH.
    rewrite Es, !length_app in Hlen. pose proof (statement_nonempty Hs) as Hne.
    destruct stmt; [congruence|]. cbn [length] in Hlen. lia.
  - apply ScanEnd. now apply (searchFrom_none content prev).
Qed.

(** What [extractImports] returns, as text. *)
Lemma extractImports_scan (content path : jsstring) :
  In path (extractImports content)
  <-> exists paths,
        importScan content paths /\ In path paths
        /\ (relativeImport path \/ aliasImport path).
Proof.
  unfold extractImports. rewrite filter_In. split.
  - intros [Hin Hl]. exists (map (capture 1) (execAll false importPattern content)).
    split; [apply loop_scan; lia|]. split; [exact Hin|].
    now apply ImportProps.isLocalImport_iff.
  - intros [paths [Hscan [Hin Hl]]]. split; [|now apply ImportProps.isLocalImport_iff].
    unfold execAll. rewrite (scan_loop Hscan); [exact Hin | lia].
Qed.

(** The first hit of a search in a list. *)
Lemma find_first {A : Type} (f : A -> bool) (l : list A) (y : A) :
  find f l = Some y
  <-> exists l1 l2, l = l1 ++ y :: l2 /\ f y = true /\ Forall (fun x => f x = false) l1.
Proof.
  induction l as [|x l IH]; cbn [find].
  - split; [discriminate|]. intros [[|? ?] [l2 [E _]]]; discriminate.
  - destruct (f x) eqn:Ex.
    + split.
      * intros H. injection H as ->. exists [], l. auto.
      * intros [[|x' l1] [l2 [E [Hy Hl]]]].
        -- now injection E as ->.
        -- injection E as -> _. inversion Hl; subst. congruence.
    + rewrite IH. split.
      * intros [l1 [l2 [-> [Hy Hl]]]]. exists (x :: l1), l2. auto.
      * intros [[|x' l1] [l2 [E [Hy Hl]]]].
        -- injection E as ->. congruence.
        -- injection E as -> ->. inversion Hl; subst. now exists l1, l2.
Qed.

Lemma isFileAt_regular (fs : filesystem) (p : jsstring) :
  isFileAt fs p = true <-> regularFile fs p.
Proof.
  unfold isFileAt, regularFile. destruct (lookup fs p) as [[content|entries]|]; cbn [isFile].
  - split; [now exists content | reflexivity].
  - split; [discriminate | intros [content H]; discriminate].
  - split; [discriminate | intros [content H]; discriminate].
Qed.

Lemma candidates_tried (target : jsstring) :
  map (fun ext => target ++ ext) RESOLVE_SUFFIXES = importCandidates target.
Proof.
  unfold RESOLVE_SUFFIXES, importCandidates, IMPORT_EXTENSIONS. cbn [map app].
  rewrite app_nil_r. reflexivity.
Qed.

(** What [resolveImportPath] returns, by the rules of the resolution. *)
Lemma resolveImportPath_rules (fs : filesystem) (path fromFile projectPath file : jsstring) :
  resolveImportPath fs path fromFile projectPath = Some file
  <-> exists target,
        importTarget fs projectPath fromFile path target /\ resolvesTo fs target file.
Proof.
  assert (Hres : forall target,
            find (isFileAt fs) (map (fun ext => target ++ ext) RESOLVE_SUFFIXES) = Some file
            <-> resolvesTo fs target file).
  { intros target. rewrite candidates_tried, find_first. unfold resolvesTo. split.
    - intros [l1 [l2 [E [Hy Hl]]]]. exists l1, l2. split; [exact E|].
      split; [now apply isFileAt_regular|].
      eapply Forall_impl; [|exact Hl]. intros p Hp Hr. apply isFileAt_regular in Hr. congruence.
    - intros [l1 [l2 [E [Hy Hl]]]]. exists l1, l2. split; [exact E|].
      split; [now apply isFileAt_regular|].
      eapply Forall_impl; [|exact Hl]. intros p Hp. cbv beta in Hp.
      destruct (isFileAt fs p) eqn:Ep; [|reflexivity].
      exfalso. apply Hp. now apply isFileAt_regular. }
  unfold resolveImportPath. cbv zeta.
  destruct (Js.startsWith (str "@/") path) eqn:Ea.
  - apply startsWith_iff in Ea as [rest ->]. change (skipn 2 (str "@/" ++ rest)) with rest.
    rewrite Hres. split.
    + intros H. exists (Path.join [projectPath; rest]). split; [|exact H].
      left. now exists rest.
    + intros [target [[[rest' [E ->]]|[Hna _]] H]].
      * apply app_inv_head in E. now subst rest'.
      * exfalso. apply Hna. now exists rest.
  - rewrite Hres. split.
    + intros H. exists (Path.resolve (cwd fs) [Path.dirname fromFile; path]).
      split; [|exact H]. right. split; [|reflexivity].
      intros [rest E]. assert (Js.startsWith (str "@/") path = true); [|congruence].
      apply startsWith_iff. now exists rest.
    + intros [target [[[rest [E ->]]|[_ ->]] H]]; [|exact H].
      exfalso. assert (Js.startsWith (str "@/") path = true); [|congruence].
      apply startsWith_iff. now exists rest.
Qed.

(** What the second loop gets is what the file imports. *)
Lemma extractedImport_importsTo (fs : filesystem) (projectPath X Y : jsstring) :
  Spec.extractedImport fs projectPath X Y <-> importsTo fs projectPath X Y.
Proof.
  unfold Spec.extractedImport, importsTo. split.
  - intros [content [path [Hread [Hin Hres]]]].
    apply extractImports_scan in Hin as [paths [Hscan [Hin Hl]]].
    apply resolveImportPath_rules in Hres as [target [Ht Hr]].
    now exists content, paths, path, target.
  - intros [content [paths [path [target [Hread [Hscan [Hin [Hl [Ht Hr]]]]]]]]].
    exists content, path. split; [exact Hread|]. split.
    + apply extractImports_scan. now exists paths.
    + apply resolveImportPath_rules. now exists target.
Qed.

End StatementFacts.

(** ** The edges of the import graph *)

Module ImportEdgeProps.
Import Analyzer Spec.

Section Edges.
Variable fs : filesystem.
Variable psegs : list jsstring.


End Edges.



End ImportEdgeProps.
